(** * ECDSA over secp256k1: signing, verification and low-S normalisation

    A shallow embedding of [src/utils.ts] (class [Curve], [toScalar],
    [bnToBytes], [rfc6979Generate]) and of the signature class
    [Secp256k1EcdsaSignature], with the properties of the specification
    stated and proved over it.

    Byte arrays ([Uint8Array], [Buffer]) are [list byte]; big numbers
    ([BN] of bn.js) are [Z]; JavaScript exceptions are the [Throw] case of
    [result].  The calls into the [elliptic] library are modelled by what
    the library computes: scalar arithmetic directly in [Z], the curve
    points behind the interface [EllipticCurve]. *)

From Stdlib Require Import ZArith NArith List String Ascii HexString Lia Bool.
From Stdlib Require Import Setoid Morphisms.
From Stdlib Require Import Zcong Znumtheory Zpow_facts Zwf.
From Stdlib.Strings Require Import Byte.
From Stdlib.Zmod Require ZmodInv.
From Stdlib Require NsatzTactic.
From Bignums Require BigZ.
Import ListNotations.

Open Scope Z_scope.

(** ** Exceptions *)

(** [enum Secp256k1EcdsaError] *)
Inductive Secp256k1EcdsaError : Set :=
| InvalidSecretKey
| InvalidPublicKey
| InvalidRecoveryId
| InvalidSignature
| InvalidNonce
| ArithmeticOverflow.

Definition error_code (e : Secp256k1EcdsaError) : Z :=
  match e with
  | InvalidSecretKey => 1
  | InvalidPublicKey => 2
  | InvalidRecoveryId => 3
  | InvalidSignature => 4
  | InvalidNonce => 5
  | ArithmeticOverflow => 6
  end.

(** What a [throw] can carry: the library's typed exception, a plain
    [Error] with its message, or one of the engine's own errors. *)
Inductive exn : Type :=
| Secp256k1EcdsaException (code : Secp256k1EcdsaError)
| JsError (msg : string)
| TypeError
| RangeError.

Inductive result (A : Type) : Type :=
| Ok (a : A)
| Throw (e : exn).

Arguments Ok {A} a.
Arguments Throw {A} e.

Definition bind {A B : Type} (m : result A) (k : A -> result B) : result B :=
  match m with
  | Ok a => k a
  | Throw e => Throw e
  end.

Notation "x <- m ;; k" := (bind m (fun x => k))
  (at level 61, m at next level, right associativity).

(** [try { body } catch (error) { throw handler }] *)
Definition try_catch {A : Type} (body : result A) (handler : exn -> result A)
  : result A :=
  match body with
  | Ok a => Ok a
  | Throw e => handler e
  end.

(** The [catch] blocks of [utils.ts] log to the console and rethrow the
    same error; logging is not modelled. *)
Definition log_and_rethrow {A : Type} (body : result A) : result A :=
  try_catch body (fun e => Throw e).

Definition is_ok {A : Type} (m : result A) : bool :=
  match m with Ok _ => true | Throw _ => false end.

(** ** Bytes *)

Definition byte_val (b : byte) : Z := Z.of_N (Byte.to_N b).

(** Storing a number into a [Uint8Array] cell keeps it modulo 256. *)
Definition byte_of_Z (z : Z) : byte :=
  match Byte.of_N (Z.to_N (z mod 256)) with
  | Some b => b
  | None => x00
  end.

(** The unsigned big-endian value of a byte array. *)
Definition be_int (bs : list byte) : Z :=
  fold_left (fun acc b => acc * 256 + byte_val b) bs 0.

(** The [len]-byte big-endian encoding of [z] (its low [len] bytes). *)
Fixpoint be_bytes (len : nat) (z : Z) : list byte :=
  match len with
  | O => []
  | S k => be_bytes k (z / 256) ++ [byte_of_Z (z mod 256)]
  end.

(** [a.slice(from, to)] on a typed array, for [from <= to]: a copy. *)
Definition slice (from to : nat) (a : list byte) : list byte :=
  firstn (to - from) (skipn from a).

(** [new Uint8Array(n)] *)
Definition new_Uint8Array (n : nat) : list byte := repeat x00 n.

(** [dst.set(src, offset)]: a [RangeError] when [src] does not fit. *)
Definition set_at (dst src : list byte) (offset : nat) : result (list byte) :=
  if (offset + List.length src <=? List.length dst)%nat
  then Ok (firstn offset dst ++ src ++ skipn (offset + List.length src) dst)
  else Throw RangeError.

(** ** Hexadecimal strings *)

Definition hex_char (d : N) : ascii :=
  match d with
  | 0 => "0" | 1 => "1" | 2 => "2" | 3 => "3" | 4 => "4" | 5 => "5"
  | 6 => "6" | 7 => "7" | 8 => "8" | 9 => "9" | 10 => "a" | 11 => "b"
  | 12 => "c" | 13 => "d" | 14 => "e" | _ => "f"
  end%N%char.

(** [Buffer.from(bytes).toString('hex')]: two lower-case digits a byte. *)
Fixpoint Buffer_toString_hex (bs : list byte) : string :=
  match bs with
  | [] => EmptyString
  | b :: bs' =>
      String (hex_char (Byte.to_N b / 16))
        (String (hex_char (Byte.to_N b mod 16)) (Buffer_toString_hex bs'))
  end.

(** [new BN(hex, 16)] on a string of hexadecimal digits; the empty string
    gives zero. *)
Definition BN_of_hex (hex : string) : Z := Z.of_N (HexString.Raw.to_N hex 0).

(** [bn.toString(16)]: lower-case digits without leading zeros, a minus
    sign in front of a negative number. *)
Definition BN_toString16 (bn : Z) : string :=
  match bn with
  | Z0 => "0"
  | Zpos p => HexString.Raw.of_pos p ""
  | Zneg p => String "-" (HexString.Raw.of_pos p "")
  end.

Fixpoint replicate_char (n : nat) (c : ascii) : string :=
  match n with
  | O => EmptyString
  | S k => String c (replicate_char k c)
  end.

(** [s.padStart(n, c)] with a one-character filler. *)
Definition padStart (n : nat) (c : ascii) (s : string) : string :=
  (replicate_char (n - String.length s) c ++ s)%string.

(** [s.substring(from, to)] for [from <= to]. *)
Definition js_substring (from to : nat) (s : string) : string :=
  String.substring from (to - from) s.

(** The digits part of [parseInt(s, 16)]: the longest prefix of
    hexadecimal digits; [None] is [NaN] (no digit at all). *)
Fixpoint parse_hex_digits (s : string) (acc : option Z) : option Z :=
  match s with
  | EmptyString => acc
  | String c s' =>
      match HexString.ascii_to_digit c with
      | Some v =>
          parse_hex_digits s'
            (Some (Z.of_N v + 16 * match acc with Some a => a | None => 0 end))
      | None => acc
      end
  end.

Definition strip_0x (s : string) : string :=
  match s with
  | String "0" (String "x" s') => s'
  | String "0" (String "X" s') => s'
  | _ => s
  end%char.

(** [parseInt(s, 16)] on a string without leading white space: an
    optional sign, an optional [0x], then digits. *)
Definition parseInt16 (s : string) : option Z :=
  match s with
  | String "-" s' => option_map Z.opp (parse_hex_digits (strip_0x s') None)
  | String "+" s' => parse_hex_digits (strip_0x s') None
  | _ => parse_hex_digits (strip_0x s) None
  end%char.

(** Assignment of a number to a [Uint8Array] cell: [NaN] is stored as 0,
    anything else modulo 256. *)
Definition toUint8 (v : option Z) : byte :=
  match v with
  | Some z => byte_of_Z z
  | None => x00
  end.

(** ** Big numbers of bn.js *)

(** [a.mod(n)]: the remainder has the sign of [a]. *)
Definition BN_mod (a n : Z) : Z := Z.rem a n.

(** [a.umod(n)]: the remainder is never negative. *)
Definition BN_umod (a n : Z) : Z := a mod n.

(** [a.shrn(k)] *)
Definition BN_shrn (a : Z) (k : Z) : Z := Z.shiftr a k.

(** [a.invm(n)]: the coefficient of [a] that the extended Euclidean
    algorithm finds, brought into [[0, n)].  Nothing is thrown when [a]
    has no inverse: for [a = 0] the result is 0. *)
Definition BN_invm (a n : Z) : Z := Z.invmod a n.

(** [bn.toArray('be', len)]: big-endian, padded with zeros to [len]
    bytes; the library asserts that the number fits. *)
Definition BN_toArray_be (len : nat) (bn : Z) : result (list byte) :=
  if (0 <=? bn) && (bn <? 256 ^ Z.of_nat len)
  then Ok (be_bytes len bn)
  else Throw (JsError "byte array longer than desired length").

(** ** The curve order *)

(** [ec.n] of [new EC('secp256k1')] *)
Definition ec_n : Z :=
  0xFFFFFFFFFFFFFFFFFFFFFFFFFFFFFFFEBAAEDCE6AF48A03BBFD25E8CD0364141.

(** [ec.keyFromPrivate(hex, 'hex').getPrivate()].  The key pair imports
    its private key only when the argument is truthy: for the empty
    string nothing is imported and [getPrivate()] returns [null], which
    is [None] here.  For any other string the key pair keeps the number
    reduced modulo the order ([_importPrivate] applies [umod]); no
    length is checked. *)
Definition keyFromPrivate_getPrivate (hex : string) : option Z :=
  match hex with
  | EmptyString => None
  | _ => Some (BN_umod (BN_of_hex hex) ec_n)
  end.

(** [ec.keyFromPrivate(bytes).getPrivate()] on a byte array, as the
    tests call it: an array is truthy whatever its length, and
    [new BN(bytes, 16)] reads it as a big-endian number (0 for the empty
    array). *)
Definition keyFromPrivate_bytes_getPrivate (bytes : list byte) : Z :=
  BN_umod (be_int bytes) ec_n.

(** [toScalar]: nothing is thrown here; the empty array gives [null]. *)
Definition toScalar (bytes : list byte) : result (option Z) :=
  log_and_rethrow
    (let hex := Buffer_toString_hex bytes in
     Ok (keyFromPrivate_getPrivate hex)).

(** A value of [toScalar] used as a big number, as the receiver of a
    method ([scalar.invm], [aBN.mul], [aBN.add]) or as the operand of
    one ([aBN.mul(bBN)], [aBN.add(bBN)], [n.sub(aBN)]): on [null] the
    call is a [TypeError], since the method is looked up on the
    receiver and reads the fields of its operand. *)
Definition BN_operand (bn : option Z) : result Z :=
  match bn with
  | Some z => Ok z
  | None => Throw TypeError
  end.

(** [bnToBytes]; [None] is an argument that is [undefined] or [null]. *)
Definition bnToBytes (bn : option Z) : result (list byte) :=
  log_and_rethrow
    match bn with
    | None => Throw (JsError "BN is undefined or null")
    | Some z =>
        let hex := padStart 64 "0" (BN_toString16 z) in
        Ok (map (fun i => toUint8 (parseInt16 (js_substring (i * 2) (i * 2 + 2) hex)))
              (seq 0 32))
    end.

(** ** Curve points of the [elliptic] library *)

(** The part of [elliptic]'s short Weierstrass curve that the code calls.
    Coordinates are big numbers; a point may be the point at infinity,
    whose coordinates are [null]. *)
Class EllipticCurve : Type := {
  point : Type;
  (** [ec.g], the generator *)
  ec_g : point;
  (** [ec.curve.point(x, y)]: the affine point with these coordinates;
      nothing checks that it lies on the curve *)
  curve_point : Z -> Z -> point;
  (** [P.mul(k)] *)
  point_mul : point -> Z -> point;
  (** [P.add(Q)] *)
  point_add : point -> point -> point;
  (** [P.getX()] and [P.getY()]: on the point at infinity they
      dereference [null], a [TypeError]; that case is [None] *)
  point_getX : point -> option Z;
  point_getY : point -> option Z
}.

(** [P.mul(k)] for a [k] that may be [null].  The library starts with
    [k = new BN(k, 16)], which for [null] is a number without words;
    the point at infinity then returns itself, and every other point
    reads the bits of [k], a [TypeError]. *)
Definition point_mul_scalar `{EllipticCurve} (P : point) (k : option Z)
  : result point :=
  match k with
  | Some z => Ok (point_mul P z)
  | None =>
      match point_getX P with
      | None => Ok P
      | Some _ => Throw TypeError
      end
  end.

(** The argument of [Curve.ecMul]: either a point object of the library
    (it has a [mul] method) or an object with [x] and [y] byte arrays. *)
Inductive ecMul_arg `{EllipticCurve} : Type :=
| EcPoint (P : point)
| Coords (x y : list byte).

(** A pair of coordinates [{ x, y }] as byte arrays. *)
Record xy_bytes : Type := { xy_x : list byte; xy_y : list byte }.

(** What [Curve.ecMul] returns: the coordinates and the [tweak] closure. *)
Record tweakable : Type := {
  tw_x : list byte;
  tw_y : list byte;
  tweak : list byte -> result xy_bytes
}.


Section PointBytes.
Context {E : EllipticCurve}.

(** [pointXToBytes]; a point object always has a [getX] method, so the
    guard of the source never fires on one. *)
Definition pointXToBytes (P : point) : result (list byte) :=
  log_and_rethrow
    match point_getX P with
    | None => Throw TypeError
    | Some x => bnToBytes (Some x)
    end.

(** [pointYToBytes] *)
Definition pointYToBytes (P : point) : result (list byte) :=
  log_and_rethrow
    match point_getY P with
    | None => Throw TypeError
    | Some y => bnToBytes (Some y)
    end.
End PointBytes.

Module Curve.

(** [Curve.N] and [Curve.N_DIV_2] *)
Definition N : Z := ec_n.
Definition N_DIV_2 : Z := BN_shrn ec_n 1.

(** [Curve.modInvN] *)
Definition modInvN (k : list byte) : result (list byte) :=
  log_and_rethrow
    (scalar <- toScalar k ;;
     scalar' <- BN_operand scalar ;;
     let inverse := BN_invm scalar' ec_n in
     bnToBytes (Some inverse)).

(** [Curve.mulModN] *)
Definition mulModN (a b : list byte) : result (list byte) :=
  log_and_rethrow
    (aBN <- toScalar a ;;
     bBN <- toScalar b ;;
     aBN' <- BN_operand aBN ;;
     bBN' <- BN_operand bBN ;;
     let product := BN_mod (aBN' * bBN') ec_n in
     bnToBytes (Some product)).

(** [Curve.addModN] *)
Definition addModN (a b : list byte) : result (list byte) :=
  log_and_rethrow
    (aBN <- toScalar a ;;
     bBN <- toScalar b ;;
     aBN' <- BN_operand aBN ;;
     bBN' <- BN_operand bBN ;;
     let sum := BN_mod (aBN' + bBN') ec_n in
     bnToBytes (Some sum)).

(** [Curve.negateN] *)
Definition negateN (a : list byte) : result (list byte) :=
  log_and_rethrow
    (aBN <- toScalar a ;;
     aBN' <- BN_operand aBN ;;
     let negation := BN_mod (ec_n - aBN') ec_n in
     bnToBytes (Some negation)).

Section Points.
Context {E : EllipticCurve}.

(** [Curve.mulG] *)
Definition mulG (k : list byte) : result (list byte) :=
  log_and_rethrow
    (scalar <- toScalar k ;;
     P <- point_mul_scalar ec_g scalar ;;
     pointXToBytes P).

(** [Curve.ecMul] *)
Definition ecMul (pt : ecMul_arg) (scalar : list byte) : result tweakable :=
  log_and_rethrow
    (let ecPoint :=
       match pt with
       | EcPoint P => P
       | Coords x y =>
           let xHex := Buffer_toString_hex x in
           let yHex := Buffer_toString_hex y in
           curve_point (BN_of_hex xHex) (BN_of_hex yHex)
       end in
     k <- toScalar scalar ;;
     result <- point_mul_scalar ecPoint k ;;
     rx <- pointXToBytes result ;;
     ry <- pointYToBytes result ;;
     Ok {| tw_x := rx;
           tw_y := ry;
           tweak := fun scalar' =>
             log_and_rethrow
               (t <- toScalar scalar' ;;
                tweakPoint <- point_mul_scalar ec_g t ;;
                let sumPoint := point_add result tweakPoint in
                sx <- pointXToBytes sumPoint ;;
                sy <- pointYToBytes sumPoint ;;
                Ok {| xy_x := sx; xy_y := sy |}) |}).
End Points.

End Curve.

(** ** Objects of the [elliptic] library *)

(** Property values of the objects the code reads. *)
Inductive js_value : Type :=
| JsBN (bn : Z)
| JsNumber (n : Z)
| JsNull.

(** An object as its list of own properties. *)
Definition js_object : Type := list (string * js_value).

(** [o.name]; [None] is [undefined]. *)
Fixpoint get_property (o : js_object) (name : string) : option js_value :=
  match o with
  | [] => None
  | (key, v) :: o' => if String.eqb key name then Some v else get_property o' name
  end.

(** [new Signature({ r, s, recoveryParam })] of [elliptic]: these three
    properties and no other. *)
Definition elliptic_Signature (r s recoveryParam : Z) : js_object :=
  [("r"%string, JsBN r); ("s"%string, JsBN s);
   ("recoveryParam"%string, JsNumber recoveryParam)].

(** A property value passed where [bnToBytes] expects a big number:
    [undefined], [null] and the number 0 are falsy. *)
Definition as_bn (v : option js_value) : option Z :=
  match v with
  | Some (JsBN bn) => Some bn
  | Some (JsNumber n) => if n =? 0 then None else Some n
  | Some JsNull => None
  | None => None
  end.

Section Rfc6979.
(** [ec.sign] of [elliptic] with its HMAC-DRBG nonce: for a private key
    and a message, the values [(r, s, recoveryParam)] of the signature
    it returns, or what it throws. *)
Variable ec_sign : Z -> list byte -> result (Z * Z * Z).

(** [key.sign(msgHash, signOptions)] on the key pair whose private key
    is [priv]; a key pair without a private key ([null]) fails when the
    library reads [key.getPrivate().toArray(...)], a [TypeError]. *)
Definition key_sign (priv : option Z) (msgHash : list byte) : result js_object :=
  priv' <- BN_operand priv ;;
  rs <- ec_sign priv' msgHash ;;
  let '(r, s, recoveryParam) := rs in
  Ok (elliptic_Signature r s recoveryParam).

(** [rfc6979Generate] *)
Definition rfc6979Generate (privKey message : list byte) : result (list byte) :=
  log_and_rethrow
    (let privHex := Buffer_toString_hex privKey in
     let key := keyFromPrivate_getPrivate privHex in
     let msgHash := message in
     sign <- key_sign key msgHash ;;
     let k := get_property sign "k" in
     bnToBytes (as_bn k)).
End Rfc6979.

(** ** Hash providers *)

(** [interface Secp256k1EcdsaHash]: one method from a message to a digest. *)
Definition Secp256k1EcdsaHash : Type := list byte -> list byte.

(** ** The signature class *)

Definition SECP256K1_ECDSA_SIGNATURE_LENGTH : nat := 64.

(** An instance; its only field is the byte array given to the
    constructor. *)
Record Secp256k1EcdsaSignature : Type := { signature : list byte }.

(** The constructor. *)
Definition new_Signature (sig : list byte) : result Secp256k1EcdsaSignature :=
  if negb (List.length sig =? SECP256K1_ECDSA_SIGNATURE_LENGTH)%nat
  then Throw (Secp256k1EcdsaException InvalidSignature)
  else Ok {| signature := sig |}.

(** [r()] and [s()] *)
Definition sig_r (this : Secp256k1EcdsaSignature) : list byte :=
  slice 0 32 (signature this).

Definition sig_s (this : Secp256k1EcdsaSignature) : list byte :=
  slice 32 64 (signature this).

(** The loop of [normalizeS] that compares [sBN] with [nDiv2Buf] from the
    most significant byte; [todo] counts the iterations that remain. *)
Fixpoint gt_loop (todo i : nat) (sBN nDiv2Buf : list byte) : bool :=
  match todo with
  | O => false
  | S todo' =>
      let si := byte_val (nth i sBN x00) in
      let ni := byte_val (nth i nDiv2Buf x00) in
      if ni <? si then true
      else if si <? ni then false
      else gt_loop todo' (S i) sBN nDiv2Buf
  end.

Definition shouldNegate (sBN nDiv2Buf : list byte) : bool :=
  if (List.length nDiv2Buf <? List.length sBN)%nat then true
  else if (List.length sBN =? List.length nDiv2Buf)%nat
       then gt_loop (List.length sBN) 0 sBN nDiv2Buf
       else false.

(** [normalizeS] *)
Definition normalizeS (this : Secp256k1EcdsaSignature)
  : result Secp256k1EcdsaSignature :=
  let s := sig_s this in
  let sBN := s in
  nDiv2Array <- BN_toArray_be 32 Curve.N_DIV_2 ;;
  let nDiv2Buf := nDiv2Array in
  if shouldNegate sBN nDiv2Buf then
    negS <- Curve.negateN s ;;
    let signature0 := new_Uint8Array 64 in
    signature1 <- set_at signature0 (sig_r this) 0 ;;
    signature2 <- set_at signature1 negS 32 ;;
    new_Signature signature2
  else Ok this.

(** [equals] *)
Definition equals (this other : Secp256k1EcdsaSignature) : bool :=
  if negb (List.length (signature this) =? List.length (signature other))%nat
  then false
  else forallb
         (fun i => Byte.eqb (nth i (signature this) x00) (nth i (signature other) x00))
         (seq 0 (List.length (signature this))).

(** [a[i] !== b[i]] on byte arrays: an index out of range reads
    [undefined]. *)
Definition cell_neq (a b : list byte) (i : nat) : bool :=
  match nth_error a i, nth_error b i with
  | Some x, Some y => negb (Byte.eqb x y)
  | None, None => false
  | _, _ => true
  end.

Section Signing.
Context {E : EllipticCurve}.

(** [signWithK] *)
Definition signWithK (hashImpl : Secp256k1EcdsaHash)
    (message k privkey : list byte) : result Secp256k1EcdsaSignature :=
  let h := hashImpl message in
  try_catch
    (r <- Curve.mulG k ;;
     modInvK <- Curve.modInvN k ;;
     pMulRModN <- Curve.mulModN r privkey ;;
     sum <- Curve.addModN h pMulRModN ;;
     s <- Curve.mulModN modInvK sum ;;
     let signature0 := new_Uint8Array 64 in
     signature1 <- set_at signature0 r 0 ;;
     signature2 <- set_at signature1 s 32 ;;
     new_Signature signature2)
    (fun _ => Throw (Secp256k1EcdsaException InvalidSecretKey)).

(** [sign] *)
Definition sign (ec_sign : Z -> list byte -> result (Z * Z * Z))
    (hashImpl : Secp256k1EcdsaHash) (message privkey : list byte)
  : result Secp256k1EcdsaSignature :=
  let h := hashImpl message in
  k <- rfc6979Generate ec_sign privkey h ;;
  signWithK hashImpl message k privkey.

(** The public key of a private key, as the tests build it: the
    coordinates of [ec.keyFromPrivate(privkey).getPublic()] as 32-byte
    arrays. *)
Definition pubkeyOf (privkey : list byte) : result xy_bytes :=
  let d := keyFromPrivate_bytes_getPrivate privkey in
  let pubPoint := point_mul ec_g d in
  x <- pointXToBytes pubPoint ;;
  y <- pointYToBytes pubPoint ;;
  Ok {| xy_x := x; xy_y := y |}.

(** The body of the [try] block of [verify]. *)
Definition verify_body (this : Secp256k1EcdsaSignature)
    (hashImpl : Secp256k1EcdsaHash) (message : list byte) (pubkey : xy_bytes)
  : result bool :=
  let h := hashImpl message in
  s1 <- Curve.modInvN (sig_s this) ;;
  rMulS1 <- Curve.mulModN (sig_r this) s1 ;;
  pt <- Curve.ecMul (Coords (xy_x pubkey) (xy_y pubkey)) rMulS1 ;;
  hMulS1 <- Curve.mulModN h s1 ;;
  recoveredPoint <- tweak pt hMulS1 ;;
  let rDigest := sig_r this in
  let pointX := xy_x recoveredPoint in
  Ok (negb (existsb (cell_neq rDigest pointX) (seq 0 32))).

(** [verify]: whatever the body throws, the answer is [false]. *)
Definition verify (this : Secp256k1EcdsaSignature)
    (hashImpl : Secp256k1EcdsaHash) (message : list byte) (pubkey : xy_bytes)
  : bool :=
  match verify_body this hashImpl message pubkey with
  | Ok b => b
  | Throw _ => false
  end.
End Signing.

(** ** The curve secp256k1 *)

Module Secp256k1.

(** The field prime, and the generator's coordinates. *)
Definition p : Z :=
  0xFFFFFFFFFFFFFFFFFFFFFFFFFFFFFFFFFFFFFFFFFFFFFFFFFFFFFFFEFFFFFC2F.
Definition Gx : Z :=
  0x79BE667EF9DCBBAC55A06295CE870B07029BFCDB2DCE28D959F2815B16F81798.
Definition Gy : Z :=
  0x483ADA7726A3C4655DA4FBFC0E1108A8FD17B448A68554199C47D08FFB10D4B8.

(** Affine points; [None] is the point at infinity. *)
Definition pt : Type := option (Z * Z).

Definition fdiv (a b : Z) : Z := (a * Z.invmod b p) mod p.

Definition double (P : pt) : pt :=
  match P with
  | None => None
  | Some (x, y) =>
      if y =? 0 then None
      else
        let lam := fdiv (3 * x * x) (2 * y) in
        let x3 := (lam * lam - 2 * x) mod p in
        Some (x3, (lam * (x - x3) - y) mod p)
  end.

Definition add (P Q : pt) : pt :=
  match P, Q with
  | None, _ => Q
  | _, None => P
  | Some (x1, y1), Some (x2, y2) =>
      if x1 =? x2 then
        if y1 =? y2 then double P else None
      else
        let lam := fdiv (y2 - y1) (x2 - x1) in
        let x3 := (lam * lam - x1 - x2) mod p in
        Some (x3, (lam * (x1 - x3) - y1) mod p)
  end.

Fixpoint mul_pos (P : pt) (k : positive) : pt :=
  match k with
  | xH => P
  | xO k' => double (mul_pos P k')
  | xI k' => add P (double (mul_pos P k'))
  end.

Definition neg (P : pt) : pt :=
  match P with
  | None => None
  | Some (x, y) => Some (x, (- y) mod p)
  end.

Definition mul (P : pt) (k : Z) : pt :=
  match k with
  | Z0 => None
  | Zpos k' => mul_pos P k'
  | Zneg k' => neg (mul_pos P k')
  end.

(** Whether coordinates are those of a point of the curve: both in the
    field, with [y^2 = x^3 + 7]. *)
Definition on_curve (P : Z * Z) : bool :=
  let (x, y) := P in
  (0 <=? x) && (x <? p) && (0 <=? y) && (y <? p)
  && ((y * y - (x * x * x + 7)) mod p =? 0).

(** The endomorphism [(x, y) -> (beta x, y)] of the library's preset
    for the curve, and the basis it splits scalars with. *)
Definition beta : Z :=
  0x7ae96a2b657c07106e64479eac3434e99cf0497512f58995c1396c28719501ee.

Definition basis : (Z * Z) * (Z * Z) :=
  ((0x3086d221a7d46bcde86c90e49284eb15, - 0xe4437ed6010e88286f547fa90abfe4c3),
   (0x114ca50f7a8e2f3f657c1108d9d44cfd8, 0x3086d221a7d46bcde86c90e49284eb15)).

(** [a.divRound(n)] of bn.js for [a >= 0] and [n > 0]: the quotient
    rounded to the nearest integer, down when the remainder is half of
    an odd [n]. *)
Definition divRound (a n : Z) : Z :=
  let half := n / 2 in
  if (a mod n <? half) || (Z.odd n && (a mod n =? half))
  then a / n else a / n + 1.

(** [_endoSplit(k)] *)
Definition endoSplit (k : Z) : Z * Z :=
  let '((a1, b1), (a2, b2)) := basis in
  let c1 := divRound (b2 * k) ec_n in
  let c2 := divRound (- b1 * k) ec_n in
  let p1 := c1 * a1 in
  let p2 := c2 * a2 in
  let q1 := c1 * b1 in
  let q2 := c2 * b2 in
  (k - p1 - p2, - (q1 + q2)).

(** [P._getBeta()] *)
Definition getBeta (P : pt) : pt :=
  match P with
  | None => None
  | Some (x, y) => Some ((x * beta) mod p, y)
  end.

(** [_endoWnafMulAdd([P], [k])]: the sum [k1 P + k2 (beta x, y)] for
    the split [(k1, k2)] of [k]; a negative part multiplies the
    opposite point. *)
Definition endoWnafMulAdd (P : pt) (k : Z) : pt :=
  let (k1, k2) := endoSplit k in
  add (mul P k1) (mul (getBeta P) k2).

(** [P.mul(k)], for [0 <= k < N].  The point at infinity returns
    itself.  For a point of the curve the result is the multiple
    [k P], whichever method the library takes (the table of the
    generator, or the endomorphism): the points of the curve form a
    group of prime order [N], on which the endomorphism is the
    multiplication by the constant [lambda] of the preset.  Nothing
    checks that a point built from coordinates is on the curve; one
    that is not goes through the endomorphism method all the same,
    and the sum it returns there is not a multiple of the point. *)
Definition Point_mul (P : pt) (k : Z) : pt :=
  match P with
  | None => None
  | Some xy => if on_curve xy then mul P k else endoWnafMulAdd P k
  end.

(** [new EC('secp256k1')]: the curve with its generator.  Sums and
    doubles by the affine chord-and-tangent rule, as [Point.add] and
    [Point.dbl] compute them; [ec.curve.point(x, y)] reduces the
    coordinates modulo [p]. *)
Definition curve : EllipticCurve := {|
  point := pt;
  ec_g := Some (Gx, Gy);
  curve_point := fun x y => Some (x mod p, y mod p);
  point_mul := Point_mul;
  point_add := add;
  point_getX := fun P => option_map fst P;
  point_getY := fun P => option_map snd P
|}.

(** The point of the curve whose x-coordinate is the order [N]. *)
Definition Qx : Z := ec_n.
Definition Qy : Z :=
  0x98F66641CB0AE1776B463EBDEE3D77FE2658F021DB48E2C8AC7AB4C92F83621E.

End Secp256k1.

(** ** What the code relies on from the curve *)

(** The multiples of the generator form a group of order [N]: scalars
    multiply and add modulo [N], a multiple by a scalar in [(0, N)] is a
    finite point with coordinates below [2^256], and the point made from
    those coordinates is that multiple. *)
Class EllipticLaws (E : EllipticCurve) : Prop := {
  mul_generator_mul : forall a b,
    0 <= a < ec_n -> 0 <= b < ec_n ->
    point_mul (point_mul ec_g a) b = point_mul ec_g ((a * b) mod ec_n);
  add_generator_mul : forall a b,
    0 <= a < ec_n -> 0 <= b < ec_n ->
    point_add (point_mul ec_g a) (point_mul ec_g b)
    = point_mul ec_g ((a + b) mod ec_n);
  generator_mul_finite : forall k,
    0 < k < ec_n ->
    exists x y,
      point_getX (point_mul ec_g k) = Some x
      /\ point_getY (point_mul ec_g k) = Some y
      /\ 0 <= x < 2 ^ 256 /\ 0 <= y < 2 ^ 256
      /\ curve_point x y = point_mul ec_g k;
  generator_mul_zero : point_getX (point_mul ec_g 0) = None
}.

(** The cyclic group of order [N] written additively: a point is
    represented by its discrete logarithm, the generator by 1, the point
    at infinity by 0.  Both coordinates of a finite point are its
    logarithm. *)
Module DlogModel.

Definition coordinate (P : Z) : option Z :=
  if P mod ec_n =? 0 then None else Some (P mod ec_n).

Definition curve : EllipticCurve := {|
  point := Z;
  ec_g := 1;
  curve_point := fun x y => x;
  point_mul := fun P k => (P * k) mod ec_n;
  point_add := fun P Q => (P + Q) mod ec_n;
  point_getX := coordinate;
  point_getY := coordinate
|}.

End DlogModel.
(** A string of lower-case hexadecimal digits. *)
Fixpoint lower_hex (s : string) : Prop :=
  match s with
  | EmptyString => True
  | String c s' => (exists d, (d < 16)%N /\ c = hex_char d) /\ lower_hex s'
  end.

(** A result that is a canonical scalar: exactly 32 bytes with a
    big-endian value below the order. *)
Definition canonical_scalar (r : result (list byte)) : Prop :=
  exists out, r = Ok out /\ List.length out = 32%nat /\ 0 <= be_int out < ec_n.

(** A result that, when it is a value, is a canonical scalar. *)
Definition canonical_output (r : result (list byte)) : Prop :=
  forall out, r = Ok out -> List.length out = 32%nat /\ 0 <= be_int out < ec_n.
(** Three signatures used as examples, all with [r = 1]: [s = N - 1],
    [s = 1] and the non-canonical [s = N + 1]. *)
Definition sig_high_s : Secp256k1EcdsaSignature :=
  {| signature := be_bytes 32 1 ++ be_bytes 32 (ec_n - 1) |}.

Definition sig_low_s : Secp256k1EcdsaSignature :=
  {| signature := be_bytes 32 1 ++ be_bytes 32 1 |}.

Definition sig_over_n : Secp256k1EcdsaSignature :=
  {| signature := be_bytes 32 1 ++ be_bytes 32 (ec_n + 1) |}.

(** ** Primality certificates *)

(** Trial division from [d] upwards; [fuel] bounds the number of
    candidates, and running out of it is a failure. *)
Fixpoint no_divisor (fuel : nat) (d n : Z) : bool :=
  match fuel with
  | O => false
  | S fuel' =>
      if n <? d * d then true
      else if n mod d =? 0 then false
      else no_divisor fuel' (d + 1) n
  end.

Definition trial_prime (n : Z) : bool :=
  (1 <? n) && no_divisor (S (Z.to_nat (Z.sqrt n))) 2 n.

(** Pocklington's test of [n] with base [a] against the primes [qs]
    dividing [n - 1], whose product is at least the square root of [n]. *)
Definition pocklington_check (n a : Z) (qs : list Z) : bool :=
  let F := fold_right Z.mul 1 qs in
  (1 <? n) && (n <=? F * F) && (Zpow_mod a (n - 1) n =? 1)
  && forallb
       (fun q => ((n - 1) mod q =? 0)
                 && (Z.gcd (Zpow_mod a ((n - 1) / q) n - 1) n =? 1))
       qs.

(** The scalar [s] that [signWithK] computes from the digest [h], the
    nonce [k], the private key and the bytes [r]. *)
Definition s_scalar (h k privkey r : list byte) : Z :=
  (BN_invm (be_int k mod ec_n) ec_n
   * ((be_int h mod ec_n
       + (be_int r mod ec_n * (be_int privkey mod ec_n)) mod ec_n) mod ec_n))
  mod ec_n.

(** Congruence modulo the curve order. *)
Definition eqmn (a b : Z) : Prop := a mod ec_n = b mod ec_n.

Section Recovered.
Context {E : EllipticCurve}.

(** The x-coordinate that [verify] recomputes from the signature, the
    digest and the public key: the part of its [try] block before the
    comparison. *)
Definition recovered_x (this : Secp256k1EcdsaSignature)
    (hashImpl : Secp256k1EcdsaHash) (message : list byte) (pubkey : xy_bytes)
  : result (list byte) :=
  let h := hashImpl message in
  s1 <- Curve.modInvN (sig_s this) ;;
  rMulS1 <- Curve.mulModN (sig_r this) s1 ;;
  pt <- Curve.ecMul (Coords (xy_x pubkey) (xy_y pubkey)) rMulS1 ;;
  hMulS1 <- Curve.mulModN h s1 ;;
  recoveredPoint <- tweak pt hMulS1 ;;
  Ok (xy_x recoveredPoint).

(** [bytes.length === 0] *)
Definition is_empty (bytes : list byte) : bool :=
  match bytes with
  | [] => true
  | _ :: _ => false
  end.

(** The verification equation in the words of the specification: with
    [s1 = s^-1] modulo the order, the scalars [u1 = h s1] and
    [u2 = r s1], the point [P] with the public key's coordinates, and
    the recomputed point [u2 P + u1 G]. *)
Definition verify_u1 (this : Secp256k1EcdsaSignature) (h : list byte) : Z :=
  (be_int h mod ec_n * BN_invm (be_int (sig_s this) mod ec_n) ec_n) mod ec_n.

Definition verify_u2 (this : Secp256k1EcdsaSignature) : Z :=
  (be_int (sig_r this) mod ec_n * BN_invm (be_int (sig_s this) mod ec_n) ec_n)
  mod ec_n.

Definition pubkey_multiple (this : Secp256k1EcdsaSignature) (pubkey : xy_bytes)
  : point :=
  point_mul (curve_point (be_int (xy_x pubkey)) (be_int (xy_y pubkey)))
    (verify_u2 this).

Definition recomputed_point (this : Secp256k1EcdsaSignature) (h : list byte)
    (pubkey : xy_bytes) : point :=
  point_add (pubkey_multiple this pubkey) (point_mul ec_g (verify_u1 this h)).
End Recovered.

(** Coordinates of a point lie in the field. *)
Definition pt_in_field (P : Secp256k1.pt) : Prop :=
  match P with
  | None => True
  | Some (x, y) => 0 <= x < Secp256k1.p /\ 0 <= y < Secp256k1.p
  end.

(** Inputs used as examples: the scalar 1 as nonce and as private key,
    the empty message, and hash providers with a fixed digest. *)
Definition one32 : list byte := be_bytes 32 1.

Definition hash_one : Secp256k1EcdsaHash := fun _ => be_bytes 32 1.

Definition hash_zero : Secp256k1EcdsaHash := fun _ => be_bytes 32 0.

Definition hash_minus_Gx : Secp256k1EcdsaHash :=
  fun _ => be_bytes 32 (ec_n - Secp256k1.Gx).


Definition hash_empty : Secp256k1EcdsaHash := fun _ => [].
(** ** Byte arrays as objects in a store

    For the claims about mutation and aliasing, the store holds the
    blocks of memory that typed arrays look at.  A typed array is a
    window on a block: a [Uint8Array], or a [Buffer] of Node, which is
    a [Uint8Array] too and so is accepted wherever one is expected.  A
    new array gets a new block at the next free address. *)
Module Heap.

Definition loc : Type := nat.
Definition heap : Type := list (list byte).

Inductive array_kind : Set :=
| PlainUint8Array
| NodeBuffer.

(** A typed array: [arr_length] bytes from [arr_offset] on in the block
    at [arr_block]. *)
Record array : Type := {
  arr_block : loc;
  arr_offset : nat;
  arr_length : nat;
  arr_kind : array_kind
}.

(** A computation on the store that may throw. *)
Definition M (A : Type) : Type := heap -> result A * heap.

Definition ret {A : Type} (a : A) : M A := fun h => (Ok a, h).

Definition bindM {A B : Type} (m : M A) (k : A -> M B) : M B :=
  fun h =>
    match m h with
    | (Ok a, h') => k a h'
    | (Throw e, h') => (Throw e, h')
    end.

Definition lift {A : Type} (r : result A) : M A := fun h => (r, h).

(** The bytes a typed array shows in a store: none when the array
    does not lie inside a block of the store, which no array made by
    the operations below does. *)
Definition window (a : array) (blk : list byte) : option (list byte) :=
  if (arr_offset a + arr_length a <=? List.length blk)%nat
  then Some (firstn (arr_length a) (skipn (arr_offset a) blk))
  else None.

Definition view (h : heap) (a : array) : option (list byte) :=
  match nth_error h (arr_block a) with
  | Some blk => window a blk
  | None => None
  end.

Definition contents (a : array) : M (list byte) :=
  fun h =>
    match view h a with
    | Some bs => (Ok bs, h)
    | None => (Throw TypeError, h)
    end.

(** Writing [bs], as many bytes as the array has, through the array
    into its block. *)
Definition store (a : array) (bs : list byte) : M unit :=
  fun h =>
    match nth_error h (arr_block a) with
    | Some blk =>
        if ((arr_offset a + arr_length a <=? List.length blk)
            && (List.length bs =? arr_length a))%nat
        then (Ok tt,
              firstn (arr_block a) h
              ++ (firstn (arr_offset a) blk ++ bs
                  ++ skipn (arr_offset a + arr_length a) blk)
              :: skipn (S (arr_block a)) h)
        else (Throw RangeError, h)
    | None => (Throw TypeError, h)
    end.

(** The array that shows the whole of a block of [len] bytes. *)
Definition array_at (l : loc) (len : nat) (k : array_kind) : array :=
  {| arr_block := l; arr_offset := 0; arr_length := len; arr_kind := k |}.

Arguments array_at (l len)%_nat k.

(** A new array on a new block with the given content. *)
Definition new_array (k : array_kind) (bs : list byte) : M array :=
  fun h => (Ok (array_at (List.length h) (List.length bs) k), h ++ [bs]).

(** [a.slice(from, to)] for [from <= to].  On a plain [Uint8Array] the
    result is a new array with a copy of the bytes.  [Buffer] overrides
    the method: the result is a [Buffer] on the same memory, a narrower
    window on the block of [a]. *)
Definition Uint8Array_slice (a : array) (from to : nat) : M array :=
  match arr_kind a with
  | PlainUint8Array =>
      bindM (contents a) (fun bs => new_array PlainUint8Array (slice from to bs))
  | NodeBuffer =>
      ret {| arr_block := arr_block a;
             arr_offset := arr_offset a + Nat.min from (arr_length a);
             arr_length := Nat.min to (arr_length a) - Nat.min from (arr_length a);
             arr_kind := NodeBuffer |}
  end.

(** [Buffer.from(a)]: a new buffer with a copy of the bytes. *)
Definition Buffer_from (a : array) : M array :=
  bindM (contents a) (fun bs => new_array NodeBuffer bs).

(** [dst.set(src, offset)]: reads [src], writes into [dst]. *)
Definition Uint8Array_set (dst src : array) (offset : nat) : M unit :=
  bindM (contents dst) (fun d =>
  bindM (contents src) (fun s =>
  bindM (lift (set_at d s offset)) (fun d' =>
  store dst d'))).

(** [a[i] = v]: an index outside the array is ignored. *)
Definition assign (a : array) (i : nat) (v : byte) : M unit :=
  bindM (contents a) (fun d =>
  if (i <? arr_length a)%nat
  then store a (firstn i d ++ v :: skipn (S i) d)
  else ret tt).

Arguments Uint8Array_slice a (from to)%_nat.
Arguments Uint8Array_set dst src offset%_nat.
Arguments assign a i%_nat v.

(** [Curve.negateN(a)]: reads its argument and returns a new
    [Uint8Array]. *)
Definition Curve_negateN (a : array) : M array :=
  bindM (contents a) (fun bs =>
  bindM (lift (Curve.negateN bs)) (fun out => new_array PlainUint8Array out)).

(** [Curve.N_DIV_2.toArray('be', 32)]: a new array of numbers, which is
    only read afterwards; it is kept as an array of bytes. *)
Definition N_DIV_2_toArray : M array :=
  bindM (lift (BN_toArray_be 32 Curve.N_DIV_2))
    (fun out => new_array PlainUint8Array out).

(** An instance of the signature class: its field [signature] is the
    array given to the constructor, not a copy of it. *)
Record object : Type := { signature_ref : array }.

(** The constructor checks the length and keeps the array. *)
Definition new_Signature (sig : array) : M object :=
  if negb (arr_length sig =? SECP256K1_ECDSA_SIGNATURE_LENGTH)%nat
  then lift (Throw (Secp256k1EcdsaException InvalidSignature))
  else ret {| signature_ref := sig |}.

(** [r()] and [s()] *)
Definition sig_r (this : object) : M array :=
  Uint8Array_slice (signature_ref this) 0 32.

Definition sig_s (this : object) : M array :=
  Uint8Array_slice (signature_ref this) 32 64.

(** [normalizeS] *)
Definition normalizeS (this : object) : M object :=
  bindM (sig_s this) (fun s =>
  bindM (Buffer_from s) (fun sBN =>
  bindM N_DIV_2_toArray (fun nDiv2Array =>
  bindM (Buffer_from nDiv2Array) (fun nDiv2Buf =>
  bindM (contents sBN) (fun sBN_bytes =>
  bindM (contents nDiv2Buf) (fun nDiv2Buf_bytes =>
  if shouldNegate sBN_bytes nDiv2Buf_bytes then
    bindM (Curve_negateN s) (fun negS =>
    bindM (new_array PlainUint8Array (new_Uint8Array 64)) (fun signature0 =>
    bindM (sig_r this) (fun r =>
    bindM (Uint8Array_set signature0 r 0) (fun _ =>
    bindM (Uint8Array_set signature0 negS 32) (fun _ =>
    new_Signature signature0)))))
  else ret this)))))).

(** The bytes an instance holds in a store. *)
Definition bytes_of (h : heap) (o : object) : option (list byte) :=
  view h (signature_ref o).

End Heap.

(** A store with one block, the 64 bytes [r = 1], [s = 1], and the two
    arrays on it that the examples use: a plain [Uint8Array] and a
    [Buffer]. *)
Definition one_block : Heap.heap := [signature sig_low_s].

Definition plain_array : Heap.array :=
  Heap.array_at 0 64 Heap.PlainUint8Array.

Definition buffer_array : Heap.array :=
  Heap.array_at 0 64 Heap.NodeBuffer.
(** ** Hash providers *)

(** *** Numbers as the bit operators see them *)

(** [ToInt32]: an operand of [&] or [>>] is read modulo [2^32] as a
    signed 32-bit integer. *)
Definition ToInt32 (x : Z) : Z := (x + 2 ^ 31) mod 2 ^ 32 - 2 ^ 31.

(** [a & b] *)
Definition js_and (a b : Z) : Z := Z.land (ToInt32 a) (ToInt32 b).

(** [a >> n]: the shift keeps the sign; the count is taken modulo 32. *)
Definition js_shr (a n : Z) : Z := Z.shiftr (ToInt32 a) (n mod 32).

(** [buffer[i] = v] on a [Uint8Array]: the value is stored modulo 256; a
    write past the end is ignored. *)
Definition store (buffer : list byte) (i : nat) (v : Z) : list byte :=
  if (i <? List.length buffer)%nat
  then firstn i buffer ++ byte_of_Z v :: skipn (S i) buffer
  else buffer.

(** [new TextEncoder().encode(s)] for a string of ASCII characters: one
    byte a character. *)
Definition TextEncoder_encode (s : string) : list byte :=
  map byte_of_ascii (list_ascii_of_string s).

(** The decimal digits of a non-negative integer, most significant
    first, as a template literal prints a length. *)
Fixpoint decimal_digits (fuel : nat) (n : Z) (acc : string) : string :=
  match fuel with
  | O => acc
  | S fuel' =>
      let acc' := String (ascii_of_N (48 + Z.to_N (n mod 10))) acc in
      if n <? 10 then acc' else decimal_digits fuel' (n / 10) acc'
  end.

Definition Number_toString (n : Z) : string :=
  decimal_digits (S (Z.to_nat (Z.log2 n))) n EmptyString.

Module BSM.

(** [BSM.MAGIC_BYTES]: the character U+0018, then the text, then a line
    feed. *)
Definition MAGIC_BYTES : list byte :=
  TextEncoder_encode
    (String (ascii_of_N 24) "Bitcoin Signed Message:" ++ String (ascii_of_N 10) EmptyString).

(** [BSM.encodeVarint]: the bytes are written into [buffer]; the
    result is the buffer after the writes and the number of bytes
    written. *)
Definition encodeVarint (varint : Z) (buffer : list byte) : list byte * nat :=
  if varint <=? 252 then
    (store buffer 0 varint, 1%nat)
  else if varint <=? 0xffff then
    let buffer := store buffer 0 0xfd in
    let buffer := store buffer 1 (js_and varint 0xff) in
    let buffer := store buffer 2 (js_and (js_shr varint 8) 0xff) in
    (buffer, 3%nat)
  else if varint <=? 0xffffffff then
    let buffer := store buffer 0 0xfe in
    let buffer := store buffer 1 (js_and varint 0xff) in
    let buffer := store buffer 2 (js_and (js_shr varint 8) 0xff) in
    let buffer := store buffer 3 (js_and (js_shr varint 16) 0xff) in
    let buffer := store buffer 4 (js_and (js_shr varint 24) 0xff) in
    (buffer, 5%nat)
  else
    let buffer := store buffer 0 0xff in
    let buffer := store buffer 1 (js_and varint 0xff) in
    let buffer := store buffer 2 (js_and (js_shr varint 8) 0xff) in
    let buffer := store buffer 3 (js_and (js_shr varint 16) 0xff) in
    let buffer := store buffer 4 (js_and (js_shr varint 24) 0xff) in
    let upper := varint / 0x100000000 in
    let buffer := store buffer 5 (js_and upper 0xff) in
    let buffer := store buffer 6 (js_and (js_shr upper 8) 0xff) in
    let buffer := store buffer 7 (js_and (js_shr upper 16) 0xff) in
    let buffer := store buffer 8 (js_and (js_shr upper 24) 0xff) in
    (buffer, 9%nat).

(** The bytes given to the first SHA-256 of [BSM.hash], in the order of
    the three [update] calls. *)
Definition preimage (message : list byte) : list byte :=
  let len := Z.of_nat (List.length message) in
  let buffer := new_Uint8Array 9 in
  let '(buffer, bufferLen) := encodeVarint len buffer in
  MAGIC_BYTES ++ firstn bufferLen buffer ++ message.

(** [BSM.hash], over the SHA-256 of [js-sha256]. *)
Definition hash (sha256 : list byte -> list byte) : Secp256k1EcdsaHash :=
  fun message =>
    let firstDigest := sha256 (preimage message) in
    let secondDigest := sha256 firstDigest in
    secondDigest.

End BSM.

Module ESM.

(** The template literal of [ESM.hash]: the character U+0019, the text,
    a line feed, and the length in decimal. *)
Definition prefix (message : list byte) : string :=
  (String (ascii_of_N 25) "Ethereum Signed Message:"
   ++ String (ascii_of_N 10) EmptyString
   ++ Number_toString (Z.of_nat (List.length message)))%string.

(** The array [combined] of [ESM.hash]. *)
Definition combined (message : list byte) : result (list byte) :=
  let prefixBytes := TextEncoder_encode (prefix message) in
  let combined0 := new_Uint8Array (List.length prefixBytes + List.length message) in
  combined1 <- set_at combined0 prefixBytes 0 ;;
  set_at combined1 message (List.length prefixBytes).

(** [ESM.hash], over the Keccak-256 of [js-sha3]. *)
Definition hash (keccak_256 : list byte -> list byte) (message : list byte)
  : result (list byte) :=
  combined <- combined message ;;
  Ok (keccak_256 combined).

End ESM.

(** ** The field and the group of secp256k1 *)

(** Congruence modulo the field prime, and the range of a field
    element. *)
Definition eqp (a b : Z) : Prop := a mod Secp256k1.p = b mod Secp256k1.p.

Definition in_field (a : Z) : Prop := 0 <= a < Secp256k1.p.

(** How [Secp256k1.add] produced its result from two finite points. *)
Inductive add_case (x1 y1 x2 y2 : Z) : Secp256k1.pt -> Prop :=
| add_opposite :
    eqp x1 x2 -> eqp (y1 + y2) 0 -> add_case x1 y1 x2 y2 None
| add_tangent (i l x3 y3 : Z) :
    eqp x1 x2 -> eqp y1 y2 ->
    eqp (i * (2 * y1)) 1 -> eqp (3 * x1 * x1 * i) l ->
    eqp x3 (l * l - x1 - x2) -> eqp y3 (l * (x1 - x3) - y1) ->
    in_field x3 -> in_field y3 ->
    add_case x1 y1 x2 y2 (Some (x3, y3))
| add_chord (i l x3 y3 : Z) :
    eqp (i * (x2 - x1)) 1 -> eqp ((y2 - y1) * i) l ->
    eqp x3 (l * l - x1 - x2) -> eqp y3 (l * (x1 - x3) - y1) ->
    in_field x3 -> in_field y3 ->
    add_case x1 y1 x2 y2 (Some (x3, y3)).

(** A point of the curve: the point at infinity, or coordinates in
    the field that satisfy [y^2 = x^3 + 7]. *)
Definition on_curve_pt (P : Secp256k1.pt) : Prop :=
  match P with
  | None => True
  | Some (x, y) => in_field x /\ in_field y /\ eqp (y * y) (x * x * x + 7)
  end.


(** ** The order of the base point, by a checked computation *)

(** Doubling and adding finite points with the inverse given: the
    results of [Secp256k1.double] and [Secp256k1.add] when [i] is the
    inverse they compute, [None] when it is not. *)
Definition double_with (i : Z) (P : Z * Z) : option (Z * Z) :=
  let (x, y) := P in
  if (i * (2 * y)) mod Secp256k1.p =? 1 then
    let lam := (3 * x * x * i) mod Secp256k1.p in
    let x3 := (lam * lam - 2 * x) mod Secp256k1.p in
    Some (x3, (lam * (x - x3) - y) mod Secp256k1.p)
  else None.

Definition add_with (i : Z) (P Q : Z * Z) : option (Z * Z) :=
  let (x1, y1) := P in
  let (x2, y2) := Q in
  if (i * (x2 - x1)) mod Secp256k1.p =? 1 then
    let lam := ((y2 - y1) * i) mod Secp256k1.p in
    let x3 := (lam * lam - x1 - x2) mod Secp256k1.p in
    Some (x3, (lam * (x1 - x3) - y1) mod Secp256k1.p)
  else None.

(** [n] rounds of the binary method from the low bit of [c]: the sum
    [acc] takes the power [pow] when the bit is set, then the power is
    doubled.  The inverses are read from [certs] in the order of use. *)
Fixpoint ladder (n : nat) (c : Z) (pow : Z * Z) (acc : Secp256k1.pt)
    (certs : list Z) : option ((Z * Z) * Secp256k1.pt) :=
  match n with
  | O => Some (pow, acc)
  | S n' =>
      let step acc' certs' :=
        match certs' with
        | i :: certs'' =>
            match double_with i pow with
            | Some pow' => ladder n' (Z.div2 c) pow' acc' certs''
            | None => None
            end
        | [] => None
        end in
      if Z.odd c then
        match acc with
        | None => step (Some pow) certs
        | Some a =>
            match certs with
            | i :: certs' =>
                match add_with i a pow with
                | Some a' => step (Some a') certs'
                | None => None
                end
            | [] => None
            end
        end
      else step acc certs
  end.

(** The same three functions on multi-word integers, whose arithmetic
    is that of machine words. *)
Definition big_p : BigZ.BigZ.t := BigZ.BigZ.of_Z Secp256k1.p.

Definition big_double_with (i : BigZ.BigZ.t) (P : BigZ.BigZ.t * BigZ.BigZ.t) : option (BigZ.BigZ.t * BigZ.BigZ.t) :=
  let (x, y) := P in
  if BigZ.BigZ.eqb (BigZ.BigZ.modulo (BigZ.BigZ.mul i (BigZ.BigZ.mul (BigZ.BigZ.of_Z 2) y)) big_p) (BigZ.BigZ.of_Z 1) then
    let lam := BigZ.BigZ.modulo (BigZ.BigZ.mul (BigZ.BigZ.mul (BigZ.BigZ.mul (BigZ.BigZ.of_Z 3) x) x) i) big_p in
    let x3 := BigZ.BigZ.modulo (BigZ.BigZ.sub (BigZ.BigZ.mul lam lam) (BigZ.BigZ.mul (BigZ.BigZ.of_Z 2) x)) big_p in
    Some (x3, BigZ.BigZ.modulo (BigZ.BigZ.sub (BigZ.BigZ.mul lam (BigZ.BigZ.sub x x3)) y) big_p)
  else None.

Definition big_add_with (i : BigZ.BigZ.t) (P Q : BigZ.BigZ.t * BigZ.BigZ.t) : option (BigZ.BigZ.t * BigZ.BigZ.t) :=
  let (x1, y1) := P in
  let (x2, y2) := Q in
  if BigZ.BigZ.eqb (BigZ.BigZ.modulo (BigZ.BigZ.mul i (BigZ.BigZ.sub x2 x1)) big_p) (BigZ.BigZ.of_Z 1) then
    let lam := BigZ.BigZ.modulo (BigZ.BigZ.mul (BigZ.BigZ.sub y2 y1) i) big_p in
    let x3 := BigZ.BigZ.modulo (BigZ.BigZ.sub (BigZ.BigZ.sub (BigZ.BigZ.mul lam lam) x1) x2) big_p in
    Some (x3, BigZ.BigZ.modulo (BigZ.BigZ.sub (BigZ.BigZ.mul lam (BigZ.BigZ.sub x1 x3)) y1) big_p)
  else None.

Fixpoint big_ladder (n : nat) (c : Z) (pow : BigZ.BigZ.t * BigZ.BigZ.t) (acc : option (BigZ.BigZ.t * BigZ.BigZ.t))
    (certs : list Z) : option ((BigZ.BigZ.t * BigZ.BigZ.t) * option (BigZ.BigZ.t * BigZ.BigZ.t)) :=
  match n with
  | O => Some (pow, acc)
  | S n' =>
      let step acc' certs' :=
        match certs' with
        | i :: certs'' =>
            match big_double_with (BigZ.BigZ.of_Z i) pow with
            | Some pow' => big_ladder n' (Z.div2 c) pow' acc' certs''
            | None => None
            end
        | [] => None
        end in
      if Z.odd c then
        match acc with
        | None => step (Some pow) certs
        | Some a =>
            match certs with
            | i :: certs' =>
                match big_add_with (BigZ.BigZ.of_Z i) a pow with
                | Some a' => step (Some a') certs'
                | None => None
                end
            | [] => None
            end
        end
      else step acc certs
  end.

Definition big_point (P : BigZ.BigZ.t * BigZ.BigZ.t) : Z * Z :=
  (BigZ.BigZ.to_Z (fst P), BigZ.BigZ.to_Z (snd P)).

Definition big_result (r : option ((BigZ.BigZ.t * BigZ.BigZ.t) * option (BigZ.BigZ.t * BigZ.BigZ.t)))
  : option ((Z * Z) * Secp256k1.pt) :=
  option_map (fun pa => (big_point (fst pa), option_map big_point (snd pa))) r.

(** The power and the sum are the same point. *)
Definition same_point (r : option ((BigZ.BigZ.t * BigZ.BigZ.t) * option (BigZ.BigZ.t * BigZ.BigZ.t))) : bool :=
  match r with
  | Some (pow, Some acc) => BigZ.BigZ.eqb (fst pow) (fst acc) && BigZ.BigZ.eqb (snd pow) (snd acc)
  | _ => false
  end.

(** The inverses met when [2^256 G] and [(2^256 - N) G] are computed
    together by [ladder]. *)
Definition order_certificates : list Z := [
  0xB7E31A064ED74D314DE79011C5F0A46AC155602353DC3D340FBEAEEC9767A6A6;
  0xAC946F7CD9CCEBB8D59803E73C7D12AA395B2EB7E59A8BA119742DF442FC6604;
  0xCF3CF3942EE431A7AFFA84A6D5E2FFAA2ED9A10974617A4D8A2B9F1AF744363D;
  0x87564018DBEDA67C7449B39D7BC4A18EB07DD7A840F6923B0047F9522BE6FC23;
  0x3E75FBF9B45DD427CE8F95EB0280CEE813C9F9F382F0917D9097A42D62847A8A;
  0x3D8E87CDD2BCFB35C855D423741EFD17230FB2786E98133182E44C46D22576CF;
  0x634974F5442268A2A1B83731C22D4D67B9B715EC46F7C8CDE556EACF82228104;
  0xF58C3310E59F8D857367442CDA0815C4B5A06BCAC68C5807AB2663FB42B4B4F7;
  0x2768E9F920FD9A2B532D0FB13E14164B051A0E6ABDCAC0E2295F08B7B5AF6C97;
  0x5733C44E45E47C63CB50EE56182C790FA9D4F1A442C2CAA751738922F9D44FBE;
  0x1C44E422E78232888790EBB7B22ADDC9F4CE98C59E1172D0665ECECB408C46A5;
  0x690E976B8BC0072715B1752447FBEE3685FC0A010FAD476F2B572ED3FE3CF31A;
  0x9FCBEA1F530793A32BAEEC803689AFEEC6B43F978DC95764E49CF07C980E486B;
  0x8AD8C97D63EC30CC82E5F3D5EA9E18415E8D41B6A32F5AA851C1F78121EC9615;
  0xD81880FDC58DFE72B69CF4B5589FC49D6ECA6AE827F0E37B0E1C6414BCC65922;
  0xC58E3E42331B3FB0E7CC306D101C665E4F01F6C0973C290DDBD070224C4C08EC;
  0x8ECA0842B530803FA568CB03FD8B20EE62BE52D40853BFF30A68DB2D22299F5E;
  0x30748514C9CBB93EF2914453030EBC63BEE22E2B61107BFC9BE9C459627225E8;
  0x7BDB6E118A9923C72EDD048F5F163B326305C25733CFFFFEF1CB2CF556752410;
  0x16A50E17542321E26CC44EE8D49CB2069C90696C272D2D8BC8F98B455C09E1F0;
  0x66EC5E410B2A08004624CAEF32ACCBEC6358CA2F665B03678303B67B761A285C;
  0x720163D5F1AAF741476471FBA17D089C58398707B2EABDDE990C93F2F55FD674;
  0x286A0FC27C14C7A52250424F9DDAAB147AEBCE9B0F5D21422946FEF534EC153A;
  0x93F799CFA21A33EAD6900DB3BEBD64EF4C10E71222D1DE67F1E5E08488CA3C1E;
  0xA152668FA623AD335B8B43C831366CE23BA561A1BABEDBE75AB2A5CE2C8EC643;
  0x39442D3173F72ED88DD4862CFAAC17DB75EBDF973F7924F0CA0A15F85DDAF403;
  0x21CE36AC5E5BCEDCCBC828D7EA18BD600740DE817DF6ACBD93016083AB7C2531;
  0xA66FB4AB614F64001CBE83534BFF061BA9EBFAA0973F7F61151C318D9F39B766;
  0xC19E7E888F70223007A1AF8C0C52D4552E59D12134A0463F853C62BB472AFDBB;
  0x091AD8F008A9D4DBFA348B1FC2759E878901F195ED9E32061394BBAA349EECAA;
  0x5CE81FEDBE76712EE664CBDA28DBCD80C8AC29524E9EAFC8F63B2C6E75E0B07A;
  0x257CC607881F4F5D9E9A8E7C13E124508D6297000727E2C8CE0AF350F993EBE0;
  0x1B3A86FE7D08C8698E13A5A015BC917D7F6C9EB562B3B1895BB7EAB43D218C77;
  0xC1092971509176499A9757BE82C0E98E752442B4088753C2DE00B45F8FE76431;
  0x1B17DED65C85729D4523ED7E305C613A10400C3E2E8EF0ED06FCE4838DEA63B8;
  0x80CC6DE676AD5A116656AB64738CC7FB61E455F6E31A1FB13A18674125BD8B08;
  0x27F13040D10B751506DB8B3A8CEB2DA298CDEFFD27511E135DAFABD3CEC23A48;
  0x17AE0933FC4C9515E2690E8D011DFBEBBC4C560E1B689E07CBD72C400CA0B10D;
  0xC0C78B4D98A05B4846A563F2031F4DFC1973A82FDEC36768A6D6C91489C3426D;
  0xE6CF2B032CF35EE739A573AF128E0C6A2657809F61E5C77976EA42DD60F590C1;
  0x718ECC3B1CBD4E208989C7D3DBCB573FC3FF674F9AEE5A4A882331300989F8FD;
  0x6111A8FAAA4BD92D583B8B7E301F5142D0FF1290D3BCDA9A3C18BA245BD49108;
  0x996DFE46FBBA95295260B2BE22C1169E52725AAFF456DE75AB17FFC78838613F;
  0x9A1AE9C90D41A8E26B29CA0569DE2E880BB09DB951FDDFE06E20679647857422;
  0x105DDAE1AF29307AE061FDA5DA6F7D18185FF675A7EAEEF938AA1789AB3ED3C8;
  0x873DC79BFBA358118D2566B2B8D6F555F19FE2BA560D45B142F6CA2CD4DB78D5;
  0xF1F786EA35EFDB2CC44586F8C4CB4F36EC7270E228C9BDC0405D691779409D37;
  0xA22D9E3BD79836CF69EDA755185CE0FBBA10F25383F28E5DBDA9FF19E90A68A2;
  0xA17C3F207FA19B7C16E745DC303EC302EEAE465F5F1A393F31B2F5B8CD0EF902;
  0x4871AB6F2FA402DAD62F2382D282222A48A9E6C9A4B37CBB5CA5BB11FC02EAB5;
  0x600402FB5F031ADEAAE67A9D30E87ECDFEBED363DA7848192DD850EC7ABC7DC0;
  0x3831BBB188BFBE8A98163E0A6CCED5171D22BAD4917C3BA391CBA31D468321BD;
  0xB829BC827AD7FC1D2264A357436E101B824741B7D25E815EA4B4F6993B715648;
  0x7A847F725A9D951D7F75EB869CC359738BF2E26D6F1087349227EE96ED4B1256;
  0xF456A58CD99D1026AEEE0FC1A12CD8284C64E4952FB7A1172802161F2562E6CB;
  0x672CCEF2CA831946AEA06FFCBF5EE230B20840E83A96573B1201E17A473B2DE6;
  0x04C6490F4F9AD35AFA911426346EC11B915E25DF39A514C1311063E51BA4220E;
  0x8805450F740473E29BDE09B9B6F5515BC7C3805A5E11BF887A0FABF7E35FC3F2;
  0x05BD20DE7E99E3E35081EBD2C2498626286C8DB783336468B2B7BCEAAFEC42D4;
  0xE5E131B8C5F57DB57E5465EAB46DCDEF3843D415B243B66E8CBB06F5FE57300A;
  0xADDDBEE9F0F062657BFDCF7134332AE376FEDEC5AE01C57F4CEAF7A3FC5BD59D;
  0x77E49BC44FEAEA539F124C58CA92F1AEADF72C6929A55E28EE753F278D435978;
  0xD65D82C9D4600C1ED74357D4EB8C8C716F98054FB538BC894E4CAE2D8E37854C;
  0x2E7A14286C87180529718EE591F7694EFDE9A994A16D21952324E0E4DAB155EA;
  0x335F85FF79175C1913E61212E78E30AE08E18065BC334DE608062C6429BBEEE7;
  0x06CB62BB6FD8B1FFD6D1258410466D2926212641575626F538166460CECEE0C3;
  0xD3DCF235BCCE5B3F95AB57B13E23B00F467139791E77AE99C2E9415772980D90;
  0x2A6894261A1F661DC1DE250CCD47431907C2924CB611FC89F8148A42A2C026BA;
  0xA4DF1AEAA103B69EC1F6A63B782117353B823432FAD66CB84EE948AA8FCDB4F6;
  0x1B1B18A16D970383291038F426C9BC595E83B604BD0D87EDCCE8F70F47E0C512;
  0x0F1C74DC1429DCD6DAA193DC87EF21EA2A38BB9F257DCA1D4760BA7A77CEC812;
  0x46E9993DD717B40D9D51423F88FEBF58BA33926A5EAE07C1A5D1A783B34CB0B7;
  0x239FC06E8A35EA39436E100539C96F09F357807B0098BC6F9D51DFE2D4ED36AB;
  0xFD30AAE4A54613D7995A9D3FA08C75F6F3F730D1776707F986362E5FBC3199DD;
  0x68D4AAE9673676A533F4257B07BFBA72A09403450FD93F90FB8D1A825A7FAB99;
  0xE98BC015A02E5AEA1ADDB1879C3562E7F13472B7A09CD6664A0A6E5024E77570;
  0xC001F4FA98B5F0860A04AAAFD0EAA9966C2D246DCA2AA8C17065B34E508D16C4;
  0x19FC5B4845EE651AB7C03054E781D99BD61CC3C4D59BDA96BC786539F2314D2D;
  0x1F99890D6EB7FDF6B95E73DC3010BAE17255AA25935F037D2036AC2A4BF92EF9;
  0x723D2DB566ABE6A26CC7608A88C24CA1C47DEAD76C71F1B824FE4CAAC9909AC3;
  0x144D015B4AB38D8ED29022809B7EBBD75C7979E3B52B33BB8AD1CCBE44B8ADC0;
  0x8D23742B746BD6AE06D09C9E051BB3AA0DEB7F0CCC3AFD3905AE58E844E3D6EC;
  0x8959AF72318B63C0E571B970ACEA042D83864791647C0EAE66FF97632B7AB8ED;
  0x90F4AE81C60B7E7F118A41361FC53C205BCBA5E007F438B169950CBBD9D2D845;
  0xA48DF5C0E710869C4C6782C6640448FBAAD6D480D8FFABF919430F2F2CDAA820;
  0x944D17FFF431FBF00FD1BD2BF2647C24B265B1073342318CBC0D6A4F829DECF1;
  0x35CD2ED5106D6337F30120D24D642CACF5A143DBC3DF8940904A2C433CEDCE84;
  0x14E056DF1B81956ED0F54622257AA55A1746320DC8B8392B3D8C58E8F7E8EF5A;
  0xF1434DF0E5C837952F3838DBB6FE0A82B6AE6A6C00D5F7C67F6CD5B468030886;
  0xC8D3C7DD8892796BB0A2DE9CA7FF6FCDF28651FD1BF440D55D4D1F8BCF0A22BA;
  0xB23D9EB6911110EFA6DA2FD82A9A879E0C6D6526F5A0663E5EB8D9526FAF3906;
  0x1781F12DB00936FFE35947EC10500175E3D1F1480825679538934861138E7116;
  0xC7707BD941BD43BC0ED85C6358516B1E26FA69E764BA7AC4BE929B6737BE2BA2;
  0xEDB43B2CF16D16D56EB0571E6C53C45D26415439FEE69F1A12BEB1456500A923;
  0xE9973A6C12A1C5F72E558601643A9D3D7AACF7D44E89E90A69D6C9F02F54B083;
  0x5F279B2FE97F31F500DCC8A05F1C6A0EE733C09545BDB6D495B7051D6FEE528C;
  0xC9827950945C67429312FF5E6AAE55D11923B72634BDAEF17661012C5BB898D5;
  0x0EC7719D1E40E1F563547D0469BE2DA10F0B8E88179D55D93B5DEFA262BA10E4;
  0xA06EDD7B4B76B8B780162042E725039786E94D809A8C2B76AAC5A7DD2AA8AB96;
  0x418CEC2786C4A873CE9B675E784D31FCC6F718DB08164E7E1920AEAC4091944A;
  0xDA5DFEAD12DBCEBB0A0A1E9BE4BD7EFA88A4B43136266B0957706F96552BB858;
  0x55B795FC1F5F274B8C95F85A9D408185280808ABE49CBFB9176CB4D1B9F70195;
  0xE4A266FE4A3324598E6BE1E4F8DB2575A2F3C2E467397A37866A7A1568BFAFB7;
  0xB2A538E031EB1DC2439223EEC0869D1FD37E6C292342A27B9413CD804132F7D5;
  0x1B28DE3064E6CDBEB2B70718170803ED0AA5C9F5D1DD8DF3D901EEA15BDF7C9F;
  0xB28C53B7F5761878BDCD668A67E5DB3ED07090823E852AD4782A3FD95DDADA59;
  0x6F3BFC802E39EF6919ED896E45967B3266F52F655B80D6A891F7F64520A2D150;
  0x28B4B9B4D613476460B6B3CD9DC965F3B2C10CE5EA466772AF33FCBDFBD156DB;
  0xC7EA8AA8448D06540BF220AAFB080984BEE46F887626F3425C12F64761EFFE9B;
  0xABD7049F403527A85EB70D226B3A8889039F04064EF91BE319CDCD4770A320F2;
  0xF4E0592EC41A94F3B3F9D9F5441BAF98F0D58E4BEC7BF2DC6303DA1EFF41A0E1;
  0xE1E67E012F049BDF06F2DC020921955937D9221A2184CE5761690499AE9F5CE4;
  0x9C1118AD56A7566EE4DD8A8F1A5B2C00E11B3AA4B42054FFE34CC83055BC9692;
  0x5963B47D44410A24A6C33DB98428C3B6ABF962D2B00E102F0BDF57A2F493BDB6;
  0x1BFBF85C67A38D24916981F6C79D2502F02F2577C4F4FB0020894ACE1560B441;
  0xEAEBC2A6D70F4633557C063865BB2E528DFB00197D122B24D5FBE7EFC9CB3D93;
  0xC97C268F9453304CBE51231C8E4E0AB10CEAE541679AD34F37FEA845C369AD50;
  0xC2E932EDD1480FB8DFE44625897F664F22E279BA34105E87BA2BCE399CB1854D;
  0x467E722724530EDBD1662C631443D04F043619027F95A615CE5A9B252D55D613;
  0x53DB8F297136B42482E6B0517EF40B98D876786D917D220C97581FE0E46C4BFF;
  0x1AE0F3B9BAB1F5082E094DD7CED1188EEBE0EAD5562763AEFC96B29FC2C2DD20;
  0xFB0B1F7D9B5796F3FEABEAFAC25B9CAC446C8E39D21BAF62AACC7028355913AF;
  0x3A6CAD7652BA0B6E5BF3E73F95A725D5A08CD9575B60859C479BF07455E9E2E2;
  0xE336E3E751C5CD492F9264B8F7B572F3F1B7BF1E32C2D57069EE9A02547BCAE4;
  0x24CFCFBE90E1E79BA758033F0E01ACA46084E2C281A782F811AA4D24809CBA0A;
  0x769259068211C4A3F8FCEE245A66D5156CBEA57A693D61931F3A5EAE8BEA053A;
  0xD885BF01AAE7FBD1938BE26CEA111FB7AF6E032995FE3915EB76B20BDE8922F4;
  0x25DE5A99333C179ED55B2BD1965CAE3B061ED7C8A058B5E2DAD6A83BD09CE9B9;
  0x9283C237367EA16A9EF6D84934613A4315CB191C3F3AEEF47026B70ABB57D50C;
  0x5E867830E2141BE0B1FFE7825409CADD827C791827CC6CD150A5A2C6C4DEB87A;
  0xD1CA1D86F8CF6AEE672EF32E1DDBAD956872E0A78A79CF815FD7596D5CFF7F0E;
  0x2327D3CC7AD253EDEE03B71B96297111D404C1935F2DF529F1F5D0AB2CCCE606;
  0x5CD61884A2B6836E89B0E2F0A341C2B5D3C048FD174C10484DBB267F03AA3B56;
  0xAC0B3C3EC76D928E64D59D0FA0FDF5CF5AB9AC4E8728D54F1A4DFA0A428EE890;
  0x52AB053B4346FC79E2BDD4072E71069A726C981D3D32B54A9C09B20C2BA46BF7;
  0xABC044BA8479669778943C10B46FBE9B2831F5540E169A091BA87ADE3331216C;
  0x3F5CF6D2E866238F47E093D2F6DC718AF88A2BA40CA95E55E800CA49EE1123BE;
  0xF6F2347A76DD224F96A6FFA83233305097E058CF3EE8F5C05E8DD811AA41AF84;
  0x6C1F2CB885AD6CDE112CF88CF436F524B81E8BA6D69EAF094A7A0F229729BB56;
  0x9E21D0B8816E03BCC0121EF2DA8C6934DCCDA0A95F089A6A8CB77301AF801C72;
  0x7E4C9EFD820CD8CCED96422EF5AC69593A607842975CE734F821F2F4A37F8F9F;
  0x52E3B9220688FF633F803ED93FC2E38A38B84AE0E60A33037055888E358D1ACA;
  0xCAD83B083B21317F98F59476949CCF41D49A6AF69D589C2CFB01B6706ECDAC78;
  0xB9914DB95FE79490F8920236174E1207615D307A3F484792912A9969542886C1;
  0x1E924C54BF69DECFE748418AB010A6B6B1128A4DD502CFA7EB13258A4EC8E9A2;
  0x55185867220C36A41C0EDDFDD9788AD75234FDE9296B9555B9843C97174CEC89;
  0xC065214A2CCDDCF7F77154460BCFB314B355BB2F7617CE99B7EB4D9DFD6494EB;
  0x2D08C7044BE11383AD67B18135D33296964C82702B7AFD88048497E0E7C35BA7;
  0x760DD1EA011F3B618881EAF43D683BA2D43539A687EC0C53ED0F950D9FC0F4BD;
  0xE4B7FADA9E8A5099022B54F8C6E7403C126C2D6040FFC3D75CB7CA1A7DFA7134;
  0xDB29299CDA26DC585C1733CDB8CE6F9EAFF5ACE75B61CC957091B4753BAC5E20;
  0x84210B42EAA6C59B02887AEAB63A82181D3DAEBF15019AA59CD9D28C2E40633B;
  0x7E5E6435396BE0CF7682B266AB98111497F9997E48F8A048CC52FAB220EF4220;
  0x92A2C494C506099717C0C6CADF545ACEA8B95AFAA5275957C68139F677533961;
  0x13667FFA1EAEE9CB8468D7FF843C4B697A1A8CFA88F5B215B86AEB1A9D84E138;
  0x8995E7E14F676CD3A08446DB400B0E9AF7D66A4089C282D6319431439A504326;
  0x23FE8D0B17680F50317854F75293B6C5B0864ADDEDE5EA83CF24BEF0CAAFE00B;
  0x2BE52E9C05E6C32537B16E133649B805750D223B082DBBE45E6B5712CCAEDBCE;
  0x9830CB1A839ECE03224E57A603D2DB2B492CEEC562791031F040CE6460B042BE;
  0x7622B50D9CA5C81A07C0F7AD6F20B0DC824581172D2F1CFB5E7DBADFC7C41AFE;
  0x83E9EDAD227E1C6A3AB9C54FDAFBE4E3EE44F4B0FEB6730CB5C4270F098CCBB5;
  0xA83489BFEFEE1B86558CA4BD930FF76A87D3569F4B31E7804435A17EC3FE818D;
  0x1BFD7DEF1AB0C73EBE1B4C5DE9AF911FC3B08DA0350B6103599703F9AA91B396;
  0x36F388DA97E99FDF543128C2C0C698E52B6278A960497088D4711E3B8B0D19B2;
  0x771CC2165B6F99D2CBCD909C489B66E99A6945CF1B5888DDF860FFD05D192847;
  0x9609386BAE4F847432E39D3DAFFD8A66E82AB5FB84C99E42821658B174245B89;
  0x4DF22B499A913B6B2B53407F3ED76413D1A0EB7CEFC05936CFECD007936B396A;
  0x9515D409AAF16A9EB57E405E26A59FC9936F38922C63B1942B8EAF994771429D;
  0x745AF4AFAAA0FB3A04744C8632C08C9CD0F6FBA69C294EAEADD8618B7BB8F754;
  0x7E3B1924F9F27920A1EEECF61AAE4527CB527FF5B8FF3F08E9B8B3842A77088A;
  0x39DB2FD2751AA4EDC4745CE4B9E6DAD6074DA101334F3C21ED32B49C6F74B09B;
  0x8FDE3BD8668EF53A91575411A89744A8C051B60A196FF038946F1DD3FF1B9DFC;
  0x9E269282E2B4948FB2D0B3EA3240786FF932DA07C658BFE7EFACB41524EB8BB6;
  0xED042C79669F6900AECE62990107DE0C610709181F55A9430BB07021DAE4CEB3;
  0x496E15A7D6B1FA05938429643D01759081D6C455929B4FE97387422FF69403A9;
  0x66035410EFFBB47ECC947772ACED313BA40AE722887F4A70275EA0751734A427;
  0x644E596E59E5156727D5F9397B2D799E89F0E50A02F7C8FEC2DDD9372DEB9518;
  0x05209DEBFDF378444CE1F59FAB4528D3D6C742855B78276CFA00CB541D12F7B6;
  0x8721EAF9BAB5C93C8D99C0CC123A43591199615930905B6323AC2D797520356F;
  0x95AD5D698C2789C6E9A09EE2ED6333F0DFE226C00C4E586D4D6D6A546712574F;
  0xE9CE7194FBE110D25E6AA840C4C59799CAEB21A6802C36016A5509E5B69C4436;
  0xD5159BE733435890B98C9A6B1E7FF856AD5A72BB70EBCD5362C74057E1128822;
  0xEE2C27747569EE215B9E89BDD5D6BD921643E86D130663C88E8B82CAD0A38D4E;
  0x04C9987E7BAA0BC6D3366781E0C3AC99093326D8125F805382C19F4E382F5421;
  0x57F293EEC08BA8678DA4BAB33EA861A1D9F95EABBA48F70FC7CF8E5D93130037;
  0x127488FF7C36620A271F3EB8D9255F90BDF002C0920A563253CC021DE1AD2BD9;
  0x0351CE808F253690242FEA26397F3396B7190A0A8A122E67800F3077DF963454;
  0x8F43A1B4C74A7C7B62263715D23179F29F302385148B82B337F7D7231B4ED039;
  0x39EB942366F918A47BE301D0042A4C5298FCDCE2DFCE0CD8F0BB8D78C60205E8;
  0x61B4DDD27F978B631F99EF3AEB775B41A5F98A8480A7472517A4BE00CBAF9569;
  0x5F3714406BCEC2FFE50CF2C3A17B705C275CA54BE2BE75D9CC44080865B3F5BE;
  0x9DCD816BC22FA640D01B6E9EBF61AA06C1DB77438E1785899C8F64D89C695271;
  0xC40CB8AE043DEB96628CC02F47C12C266A6F0B18A8DF88E71C1521D58732AD91;
  0x52DB4D95EC085E61F94EE36A576E56F9006EF7B994D4D6CDF93B3D733B4763FD;
  0x684D7798FD5C9E4472862BC8D5B6975E90F3A47D0B7149BC4FC34465DABD4569;
  0xF56C2CF135C4AE9F32415A1E1BDF5C4E3A1A9F3409351CE0944927DC6DBC10E1;
  0xA3C909DB9840CAC11928067EABE7C30467EA39B0C9296EACE8C6F018C953DD92;
  0x5BB3A0BBC183EDFC3064E1288B7B7067C278849CFE832B97A64D3698A2C533AE;
  0x402C736E62C981727AB81A452F7ED3686A4DFD7B1F71EDCAB7AE746E4A3C1FFA;
  0xA520116527808BC930AA66911CE47BEF53D40ED4182E52258362B84044093ED2;
  0x30A0BA097E0763A65F4F7356815AF19212B20FAD94D7A621D328B5DCF7D8C014;
  0x75ECF3AA530D574A26E19EED0C0F5465E84C8A31D491B36C801DF3855FE8A405;
  0xC250DB2A7969295FA4A812845242CD6F7FB510F96E50C8392D24B161385DE688;
  0xDD33FE78BDABCED15CA2E51EDA7732335D2F5AAAC7477A0E18678B117680BA5F;
  0xE98E649862500EAD14302461F1AE094D29F128B46F6909A42015FA5ECE934D05;
  0x50035FD15CB64110B60E4DBD5B43B6A90628027839D867D0557B798081C88E36;
  0x8080CD9C3D44FEE031C22BE81A927B78257825B91E7704C2A422014C4327155D;
  0x1E95777DF6C57A182809CCDF0A3948AF2FC1FF55468D046A1B85DF83DB3E8FAA;
  0xB431334620637178D59AC05BF82888AF29F5EA3E20FBAA4698466E15601DF5D5;
  0x0F8FABED3D5C58D9D49149046CE3C3CC21DD8B5A5F0D1DF7668028C8BFBDA6BC;
  0x7B628B36676DA1C472C97A963C5181592494121AC61FFFE88B08906D35A35F83;
  0x8F2E4135B39AF5F8947167264427A8E995709CD5C947425AF16876A26BFF44D7;
  0x2AA025744A48645E641AAD05A58CE1D8720D88FA1387E74B8A6A56972ADBC14E;
  0x36F661EC6F4F5BBF4CC953398B3774E9E315A91CCD143CAB0FF91EF62CCE43DA;
  0xB7A55BA9DAC1457E1CCB381705C97BBC866C7A99315C7B827671657E62CA70D8;
  0x16207F9A7DC2290C20FCB150D41F2F4D71F4965754E52137DCAF70B254C846E3;
  0x256A1A05206207522AD6130C76BBE9C5C588EEB429892DAEFE0522EFF6F478E3;
  0xEA3E9F3309DB71BD1A356E698BB5CA9166EC957079BB6B722CEFA284B0B23381;
  0x9BD843D8D67AD58691F2E1868EE4BF14BD86CAC3EC7C1FFB2E5408750CA0462C;
  0x1F0E33FA338256843321980FD82ED5DF22F35747EC39AE806A8A39534AFF71BC;
  0x1DAFB0DCBEED6D72FFC99A802BD7BDB3CABFA8116CECB908D79AFC048E6C54A2;
  0xD812BEF306A7A0990AF36479F028F58A45B6ACBC089F5932EB76D7330CC261B2;
  0x9DEDF2D2293C392AB883A3AA6D54F0528AA29DB66FF179AD7EA1EFA4FCC7AEDA;
  0x039D625C5702A867F9E867A9403E381ADEC4FC7A9E9A237DB9284839F03FDC6C;
  0xF333AF1F6D933F6A81FBBDA5D601F0CD238C0C041B492F248FCDF64BFE45AE03;
  0xFC8610370EB5B086A0EEDE3E2A4117891B5DCAFDB8CF889E6BC7F5184EFFE0EC;
  0x2DA349DD5983451D848E624E22DE8A6A1C25F8C80AE66959123E54429398D0BD;
  0x55914354E3E334D872FA1ED2E9FB10430A91D8EFC9E9A11875434BFE64B63E13;
  0x984BA3455965BB614210B7D04F66534005841505322FDCB297D1E8FDAC98E5E2;
  0xB03A0564D45EBADF7D6B7DA2FEEE00A4E9881A3667DFE2F4738F290AF420E1BF;
  0x916D1C2FA7863B0C9B23F09AEFD8FB9A5047AA407206E72E0E57496E18FE28F7;
  0xA6037FA22F8CF2DF64B1AB1DE27636BB7424C49790B05F3F32E9D94F7E35E0CD;
  0x5BEF79D0F8F4B7CED7ED2B73A9DE9D5D39A77147F43A29FB18F7F4BE092037D2;
  0xFEB97E3F6D6D0C9F39E4ED439CD7E1F2355E7D0F5EBCBDBF15C54654AF0F530B;
  0x4D78B6BC5CAAD716BD57E0B4B7EC170D4E4962F1AB602D3734A4570FA9361413;
  0xA5F3B0992BBBE2AD3A0AC88619A5050CE5B5CACE3DEE936D7B8E965D36DEDAD4;
  0x7388F84DEFD9C3A9524CFF8DCCF56E597623826F737BA66B68239DA65B636AE3;
  0xD2A2121D4B672272BEC3BDE104A7E4578B4E47E1F6C458B1653AB37C36E1BA37;
  0xB4726AB3819536EB1681E368B26DB57D23B349603A42D925AC06538FDDDE1FC2;
  0x0382C1D8A0B58B163492ED671CF72A40778D31F5867E0541DC65B098272D8F00;
  0x1B9164E4A061BEC67986ADBFFE322D92D621A6BD7B01E8CF54FD700E7457AF22;
  0x03B59360F155DD242FC213FC51E4BC399E36F8DE7B516D9D724BE8FE442DBE3F;
  0xAE2F39B7CBC6B4E6FB49665D941152813379C2C90CFF59ACFF0B4B8C3DCEAE86;
  0x156EFE8A63F59840C8CFAA597A2EC143DC87772FB83F90B67E8B0449E649725A;
  0xA6344D65DA9FCC47190E0AB7D3D57C334261F76982B85120FF45229487199521;
  0xEF0FC83279F15E3445BBFAAA46D81A46CC0AA2001866F619C4A48828EDB0788A;
  0xD6F9D32B75BE0A59DC86F9827AB838CADD2B24C892003A8522CD4C0F1075E552;
  0x58DDBA4C1877E35A1B8FF1DECDC739B1D6848651A0D171E585F47C68B4C97731;
  0x05FB949E66B07022C79CB94C10DBF2D0E410CA5F46999C2B9C1559E8527C9D79;
  0x02389371AA4C517F8D6B8CD1191D4D9EB12F547F2AB048F49895FCE1F2512EB5;
  0x2DF691576A475028AF771471C4DBADADFF0EA417BC45E308383C072981277A51;
  0x5D7B363F6C46AF5C9DE967CD10A52C6582EA930F3FD532943FF480183C3C4414;
  0xEB4864FEFC414316A1C8153353FA2B12092A7FCAC323678F02A99C908D31FA14;
  0x79451402BA33E6CE1317199D9461DA3EC57B8733F392D8E866EAB0C24F2FB045;
  0x694CE245C5F66E94E0DF06B90D0F8A45A14D26B66C55DAFC42FF3B396E3DAC73;
  0xD457E21E69F318899B76BDEB8A3153253631A69962F3080117AB86779DD46376;
  0x6E988DEFBDCB7735563FD81FD70596EC704DC2CEA3682205375C819EB68F0151;
  0x1C411E444847F47ACD305AE5C5E80D25DA08266629DB203EC2FF06DC14695CEC;
  0xCBECF76513EDCD93A402E70BF74CC981E3E3DEFF3E95CC959CE8639437E711F5;
  0x780CF4F526697F1B944AA4EEEC5B344106FE8653B9FCBDC2D9F9BCB6E2D559D9;
  0xAF5392F7FA57EF544F3358A3ABF89B8D913B4C96E92037C4A6716D49E686BA2C;
  0x2660EE91EB7A7A88B408DF136B2D61E841F8169A1396143E02FCF264B3F0B3AF;
  0x6A67AEEE84EA4291BB026644DE59B9405B0C963DB79BEC9C81A6120A541CA182;
  0xE8C9A96602EC9F42652617D70C5890E4F0162D1B21E8F51A200ECDDE75306B8D;
  0x8E30A1873436B8642B31D1AADB819AEA8EB70D8A933A8DB5DF59811A260B7C2F;
  0xC83C120B564AE5DCF915A2EC06683E330A8395E3D5E9DDB6913B31709F1D5FC6;
  0xB22F9A9D267818F1A3125AC85DCBE396FB6607EDE25A71E61192F2DDA1EF6691;
  0x2F5B924354F40AD7FECC25C8403B0AE07E0A9A4F032389E033B66E780AE4C4FB;
  0x9F8A592166FBD9667773FC3D7F2EBF9EFB05AE282FC05775DE9AA2996BB98C5B;
  0x00F33F251E0F03CD563B32AED3202ED7168E3CE1AACE1E2B6BCF1C108BE4B74C;
  0x3531F12ED8F048F3BABDD567B2835EAFA799A70374703888EA3726A420166BCC;
  0x15D0B77D3AEC1617E3C143667A1570A2D5ED9BD8BACC1E50A3E0C37746D0C45D;
  0xC6719C17E38B0CF5EA8E3C2FBC573CA355E57BE5A345EBDD9CC96182C8D692C4;
  0xC2BEBCD99F5A57BC1458D062F2BB362AC4A9316F9A57DCEE04C6F162AAF4BF11;
  0x88B98897AB7B1185AE24C67F3C44407342D80D134A4924E0748850BE7AB9C991;
  0x1D2D43935136B75990C073BC845720A3F81CE387967A5E7D72F16A7864EAB66B;
  0x4DDC325A3461B9F4E0015761B2EE1ADAD5C33D8577233E39E4BE0CCFB3BB8434;
  0x2DE795D77740D8C869D815B78303D6BF62A9816808D0BA5D7F55E6138A8C39E6;
  0x51D8C5F24FFEEA1F9FA3A399892E2DE298AC2407E69D52C850082A684EA214A8;
  0x329FA4D96C84E623139CF11CD79163DB18C8F74EFA3D863EE4899DE1E35069AE;
  0x21DC000C501F46A7C925A6F39DD2D94BF6DAB7B94851CF39F1ACB32A1F2213AD;
  0x37FD2E64F5799D023274CCD81A0A6EFB1D1BC301468F7AB9F480F79F3CE2BACB;
  0xA185B4DBECDBA8C0BA35BC20AC638F589970205681030021716706FA47F747D3;
  0x9D320352CC18D723B73AAB43747F9480E2720C6BCDCA7A730D1647E56C83A2B8;
  0x408E1C314F21F0BBD53FB57A2FCAE38F48A4262919677E56DAE1EBBAB2A87D5E;
  0x49B79A189E2CEE2F72BEF63250DD57258638995391A56D45FCDFEC325E820B03;
  0x08AB1134892F9CC2A87124BEDE10383E55424BE85F780876D5CEA4A811BB533F;
  0xF36228599538A9685523D4FA4EB6C713995390BF2FE908810D638CEF07E9463D;
  0xD37DD13247F0C7EDBA77BED0FC75F9E59DEA65BE10B61A8B49F6868D03476999;
  0x21D0F583AC7360AD32166E767B90E0369F4FE86B76BA86FE2E6DC304E161AB04;
  0x91BB9B65EC2094743AC8699F0DDCF45732FD90404F931EDEB3860BF13C6F4D2C;
  0xF28F2486D009A0A8889736034B4CBCC90C92A3818CAD79A25C984233077602D9;
  0xC143005A3D7E2D897F68294B3D4649A0D9B87CC991B6F87CDBF58E0974237626;
  0xAB9230DBD787F25C26BA5B6025B024674793B4AF3AED9A9D95ABD60E5E938260;
  0x610260D480C06C0418450F2CAD4080F92A367A4AB252DE0A63E16B23C9D650AC;
  0x8A333D9D3446C695C6D3D1A9D235BF665E05654126AC7F8E0F3DF98D44CFBE27;
  0x7D3EF2458BE959016610C1B34B01AC03E3F04C2D8A9B400EB065DE0A81BDAD55;
  0xC187C2FEE873DFF2506638049BBB03948D76814529F5D42F8C9740F418DC49F1;
  0x52F946A5A59D651BA24BA9C0BC3F42BC35E5A1FD3F4E44E42A5C35961BF4DB00;
  0x34EDAEA7826E8D5683F2A4F93AA2A67EECF5CA378F0BF831C668A9A7C13C9816;
  0xDBD45F4E75ECA62B4327061D661B26C93D73990A76F2CC3947B3B1D6329AFE17;
  0x2B2208461AB06AE389C2D0987CFC39A424A3B768658E5E55C6B2016DEBF31CD4;
  0xCE4DA2B09162DAFC3D1FAF6D0AF4F6CAA99204BA8391C7F79CCCC6BD70B6B2B7;
  0xA32CFE9531E5E39F0D8EC90C09015F47AADFD3686E73105A2B377AA1F2E58D20;
  0xB94D6E2A9397AD369FDBB1EEBE784AFFF2DE34BD36EDB4F2C39F0C14983D9D1A;
  0xC5F057A5DEE047DE8506A5F56A844337C7B550D103FC0183CD7B03C4BB8DBAB7;
  0x827A4100A281260AD17637C673A473980796E8AABC894A7070C327FD137EF65D;
  0x080F1EF3603190C7C3DCCA870D7C737EE04F0ED9EF6CEBE615B3D30D2AFFAB92;
  0x9F1A9C2332C787C593A97CB25E2C89BA2563915D70BE825CC0D3A0992CA7C64E;
  0x18545E70170EB217F271251ACC7C0317123FA3FF3ED6B32D99AFCC1DDB6936B4;
  0x8DABD6EA6A592075166E799BDC887C8376D2491B1FD23CAAC19F2081A58A9D15;
  0x65EC7C0D2A9B4EB2179D888A44265E873C3D21C0EF88A8B9C569B1600C452EC6;
  0xAD7DD2F7760B93811C68A057CCF64953B269059E925D2DC3AA7C91FE6E5C1498;
  0xBD6B505E0D4548E904A812E5C1D2E86686559FDA01EBE90BF5DA9CF23E265EFE;
  0x32B72469083048DB67271C16268813FA53BD516BFDC6EDF0F892DDCED53083C9;
  0x463E9C9A64E8C34BD6A7F2BF787D7D93D51BB9D4B063C802C009426235B7075E;
  0x44A54E670EF7190CAF5907D60A1EB570F4C73A3D16AFA753774F92CA6B4DEEB6;
  0x5EA24A955B7C21CB687567F8287C0DE15AA7D894907F5B0C377AAE7D7718E21C;
  0x63F7CB48280A965FCB23C127E375D86BAB0B2A4BCEFC55D9ACD8159A2A4EE408;
  0xA4D280A0279FAF2EE91548FF5BD39DFCECD04E16660BBFDDD9BB254F1539C601
].

(** [2^256 G] and [(2^256 - N) G] are the same point. *)
Definition order_check : bool :=
  same_point (big_ladder 256 (2 ^ 256 - ec_n)
                (BigZ.BigZ.of_Z Secp256k1.Gx, BigZ.BigZ.of_Z Secp256k1.Gy) None order_certificates).
(** ** The point with x-coordinate [N] *)

(** The inverses met when [2^256 Q] and [(2^256 - N) Q] are computed
    together by [ladder], for the point [Q] of the curve whose
    x-coordinate is [N]. *)
Definition order_certificates_Q : list Z := [
  0xFCA86B19FED7C278FA595D8A06E0A41DA87A48095B29B3CBA5FC8B6AFDF657F8;
  0xA3E2A47BFBD7FB180933415C4648C4538D85C8CB9DD845B6A694981D5955F0C4;
  0xA29E001763F9054066E4A1062EEDA411732D2C4AF0B78BFDA609080F5CD9DCE4;
  0x3C717DC25989E7B1BAF34A3E53975C80EDD3B0FABE209E33D04A983762C7EEE3;
  0x084A1DA263AE4BB5009D631DE2A8B5331BB722E00043859869A235167321F3C3;
  0x7CD70B917C907A4F0568920F137A8464F457B3331534442F551374E23DE62C2F;
  0x97FB0BFE9B36BD8296CFE500D51F56B2F86DC3EBD6B3F41C5A92EF91942A3D89;
  0xB95BEB7987B0649B0339CD9902F07C1EDB9F6BE223C1DBBB367A556C2404694F;
  0xC5F86B3F1EF2BE60BDE4D2A7276A30CFC5E442A9DB4A69B7EBFCE29F1B9BC33D;
  0xF595985A70F647F16BF80863CF9CE4C7B2E615C7D434734FFE5EAEED58EE0A13;
  0x37C1F01D187D7AD01067A2C5D1A5351281666F14B8B70ECCE04354C0D606A03F;
  0xB6D13CB76C2B1CE4A0688C4F2EDD905F753347AD1262FE6FB1BB635EF8208899;
  0x0E4456CCAE1380CB9C679897ECA02A470D6E722D0160EE628CD07409F9B245E2;
  0x15699710619CD8D7546CF65F569E468ECC5C9881129E84050CF0EFD9565DC174;
  0x504DE3B815048F15F75322436CDB1C8EF210E7331AC89F1F1DA56CBFC4DD44AA;
  0xC0B83597CF4D9B3EA03E290D17371A8BB58FF84421F7AF518905A2A8AA62180D;
  0xFA141F1DCF949F3EB26043FB442A12A7B3A1AB218565AC58947F668AEFE0C9CE;
  0x6AFDE0611808C4C7F0789F331D8F136BB8375411798D0290E0F6A45DE1B38E15;
  0x5027584C7F241E20B9079BC83F68B39B8F8DF555AFC7A485461A9AE541A95D25;
  0xFB71A997BF465B42B9C425B3F066FB217B304C6408514DF3612E768D602E8EDE;
  0x04F83F711BB2F7F1B3DDE0261911BAF54560C102899DFBDCB486C434F5E1F159;
  0xB859560DA8B7D4A1871A7FAAC8EBA73540BC74E85C96F59925F063D29D3F129B;
  0x5D7939A97B5F8732BD03EDC9C1453CDE9C96DCDB5C627B92FCDAF8F4E9A9C609;
  0x7DDAE795A04711F38E8F31084E28F2F70352ECFD8158B642BB2FEB6C8C7D53B2;
  0x72F3E2ABD29EAA79B5F6720D57608E6B0AFB9D598C84992A63663F04151434C2;
  0x1C9D10F8DC34C2A3B2CDC68A60859BE63A5F4C0E98EE35F8221E5B72D301411B;
  0x4D3BA685F3D59BE845785FBDAE72EB69DF43A3BBE91AF64A6A23882C379FE3C8;
  0xDC3F539F637E05FA9744494D8FE604669453846E4E1E85A71C668C1099C5E3FB;
  0x765663CE74212C510CB0C2D082AAFCAA63701895A7469FC20D27A40780357713;
  0xF69C053B2E6E068F72C66226379856CA754B8ADBF04DE5A11598E0B51550DF0E;
  0xD213C066C6BDF8B15731787977DFE3AB9C9A1DEEB119DBAA7A4C0BEB6BB51DE1;
  0x1DB26132BD1D3FA4744AD814247B93B73FDF444F45DC2E29D951F9A87130BFB9;
  0x6247086160B4B33B4FA6716AA3401DECD45F8F499C0C5C8CE3D9398CC3458425;
  0x79994EC1E8DE7B5C2F15B5394DFFCFD52636B161573A883EF3FE5CF87FB7C9D8;
  0x495C713AE36410A4E12821C86FDDD07FDC354886D8B6702E11D8AD68B709CB08;
  0xE5E95E86C6E4F2CE5845E8161F2F163684F813F184272BF7EFC07F1279306AAA;
  0x8F187D8E0AFA7AF99F5233742CBBF40B03A605D438E4731254257C4E51B0A688;
  0x62C26978384945448B66697AB3BCA0594EC1BCAC4DAB1AA12ECDF72454ADE411;
  0x5CB145B47542AE5D325A758B6185EDCDE976650125E73E4E78EBDF3271942FA1;
  0xE107A4A382443E6EE6963F6514AEB70F500988D1763D0680A92B67504DFFFB9F;
  0x9573C415DD1D1D20103DABC2C734362590F1BBD8D2320FF26BFCFA4A501B6172;
  0xCFE71C4DDD448CA9C317A3981C354591E8D377D9A1FA45F011188B852EC5D862;
  0xBBE06E2B4CE36E1958C670F29EA7098375F0E92D91466EB5C0157BE63A0FCDD0;
  0x96E46343FE86FEF99AFB75FA84C826ACA8391F02E6C67E742D7551F6B63065A4;
  0xF53E34696609D27D451ED6AD2613CDCDA1938640CED6A21842A5E56609EE746E;
  0x887D80A7C6075C287F990183AD0D10E826F02DEE36B6D07CC9878CCF5A031609;
  0x3D17403C2D9BF6B057C84E66C49335EADC6A53B93EC15E5B78528BDB115F1363;
  0x3A6CAD97F965CE38626D69183D84A44DF88CA99A5EB6CDCCAC362EEFD980B9DC;
  0xE3EF10443241B23588D21E2870B11B2B13A2BC73F4814D6FA81CF39AB98C16B3;
  0x02CD3D0BC82B2C4D49B54785F85F879F7A9D00E6BB94CAEA73E33E594B69606E;
  0xA587146DD5DE4463A200C23502C1ABB500ADFBE395883CB102AD5827D7F6B1DB;
  0xD5BFC3EB6EB14B49C88C0CADD7BBC1C23EED1279B01E11A537663DF0E09FBB60;
  0x6C98517883B121820B2CBC3347A4C5C3E1D283E6FF194ED1427B0D930A35B9E2;
  0x12B0934A08D621E2A581D9091E4FEAE5DAD169648217FDD86CE0093B02F280D9;
  0x6AD4FC2C4C96482B8E8A9FFA6CD67E35D47F34EAF9E21594BF816D8C90DBCC9F;
  0xE3B9EE1AA527B2A833069A950B949B3457E440A13EDAF8EC1C290307BE1489D2;
  0xBBC4A26E0D1FC9D0CD5EA285E348C3E32553AB5071975E0FAE75CDA609835B2F;
  0x91ABF3BD517627421C35CF8500FF175E6826F50737E97943E40FD515F101F2D2;
  0x4752FAAD9526C81B77D96F5D885876A911A72FED9F69BA633B40624B4AB1386B;
  0x4C87F422D1C9744E67529F82BBBDA03703C7B40E1F448B08E59BC84D6A577BF0;
  0x74815C9A2BE4B9F800DAA95BBB82658633B881917044014841C7720872CDCAD3;
  0x8DDB37AA073A3739C044CE5B37B14B29B1CD8F421D352FF6DFEA10490D20FA85;
  0x11DF3BEB52AD5B9812F831C043472702522DD4FDE629B2AE38A49FE60F439270;
  0xA9D578AA1F60478ED39A8970291F4A9EE24241AB63707C9DA65E2F1CFF25B48F;
  0x57C1EA121908F1AEAC1BFE92BF40815370BAC3E1686D33590D7C518655716B89;
  0x7C521E685EE349AB9880F90793994CD3B0157B95499A84E379DE2319A1871C48;
  0xFE69FEA5DE46407A5461B8F5B313C2B470B03164497A4476452053A38032D6B6;
  0x5C568C10820C0F0FD50EE7279AC1E91E1BFF05D49FF2A53F3EB65A04ED6C2253;
  0xC2646FC715AA128076D1888C76DF68D2BB641AA5DB9B1E492C54E8CB27EBE5B8;
  0x2D92CC8F791097534A93CF9DCDD2BCDB04B0AF8EBF63F214AFF454AD612871B7;
  0xFB6F9D1B0B6B3979B8EA0BF1693D69CC88488E6BF9B819A0FC6C37046190A32C;
  0x38356E96F76BA52EAA4DDBE461D8293C1D917D1A71CB0A01F7AFB95E1B6060C6;
  0x1B7720FDB732CC51C22749D81B021727044D8BF7289C8611A51C004F5CF6B9C6;
  0x9156DBD2AD61B677812FFBE652A728A1C7C4D88CD8C1C96D8538CD38707F9DB2;
  0xEEA8E3196AF736C2EAE4E43610AC01B9F868C06F2CABEDF4D6AED9E05B1D1063;
  0x33AADDF99CFAA1C80D6E7A5DCD769883B54C6ED83F35CFCF70E3D6E9A8C82778;
  0x680663E9F9A3E4DE320DB5ACFA42910ADA86EE0F3787E0CB3635D5E6AE23BBA0;
  0x48995D93D2E7574706488619343C4711E45B9F305571484B945B3DC0B0195E66;
  0x9C711E4B30D97D7A42DC24A342E7E9248A41735856C7517DF13DD80149B17B68;
  0x930003D0C48543E03AD9C507241D85FF65DC8F9440F96C6EE0776D5CC6195150;
  0xBE6CF368F667993FCC0C2ABE0CDE9ED706B89BEE236C97C65CD524BF12C9D839;
  0x2F45EEDAA549D0E774F646D7429D12BAAD79208105E367C37B744FABC567DE44;
  0xC232FA626442A8A0227E272EAFCDB74222A2985DE1339CDA22ED338093F6FF95;
  0xD120A7B4AC5A0EBAD19994DC86C9ECD4C5E461697E005807F485C40B1BFA9EEB;
  0x1A7585B6D728DD62D9613170949DDC4718CB0EDEDFECFEC764A9BA5263FD70A9;
  0x0267A148D30EE504F9243EA7EEE0C2D379453BAFA5892D32B40071AF8721C319;
  0x7B52AC1A84E2449017A4D7D024B11CA893632CB9515702F9DC65E35F69BB125D;
  0x6B8361F3345EB66EA39650EE915D547FBDB82CA82E29BFF0C26437BF68277EB9;
  0x8B43B9E7877C6911412A57DC4E02D7546992E5F46943FD2C3CF5CF4653F4700A;
  0x075D25663EE6DA0DEB619779C4DB07CAC1DC00D1C51A41BD24B1AD7D9ABB57F3;
  0x5A3E9827D7F1D0302BF97FAD7EE667142E7ADB758EE8F3CBF4F92EC6774F457C;
  0x144B7AD27E0DD9B94290A119F024498CCF0B0723917781EA5B9E52D7BF2AA043;
  0xA5FDA19ECFC447FCACF2D32F07F256EA4C8AB711021DF9A548230CD13501F678;
  0x9C2F0B0AB568B3BF67C4DE27C19E6E0FAF002F29BCCDAE82C30D58E27DA707BF;
  0x4BD7414A69D1E48CC5464A0D689C28126BCC806F9198AF8E7A9B02E7EAD8A526;
  0x2569A98F58640EF224DFD0C12F354FAF6D8136C329912775A2E24222C5D32F97;
  0xC104C8A5DE9EA0C7B2608F7ADAC201B00F5027734EB370B6EC3D1F46D2B72E6C;
  0x798E61772EF78E97A9A61FE98D6B1BE2D9A1923DF0FED334A98C0BC47E00EB14;
  0xAFBF41278EA2EDA71AC7C067D698F043BD6BD03CD5F0A39EADF5E1F9ACE91DA3;
  0x9C005B2D6F8E985038497FC3297D6C0FB444A7806300A7D982A6600879213237;
  0x13BBD3A5897B6F01F571FFA3841B22C14780690FFA05C1B055433E520440B92F;
  0x8269B11BB0EDBE69663566BAB71BCE5FC4E8356341FE4539F7064E37336AB17A;
  0xA1889F647023E13FEC37266803E10DCF3EC722BEEC6329FA797E4E8AD2CE5AC8;
  0xA0FABB62EBAB26DE7969154578E95CC44247B4126ED8C103813DD33C879B7D76;
  0x98FD625D316E6D4B4D197DBBEB0E01FCAF75F554D45A81B6A3673F5C47822C78;
  0xC3F0AE138BCEE0780E6796790B241E16834BEBAEDB18D01F9C02EA58B16AB5CB;
  0x5BDF19BDC0ECB63B7B23BB573997EE5BAD40B43C9DE5AB055ECD4F026A77C30B;
  0x12843B771E8F5D5C8C0B6FA1CE538E990E9C432978D425CCAB7BDCA13B629087;
  0x5D1E90D6553FF816820C517DF2A601F35E6BE685950532D2C56D62986A9F3EAB;
  0x9A2A8E9583755EB847F2EA7954F5F3EA88666EE49ABEF0A66EB5851374506B28;
  0x21681E7225A7926804677F07BE2329F6C64B86CAD21DA0EAF67589CD85441ABC;
  0xEA80023C2B87EBF464F38D07E0A8D9F8C3BD4FAD21A9CCE7CB024BD1F8F06BC4;
  0xD3829F61B5D99561EEADC1D3244862CD70B0E4DC26C6A9A177178906DB234F31;
  0x23DB8B3FEC937073CA044EEBB9A83E0EA6F4D69387FFF4C1B7D8EB73291AD9AF;
  0xD9A3CD0FC533C7CB658AB2FADB5C66930D0A85670F20026D6DA270C51B0E9188;
  0x1CE9BF496D47892B83782431D5564EA950ADC1F1798D628D41F9E6AD2A8A6432;
  0xB8D5A11DDF4F04825812705508E9E9F8845EFE9E3F1E40B973129BF9537FDE90;
  0x53CBE07F0FC51D130307726F268D9908DE91232017A92F7F627D3E2399C37DA5;
  0xB8DA6ED42B7B8BF8C995D7DE54183E082DFC1F1AECE501FBB46BBADE501BFA36;
  0x6B3D27F1D1BC434093E65A953DA51CC196EF8C0012EC164164C0CE6D1572FA4E;
  0xC8707FAC4DF93260CA56A9A6D6AE7096962A8BDC60DD4ADF635AC693B0C40FF1;
  0xD10E9C995126E515766710E4E1B8E803C8B85194DD0B4CF75F671DF696C5FF85;
  0x75CD288075D8B119E5D129F7FC646555BC4F3008AF07BC202E367C20BF4F2FC1;
  0xFAC1AF438D26B36CD9A44E52C64502C798173C2764FB7FFA0C977FDC1FFC8660;
  0xF9350C61C69C8358180FBDDA740E072248A19EE76642F861034F8CF42AEA1CD4;
  0x7E7BA87268BFA55F313C4DB35CD2AF15F134C042A8A61EA4B9FFEBEB3842186B;
  0xB944B00B94AD68914844715B7D5BC4576392A57C1EB54E323F87D21A94FDB8CA;
  0xFEFA7C7CCC38E9CFBF3D172C639CD78837F40BEDD1D6BA934928EFBAECB291CB;
  0x04A6A520549851341474AF0AD87F65D5B40AF80F6A6F574C5D4712092EBD3263;
  0x530925F2ED6AFDEAC4D220775E4EC52C46EB01B1539647D1F3267CE65F1C1968;
  0x6F1ED87CBC8F64127F1221BF83200BBA2F08A729E63960940E0D37A029CD82D3;
  0xD0240D37B29619B7C9CE7F74C86C148A7FF4556B6DF10DCE3D3DE744BD352221;
  0x10AF9747C2DC558242A545A17E4F1E29757FCF889B3EFC56445169F061D86F4B;
  0xD6B7B6A63EA708B8ED2C4ECBC2D2C552C2AF79A8243E1A8EF256E5D6CF2C4E00;
  0x546C3A290E65C0C7FDB7AF788D88E0C7384AA5F6C5F75810733E49FC0EA2947E;
  0xC67FA6E295B78E9DFABCD36748716462181742B7F891FCDC3E53BADD452FB168;
  0x60F4C782A00783A98C2B6DCBEBDE08CF4C27F0502F5073123A10D5EC56F2CB9A;
  0xC8F7802235F5047A2E423E19A7EF78EF83B091D5B18D66F6AE504E15544E773C;
  0x5146ED92F2C2C76DC593E9BFA38A687610F8E7C86295A55D7DE01610C5DA3415;
  0x6F10B88555ED0410213E4E407CC032CBD783A21E643DDF3F7031BB5B25614A65;
  0x367BC0C98ED879D579BE8121653F5E08CB17E7D0BAB92EA0AE618F8AC31613C2;
  0x27B158107D597000E25A386D9F3C4043EE0F0A19F6191E5006854BC0874F7F11;
  0x5FAAF20CE137C12DC254B55DD6DD8AFF409AAF33BFC4038A83E405A68CC84D9B;
  0x29B6B338FA5C00B181CECE69A1E631BDBED65202409EBCBCD9150A25848CA81B;
  0x79DCCE14EC5AAB0B799664DC130746C323D855ECF2713019D123128B8C19DDC2;
  0xB89A328468876100A12224209C582DE8C01C3B8B5545ABB60ADC23CE2E526FD2;
  0x4B7E23AC6D89BCC08A524D7C6AEDBA05D0442EF9E45E326DD59DE8AE380A6F3A;
  0x775C0A9B4ACDBAC41C0F69B1DB722255C46252AAC2BDD2E94EA3CE2C9F0062A5;
  0x400502A44D1965C4F175554D423F88BE4D2A6B0807048BE79E02CB57B8B5AA31;
  0x547C60F980E15AA6B5F299585454F163364ADD3BCF9B2462054D2B9AEF31FF8E;
  0x214684776EBB57CCA55A53707C3A5F4B2287F71C22B6A1ACA1287D20A756B266;
  0x25F76AC3A81D347C33395D1C081D7A5CDB2B97EB3837D4371F7BE7A4FCFE00D4;
  0xB824E6300341FAEAC1636CBC123327962528B1475CFE7971D75785C81AB51D33;
  0xD00DBDB9CA3AF988C5F05C2D46826D2C4E7E91D4D8AA74BA58113C3A52F57A46;
  0xA7FAF2D86C752C014B4DC66BE7A67C2ED7140109CAEFD4CF102A549472FF8C89;
  0x52558E5864D037C07B761ACB8E00DF7730CDA7FC5E58542609182D3A5218B763;
  0x3988BA59C92461DE6D89710E03D35727A55CAFD9DAED10333E5D4ED65621D05C;
  0x6A387F2AB8588D343DCAB02E01EFF299A2AF27A5BCCE8C31B17AC3268BD2B240;
  0xCAE9E8DAD15502D3E9BDC8868E3C811B5404ECC2D08874697666A2644574A239;
  0x5AFC16F72EAB153B70A64ECDF966BB02C2838E85DFA2ABBB7863C04D56EC833A;
  0x4FF607BDBC303333A5CC29A416FB6C62DB4380A59A3467C8B15606BECC455EBC;
  0xF149B6B6461C50AA928B9A5975A448D9F55F9300A0A4654F7DEF31C0ECEE900F;
  0x3AB740BA7B69CAAC15F7E1C59C0C3E85C359AC04B1B92B5A9AFE1A52D262C253;
  0xBBBAF310E7918C8E3F719757C3F378C0D8FCEC03CA4E36E3ACE6F762F3B3F9A1;
  0xBBAFB49B46FF33BFC71FA03516068E3007481E86582423E7AD7719CE794D263E;
  0xF0E2266CD34376793E61EA89339B65B59D2607ED9658BA61AF0CF86D29ACD3F2;
  0xAFA2B9F6B2FBF5C931151FE7EA84CD09BB57B6F6B91F366906F04F64A94AF3C7;
  0x730B255B5B2D9F3DCCC94B474E6D25DA96868AFC353B834F0E55C1FDB64A024E;
  0xB33035F1E6C51CEBF1706286A080C2CCADC504F61D9C9F3BBA2CE531CFE1F27E;
  0x01C9F216AABC3BB80B1B59D473093ADC6EB1C97CC7F98F6E0935CCEC54218251;
  0xD4D1918A164FB0482182B409656A453CF718F4C8C565079EA71F7382FFB17413;
  0x3CA09F74DABAEB133D04920D1F5E9B2F31A9E36CCD1FB5CA0ACDF17131E7D6F7;
  0x9409A37AD279596AFE2A96AE48B9787E2E27B4D622AF11BD1857EDDB28C0AF09;
  0xB0D81ADFCA201998BF1D773C05682E32AB744DEABAF262C580499B8F7708BD54;
  0x2CC8432A8CD8FF23EE294339DB18254DB4F2EC3090E8875EA9444B37A81C1F12;
  0xE1A7F0A4FDAFDB6BF1D589ECFDA6E8655E8EA2D55DAFCC37155A11C8C78D73D2;
  0x44743C703EF2BE62E9BA4061F31FC3FD075E75994A3B62B465FD240FC9C9A871;
  0xB175016D74481F8CF90CE117800651D3F98BAA0BFC73A6A569A9BB4950207FDE;
  0xE2DCD8B65CF09CF0D62DD6AD9E4E74B789C11B0BB1633D279FA4C7060AAAA703;
  0xE6424B38267D8358C9709503E4715462D7891CB285523F4BDE91B9F0451A856E;
  0x50578A7FF8750720D7C85D9499C1CF5ACA427D5757F7ACB240620BA228BFDE15;
  0xE46434569AD63139E99B0431CC2797C18A25035C56BADB78ACEF0BD2AD2038B0;
  0xC89F8A584517E655FBE4B28DBE22F527ECF82AA0297AD79A0F46C875A32C40FB;
  0x8DCA6B4620DF43FE4466304F887D7882B1AED774E0E1EF730F23DB21E1711628;
  0x00144816F0194CDA5170BE983910A0F2CA9C3919D5F5FA274D2EC45259E6B07B;
  0x9C5454AC87AAC1CEF4B901A084B3DF8AF43C028DF2EDBE8E42994BE07BF79351;
  0x08F00BEF47F4B385788877D707A707C2F9E0B15776F732B1239D51428E6620FF;
  0x2C1C98D338DE05CD6B8FF8EC302ADB98AEEE12B29B512ED5D28A8506A59DDA09;
  0xFBB0C5F20C94F23DB808B43242F9B9E1963E2547E8D4030E94097F20FFE7F96E;
  0xE467EDBB575A7A32BB0107452D61506150E5520F09F18D80EFA5053EF2B62DBF;
  0x0DB59FCA65C95DD021C6D2FE556DDA6BF189439305595D652D1A2049F2DC267C;
  0xDB121A347AAA830150F93A35D09ADBE011AA0C3740840915A759CF40DD1B93F3;
  0x886CE834C1F812FBA1DF0C78675D1180BDB66EB7BA599E0D24995110BDAE945A;
  0x6546F8E9FCA1414B822D13272F2CB2321D0F7B21100DAD7F1D10D17E01B6E78B;
  0x638E3511BDB277754BB59F2981EB3CEDD5D39B20FAAAFC9E135ECA600230DEC7;
  0x1C948949AF4D63B6D8F29B30485821E6452D06310CD811AD09610DEFC1C37DE9;
  0x86C8158796E3817BD549E02E1C50F7D32312AEED6853AEF7EFFD76BF950F9639;
  0xA704ED7FF44CFB8B744483F7FA42D71DC60CC3D46088787609DF499464BD9AFE;
  0x61AD3710A481DF5AD0E8DB5C8149E75F4837AF5D97367B04CEA7E5F8307631E2;
  0xF5AFE5EF1CC909657C7FDD83F1B14A1F758E039D4505AC3DED3E9B4564B559A5;
  0xA77243A41A8AB0F2E2BDF601DFB6EE454A89B3B41B6618A3773D65ADF48CC942;
  0xAE01F6AFD85EE38E5952DC3ED982DC1305A15CA9CF3EF3025113FB3D7966E9A3;
  0x39AD896C932F9F8306E83501180225BDCC6B17AA53B407F5AEBE554F13B03B86;
  0xC6E6C2A07050DEB1123518BB106166259388EDE40A3299AB870A01C9D6C61C88;
  0xCD04BC3777A3832FD4623AD1811483715FE8BCE2A6AC26AC3E904E1C836C589A;
  0xE1C0FAE0B4DE987B11D9D78EFDBC3CC5011FEA70AC6A10E1DCE7540FB1F46C76;
  0xC20CD500EF75F183AC54F46F0758EB5C66D617367A88CAF667CB8DC4CB04ABA2;
  0x5AF7F321CDEBBD97CD333AF91B01C045CE2A5C8D4EDFC90C7312B0654612EBA9;
  0xD5C0DE70A00CCF883BB4FCB259A95B8C85CD1512C7D6D091C96BD32D55163EA7;
  0xCD1804536057307EB19479D99644C48BBC15A3E40F82F9FF53E76B21A364A182;
  0xC937DE969DDD86569FA60D756B8099115EB589C15AF414F9E3E51D77F0628C9C;
  0xF566E0405BA72796A03F54AD6A5A437ABBE31D4248736A9DEC6D8D0B4059D5F3;
  0x7085401A710741506F269022C0C03114ACE643030E03186C731395E38F331D51;
  0x13F7F559D229875FF83F56F832DCF04059EF15AF68152204132BB92A2D16964E;
  0x21D8B20233A5D96ADA9833337A6FDEC680418CF16296BABF8018CB0A64E9763C;
  0x5EBCA15C50545538B312DF7993DFA40DABEAA743B5D78F34CE5772E2F2E31105;
  0x1CBBD05788F812478DA793FC6CBBA9BC2B6747DC372F81C39C95ED005058C84D;
  0xB3221525044758FE8B341772D3950503FE012B1A38ACD79E18B38C4BBE4DC412;
  0x480E9E201F4ACAE2D6269DB895F45C26BCB477E9C27930F2BCDC7215E4C3D60A;
  0x958D830387296649B28F9FBBE9043BAF37B6943BB84E0B975EF6E6D568722775;
  0x4A529BE2023763A7A5D779F8CDB6CD56A8A7066A7E0011C6C6829596A23246C0;
  0x755DB091EC1673A0CD25177F6AC671E442E7047326FB2DDE2BFCF28C65C1CE34;
  0x0B7E9250C724CBFFCB1FAE02E4DC9452CAB37AF09BE9778929ACE07CE86A6142;
  0xF088D453A84315B57102696A5A836E47F95AD8DFF5DD70B0C9CB66D6B8DE2301;
  0x9FBDE1223A0CD82D8E2344B0D4BAC24ABEC3DD29312D80C163C2CAF5095A86CA;
  0x2DF4AA652006397660C189DCECDD1A4D405A985E350BC3275349F268BD6E5990;
  0x0C66C884F5DDF359FD2D06629292E05FA65CE7E81CE9DD48832E02B6F6B3F509;
  0x067994266681DB12FF7C8B32174CBAC1AD167B8A5DA94F9268403781E25C2642;
  0x3B1EFD503F18CD9CE3719EE2CBA72F834E6F0DEC1162EFF00E7AE76AD7BC38E9;
  0x690BFB6D41FB8D0C68BDF95DE463E784919352CEB157F596AFE88BC5728A50AD;
  0x2C5688F72C8C36078F9F606B7F85EAAC3DF96B2138984C48109D46E549DA2B0E;
  0x33671CDBDBB6C1B331098363AB4903731CBAB60B6ACE788D2463561C760F5895;
  0xD6C64E3C4616ED1E9F175271082C6DE50EC652FD967DD45A49E146BD32448EDE;
  0x934EBDE64571FD098F616B77E96F16723B35126E6A6BAC38B7D613A1A05C79CB;
  0x09BBDBB2EA1463A9250D91FA310E5F00D6051ECB5ECA53E58BD6CF56B56CB35D;
  0xD6807D139894B6A218C45CA6BAE1635B5C31E9DFEA6ABB0B4CD3DF7289143F95;
  0xF4DB164846264A8F28E984F829B12351072E203DD45B5051F6378EE52419DE45;
  0xE63B1C0C94EEDF95865BA51C609CB481F50A2C062455445923ECB5DAE27709B0;
  0xD7F675C46ECC8720623C0933A0F293E7CE1FE39FC62B93DF4DEB06FD72788390;
  0xE9D74550600AEE32350D865A522DC374E2584061B11D19BD70F7396ADD301F72;
  0xC301565C22E70CA6886D3C449D03963A5888805FF43EA3430A89F1283DDB6F60;
  0x4FD83392DDDA77D7A5E78B232AB7F2F8CF1CA0A9C8ECF16F37C26357FA1BEC60;
  0xE565721F74D1A4DB8D11A1113DCCDF2230329A3D91A056F67199B55D837197C4;
  0xD0CF9B1DD721DF850C6E85F645D961106A0772E118D60040E759C5B10EA0F174;
  0x4083EFEE901C1783353A40AF080B6270E3D268E69E1AE5CCC48A4CB9C0179CEF;
  0x8350301783EE8698673CB27DAD2FF8B17AF040BBFEFC3FD4A1D2ECDEDF1AF809;
  0xD0ECC36918E66B2EB8B2823964227E5CB76D4BA5A5EDC4C65A3E421BBF25D38B;
  0xD902F0C53BC063950BF67E5A64636551FA374B408002FE1FC6B3CA1289950139;
  0x0846D913BC1921951DCC4BEEE8ABF7FF61FE2E6C9CAD13CC4C48ACA9F4B6ACA3;
  0x6F470CDF2BD80FA3E5EEAA19B3920C5D87E884B0BA15ED8DDCD311853B695746;
  0x01D3BF8A8504E269EBC725C228C55A83BA10354E331DE08BFDD23B06E7168F42;
  0x2FE5C49D0D23A6BC872884DC626F205550DF9A09787B92A3D23D22B2D9B7E64D;
  0x0A35E127179587AA4247141DF4190A74158D281D818A0D2F0FCFAEA0C9996C3D;
  0xF4D056F77A84B629185847A5839B8B6C5E22E45A63E200EBAE3FB45DF09340E7;
  0x66C61DD09AB586EF2AC9261088869F0BDEECB88290C5690BA0F805EE154EBE3B;
  0xC997C667C402DD7589A4E26E26D22317D5134944F5A68225B70365D7224EF86E;
  0x7DACFA67E2FC72591B36D6382AA9202550DCBE533B32E4E533FCCAE0BE7B806A;
  0x1DACD8855A05DF5C7E883B855333AEBC2B7E118F60B94FB20CF36F08AC602542;
  0x49CC5D7386CCD64FB226CBA44545A4B402A89AFE4814D93D93B3E2FE737673F0;
  0x32D92A6AE8E1C71EB51A2307E004970448D2B1324A7DAF626EE07CD6B8AFEC0E;
  0xD8736BFEDC12BEC8383DA3ECCA50F441C1ED4D845FFF945BFF559B3AF4D3E7C8;
  0x2CF3D87FFA21563BA72BDBA730DD9AA716327F6906772BC9186DD0EDCBAF9B2D;
  0xE1CA2B4BB57CB14ECAD4C71ED73E2A928FCEAA3C9DB6C76F8C66FC25E2978228;
  0xFCCDBF311A6B120C07EFFDC05C44826968BCA8B7254E8B3A831F3729735A5CC1;
  0x7C551A306A6B588BD9081854409DF4D14CCADDFF0598C0FA2B25DCE81FDC1B48;
  0xF6EB29B0E15E31EA197CFA5AD7CAD26DF0FF2AA1FCD1C5FFD058F2B9E175A26F;
  0x4DD1F4A88C9A8BD07FCFF5591D39E31E13D0737AEDB1D22FC1B851076A010641;
  0x27EF483F0CF76A4E620530E14C2361E1564B4B17B72F6606EB238FEC0E2536B4;
  0xA9C5ED6006DB645E62292B378A7DF17EA922677F9BFB8F6173305E607A960B44;
  0x0E0A27D3CC6BEE4225A0F68DB9A939296306E80DE5A1A0C570A9CBBA240650FF;
  0x3CCD0227F12B9D397F409FC63CED5DE8E7B2390CE80E8B6DD7CAD080856B7DF6;
  0xFDBB53A5EEB658A62829DB9A10E04EAEE1F5DF67EBCAFDF6E27DCC0F7135FDC6;
  0x881DAC00F001A9E8A8E04F5EECC0362F9112D96065854905625615A831B0E146;
  0x74B167FF91235EC1F4A44FD0148C2CBDF9EA48E995E2B87D77F23DED7D545430;
  0xB4166082163716E16404E6CF3386488556BEBA7DEE773FFF271F231FD11BA0D8;
  0x471FC194FEFDC0C6663A0D3501A21F17707A9609D28B7E2729D50261D06F8406;
  0xF469F4456EEC375CD6CB76ADC266E6B22690AF67C7ACEC2D5D44CF11DD5FA26A;
  0x18EE9B5A59170658C7D20D2A9000D7373D902ACD55CB5B02BE7C06EC4949A3C4;
  0xC0F0D2E597D60FE42CB0CF61518A2777726E6FB428C7F9ECA976EC8B53BE2B18;
  0xE5EE476590AB12F845C7D17142EEB02B81EDB08A28B1C1A51CB2B7C6B54B6AD4;
  0xA508E998EDA3458C4A69362F0F33BAFC87B586417905B57F269418E7E6CBBE73;
  0x47E37044E18D6BECECC40192E67F5C6FE9BAC33A5A92879F091DFBDFA67204DB;
  0xFBFB69BC5BC93803229D3E011EE37982969F002DF4D4441958B88B162AC8C122;
  0xFF40B66D22DB6267312E0244A4DA9B02F209114BAFF72D558EA3BFCCEEB007AC;
  0xC42C54BBC62580FD1AE415530CA04822F5662E26335068B2F96EAD3CB288764B;
  0x89D1D25A8899C3A1959A3E6AAAD1E42B722B0090B068F25BA18B18FEC847DA99;
  0x2ED03A0C0D4C129BEBD76EB97E19D8A4ACFA88FAC94DB90CAAAC04B424837172;
  0xBFA51DB9B870E0574E27B7B5514891AE1A9517E725B44166665D062177937F1C;
  0x03E4F6170CC094088ED418BE8979D3B04A39783DE79BA292842EFE0E6DA9D5E8;
  0xB9C024FDB85A55263B883755318A5701365C77D2F843899697F955F59C9602C1;
  0x7CEA461EDD17484493C15CF247ADADB776360D5EC15014AD6449CD4C0696463B;
  0x567B8DA3C9516B2B06233541AEB4EF4D8D6EBF1CCA6C79BBB69ED3A334BFD612;
  0x97429649B7D8B79A136A2CD9C77145FCCAAB404E78D5C8E216D78B30991375FE;
  0x1CEC18C77D42CFFECBC07259F9C57C1AE352D0A65FE5E19B7D2AE0FE953F40AF;
  0x2AB8F813126E2D6BD5C5AFCFEC5A8715BA240E9C28A83C1717A8DF556DA87551;
  0x0539F49B4565DF62DD7AFE728485158481B3C0B3338CB06C1A0E950C98A6C6E3;
  0xDC97814476CB44B7446B1C0B3282346370FF76F2E1B8ECBD27BC012CD7A3FC87;
  0x6788F1F0F8C701A88303DB4044434970823758EDCB2AF33729A8A11925A0F7DD;
  0x541ECAD8B08C52C71B51D04EDD984804DBC5FC6E5B625340ADBD348C35244BA5;
  0x9C9894EAC75B1016F4618077F87A05446C54AAFD278E46CA8A869872255A4113;
  0x2D1A13FBD73474E6801DA37A99CAF18FED45F3D6ABE7F57F614536195D91F780;
  0xC3C6CA77D85636BCC7C993F616E4681AAD7A19EA76F9755382D2689C9B4CD321;
  0x31C0C8B480B712A452C461E06BEC693E67DEEEB4B4579CAF5B816F7A7776D0A2;
  0xC44782BF4650FA6DF1E3805BFF48B394860D2B99CB1A71A142B07715364B88AF;
  0x24E915FC3CAAE3502365BDF8B4B68D99D5360A50CDBCB9E5ABECCCDC22F73D31;
  0xABEF79E6A8C3C2B85457FF539387F699F973DE6344BFA793F5239D0A70584C6E;
  0xE8E028D1B6D6A132B6ACC7C69F2F5970C9D59E124BF852A808AE91B3956E0FB9;
  0x5A8A92978F724CDEA50F4E7D4CBC221B0403B440924BC4BACB37B40B6BB9D145;
  0xD19420612CBB3CD23E5B61A4B89450A52B7E05480C2F80F38069F6F1B6D0F371;
  0xF569ABC415D5BC5D5E61A7F8128134C39D78DF34A597C4DE58C4CA3429C2D7C7;
  0x2D3809CCFAD647EA0595025295F25FC5F9E526B095016FA3BD1E35D2AF21891D;
  0xA230813711E6FD45B62CA0D4D129493C5C79375B54C670DAA779A7B0289CBCB5;
  0x756B9C3F89CA7B2B465B38ECFD1BE68B810019F0BACE9B4BBD024E29871723A3;
  0xD862CFF4370114242C509E8B509D743728B488EA20D50437BAD7921ED94B62E0;
  0x0F75A9BF8B0CA5FE11BF7261B0C0CF0FDAC5B2DA0D812363E4AE67776793081D;
  0x0BA185C5B499B9CA7E24D55F914D94AC1A3B3D804FBD2964809F3B461F8BAF80;
  0x58E8B7BCFD92C6227301C6CEECE5414F39E28D9BC267FDE22B3D18CEB7496334;
  0x7F9450417C9E6B5C46F2D6F6D19909F8641F6D774B4DA8555DD3C0B94C262CD4;
  0xD398A3E8F03F95FD2C4FEC0A96C8897D7158D2FFA894CF84E77B672B578C9687;
  0x5548A79C89E36351CB8573D7C6993BA48C35BC6F01EE630C9CE358C3B858EAEB
].

(** [2^256 Q] and [(2^256 - N) Q] are the same point. *)
Definition order_check_Q : bool :=
  same_point (big_ladder 256 (2 ^ 256 - ec_n)
                (BigZ.BigZ.of_Z Secp256k1.Qx, BigZ.BigZ.of_Z Secp256k1.Qy) None
                order_certificates_Q).

(** A number for every point of the curve, below [2 p + 1]: twice the
    x-coordinate plus the parity of the y-coordinate, and [2 p] for the
    point at infinity. *)
Definition point_code (P : Secp256k1.pt) : Z :=
  match P with
  | None => 2 * Secp256k1.p
  | Some (x, y) => 2 * x + Z.b2z (Z.odd y)
  end.

(** The points [a G + b Q] for [0 <= a < N], numbered by [i = b N + a]. *)
Definition coset_point (i : Z) : Secp256k1.pt :=
  Secp256k1.add
    (Secp256k1.mul (Some (Secp256k1.Gx, Secp256k1.Gy)) (i mod ec_n))
    (Secp256k1.mul (Some (Secp256k1.Qx, Secp256k1.Qy)) (i / ec_n)).
(** ** Facts about bytes and hexadecimal strings *)

Lemma byte_val_range (b : byte) : 0 <= byte_val b < 256.
Proof.
  unfold byte_val. pose proof (Byte.to_N_bounded b). lia.
Qed.

Lemma byte_of_Z_val (b : byte) : byte_of_Z (byte_val b) = b.
Proof.
  unfold byte_of_Z, byte_val.
  pose proof (Byte.to_N_bounded b).
  rewrite Z.mod_small by lia.
  rewrite N2Z.id, Byte.of_to_N. reflexivity.
Qed.

Lemma byte_val_of_Z (z : Z) : byte_val (byte_of_Z z) = z mod 256.
Proof.
  unfold byte_of_Z, byte_val.
  pose proof (Z.mod_pos_bound z 256 ltac:(lia)) as Hr.
  destruct (Byte.of_N (Z.to_N (z mod 256))) as [b|] eqn:Hb.
  - apply Byte.to_of_N in Hb. rewrite Hb. lia.
  - apply Byte.of_N_None_iff in Hb. lia.
Qed.

Lemma be_int_app (l : list byte) (b : byte) :
  be_int (l ++ [b]) = be_int l * 256 + byte_val b.
Proof.
  unfold be_int. rewrite fold_left_app. reflexivity.
Qed.

Lemma fold_be_acc (l : list byte) (acc : Z) :
  fold_left (fun a b => a * 256 + byte_val b) l acc
  = acc * 256 ^ Z.of_nat (List.length l) + be_int l.
Proof.
  unfold be_int. revert acc.
  induction l as [|b l IH]; intros acc.
  - simpl. lia.
  - cbn [fold_left List.length]. rewrite IH, (IH (0 * 256 + byte_val b)).
    rewrite Nat2Z.inj_succ, Z.pow_succ_r by lia. ring.
Qed.

Lemma be_int_cons (b : byte) (l : list byte) :
  be_int (b :: l) = byte_val b * 256 ^ Z.of_nat (List.length l) + be_int l.
Proof.
  unfold be_int at 1. cbn [fold_left]. rewrite fold_be_acc. ring.
Qed.

Lemma be_int_range (l : list byte) : 0 <= be_int l < 256 ^ Z.of_nat (List.length l).
Proof.
  induction l as [|b l IH].
  - cbn. lia.
  - rewrite be_int_cons. cbn [List.length].
    rewrite Nat2Z.inj_succ, Z.pow_succ_r by lia.
    pose proof (byte_val_range b). nia.
Qed.

Lemma be_bytes_length (n : nat) (z : Z) : List.length (be_bytes n z) = n.
Proof.
  revert z. induction n as [|n IH]; intros z; cbn [be_bytes].
  - reflexivity.
  - rewrite length_app, IH. cbn. lia.
Qed.

Lemma be_int_be_bytes (n : nat) (z : Z) :
  be_int (be_bytes n z) = z mod 256 ^ Z.of_nat n.
Proof.
  revert z. induction n as [|n IH]; intros z.
  - cbn. rewrite Z.mod_1_r. reflexivity.
  - cbn [be_bytes]. rewrite be_int_app, IH, byte_val_of_Z.
    rewrite Nat2Z.inj_succ, Z.pow_succ_r by lia.
    assert (0 < 256 ^ Z.of_nat n) by (apply Z.pow_pos_nonneg; lia).
    rewrite Z.rem_mul_r, Z.mod_mod by lia. ring.
Qed.

Lemma be_bytes_be_int (l : list byte) : be_bytes (List.length l) (be_int l) = l.
Proof.
  induction l as [|b l IH] using rev_ind.
  - reflexivity.
  - rewrite length_app, Nat.add_comm. cbn [List.length Nat.add be_bytes].
    rewrite be_int_app.
    pose proof (byte_val_range b).
    replace ((be_int l * 256 + byte_val b) / 256) with (be_int l)
      by (apply Z.div_unique with (r := byte_val b); lia).
    replace ((be_int l * 256 + byte_val b) mod 256) with (byte_val b)
      by (apply Z.mod_unique with (q := be_int l); lia).
    rewrite IH, byte_of_Z_val. reflexivity.
Qed.

(** Two byte arrays of one length with one value are equal. *)
Lemma be_int_inj (a b : list byte) :
  List.length a = List.length b -> be_int a = be_int b -> a = b.
Proof.
  intros Hl Hv.
  rewrite <- (be_bytes_be_int a), <- (be_bytes_be_int b), Hl, Hv. reflexivity.
Qed.

Lemma digit_hex_char (d : N) :
  (d < 16)%N -> HexString.ascii_to_digit (hex_char d) = Some d.
Proof.
  intros Hd.
  destruct d as [|q]; [reflexivity|].
  do 5 (try destruct q as [q|q|]); try reflexivity; lia.
Qed.

Lemma to_N_acc (s : string) (acc : N) :
  lower_hex s ->
  HexString.Raw.to_N s acc
  = (acc * 16 ^ N.of_nat (String.length s) + HexString.Raw.to_N s 0)%N.
Proof.
  revert acc. induction s as [|c s IH]; intros acc Hs.
  - cbn. lia.
  - destruct Hs as [(d & Hd & ->) Hs].
    cbn [HexString.Raw.to_N String.length]. rewrite digit_hex_char by exact Hd.
    rewrite IH by exact Hs. rewrite (IH (d + 16 * 0)%N) by exact Hs.
    rewrite Nat2N.inj_succ, N.pow_succ_r'. lia.
Qed.

Lemma to_N_bound (s : string) :
  lower_hex s -> (HexString.Raw.to_N s 0 < 16 ^ N.of_nat (String.length s))%N.
Proof.
  induction s as [|c s IH]; intros Hs.
  - cbn. lia.
  - destruct Hs as [(d & Hd & ->) Hs].
    cbn [HexString.Raw.to_N String.length]. rewrite digit_hex_char by exact Hd.
    rewrite to_N_acc by exact Hs. specialize (IH Hs).
    rewrite Nat2N.inj_succ, N.pow_succ_r'. nia.
Qed.

Lemma hex_char_inj (d e : N) :
  (d < 16)%N -> (e < 16)%N -> hex_char d = hex_char e -> d = e.
Proof.
  intros Hd He Heq.
  apply (f_equal HexString.ascii_to_digit) in Heq.
  rewrite !digit_hex_char in Heq by assumption. congruence.
Qed.

Lemma lower_hex_inj (s t : string) :
  lower_hex s -> lower_hex t -> String.length s = String.length t ->
  HexString.Raw.to_N s 0 = HexString.Raw.to_N t 0 -> s = t.
Proof.
  revert t. induction s as [|c s IH]; intros [|c' t] Hs Ht Hl Hv;
    try (cbn in Hl; discriminate Hl); [reflexivity|].
  destruct Hs as [(d & Hd & ->) Hs]. destruct Ht as [(e & He & ->) Ht].
  cbn [String.length] in Hl. injection Hl as Hl.
  cbn [HexString.Raw.to_N] in Hv. rewrite !digit_hex_char in Hv by assumption.
  rewrite (to_N_acc s), (to_N_acc t) in Hv by assumption.
  pose proof (to_N_bound s Hs) as Bs. pose proof (to_N_bound t Ht) as Bt.
  rewrite Hl in *.
  set (w := (16 ^ N.of_nat (String.length t))%N) in *.
  assert (d = e) by nia. subst e.
  f_equal. apply IH; try assumption; [reflexivity | lia].
Qed.

Lemma lower_hex_app (s t : string) :
  lower_hex s -> lower_hex t -> lower_hex (s ++ t).
Proof.
  induction s as [|c s IH]; cbn; intuition.
Qed.

Lemma string_length_app (s t : string) :
  String.length (s ++ t) = (String.length s + String.length t)%nat.
Proof.
  induction s as [|c s IH]; cbn; [reflexivity | now rewrite IH].
Qed.

Lemma replicate_zero_lower (n : nat) : lower_hex (replicate_char n "0").
Proof.
  induction n as [|n IH]; cbn; [exact I|].
  split; [exists 0%N; split; [lia | reflexivity] | exact IH].
Qed.

Lemma replicate_length (n : nat) (c : ascii) : String.length (replicate_char n c) = n.
Proof.
  induction n as [|n IH]; cbn; [reflexivity | now rewrite IH].
Qed.

Lemma to_N_zeros (n : nat) (s : string) :
  HexString.Raw.to_N (replicate_char n "0" ++ s) 0 = HexString.Raw.to_N s 0.
Proof.
  induction n as [|n IH]; cbn; [reflexivity | exact IH].
Qed.

(** The digits of a positive number: lower-case, and the first is not 0. *)
Lemma of_pos_shape (q : positive) :
  forall rest, lower_hex rest ->
    lower_hex (HexString.Raw.of_pos q rest)
    /\ exists d s', HexString.Raw.of_pos q rest = String (hex_char d) s'
                    /\ (1 <= d < 16)%N.
Proof.
  induction q as [q IH]
    using (well_founded_induction (well_founded_ltof _ Pos.to_nat)).
  intros rest Hrest.
  assert (Hd : forall d, (d < 16)%N -> lower_hex (String (hex_char d) rest)).
  { intros d Hd. split; [exists d; split; [exact Hd | reflexivity] | exact Hrest]. }
  do 4 (try destruct q as [q|q|]);
    try (cbn [HexString.Raw.of_pos]; apply IH; [unfold ltof; lia|];
         first [ apply (Hd 0%N) | apply (Hd 1%N) | apply (Hd 2%N) | apply (Hd 3%N)
               | apply (Hd 4%N) | apply (Hd 5%N) | apply (Hd 6%N) | apply (Hd 7%N)
               | apply (Hd 8%N) | apply (Hd 9%N) | apply (Hd 10%N) | apply (Hd 11%N)
               | apply (Hd 12%N) | apply (Hd 13%N) | apply (Hd 14%N) | apply (Hd 15%N) ];
         lia).
  all: cbn [HexString.Raw.of_pos].
  all: first
    [ split; [apply (Hd 1%N); lia | exists 1%N, rest; split; [reflexivity | lia]]
    | split; [apply (Hd 2%N); lia | exists 2%N, rest; split; [reflexivity | lia]]
    | split; [apply (Hd 3%N); lia | exists 3%N, rest; split; [reflexivity | lia]]
    | split; [apply (Hd 4%N); lia | exists 4%N, rest; split; [reflexivity | lia]]
    | split; [apply (Hd 5%N); lia | exists 5%N, rest; split; [reflexivity | lia]]
    | split; [apply (Hd 6%N); lia | exists 6%N, rest; split; [reflexivity | lia]]
    | split; [apply (Hd 7%N); lia | exists 7%N, rest; split; [reflexivity | lia]]
    | split; [apply (Hd 8%N); lia | exists 8%N, rest; split; [reflexivity | lia]]
    | split; [apply (Hd 9%N); lia | exists 9%N, rest; split; [reflexivity | lia]]
    | split; [apply (Hd 10%N); lia | exists 10%N, rest; split; [reflexivity | lia]]
    | split; [apply (Hd 11%N); lia | exists 11%N, rest; split; [reflexivity | lia]]
    | split; [apply (Hd 12%N); lia | exists 12%N, rest; split; [reflexivity | lia]]
    | split; [apply (Hd 13%N); lia | exists 13%N, rest; split; [reflexivity | lia]]
    | split; [apply (Hd 14%N); lia | exists 14%N, rest; split; [reflexivity | lia]]
    | split; [apply (Hd 15%N); lia | exists 15%N, rest; split; [reflexivity | lia]] ].
Qed.

Lemma hex_lower (bs : list byte) : lower_hex (Buffer_toString_hex bs).
Proof.
  induction bs as [|b bs IH]; cbn [Buffer_toString_hex lower_hex]; [exact I|].
  pose proof (Byte.to_N_bounded b).
  repeat split; try exact IH.
  - exists (Byte.to_N b / 16)%N. split; [|reflexivity].
    apply N.Div0.div_lt_upper_bound. lia.
  - exists (Byte.to_N b mod 16)%N. split; [|reflexivity].
    apply N.mod_lt. lia.
Qed.

Lemma hex_length (bs : list byte) :
  String.length (Buffer_toString_hex bs) = (2 * List.length bs)%nat.
Proof.
  induction bs as [|b bs IH]; cbn [Buffer_toString_hex String.length List.length];
    [reflexivity | lia].
Qed.

(** Reading back the hexadecimal text of a byte array gives its
    big-endian value. *)
Lemma BN_of_hex_bytes (bs : list byte) :
  BN_of_hex (Buffer_toString_hex bs) = be_int bs.
Proof.
  unfold BN_of_hex, be_int.
  change 0 with (Z.of_N 0) at 1. generalize 0%N as acc.
  induction bs as [|b bs IH]; intros acc; [reflexivity|].
  cbn [Buffer_toString_hex HexString.Raw.to_N fold_left].
  pose proof (Byte.to_N_bounded b) as Hb.
  rewrite !digit_hex_char
    by (first [apply N.mod_lt; lia | apply N.Div0.div_lt_upper_bound; lia]).
  rewrite IH. f_equal. unfold byte_val.
  pose proof (N.div_mod (Byte.to_N b) 16 ltac:(lia)). lia.
Qed.

(** [toScalar] throws nothing: [null] for the empty array, and for any
    other array the value of the bytes modulo the order. *)
Lemma toScalar_nil : toScalar [] = Ok None.
Proof. reflexivity. Qed.

Lemma toScalar_spec (bs : list byte) :
  bs <> [] -> toScalar bs = Ok (Some (be_int bs mod ec_n)).
Proof.
  intros Hbs.
  unfold toScalar, log_and_rethrow, try_catch, keyFromPrivate_getPrivate, BN_umod.
  rewrite <- BN_of_hex_bytes.
  destruct bs as [|b bs]; [contradiction|reflexivity].
Qed.

(** A byte array with a value other than 0 is not empty. *)
Lemma be_int_nonzero_nonempty (bs : list byte) (n : Z) :
  be_int bs mod n <> 0 -> bs <> [].
Proof. intros H ->. apply H. apply Zmod_0_l. Qed.

Lemma be_bytes32_nonempty (z : Z) : be_bytes 32 z <> [].
Proof.
  intros H. apply (f_equal (@List.length byte)) in H.
  rewrite be_bytes_length in H. discriminate H.
Qed.

Lemma substring_pair_head (c1 c2 : ascii) (s : string) :
  js_substring (0 * 2) (0 * 2 + 2) (String c1 (String c2 s))
  = String c1 (String c2 EmptyString).
Proof.
  unfold js_substring. cbn. destruct s; reflexivity.
Qed.

Lemma substring_pair_tail (c1 c2 : ascii) (s : string) (i : nat) :
  js_substring (S i * 2) (S i * 2 + 2) (String c1 (String c2 s))
  = js_substring (i * 2) (i * 2 + 2) s.
Proof.
  unfold js_substring.
  replace (S i * 2 + 2 - S i * 2)%nat with 2%nat by lia.
  replace (i * 2 + 2 - i * 2)%nat with 2%nat by lia.
  change (S i * 2)%nat with (S (S (i * 2))). reflexivity.
Qed.

Lemma parse_byte_pair (b : byte) :
  toUint8
    (parseInt16
       (String (hex_char (Byte.to_N b / 16))
          (String (hex_char (Byte.to_N b mod 16)) EmptyString))) = b.
Proof.
  destruct b; vm_compute; reflexivity.
Qed.

(** The loop of [bnToBytes] reads a byte array back from its
    hexadecimal text. *)
Lemma parse_pairs_hex (bs : list byte) :
  map (fun i => toUint8
                  (parseInt16 (js_substring (i * 2) (i * 2 + 2) (Buffer_toString_hex bs))))
    (seq 0 (List.length bs)) = bs.
Proof.
  induction bs as [|b bs IH]; [reflexivity|].
  cbn [List.length seq map Buffer_toString_hex].
  rewrite substring_pair_head, parse_byte_pair. f_equal.
  rewrite <- seq_shift, map_map.
  rewrite <- IH at 2. apply map_ext. intros i.
  rewrite substring_pair_tail. reflexivity.
Qed.

Lemma pow16_256 : (16 ^ 64 = 256 ^ 32)%N.
Proof. reflexivity. Qed.

(** The padded hexadecimal text of a number below [2^256] is the text of
    its 32-byte big-endian encoding. *)
Lemma padStart_toString16 (z : Z) :
  0 <= z < 2 ^ 256 ->
  padStart 64 "0" (BN_toString16 z) = Buffer_toString_hex (be_bytes 32 z).
Proof.
  intros Hz.
  assert (Hval : BN_of_hex (Buffer_toString_hex (be_bytes 32 z)) = z).
  { rewrite BN_of_hex_bytes, be_int_be_bytes. apply Z.mod_small.
    change (256 ^ Z.of_nat 32) with (2 ^ 256). exact Hz. }
  unfold BN_of_hex in Hval.
  pose proof (hex_lower (be_bytes 32 z)) as Hlow.
  pose proof (hex_length (be_bytes 32 z)) as Hlen.
  rewrite be_bytes_length in Hlen.
  destruct z as [|q|q]; [| |lia].
  - vm_compute. reflexivity.
  - cbn [BN_toString16]. unfold padStart.
    destruct (of_pos_shape q EmptyString I) as [Hq (d & s' & Hs' & Hd)].
    assert (Hv : HexString.Raw.to_N (HexString.Raw.of_pos q "") 0 = N.pos q)
      by apply HexString.Raw.to_N_of_pos.
    assert (Hql : (String.length (HexString.Raw.of_pos q "") <= 64)%nat).
    { rewrite Hs' in Hv, Hq |- *. destruct Hq as [_ Hq'].
      cbn [HexString.Raw.to_N] in Hv.
      rewrite digit_hex_char in Hv by lia.
      rewrite to_N_acc in Hv by exact Hq'.
      cbn [String.length].
      destruct (Nat.le_gt_cases (String.length s') 63) as [Hle|Hgt]; [lia|exfalso].
      assert (16 ^ 64 <= 16 ^ N.of_nat (String.length s'))%N
        by (apply N.pow_le_mono_r; lia).
      assert (N.pos q < 16 ^ 64)%N by (change (16 ^ 64)%N with (Z.to_N (2 ^ 256)); lia).
      nia. }
    apply lower_hex_inj.
    + apply lower_hex_app; [apply replicate_zero_lower | exact Hq].
    + exact Hlow.
    + rewrite string_length_app, replicate_length, Hlen. lia.
    + rewrite to_N_zeros, Hv. lia.
Qed.

(** [bnToBytes] on a number in [[0, 2^256)]: its 32-byte big-endian
    encoding. *)
Lemma bnToBytes_spec (z : Z) :
  0 <= z < 2 ^ 256 -> bnToBytes (Some z) = Ok (be_bytes 32 z).
Proof.
  intros Hz. unfold bnToBytes, log_and_rethrow, try_catch.
  rewrite padStart_toString16 by exact Hz. f_equal.
  pose proof (parse_pairs_hex (be_bytes 32 z)) as H.
  rewrite be_bytes_length in H. exact H.
Qed.

(** Whatever the number, [bnToBytes] returns exactly 32 bytes. *)
Lemma bnToBytes_length (z : Z) (out : list byte) :
  bnToBytes (Some z) = Ok out -> List.length out = 32%nat.
Proof.
  unfold bnToBytes, log_and_rethrow, try_catch. cbv zeta.
  intros H. injection H as H. subst out. reflexivity.
Qed.
(** ** The scalar field operations *)

Lemma ec_n_range : 0 < ec_n < 2 ^ 256.
Proof. unfold ec_n. lia. Qed.

Lemma BN_mod_nonneg (a : Z) : 0 <= a -> BN_mod a ec_n = a mod ec_n.
Proof.
  intros Ha. unfold BN_mod. apply Z.rem_mod_nonneg; [exact Ha | apply ec_n_range].
Qed.

Lemma mod_n_range (a : Z) : 0 <= a mod ec_n < 2 ^ 256.
Proof.
  pose proof (Z.mod_pos_bound a ec_n ltac:(apply ec_n_range)).
  pose proof ec_n_range. lia.
Qed.

Lemma invm_range (a : Z) : 0 <= BN_invm a ec_n < ec_n.
Proof.
  unfold BN_invm. rewrite <- Z.mod_invmod.
  apply Z.mod_pos_bound. apply ec_n_range.
Qed.

(** A [null] operand is a [TypeError], whatever the other operand. *)
Lemma BN_operand_Some (z : Z) : BN_operand (Some z) = Ok z.
Proof. reflexivity. Qed.

Lemma addModN_spec (a b : list byte) :
  a <> [] -> b <> [] ->
  Curve.addModN a b
  = Ok (be_bytes 32 ((be_int a mod ec_n + be_int b mod ec_n) mod ec_n)).
Proof.
  intros Ha Hb. unfold Curve.addModN, log_and_rethrow, try_catch.
  rewrite !toScalar_spec by assumption. cbn [bind BN_operand].
  pose proof (mod_n_range (be_int a)). pose proof (mod_n_range (be_int b)).
  rewrite BN_mod_nonneg by lia.
  rewrite bnToBytes_spec by apply mod_n_range. reflexivity.
Qed.

Lemma addModN_empty (a b : list byte) :
  a = [] \/ b = [] -> Curve.addModN a b = Throw TypeError.
Proof.
  unfold Curve.addModN, log_and_rethrow, try_catch.
  intros [->| ->].
  - rewrite toScalar_nil. cbn [bind].
    destruct (toScalar b) as [[z|]|e] eqn:Hb; try reflexivity.
    unfold toScalar, log_and_rethrow, try_catch in Hb. discriminate Hb.
  - rewrite toScalar_nil.
    destruct a as [|x a]; [reflexivity|].
    rewrite toScalar_spec by discriminate. reflexivity.
Qed.

Lemma mulModN_spec (a b : list byte) :
  a <> [] -> b <> [] ->
  Curve.mulModN a b
  = Ok (be_bytes 32 (((be_int a mod ec_n) * (be_int b mod ec_n)) mod ec_n)).
Proof.
  intros Ha Hb. unfold Curve.mulModN, log_and_rethrow, try_catch.
  rewrite !toScalar_spec by assumption. cbn [bind BN_operand].
  pose proof (mod_n_range (be_int a)). pose proof (mod_n_range (be_int b)).
  rewrite BN_mod_nonneg by (apply Z.mul_nonneg_nonneg; lia).
  rewrite bnToBytes_spec by apply mod_n_range. reflexivity.
Qed.

Lemma mulModN_empty (a b : list byte) :
  a = [] \/ b = [] -> Curve.mulModN a b = Throw TypeError.
Proof.
  unfold Curve.mulModN, log_and_rethrow, try_catch.
  intros [->| ->].
  - rewrite toScalar_nil. cbn [bind].
    destruct (toScalar b) as [[z|]|e] eqn:Hb; try reflexivity.
    unfold toScalar, log_and_rethrow, try_catch in Hb. discriminate Hb.
  - rewrite toScalar_nil.
    destruct a as [|x a]; [reflexivity|].
    rewrite toScalar_spec by discriminate. reflexivity.
Qed.

Lemma modInvN_spec (a : list byte) :
  a <> [] ->
  Curve.modInvN a = Ok (be_bytes 32 (BN_invm (be_int a mod ec_n) ec_n)).
Proof.
  intros Ha. unfold Curve.modInvN, log_and_rethrow, try_catch.
  rewrite toScalar_spec by assumption. cbn [bind BN_operand].
  pose proof (invm_range (be_int a mod ec_n)). pose proof ec_n_range.
  rewrite bnToBytes_spec by lia. reflexivity.
Qed.

Lemma modInvN_empty : Curve.modInvN [] = Throw TypeError.
Proof. reflexivity. Qed.

Lemma negateN_spec (a : list byte) :
  a <> [] ->
  Curve.negateN a = Ok (be_bytes 32 ((ec_n - be_int a mod ec_n) mod ec_n)).
Proof.
  intros Ha. unfold Curve.negateN, log_and_rethrow, try_catch.
  rewrite toScalar_spec by assumption. cbn [bind BN_operand].
  pose proof (Z.mod_pos_bound (be_int a) ec_n ltac:(apply ec_n_range)).
  rewrite BN_mod_nonneg by lia.
  rewrite bnToBytes_spec by apply mod_n_range. reflexivity.
Qed.

Lemma negateN_empty : Curve.negateN [] = Throw TypeError.
Proof. reflexivity. Qed.

Lemma be_int_be_bytes32 (z : Z) : 0 <= z < 2 ^ 256 -> be_int (be_bytes 32 z) = z.
Proof.
  intros Hz. rewrite be_int_be_bytes. apply Z.mod_small. exact Hz.
Qed.

Lemma canonical_be_bytes (z : Z) :
  canonical_scalar (Ok (be_bytes 32 (z mod ec_n))).
Proof.
  exists (be_bytes 32 (z mod ec_n)). split; [reflexivity|].
  split; [apply be_bytes_length|].
  rewrite be_int_be_bytes32 by apply mod_n_range.
  apply Z.mod_pos_bound. apply ec_n_range.
Qed.

Lemma canonical_scalar_output (r : result (list byte)) :
  canonical_scalar r -> canonical_output r.
Proof.
  intros (out & -> & Hl & Hr) out' H. injection H as <-. split; assumption.
Qed.

Lemma throw_canonical_output (e : exn) : canonical_output (Throw e).
Proof. intros out H. discriminate H. Qed.

Lemma empty_or_not (a : list byte) : a = [] \/ a <> [].
Proof. destruct a; [left; reflexivity | right; discriminate]. Qed.

(** What each operation returns on operands that are not empty is a
    canonical scalar. *)
Lemma scalar_results_canonical (a b : list byte) :
  a <> [] -> b <> [] ->
  canonical_scalar (Curve.addModN a b)
  /\ canonical_scalar (Curve.mulModN a b)
  /\ canonical_scalar (Curve.modInvN a)
  /\ canonical_scalar (Curve.negateN a).
Proof.
  intros Ha Hb.
  rewrite addModN_spec, mulModN_spec, modInvN_spec, negateN_spec by assumption.
  split; [apply canonical_be_bytes|].
  split; [apply canonical_be_bytes|].
  split; [|apply canonical_be_bytes].
  unfold BN_invm. rewrite <- Z.mod_invmod. apply canonical_be_bytes.
Qed.

(** C7: every scalar that [addModN], [mulModN], [modInvN] or [negateN]
    returns has exactly 32 bytes and a big-endian value in [[0, N)],
    whatever the operands; and on operands that are not empty each of
    them does return one. *)
Theorem scalar_outputs_canonical (a b : list byte) :
  (canonical_output (Curve.addModN a b)
   /\ canonical_output (Curve.mulModN a b)
   /\ canonical_output (Curve.modInvN a)
   /\ canonical_output (Curve.negateN a))
  /\ (a <> [] -> b <> [] ->
      canonical_scalar (Curve.addModN a b)
      /\ canonical_scalar (Curve.mulModN a b))
  /\ (a <> [] ->
      canonical_scalar (Curve.modInvN a)
      /\ canonical_scalar (Curve.negateN a)).
Proof.
  split; [|split].
  - destruct (empty_or_not a) as [Ha|Ha].
    + rewrite addModN_empty, mulModN_empty by (left; exact Ha). subst a.
      rewrite modInvN_empty, negateN_empty.
      split; [|split; [|split]]; apply throw_canonical_output.
    + destruct (scalar_results_canonical a [x00] Ha ltac:(discriminate))
        as (_ & _ & Hi & Hn).
      destruct (empty_or_not b) as [Hb|Hb].
      * rewrite addModN_empty, mulModN_empty by (right; exact Hb).
        split; [|split; [|split]]; try apply throw_canonical_output;
          apply canonical_scalar_output; assumption.
      * destruct (scalar_results_canonical a b Ha Hb) as (H1 & H2 & _ & _).
        split; [|split; [|split]]; apply canonical_scalar_output; assumption.
  - intros Ha Hb. destruct (scalar_results_canonical a b Ha Hb) as (H1 & H2 & _ & _).
    split; assumption.
  - intros Ha. destruct (scalar_results_canonical a [x00] Ha ltac:(discriminate))
      as (_ & _ & Hi & Hn).
    split; assumption.
Qed.

Lemma scalar_outputs_canonical_witness :
  canonical_scalar (Curve.addModN one32 one32)
  /\ canonical_scalar (Curve.mulModN one32 one32)
  /\ canonical_scalar (Curve.modInvN one32)
  /\ canonical_scalar (Curve.negateN one32).
Proof.
  assert (Hne : one32 <> []) by discriminate.
  destruct (scalar_outputs_canonical one32 one32) as (_ & H2 & H1).
  destruct (H2 Hne Hne) as [Ha Hm]. destruct (H1 Hne) as [Hi Hn].
  split; [exact Ha|]. split; [exact Hm|]. split; [exact Hi | exact Hn].
Defined.

(** C8, as the specification states it, fails on both kinds of operand
    that are 0 modulo [N].  On the zero scalar [modInvN] returns a
    value and raises no error.  On the empty array it fails, but with a
    [TypeError] of the language, which is neither of the two kinds of
    error the specification names. *)
Lemma modInvN_zero_returns :
  (be_int [x00] mod Curve.N = 0
   /\ Curve.modInvN [x00] = Ok (be_bytes 32 0)
   /\ ~ (exists e, Curve.modInvN [x00] = Throw e))
  /\ (be_int [] mod Curve.N = 0
      /\ Curve.modInvN [] = Throw TypeError
      /\ TypeError <> Secp256k1EcdsaException ArithmeticOverflow
      /\ TypeError <> Secp256k1EcdsaException InvalidSecretKey).
Proof.
  split.
  - split; [reflexivity|]. split; [vm_compute; reflexivity|].
    intros [e He]. vm_compute in He. discriminate He.
  - split; [reflexivity|]. split; [reflexivity|]. split; discriminate.
Qed.

(** C8, amended: for an operand that is not empty and is 0 modulo [N],
    [modInvN] returns the 32-byte zero scalar.  The empty array, whose
    value is 0 as well, is the one operand on which the call fails: the
    scalar is [null] there and the error is a [TypeError]. *)
Theorem modInvN_of_zero (a : list byte) :
  be_int a mod Curve.N = 0 ->
  (a <> [] -> Curve.modInvN a = Ok (be_bytes 32 0))
  /\ (a = [] -> Curve.modInvN a = Throw TypeError).
Proof.
  intros Ha. split.
  - intros Hne. rewrite modInvN_spec by exact Hne. unfold Curve.N in Ha. rewrite Ha.
    reflexivity.
  - intros ->. apply modInvN_empty.
Qed.

Lemma modInvN_of_zero_witness :
  be_int (be_bytes 32 Curve.N) mod Curve.N = 0
  /\ Curve.modInvN (be_bytes 32 Curve.N) = Ok (be_bytes 32 0).
Proof.
  assert (H : be_int (be_bytes 32 Curve.N) mod Curve.N = 0)
    by (vm_compute; reflexivity).
  split; [exact H|].
  apply (proj1 (modInvN_of_zero (be_bytes 32 Curve.N) H)).
  apply be_bytes32_nonempty.
Defined.

(** C9, as the specification states it, fails: a 33-byte operand is
    accepted by each operation. *)
Lemma long_operand_accepted :
  let a := x01 :: repeat x00 32 in
  (32 < List.length a)%nat
  /\ Curve.addModN a [x01] = Ok (be_bytes 32 (2 ^ 256 - ec_n + 1))
  /\ Curve.mulModN a [x01] = Ok (be_bytes 32 (2 ^ 256 - ec_n))
  /\ is_ok (Curve.modInvN a) = true
  /\ Curve.negateN a = Ok (be_bytes 32 (2 * ec_n - 2 ^ 256)).
Proof.
  cbv zeta. split; [cbn; lia|].
  rewrite addModN_spec, mulModN_spec, modInvN_spec, negateN_spec by discriminate.
  repeat split; vm_compute; reflexivity.
Qed.

(** C9, amended: an operand longer than 32 bytes is accepted by each
    operation, in either position (the other operand being any array
    that is not empty): the operation works on the big-endian values
    reduced modulo [N] and returns the 32-byte encoding of the
    result. *)
Theorem scalar_ops_accept_long_operands (a b : list byte) :
  (32 < List.length a)%nat -> b <> [] ->
  Curve.addModN a b = Ok (be_bytes 32 ((be_int a + be_int b) mod ec_n))
  /\ Curve.addModN b a = Ok (be_bytes 32 ((be_int b + be_int a) mod ec_n))
  /\ Curve.mulModN a b = Ok (be_bytes 32 ((be_int a * be_int b) mod ec_n))
  /\ Curve.mulModN b a = Ok (be_bytes 32 ((be_int b * be_int a) mod ec_n))
  /\ Curve.modInvN a = Ok (be_bytes 32 (BN_invm (be_int a mod ec_n) ec_n))
  /\ Curve.negateN a = Ok (be_bytes 32 ((- be_int a) mod ec_n)).
Proof.
  intros Hlen Hb.
  assert (Ha : a <> []) by (intros ->; cbn in Hlen; lia).
  rewrite !addModN_spec, !mulModN_spec, modInvN_spec, negateN_spec by assumption.
  pose proof ec_n_range.
  repeat split; do 2 f_equal.
  - rewrite <- Z.add_mod by lia. reflexivity.
  - rewrite <- Z.add_mod by lia. reflexivity.
  - rewrite <- Z.mul_mod by lia. reflexivity.
  - rewrite <- Z.mul_mod by lia. reflexivity.
  - rewrite Zminus_mod_idemp_r. rewrite <- (Z.mod_add (- be_int a) 1 ec_n) by lia.
    f_equal. ring.
Qed.

Lemma scalar_ops_accept_long_operands_witness :
  let a := x01 :: repeat x00 32 in
  (32 < List.length a)%nat
  /\ Curve.addModN a [x01] = Ok (be_bytes 32 ((be_int a + be_int [x01]) mod ec_n))
  /\ Curve.mulModN a [x01] = Ok (be_bytes 32 ((be_int a * be_int [x01]) mod ec_n))
  /\ Curve.modInvN a = Ok (be_bytes 32 (BN_invm (be_int a mod ec_n) ec_n))
  /\ Curve.negateN a = Ok (be_bytes 32 ((- be_int a) mod ec_n)).
Proof.
  cbv zeta.
  assert (Hlen : (32 < List.length (x01 :: repeat x00 32))%nat) by (cbn; lia).
  assert (Hb : [x01] <> []) by discriminate.
  destruct (scalar_ops_accept_long_operands (x01 :: repeat x00 32) [x01] Hlen Hb)
    as (H1 & _ & H2 & _ & H3 & H4).
  repeat split; assumption.
Defined.
(** ** Low-S normalisation *)

Lemma nth_after (pre : list byte) (x : byte) (l : list byte) :
  nth (List.length pre) (pre ++ x :: l) x00 = x.
Proof.
  rewrite app_nth2 by lia. rewrite Nat.sub_diag. reflexivity.
Qed.

(** The comparison loop decides the order of the big-endian values. *)
Lemma gt_loop_suffix (a : list byte) :
  forall b pa pb,
    List.length pa = List.length pb -> List.length a = List.length b ->
    gt_loop (List.length a) (List.length pa) (pa ++ a) (pb ++ b)
    = (be_int b <? be_int a).
Proof.
  induction a as [|x a IH]; intros [|y b] pa pb Hp Hl; try discriminate Hl.
  - reflexivity.
  - cbn [List.length gt_loop]. injection Hl as Hl.
    assert (Hy : nth (List.length pa) (pb ++ y :: b) x00 = y)
      by (rewrite Hp; apply nth_after).
    cbv zeta. rewrite !nth_after, !Hy.
    rewrite !be_int_cons, <- Hl.
    pose proof (be_int_range a) as Ra. pose proof (be_int_range b) as Rb.
    rewrite <- Hl in Rb.
    pose proof (byte_val_range x). pose proof (byte_val_range y).
    set (w := 256 ^ Z.of_nat (List.length a)) in *.
    destruct (Z.ltb_spec (byte_val y) (byte_val x)) as [Hyx|Hyx].
    { symmetry. apply Z.ltb_lt. nia. }
    destruct (Z.ltb_spec (byte_val x) (byte_val y)) as [Hxy|Hxy].
    { symmetry. apply Z.ltb_ge. nia. }
    assert (Hxy' : byte_val x = byte_val y) by lia.
    replace (S (List.length pa)) with (List.length (pa ++ [x]))
      by (rewrite length_app; cbn; lia).
    replace (pa ++ x :: a) with ((pa ++ [x]) ++ a)
      by (rewrite <- app_assoc; reflexivity).
    replace (pb ++ y :: b) with ((pb ++ [y]) ++ b)
      by (rewrite <- app_assoc; reflexivity).
    rewrite IH by (rewrite ?length_app; cbn; lia).
    rewrite Hxy'.
    destruct (Z.ltb_spec (be_int b) (be_int a));
      symmetry; [apply Z.ltb_lt | apply Z.ltb_ge]; lia.
Qed.

Lemma shouldNegate_spec (s half : list byte) :
  List.length s = List.length half ->
  shouldNegate s half = (be_int half <? be_int s).
Proof.
  intros Hl. unfold shouldNegate.
  rewrite <- Hl, Nat.ltb_irrefl, Nat.eqb_refl.
  apply (gt_loop_suffix s half [] []); [reflexivity | exact Hl].
Qed.

Lemma N_DIV_2_bytes : BN_toArray_be 32 Curve.N_DIV_2 = Ok (be_bytes 32 Curve.N_DIV_2).
Proof. vm_compute. reflexivity. Qed.

Lemma N_DIV_2_value : Curve.N_DIV_2 = ec_n / 2.
Proof. reflexivity. Qed.

Lemma sig_r_length (sig : Secp256k1EcdsaSignature) :
  List.length (signature sig) = 64%nat -> List.length (sig_r sig) = 32%nat.
Proof.
  intros H. unfold sig_r, slice. rewrite length_firstn, length_skipn. lia.
Qed.

Lemma sig_s_length (sig : Secp256k1EcdsaSignature) :
  List.length (signature sig) = 64%nat -> List.length (sig_s sig) = 32%nat.
Proof.
  intros H. unfold sig_s, slice. rewrite length_firstn, length_skipn. lia.
Qed.

Lemma sig_r_s (sig : Secp256k1EcdsaSignature) :
  List.length (signature sig) = 64%nat -> signature sig = sig_r sig ++ sig_s sig.
Proof.
  intros H. unfold sig_r, sig_s, slice. cbn [skipn Nat.sub].
  rewrite <- (firstn_skipn 32 (signature sig)) at 1. f_equal.
  symmetry. apply List.firstn_all2. rewrite length_skipn. lia.
Qed.

Lemma set_at_front (r : list byte) :
  List.length r = 32%nat ->
  set_at (new_Uint8Array 64) r 0 = Ok (r ++ repeat x00 32).
Proof.
  intros Hr. unfold set_at, new_Uint8Array. rewrite repeat_length, Hr.
  change (0 + 32 <=? 64)%nat with true. cbv iota.
  change (firstn 0 (repeat x00 64)) with (@nil byte).
  change (skipn (0 + 32) (repeat x00 64)) with (repeat x00 32).
  reflexivity.
Qed.

Lemma set_at_back (r s : list byte) :
  List.length r = 32%nat -> List.length s = 32%nat ->
  set_at (r ++ repeat x00 32) s 32 = Ok (r ++ s).
Proof.
  intros Hr Hs. unfold set_at.
  rewrite length_app, repeat_length, Hr, Hs.
  change (32 + 32 <=? 32 + 32)%nat with true. cbv iota.
  rewrite firstn_app, Hr, Nat.sub_diag, firstn_O, app_nil_r.
  rewrite List.firstn_all2 by lia.
  rewrite List.skipn_all2 by (rewrite length_app, repeat_length; lia).
  rewrite app_nil_r. reflexivity.
Qed.

(** Writing two 32-byte halves into a fresh 64-byte array and wrapping
    it. *)
Lemma assemble_signature (r s : list byte) :
  List.length r = 32%nat -> List.length s = 32%nat ->
  (signature1 <- set_at (new_Uint8Array 64) r 0 ;;
   signature2 <- set_at signature1 s 32 ;;
   new_Signature signature2)
  = Ok {| signature := r ++ s |}.
Proof.
  intros Hr Hs. rewrite set_at_front by exact Hr. cbn [bind].
  rewrite set_at_back by assumption. cbn [bind].
  unfold new_Signature, SECP256K1_ECDSA_SIGNATURE_LENGTH.
  rewrite length_app, Hr, Hs. reflexivity.
Qed.

Lemma sig_r_app (r s : list byte) :
  List.length r = 32%nat -> sig_r {| signature := r ++ s |} = r.
Proof.
  intros Hr. unfold sig_r, slice. cbn [signature].
  change (skipn 0 (r ++ s)) with (r ++ s). change (32 - 0)%nat with 32%nat.
  rewrite firstn_app, Hr, Nat.sub_diag, firstn_O, app_nil_r.
  apply List.firstn_all2. lia.
Qed.

Lemma sig_s_app (r s : list byte) :
  List.length r = 32%nat -> List.length s = 32%nat ->
  sig_s {| signature := r ++ s |} = s.
Proof.
  intros Hr Hs. unfold sig_s, slice. cbn [signature].
  change (64 - 32)%nat with 32%nat.
  rewrite skipn_app, Hr, Nat.sub_diag, skipn_O.
  rewrite List.skipn_all2 by lia. cbn [app]. apply List.firstn_all2. lia.
Qed.

Lemma length32_nonempty (l : list byte) : List.length l = 32%nat -> l <> [].
Proof. intros H ->. discriminate H. Qed.

(** What [normalizeS] computes on a 64-byte signature. *)
Lemma normalizeS_spec (sig : Secp256k1EcdsaSignature) :
  List.length (signature sig) = 64%nat ->
  normalizeS sig
  = Ok (if Curve.N_DIV_2 <? be_int (sig_s sig)
        then {| signature :=
                  sig_r sig ++ be_bytes 32 ((ec_n - be_int (sig_s sig) mod ec_n) mod ec_n) |}
        else sig).
Proof.
  intros Hlen. unfold normalizeS.
  rewrite N_DIV_2_bytes. cbn [bind].
  rewrite shouldNegate_spec by (rewrite be_bytes_length; apply sig_s_length; exact Hlen).
  rewrite be_int_be_bytes32 by (vm_compute; split; congruence).
  destruct (Curve.N_DIV_2 <? be_int (sig_s sig)); [|reflexivity].
  rewrite negateN_spec by (apply length32_nonempty, sig_s_length; exact Hlen).
  cbn [bind].
  apply assemble_signature; [apply sig_r_length; exact Hlen | apply be_bytes_length].
Qed.

Lemma Ok_inj {A : Type} (a b : A) : Ok a = Ok b -> a = b.
Proof. intros H. injection H as H. exact H. Qed.

(** The negation of a scalar in [(N / 2, N]] is at most [N / 2]. *)
Lemma negated_scalar_low (sv : Z) :
  ec_n / 2 < sv <= ec_n -> (ec_n - sv mod ec_n) mod ec_n <= ec_n / 2.
Proof.
  intros Hs. pose proof ec_n_range as Hn.
  assert (Hhalf : 2 * (ec_n / 2) = ec_n - 1) by (vm_compute; reflexivity).
  rewrite Zminus_mod_idemp_r.
  destruct (Z.eq_dec sv ec_n) as [->|Hne].
  - rewrite Z.sub_diag, Z.mod_0_l by lia. lia.
  - rewrite Z.mod_small by lia. lia.
Qed.

(** C5, as the specification states it, fails for a signature whose [s]
    exceeds [N]: the normalised [s] is still above [N / 2].  Here
    [s = N + 1], normalised to [N - 1]. *)
Lemma normalizeS_above_half :
  new_Signature (signature sig_over_n) = Ok sig_over_n
  /\ normalizeS sig_over_n = Ok sig_high_s
  /\ be_int (sig_s sig_high_s) = ec_n - 1
  /\ ec_n / 2 < be_int (sig_s sig_high_s).
Proof.
  split; [reflexivity|]. split; [vm_compute; reflexivity|].
  split; vm_compute; reflexivity.
Qed.

(** C5, amended: for every 64-byte signature [normalizeS] succeeds and
    keeps [r]; when [s > N / 2] the result holds [(N - s) mod N] in a new
    instance, otherwise the result is the signature itself; and when
    [s <= N] the resulting [s] is at most [N / 2]. *)
Theorem normalizeS_low_s (sig : Secp256k1EcdsaSignature) :
  List.length (signature sig) = 64%nat ->
  exists sig',
    normalizeS sig = Ok sig'
    /\ List.length (signature sig') = 64%nat
    /\ sig_r sig' = sig_r sig
    /\ (ec_n / 2 < be_int (sig_s sig) ->
        be_int (sig_s sig') = (ec_n - be_int (sig_s sig)) mod ec_n)
    /\ (be_int (sig_s sig) <= ec_n / 2 -> sig' = sig)
    /\ (be_int (sig_s sig) <= ec_n -> be_int (sig_s sig') <= ec_n / 2).
Proof.
  intros Hlen. rewrite normalizeS_spec by exact Hlen.
  rewrite N_DIV_2_value.
  pose proof (sig_r_length sig Hlen) as Hr.
  set (sv := be_int (sig_s sig)) in *.
  destruct (Z.ltb_spec (ec_n / 2) sv) as [Hgt|Hle].
  - eexists. split; [reflexivity|].
    rewrite sig_r_app, sig_s_app by (try apply be_bytes_length; exact Hr).
    rewrite be_int_be_bytes32 by apply mod_n_range.
    cbn [signature]. rewrite length_app, be_bytes_length, Hr.
    split; [reflexivity|]. split; [reflexivity|].
    split; [intros _; rewrite Zminus_mod_idemp_r; reflexivity|].
    split; [lia|].
    intros Hsn. apply negated_scalar_low. lia.
  - exists sig. repeat split; try assumption; try lia.
Qed.

Lemma normalizeS_low_s_witness :
  List.length (signature sig_high_s) = 64%nat
  /\ exists sig',
       normalizeS sig_high_s = Ok sig'
       /\ List.length (signature sig') = 64%nat
       /\ sig_r sig' = sig_r sig_high_s
       /\ (ec_n / 2 < be_int (sig_s sig_high_s) ->
           be_int (sig_s sig') = (ec_n - be_int (sig_s sig_high_s)) mod ec_n)
       /\ (be_int (sig_s sig_high_s) <= ec_n / 2 -> sig' = sig_high_s)
       /\ (be_int (sig_s sig_high_s) <= ec_n -> be_int (sig_s sig') <= ec_n / 2).
Proof.
  split; [reflexivity|].
  apply (normalizeS_low_s sig_high_s). reflexivity.
Defined.

(** C6, as the specification states it, fails for a signature whose [s]
    exceeds [N]: with [s = N + 1] the first call gives [N - 1] and the
    second gives 1. *)
Lemma normalizeS_twice_differs :
  new_Signature (signature sig_over_n) = Ok sig_over_n
  /\ normalizeS sig_over_n = Ok sig_high_s
  /\ normalizeS sig_high_s = Ok sig_low_s
  /\ signature sig_low_s <> signature sig_high_s.
Proof.
  split; [reflexivity|]. split; [vm_compute; reflexivity|].
  split; [vm_compute; reflexivity|].
  intros H. apply (f_equal be_int) in H. vm_compute in H. discriminate H.
Qed.

(** C6, amended: for a 64-byte signature with [s <= N], normalising the
    normalised signature returns it unchanged. *)
Theorem normalizeS_idempotent (sig sig1 : Secp256k1EcdsaSignature) :
  List.length (signature sig) = 64%nat ->
  be_int (sig_s sig) <= ec_n ->
  normalizeS sig = Ok sig1 ->
  normalizeS sig1 = Ok sig1.
Proof.
  intros Hlen Hs H1.
  rewrite normalizeS_spec in H1 by exact Hlen. rewrite N_DIV_2_value in H1.
  pose proof (sig_r_length sig Hlen) as Hr.
  destruct (Z.ltb_spec (ec_n / 2) (be_int (sig_s sig))) as [Hgt|Hle];
    apply Ok_inj in H1; subst sig1.
  - rewrite normalizeS_spec
      by (cbn [signature]; rewrite length_app, be_bytes_length, Hr; reflexivity).
    rewrite N_DIV_2_value.
    rewrite sig_s_app by (try apply be_bytes_length; exact Hr).
    rewrite be_int_be_bytes32 by apply mod_n_range.
    pose proof (negated_scalar_low (be_int (sig_s sig)) ltac:(lia)) as Hlow.
    destruct (Z.ltb_spec (ec_n / 2)
                ((ec_n - be_int (sig_s sig) mod ec_n) mod ec_n)); [lia | reflexivity].
  - rewrite normalizeS_spec by exact Hlen. rewrite N_DIV_2_value.
    destruct (Z.ltb_spec (ec_n / 2) (be_int (sig_s sig))); [lia | reflexivity].
Qed.

Lemma normalizeS_idempotent_witness :
  List.length (signature sig_high_s) = 64%nat
  /\ be_int (sig_s sig_high_s) <= ec_n
  /\ normalizeS sig_high_s = Ok sig_low_s
  /\ normalizeS sig_low_s = Ok sig_low_s.
Proof.
  assert (H1 : List.length (signature sig_high_s) = 64%nat) by reflexivity.
  assert (H2 : be_int (sig_s sig_high_s) <= ec_n) by (vm_compute; discriminate).
  assert (H3 : normalizeS sig_high_s = Ok sig_low_s) by (vm_compute; reflexivity).
  split; [exact H1|]. split; [exact H2|]. split; [exact H3|].
  exact (normalizeS_idempotent sig_high_s sig_low_s H1 H2 H3).
Defined.
(** ** Primality of the curve order *)

Lemma no_divisor_sound (fuel : nat) (d n : Z) :
  0 < d -> no_divisor fuel d n = true ->
  forall e, d <= e -> e * e <= n -> n mod e <> 0.
Proof.
  revert d. induction fuel as [|fuel IH]; intros d Hd H e He Hee; [discriminate|].
  cbn [no_divisor] in H.
  destruct (Z.ltb_spec n (d * d)) as [Hlt|Hge]; [nia|].
  destruct (Z.eqb_spec (n mod d) 0) as [|Hmod]; [discriminate|].
  destruct (Z.eq_dec e d) as [->|Hne]; [exact Hmod|].
  apply (IH (d + 1)); try assumption; lia.
Qed.

Lemma trial_prime_sound (n : Z) : trial_prime n = true -> Z.prime n.
Proof.
  unfold trial_prime. rewrite andb_true_iff, Z.ltb_lt. intros [Hn Hnd].
  pose proof (no_divisor_sound _ 2 n ltac:(lia) Hnd) as Hno.
  split; [exact Hn|].
  intros m Hm [e He].
  assert (0 < e) by nia.
  assert (1 < e) by nia.
  destruct (Z.le_gt_cases m e) as [Hle|Hgt].
  - apply (Hno m); [lia | nia |]. subst n. apply Z.mod_mul. lia.
  - apply (Hno e); [lia | nia |]. subst n. rewrite Z.mul_comm. apply Z.mod_mul. lia.
Qed.

(** The exponents that send [a] to 1 modulo [p] are closed under [gcd]. *)
Lemma pow_one_gcd (p a : Z) : 1 < p ->
  forall y x, 0 <= y -> 0 <= x ->
    a ^ x mod p = 1 -> a ^ y mod p = 1 -> a ^ Z.gcd x y mod p = 1.
Proof.
  intros Hp y.
  induction y as [y IH] using (well_founded_induction (Zwf_well_founded 0)).
  intros x Hy Hx Hax Hay.
  destruct (Z.eq_dec y 0) as [->|Hy0].
  - rewrite Z.gcd_0_r, Z.abs_eq by lia. exact Hax.
  - pose proof (Z.mod_pos_bound x y ltac:(lia)) as Hr.
    assert (E : Z.gcd x y = Z.gcd y (x mod y)).
    { rewrite (Z.gcd_comm y), Z.gcd_mod by lia. apply Z.gcd_comm. }
    rewrite E.
    apply IH; try lia; try assumption.
    + unfold Zwf. lia.
    + assert (Hq : 0 <= x / y) by (apply Z.div_pos; lia).
      assert (Hyq : 0 <= y * (x / y)) by (apply Z.mul_nonneg_nonneg; lia).
      rewrite (Z.div_mod x y) in Hax at 1 by lia.
      rewrite Z.pow_add_r, Z.pow_mul_r in Hax by lia.
      rewrite <- Z.mul_mod_idemp_l, <- Z.mod_pow_l, Hay in Hax by lia.
      rewrite Z.pow_1_l, Z.mod_1_l, Z.mul_1_l in Hax by lia.
      exact Hax.
Qed.

Lemma pow_one_multiple (p a g m : Z) : 1 < p -> 0 <= g -> 0 <= m ->
  (g | m) -> a ^ g mod p = 1 -> a ^ m mod p = 1.
Proof.
  intros Hp Hg Hm [k ->] Hag.
  destruct (Z.eq_dec g 0) as [->|Hg0].
  - rewrite Z.mul_0_r. exact Hag.
  - assert (0 <= k) by nia.
    rewrite Z.mul_comm, Z.pow_mul_r, <- Z.mod_pow_l, Hag, Z.pow_1_l, Z.mod_1_l by lia.
    reflexivity.
Qed.

(** One step of Pocklington's argument: a prime divisor [p] of [n] is
    1 modulo [q]. *)
Lemma pocklington_step (n a q p : Z) :
  1 < n -> Z.prime q -> (q | n - 1) ->
  a ^ (n - 1) mod n = 1 ->
  Z.gcd ((a ^ ((n - 1) / q)) mod n - 1) n = 1 ->
  Z.prime p -> (p | n) -> (q | p - 1).
Proof.
  intros Hn Hq Hqn Ha Hg Hp Hpn.
  pose proof (Z.prime_ge_2 _ Hp) as Hp2. pose proof (Z.prime_ge_2 _ Hq) as Hq2.
  assert (Hmodp : forall x, (x mod n) mod p = x mod p).
  { intros x. apply Z.mod_mod_divide. exact Hpn. }
  assert (Ha1 : a ^ (n - 1) mod p = 1).
  { rewrite <- Hmodp, Ha. apply Z.mod_1_l. lia. }
  assert (Hap : a mod p <> 0).
  { intros H0. rewrite <- Z.mod_pow_l, H0, Z.pow_0_l, Z.mod_0_l in Ha1 by lia.
    discriminate. }
  pose proof (ZmodInv.Z.fermat_nz p a Hp Hap) as Hf.
  pose proof (pow_one_gcd p a ltac:(lia) (p - 1) (n - 1)
                ltac:(lia) ltac:(lia) Ha1 Hf) as Hgcd.
  set (g := Z.gcd (n - 1) (p - 1)) in *.
  assert (Hg0 : 0 <= g) by apply Z.gcd_nonneg.
  assert (Hgp : (g | p - 1)) by apply Z.gcd_divide_r.
  assert (Hgn : (g | n - 1)) by apply Z.gcd_divide_l.
  destruct (Z.eqb_spec (g mod q) 0) as [Hqg|Hqg];
    rewrite Z.mod_divide in Hqg by lia.
  - eapply Z.divide_trans; eassumption.
  - exfalso.
    assert (Hcop : Z.gcd g q = 1).
    { rewrite Z.gcd_comm. apply Z.coprime_prime_l; assumption. }
    set (m := (n - 1) / q) in *.
    assert (Hm : n - 1 = q * m).
    { unfold m. apply Znumtheory.Zdivide_Zdiv_eq; [lia | exact Hqn]. }
    assert (Hm0 : 0 <= m) by nia.
    assert (Hgm : (g | m)).
    { apply Z.gauss with (m := q); [rewrite <- Hm; exact Hgn | exact Hcop]. }
    pose proof (pow_one_multiple p a g m ltac:(lia) Hg0 Hm0 Hgm Hgcd) as Ham.
    assert (Hdiv : (p | a ^ m mod n - 1)).
    { apply Z.mod_divide; [lia|].
      rewrite <- Zminus_mod_idemp_l, Hmodp, Ham. reflexivity. }
    assert (Hp1 : (p | 1)).
    { rewrite <- Hg. apply Z.gcd_greatest; assumption. }
    apply Z.divide_1_r_nonneg in Hp1; lia.
Qed.

Lemma prime_divides_product (q : Z) (qs : list Z) :
  Z.prime q -> Forall Z.prime qs -> (q | fold_right Z.mul 1 qs) -> In q qs.
Proof.
  intros Hq. induction qs as [|r qs IH]; intros Hqs Hd; cbn [fold_right] in Hd.
  - apply Z.divide_1_r_nonneg in Hd; pose proof (Z.prime_ge_2 _ Hq); lia.
  - inversion Hqs as [|? ? Hr Hqs']; subst.
    apply Z.divide_prime_mul in Hd; [|exact Hq].
    destruct Hd as [Hd|Hd].
    + left. symmetry. apply Z.divide_prime_prime; assumption.
    + right. apply IH; assumption.
Qed.

Lemma coprime_product_divides (a b m : Z) :
  Z.gcd b a = 1 -> (a | m) -> (b | m) -> (a * b | m).
Proof.
  intros Hc [k ->] Hb.
  rewrite Z.mul_comm in Hb. apply Z.gauss in Hb; [|exact Hc].
  destruct Hb as [j ->]. exists j. ring.
Qed.

Lemma distinct_primes_divide (m : Z) (qs : list Z) :
  Forall Z.prime qs -> NoDup qs -> Forall (fun q => (q | m)) qs ->
  (fold_right Z.mul 1 qs | m).
Proof.
  induction qs as [|q qs IH]; intros Hp Hnd Hd; cbn [fold_right].
  - apply Z.divide_1_l.
  - inversion Hp as [|? ? Hq Hp']; inversion Hnd as [|? ? Hnin Hnd'];
      inversion Hd as [|? ? Hqm Hd']; subst.
    apply coprime_product_divides; [| exact Hqm | apply IH; assumption].
    rewrite Z.gcd_comm. apply Z.coprime_prime_l; [exact Hq|].
    intros Hdiv. apply Hnin. apply prime_divides_product; assumption.
Qed.

Lemma prime_divisor (n : Z) : 1 < n -> exists p, Z.prime p /\ (p | n).
Proof.
  induction n as [n IH] using (well_founded_induction (Zwf_well_founded 0)).
  intros Hn.
  destruct (Znumtheory.prime_dec n) as [Hp|Hnp].
  - exists n. split; [apply prime_alt; exact Hp | apply Z.divide_refl].
  - destruct (Znumtheory.not_prime_divide n Hn Hnp) as (d & Hd & Hdn).
    destruct (IH d ltac:(unfold Zwf; lia) ltac:(lia)) as (p & Hp & Hpd).
    exists p. split; [exact Hp | eapply Z.divide_trans; eassumption].
Qed.

Lemma small_prime_divisor (n : Z) :
  1 < n -> ~ Z.prime n -> exists p, Z.prime p /\ (p | n) /\ p * p <= n.
Proof.
  intros Hn Hnp.
  assert (Hnp' : ~ Znumtheory.prime n) by (rewrite <- prime_alt; exact Hnp).
  destruct (Znumtheory.not_prime_divide n Hn Hnp') as (d & Hd & [e He]).
  assert (1 < e) by nia.
  assert (Hsmall : exists m, 1 < m /\ (m | n) /\ m * m <= n).
  { destruct (Z.le_gt_cases d e).
    - exists d. repeat split; [lia | exists e; exact He | nia].
    - exists e. repeat split; [lia | exists d; lia | nia]. }
  destruct Hsmall as (m & Hm & Hmn & Hmm).
  destruct (prime_divisor m Hm) as (p & Hp & Hpm).
  exists p. split; [exact Hp|]. split; [eapply Z.divide_trans; eassumption|].
  pose proof (Z.prime_ge_2 _ Hp).
  assert (p <= m) by (apply Z.divide_pos_le; [lia | exact Hpm]).
  nia.
Qed.

(** Pocklington's criterion. *)
Lemma pocklington (n a : Z) (qs : list Z) :
  Forall Z.prime qs -> NoDup qs ->
  pocklington_check n a qs = true -> Z.prime n.
Proof.
  intros Hqs Hnd Hc. unfold pocklington_check in Hc.
  rewrite !andb_true_iff, Z.ltb_lt, Z.leb_le, Z.eqb_eq, forallb_forall in Hc.
  destruct Hc as [[[Hn HF] Ha] Hall].
  rewrite Zpow_mod_correct in Ha by lia.
  destruct (Znumtheory.prime_dec n) as [Hp|Hnp]; [apply prime_alt; exact Hp|].
  exfalso.
  rewrite <- prime_alt in Hnp.
  destruct (small_prime_divisor n Hn Hnp) as (p & Hp & Hpn & Hpp).
  assert (Hdiv : Forall (fun q => (q | p - 1)) qs).
  { apply Forall_forall. intros q Hq.
    specialize (Hall q Hq). rewrite andb_true_iff, !Z.eqb_eq in Hall.
    destruct Hall as [Hqn Hg].
    rewrite Zpow_mod_correct in Hg by lia.
    rewrite Forall_forall in Hqs.
    pose proof (Z.prime_ge_2 _ (Hqs q Hq)).
    apply (pocklington_step n a q p); auto.
    apply Z.mod_divide; [lia | exact Hqn]. }
  pose proof (distinct_primes_divide (p - 1) qs Hqs Hnd Hdiv) as HFp.
  pose proof (Z.prime_ge_2 _ Hp).
  set (F := fold_right Z.mul 1 qs) in *.
  assert (0 <= F).
  { subst F. clear -Hqs. induction Hqs as [|q qs Hq _ IH]; cbn [fold_right]; [lia|].
    pose proof (Z.prime_ge_2 _ Hq). nia. }
  assert (F <= p - 1) by (apply Z.divide_pos_le; [lia | exact HFp]).
  nia.
Qed.

Lemma prime_85831 : Z.prime 85831.
Proof. apply trial_prime_sound. vm_compute. reflexivity. Qed.

Lemma prime_4681609 : Z.prime 4681609.
Proof. apply trial_prime_sound. vm_compute. reflexivity. Qed.

Lemma prime_545358713 : Z.prime 545358713.
Proof. apply trial_prime_sound. vm_compute. reflexivity. Qed.

Lemma prime_1627771 : Z.prime 1627771.
Proof. apply trial_prime_sound. vm_compute. reflexivity. Qed.

Ltac pocklington_with a qs :=
  apply (pocklington _ a qs);
  [ repeat (apply Forall_cons; [assumption|]); apply Forall_nil
  | repeat (apply NoDup_cons; [cbn; intuition discriminate|]); apply NoDup_nil
  | vm_compute; reflexivity ].

Lemma prime_297159362677 : Z.prime 297159362677.
Proof.
  pose proof prime_1627771.
  pocklington_with 2 [1627771].
Qed.

Lemma prime_q1 : Z.prime 107361793816595537.
Proof.
  pose proof prime_85831. pose proof prime_4681609.
  pocklington_with 2 [85831; 4681609].
Qed.

Lemma prime_r : Z.prime 29047611873442575647497758179.
Proof.
  pose proof prime_545358713. pose proof prime_297159362677.
  pocklington_with 2 [545358713; 297159362677].
Qed.

Lemma prime_q3 : Z.prime 341948486974166000522343609283189.
Proof.
  pose proof prime_r.
  pocklington_with 2 [29047611873442575647497758179].
Qed.

(** The order of the curve is a prime number. *)
Lemma ec_n_prime : Z.prime ec_n.
Proof.
  pose proof prime_q1. pose proof prime_q3.
  pocklington_with 2 [107361793816595537; 341948486974166000522343609283189].
Qed.
(** ** Signing *)

Lemma bnToBytes_Some (z : Z) : exists out, bnToBytes (Some z) = Ok out.
Proof.
  unfold bnToBytes, log_and_rethrow, try_catch. eexists. reflexivity.
Qed.

Lemma bind_Ok {A B : Type} (a : A) (k : A -> result B) : bind (Ok a) k = k a.
Proof. reflexivity. Qed.

Lemma try_catch_Ok {A : Type} (a : A) (h : exn -> result A) :
  try_catch (Ok a) h = Ok a.
Proof. reflexivity. Qed.

Section SigningFacts.
Context {E : EllipticCurve}.

Lemma mulG_spec (k : list byte) :
  k <> [] ->
  Curve.mulG k
  = match point_getX (point_mul ec_g (be_int k mod ec_n)) with
    | Some x => bnToBytes (Some x)
    | None => Throw TypeError
    end.
Proof.
  intros Hk. unfold Curve.mulG, log_and_rethrow, try_catch.
  rewrite toScalar_spec by exact Hk. cbn [bind point_mul_scalar].
  unfold pointXToBytes, log_and_rethrow, try_catch.
  destruct (point_getX _) as [x|]; [|reflexivity].
  destruct (bnToBytes (Some x)); reflexivity.
Qed.

(** The empty scalar is [null]: the multiplication, or the reading of
    the coordinate, is a [TypeError]. *)
Lemma mulG_empty : Curve.mulG [] = Throw TypeError.
Proof.
  unfold Curve.mulG, log_and_rethrow, try_catch.
  rewrite toScalar_nil. cbn [bind point_mul_scalar].
  destruct (point_getX ec_g) as [x|] eqn:Hg; [reflexivity|].
  cbn [bind]. unfold pointXToBytes, log_and_rethrow, try_catch.
  rewrite Hg. reflexivity.
Qed.

Lemma pointXToBytes_spec (P : point) :
  pointXToBytes P
  = match point_getX P with
    | Some x => bnToBytes (Some x)
    | None => Throw TypeError
    end.
Proof.
  unfold pointXToBytes, log_and_rethrow, try_catch.
  destruct (point_getX P) as [x|]; [|reflexivity].
  destruct (bnToBytes (Some x)); reflexivity.
Qed.

Lemma pointYToBytes_spec (P : point) :
  pointYToBytes P
  = match point_getY P with
    | Some y => bnToBytes (Some y)
    | None => Throw TypeError
    end.
Proof.
  unfold pointYToBytes, log_and_rethrow, try_catch.
  destruct (point_getY P) as [y|]; [|reflexivity].
  destruct (bnToBytes (Some y)); reflexivity.
Qed.

(** When [k * G] is the point at infinity, [signWithK] fails. *)
Lemma signWithK_infinity (hashImpl : Secp256k1EcdsaHash)
    (message k privkey : list byte) :
  point_getX (point_mul ec_g (be_int k mod ec_n)) = None ->
  signWithK hashImpl message k privkey
  = Throw (Secp256k1EcdsaException InvalidSecretKey).
Proof.
  intros HX. unfold signWithK.
  destruct (empty_or_not k) as [->|Hk]; [rewrite mulG_empty; reflexivity|].
  rewrite mulG_spec, HX by exact Hk. reflexivity.
Qed.

(** With an empty nonce, an empty private key or an empty digest
    [signWithK] fails: one of the scalars is [null]. *)
Lemma signWithK_empty (hashImpl : Secp256k1EcdsaHash)
    (message k privkey : list byte) :
  k = [] \/ privkey = [] \/ hashImpl message = [] ->
  signWithK hashImpl message k privkey
  = Throw (Secp256k1EcdsaException InvalidSecretKey).
Proof.
  intros H. unfold signWithK.
  destruct (Curve.mulG k) as [r|e] eqn:Hr; [|reflexivity]. cbn [bind].
  destruct (empty_or_not k) as [->|Hk]; [rewrite mulG_empty in Hr; discriminate Hr|].
  rewrite modInvN_spec by exact Hk. cbn [bind].
  destruct H as [H|[H|H]]; [contradiction| |].
  - rewrite mulModN_empty by (right; exact H). reflexivity.
  - destruct (Curve.mulModN r privkey) as [pr|e]; [|reflexivity]. cbn [bind].
    rewrite addModN_empty by (left; exact H). reflexivity.
Qed.

(** When [k * G] is finite with x-coordinate [X], [signWithK] returns
    the encoding of [X] followed by the encoding of [s]. *)
Lemma signWithK_finite (hashImpl : Secp256k1EcdsaHash)
    (message k privkey : list byte) (X : Z) :
  k <> [] -> privkey <> [] -> hashImpl message <> [] ->
  point_getX (point_mul ec_g (be_int k mod ec_n)) = Some X ->
  0 <= X < 2 ^ 256 ->
  signWithK hashImpl message k privkey
  = Ok {| signature :=
            be_bytes 32 X
            ++ be_bytes 32 (s_scalar (hashImpl message) k privkey (be_bytes 32 X)) |}.
Proof.
  intros Hk Hd Hh HX HXr. unfold signWithK.
  rewrite mulG_spec by exact Hk. rewrite HX, bnToBytes_spec by exact HXr.
  rewrite bind_Ok.
  rewrite modInvN_spec, bind_Ok by exact Hk.
  rewrite mulModN_spec, bind_Ok by (try exact Hd; apply be_bytes32_nonempty).
  rewrite addModN_spec, bind_Ok by (try exact Hh; apply be_bytes32_nonempty).
  rewrite mulModN_spec, bind_Ok by apply be_bytes32_nonempty.
  rewrite assemble_signature by apply be_bytes_length.
  rewrite try_catch_Ok. unfold s_scalar.
  assert (Hi := invm_range (be_int k mod ec_n)).
  assert (Hn := ec_n_range).
  rewrite (be_int_be_bytes32 (BN_invm (be_int k mod ec_n) ec_n)) by lia.
  rewrite (be_int_be_bytes32 ((_ * _) mod ec_n)) by apply mod_n_range.
  rewrite (be_int_be_bytes32 ((_ + _) mod ec_n)) by apply mod_n_range.
  rewrite (Z.mod_small (BN_invm _ _)) by exact Hi.
  rewrite !Z.mod_mod by lia.
  reflexivity.
Qed.
End SigningFacts.

(** ** The algebra of ECDSA modulo the prime order *)

Lemma invm_inverse (a : Z) :
  a mod ec_n <> 0 -> (BN_invm a ec_n * a) mod ec_n = 1.
Proof.
  intros Ha. unfold BN_invm. apply Z.invmod_prime; [apply ec_n_prime | exact Ha].
Qed.

Lemma mod_n_product_nonzero (a b : Z) :
  a mod ec_n <> 0 -> b mod ec_n <> 0 -> (a * b) mod ec_n <> 0.
Proof.
  intros Ha Hb H. pose proof ec_n_range as Hn.
  apply Z.mod_divide in H; [|lia].
  apply Z.divide_prime_mul in H; [|apply ec_n_prime].
  destruct H as [H|H]; apply Z.mod_divide in H; lia.
Qed.

#[local] Instance eqmn_equiv : Equivalence eqmn.
Proof. exact (eqm_setoid ec_n). Qed.

#[local] Instance add_eqmn : Proper (eqmn ==> eqmn ==> eqmn) Z.add.
Proof. exact (Zplus_eqm ec_n). Qed.

#[local] Instance mul_eqmn : Proper (eqmn ==> eqmn ==> eqmn) Z.mul.
Proof. exact (Zmult_eqm ec_n). Qed.

Lemma mod_eqmn (a : Z) : eqmn (a mod ec_n) a.
Proof. exact (Zmod_eqm ec_n a). Qed.

Lemma invm_eqmn (a : Z) : 0 < a < ec_n -> eqmn (BN_invm a ec_n * a) 1.
Proof.
  intros Ha. pose proof ec_n_range. unfold eqmn.
  rewrite invm_inverse by (rewrite Z.mod_small; lia).
  symmetry. apply Z.mod_1_l. lia.
Qed.

(** With [s = k^-1 (h + r d)] and [s1 = s^-1], the two scalars of the
    verification, [u2 = r s1] and [u1 = h s1], satisfy
    [d u2 + u1 = k]. *)
Lemma ecdsa_congruence (kz d hz rz ki s1 sz : Z) :
  eqmn (ki * kz) 1 -> eqmn (s1 * sz) 1 ->
  eqmn sz (ki * ((hz + (rz * d) mod ec_n) mod ec_n)) ->
  eqmn ((d * ((rz * s1) mod ec_n)) mod ec_n + (hz * s1) mod ec_n) kz.
Proof.
  intros Hkinv Hsinv Hsz.
  repeat setoid_rewrite mod_eqmn in Hsz.
  repeat setoid_rewrite mod_eqmn.
  assert (Hks : eqmn (kz * sz) (hz + rz * d)).
  { rewrite Hsz.
    replace (kz * (ki * (hz + rz * d))) with ((ki * kz) * (hz + rz * d)) by ring.
    rewrite Hkinv.
    replace (1 * (hz + rz * d)) with (hz + rz * d) by ring. reflexivity. }
  replace (d * (rz * s1) + hz * s1) with ((hz + rz * d) * s1) by ring.
  rewrite <- Hks.
  replace (kz * sz * s1) with (kz * (s1 * sz)) by ring.
  rewrite Hsinv.
  replace (kz * 1) with kz by ring. reflexivity.
Qed.

(** The same with the inverses that the code computes; and [d u2] is
    not zero when [r], [d] and [s] are not. *)
Lemma ecdsa_algebra (kz d hz rz : Z) :
  0 < kz < ec_n -> 0 < d < ec_n -> rz mod ec_n <> 0 ->
  let sz := (BN_invm kz ec_n * ((hz + (rz * d) mod ec_n) mod ec_n)) mod ec_n in
  let s1 := BN_invm sz ec_n in
  sz <> 0 ->
  (d * ((rz * s1) mod ec_n)) mod ec_n <> 0
  /\ ((d * ((rz * s1) mod ec_n)) mod ec_n + (hz * s1) mod ec_n) mod ec_n = kz.
Proof.
  intros Hk Hd Hr sz s1 Hs.
  pose proof ec_n_range as Hn.
  assert (Hsr : 0 <= sz < ec_n) by (apply Z.mod_pos_bound; lia).
  assert (Hkinv := invm_eqmn kz Hk).
  assert (Hsinv : eqmn (s1 * sz) 1) by (apply invm_eqmn; lia).
  split.
  - rewrite Z.mul_mod_idemp_r by lia.
    rewrite Z.mul_assoc.
    apply mod_n_product_nonzero.
    + apply mod_n_product_nonzero; [rewrite Z.mod_small; lia | exact Hr].
    + intros H0. unfold eqmn in Hsinv.
      rewrite <- Z.mul_mod_idemp_l, H0, Z.mul_0_l, Z.mod_0_l, Z.mod_1_l in Hsinv by lia.
      discriminate Hsinv.
  - rewrite <- (Z.mod_small kz ec_n) by lia.
    apply (ecdsa_congruence kz d hz rz (BN_invm kz ec_n) s1 sz Hkinv Hsinv).
    apply mod_eqmn.
Qed.

(** ** Verification *)

Lemma byte_eqb_eq (x y : byte) : Byte.eqb x y = true <-> x = y.
Proof.
  split; [apply Byte.byte_dec_bl | apply Byte.byte_dec_lb].
Qed.

Lemma cell_neq_same (a : list byte) (i : nat) : cell_neq a a i = false.
Proof.
  unfold cell_neq. destruct (nth_error a i) as [x|]; [|reflexivity].
  rewrite (proj2 (byte_eqb_eq x x) eq_refl). reflexivity.
Qed.

Lemma cell_neq_false (a b : list byte) (i : nat) :
  cell_neq a b i = false <-> nth_error a i = nth_error b i.
Proof.
  unfold cell_neq.
  destruct (nth_error a i) as [x|], (nth_error b i) as [y|];
    try (split; [discriminate | discriminate]); [|split; reflexivity].
  rewrite negb_false_iff, byte_eqb_eq. split; congruence.
Qed.

(** The comparison loop of [verify] answers [true] exactly when two
    32-byte arrays are equal. *)
Lemma compare32_true (a b : list byte) :
  List.length a = 32%nat -> List.length b = 32%nat ->
  negb (existsb (cell_neq a b) (seq 0 32)) = true <-> a = b.
Proof.
  intros Ha Hb. rewrite negb_true_iff. split.
  - intros H. apply nth_error_ext. intros i.
    destruct (Nat.lt_ge_cases i 32) as [Hi|Hi].
    + apply cell_neq_false.
      destruct (cell_neq a b i) eqn:Hc; [|reflexivity].
      assert (Hex : existsb (cell_neq a b) (seq 0 32) = true).
      { apply existsb_exists. exists i. split; [apply in_seq; lia | exact Hc]. }
      congruence.
    + rewrite (proj2 (nth_error_None a i)), (proj2 (nth_error_None b i)) by lia.
      reflexivity.
  - intros ->. apply not_true_is_false. intros H.
    apply existsb_exists in H. destruct H as (i & _ & Hi).
    rewrite cell_neq_same in Hi. discriminate Hi.
Qed.

(** The same when the first array may be shorter: a missing cell reads
    [undefined], which differs from every byte. *)
Lemma compare_with_32_bytes (a b : list byte) :
  (List.length a <= 32)%nat -> List.length b = 32%nat ->
  negb (existsb (cell_neq a b) (seq 0 32)) = true <-> a = b.
Proof.
  intros Ha Hb.
  destruct (Nat.eq_dec (List.length a) 32) as [Heq|Hne];
    [apply compare32_true; assumption|].
  split.
  - intros H. exfalso. rewrite negb_true_iff in H.
    assert (Hex : existsb (cell_neq a b) (seq 0 32) = true); [|congruence].
    apply existsb_exists. exists (List.length a). split; [apply in_seq; lia|].
    unfold cell_neq.
    rewrite (proj2 (nth_error_None a (List.length a))) by lia.
    destruct (nth_error b (List.length a)) eqn:Hn; [reflexivity|].
    apply nth_error_None in Hn. lia.
  - intros ->. contradiction.
Qed.

Section VerifyFacts.
Context {E : EllipticCurve}.

Lemma verify_body_recovered (this : Secp256k1EcdsaSignature)
    (hashImpl : Secp256k1EcdsaHash) (message : list byte) (pubkey : xy_bytes) :
  verify_body this hashImpl message pubkey
  = (px <- recovered_x this hashImpl message pubkey ;;
     Ok (negb (existsb (cell_neq (sig_r this) px) (seq 0 32)))).
Proof.
  unfold verify_body, recovered_x.
  destruct (Curve.modInvN (sig_s this)) as [s1|]; [|reflexivity].
  rewrite !bind_Ok.
  destruct (Curve.mulModN (sig_r this) s1) as [u2|]; [|reflexivity].
  rewrite !bind_Ok.
  destruct (Curve.ecMul _ u2) as [pt|]; [|reflexivity].
  rewrite !bind_Ok.
  destruct (Curve.mulModN (hashImpl message) s1) as [u1|]; [|reflexivity].
  rewrite !bind_Ok.
  destruct (tweak pt u1) as [rp|]; reflexivity.
Qed.

Lemma is_empty_true (l : list byte) : is_empty l = true <-> l = [].
Proof. destruct l; split; try reflexivity; discriminate. Qed.

Lemma is_empty_false (l : list byte) : is_empty l = false <-> l <> [].
Proof. destruct l; split; try reflexivity; try discriminate; intros H; contradiction. Qed.

(** What the recomputation of [verify] returns, step by step: a
    [TypeError] when [s], [r] or the digest is empty (the scalar is
    [null]) and when [u2 P] or [u2 P + u1 G] is the point at infinity;
    otherwise the bytes of the x-coordinate of [u2 P + u1 G]. *)
Lemma recovered_x_formula (this : Secp256k1EcdsaSignature)
    (hashImpl : Secp256k1EcdsaHash) (message : list byte) (pubkey : xy_bytes) :
  recovered_x this hashImpl message pubkey
  = if is_empty (sig_s this) || is_empty (sig_r this) || is_empty (hashImpl message)
    then Throw TypeError
    else
      match point_getX (pubkey_multiple this pubkey),
            point_getY (pubkey_multiple this pubkey),
            point_getX (recomputed_point this (hashImpl message) pubkey),
            point_getY (recomputed_point this (hashImpl message) pubkey) with
      | Some _, Some _, Some X, Some _ => bnToBytes (Some X)
      | _, _, _, _ => Throw TypeError
      end.
Proof.
  pose proof ec_n_range as Hn.
  unfold recovered_x, recomputed_point, pubkey_multiple, verify_u1, verify_u2.
  destruct (empty_or_not (sig_s this)) as [Hs|Hs].
  { rewrite Hs. reflexivity. }
  rewrite (proj2 (is_empty_false _) Hs), modInvN_spec by exact Hs.
  rewrite bind_Ok. cbn [orb].
  set (s1 := BN_invm (be_int (sig_s this) mod ec_n) ec_n).
  assert (Hs1 : 0 <= s1 < ec_n) by apply invm_range.
  destruct (empty_or_not (sig_r this)) as [Hr|Hr].
  { rewrite mulModN_empty by (left; exact Hr). rewrite Hr. reflexivity. }
  rewrite (proj2 (is_empty_false _) Hr). cbn [orb].
  rewrite mulModN_spec by (try exact Hr; apply be_bytes32_nonempty).
  rewrite bind_Ok.
  rewrite (be_int_be_bytes32 s1) by lia. rewrite (Z.mod_small s1) by lia.
  set (u2 := (be_int (sig_r this) mod ec_n * s1) mod ec_n).
  unfold Curve.ecMul, log_and_rethrow, try_catch.
  rewrite toScalar_spec by apply be_bytes32_nonempty.
  rewrite bind_Ok. cbn [point_mul_scalar]. rewrite bind_Ok.
  rewrite be_int_be_bytes32 by apply mod_n_range.
  assert (Hu2 : u2 mod ec_n = u2)
    by (apply Z.mod_small; apply Z.mod_pos_bound; lia).
  rewrite Hu2. rewrite !BN_of_hex_bytes.
  set (R1 := point_mul (curve_point (be_int (xy_x pubkey)) (be_int (xy_y pubkey))) u2).
  rewrite pointXToBytes_spec, pointYToBytes_spec.
  destruct (point_getX R1) as [x1|];
    [|destruct (is_empty (hashImpl message)); reflexivity].
  destruct (bnToBytes_Some x1) as [bx1 ->]. rewrite bind_Ok.
  destruct (point_getY R1) as [y1|];
    [|destruct (is_empty (hashImpl message)); reflexivity].
  destruct (bnToBytes_Some y1) as [by1 ->]. rewrite !bind_Ok.
  destruct (empty_or_not (hashImpl message)) as [Hh|Hh].
  { rewrite mulModN_empty by (left; exact Hh). rewrite Hh. reflexivity. }
  rewrite (proj2 (is_empty_false _) Hh).
  rewrite mulModN_spec by (try exact Hh; apply be_bytes32_nonempty).
  rewrite bind_Ok. cbn [tweak]. unfold log_and_rethrow, try_catch.
  rewrite toScalar_spec by apply be_bytes32_nonempty.
  rewrite bind_Ok. cbn [point_mul_scalar]. rewrite bind_Ok.
  rewrite (be_int_be_bytes32 s1) by lia. rewrite (Z.mod_small s1) by lia.
  rewrite be_int_be_bytes32 by apply mod_n_range.
  rewrite Z.mod_mod by lia.
  rewrite pointXToBytes_spec, pointYToBytes_spec.
  destruct (point_getX (point_add R1 _)) as [X|]; [|reflexivity].
  destruct (bnToBytes_Some X) as [bX HbX]. rewrite HbX, bind_Ok.
  destruct (point_getY (point_add R1 _)) as [Y|]; [|reflexivity].
  destruct (bnToBytes_Some Y) as [bY ->]. reflexivity.
Qed.

(** The x-coordinate that [verify] recomputes, when there is one, has
    32 bytes. *)
Lemma recovered_x_length (this : Secp256k1EcdsaSignature)
    (hashImpl : Secp256k1EcdsaHash) (message : list byte) (pubkey : xy_bytes)
    (px : list byte) :
  recovered_x this hashImpl message pubkey = Ok px -> List.length px = 32%nat.
Proof.
  rewrite recovered_x_formula.
  destruct (_ || _); [discriminate|].
  destruct (point_getX (pubkey_multiple _ _)); [|discriminate].
  destruct (point_getY (pubkey_multiple _ _)); [|discriminate].
  destruct (point_getX (recomputed_point _ _ _)) as [X|]; [|discriminate].
  destruct (point_getY (recomputed_point _ _ _)); [|discriminate].
  apply bnToBytes_length.
Qed.

(** [verify] in terms of the recomputation. *)
Lemma verify_by_recovered (this : Secp256k1EcdsaSignature)
    (hashImpl : Secp256k1EcdsaHash) (message : list byte) (pubkey : xy_bytes) :
  verify this hashImpl message pubkey
  = match recovered_x this hashImpl message pubkey with
    | Ok px => negb (existsb (cell_neq (sig_r this) px) (seq 0 32))
    | Throw _ => false
    end.
Proof.
  unfold verify. rewrite verify_body_recovered.
  destruct (recovered_x this hashImpl message pubkey); reflexivity.
Qed.

Lemma sig_r_short (this : Secp256k1EcdsaSignature) :
  (List.length (sig_r this) <= 32)%nat.
Proof. unfold sig_r, slice. rewrite length_firstn. lia. Qed.

(** C2, amended: [verify] answers [true] exactly when none of [r], [s]
    and the digest is empty, the multiple [u2 P] of the point with the
    public key's coordinates is finite, the recomputed point
    [u2 P + u1 G] is finite, and the 32-byte encoding of its
    x-coordinate is [r], byte for byte.  In every other case, among them
    every error raised on the way, it answers [false].  Nothing asks
    whether the public key lies on the curve. *)
Theorem verify_decides (this : Secp256k1EcdsaSignature)
    (hashImpl : Secp256k1EcdsaHash) (message : list byte) (pubkey : xy_bytes) :
  (forall X, point_getX (recomputed_point this (hashImpl message) pubkey) = Some X ->
             0 <= X < 2 ^ 256) ->
  verify this hashImpl message pubkey = true
  <-> (sig_r this <> [] /\ sig_s this <> [] /\ hashImpl message <> []
       /\ point_getX (pubkey_multiple this pubkey) <> None
       /\ point_getY (pubkey_multiple this pubkey) <> None
       /\ point_getY (recomputed_point this (hashImpl message) pubkey) <> None
       /\ exists X,
            point_getX (recomputed_point this (hashImpl message) pubkey) = Some X
            /\ sig_r this = be_bytes 32 X).
Proof.
  intros Hrange. rewrite verify_by_recovered, recovered_x_formula.
  destruct (empty_or_not (sig_s this)) as [Hs|Hs].
  { rewrite (proj2 (is_empty_true _) Hs). cbn [orb].
    split; [discriminate | intros (_ & H & _); contradiction]. }
  rewrite (proj2 (is_empty_false _) Hs). cbn [orb].
  destruct (empty_or_not (sig_r this)) as [Hr|Hr].
  { rewrite (proj2 (is_empty_true _) Hr). cbn [orb].
    split; [discriminate | intros (H & _); contradiction]. }
  rewrite (proj2 (is_empty_false _) Hr). cbn [orb].
  destruct (empty_or_not (hashImpl message)) as [Hh|Hh].
  { rewrite (proj2 (is_empty_true _) Hh).
    split; [discriminate | intros (_ & _ & H & _); contradiction]. }
  rewrite (proj2 (is_empty_false _) Hh).
  destruct (point_getX (pubkey_multiple this pubkey)) as [x1|];
    [|split; [discriminate | intros (_ & _ & _ & H & _); contradiction]].
  destruct (point_getY (pubkey_multiple this pubkey)) as [y1|];
    [|split; [discriminate | intros (_ & _ & _ & _ & H & _); contradiction]].
  destruct (point_getX (recomputed_point this (hashImpl message) pubkey)) as [X|];
    [|split; [discriminate | intros (_ & _ & _ & _ & _ & _ & X & H & _); discriminate H]].
  destruct (point_getY (recomputed_point this (hashImpl message) pubkey)) as [Y|];
    [|split; [discriminate | intros (_ & _ & _ & _ & _ & H & _); contradiction]].
  rewrite bnToBytes_spec by (apply Hrange; reflexivity).
  rewrite compare_with_32_bytes by (first [apply sig_r_short | apply be_bytes_length]).
  split.
  - intros H. repeat (split; [first [assumption | discriminate]|]).
    exists X. split; [reflexivity | exact H].
  - intros (_ & _ & _ & _ & _ & _ & X' & HX' & H). injection HX' as <-. exact H.
Qed.
End VerifyFacts.
(** ** Round trip *)

Section RoundTrip.
Context {E : EllipticCurve} {L : EllipticLaws E}.

(** The public key of a private key that is not a multiple of the
    order. *)
Lemma pubkeyOf_value (privkey : list byte) :
  be_int privkey mod ec_n <> 0 ->
  exists x y,
    point_getX (point_mul ec_g (be_int privkey mod ec_n)) = Some x
    /\ point_getY (point_mul ec_g (be_int privkey mod ec_n)) = Some y
    /\ 0 <= x < 2 ^ 256 /\ 0 <= y < 2 ^ 256
    /\ curve_point x y = point_mul ec_g (be_int privkey mod ec_n)
    /\ pubkeyOf privkey = Ok {| xy_x := be_bytes 32 x; xy_y := be_bytes 32 y |}.
Proof.
  intros Hd. pose proof ec_n_range as Hn.
  pose proof (Z.mod_pos_bound (be_int privkey) ec_n ltac:(lia)) as Hr.
  destruct (generator_mul_finite (be_int privkey mod ec_n) ltac:(lia))
    as (x & y & Hx & Hy & Hxr & Hyr & Hp).
  exists x, y. repeat (split; [assumption|]).
  unfold pubkeyOf, keyFromPrivate_bytes_getPrivate, BN_umod.
  rewrite pointXToBytes_spec, pointYToBytes_spec, Hx, Hy.
  rewrite !bnToBytes_spec by assumption.
  rewrite !bind_Ok. reflexivity.
Qed.

(** What [verify] recomputes for the signature bytes [(r, s)] and the
    public key of [d]: the x-coordinate of [(d u2 + u1) G], with
    [u1 = h / s] and [u2 = r / s] modulo the order. *)
Lemma recovered_x_scalars (h : Secp256k1EcdsaHash) (message : list byte)
    (rz sz d xd yd t X Y : Z) :
  h message <> [] ->
  0 <= rz < 2 ^ 256 -> 0 <= sz < 2 ^ 256 ->
  0 <= xd < 2 ^ 256 -> 0 <= yd < 2 ^ 256 ->
  0 <= d < ec_n ->
  curve_point xd yd = point_mul ec_g d ->
  let s1 := BN_invm (sz mod ec_n) ec_n in
  let u2 := ((rz mod ec_n) * s1) mod ec_n in
  let u1 := ((be_int (h message) mod ec_n) * s1) mod ec_n in
  (d * u2) mod ec_n <> 0 ->
  t = ((d * u2) mod ec_n + u1) mod ec_n ->
  point_getX (point_mul ec_g t) = Some X ->
  point_getY (point_mul ec_g t) = Some Y ->
  0 <= X < 2 ^ 256 -> 0 <= Y < 2 ^ 256 ->
  recovered_x {| signature := be_bytes 32 rz ++ be_bytes 32 sz |}
    h message {| xy_x := be_bytes 32 xd; xy_y := be_bytes 32 yd |}
  = Ok (be_bytes 32 X).
Proof.
  intros Hh Hrz Hsz Hxd Hyd Hd Hpub s1 u2 u1 Hw Ht HX HY HXr HYr.
  pose proof ec_n_range as Hn.
  assert (Hu2 : 0 <= u2 < ec_n) by (apply Z.mod_pos_bound; lia).
  assert (Hu1 : 0 <= u1 < ec_n) by (apply Z.mod_pos_bound; lia).
  set (w := (d * u2) mod ec_n) in *.
  assert (Hwr : 0 < w < ec_n)
    by (pose proof (Z.mod_pos_bound (d * u2) ec_n); lia).
  rewrite recovered_x_formula.
  unfold recomputed_point, pubkey_multiple, verify_u1, verify_u2.
  rewrite sig_s_app, sig_r_app by apply be_bytes_length.
  rewrite (proj2 (is_empty_false _) (be_bytes32_nonempty sz)).
  rewrite (proj2 (is_empty_false _) (be_bytes32_nonempty rz)).
  rewrite (proj2 (is_empty_false _) Hh). cbn [orb xy_x xy_y].
  rewrite !be_int_be_bytes32 by assumption.
  fold s1. fold u2. fold u1.
  rewrite Hpub, mul_generator_mul by lia. fold w.
  destruct (generator_mul_finite w Hwr) as (wx & wy & Hwx & Hwy & _).
  rewrite Hwx, Hwy.
  rewrite add_generator_mul by lia.
  rewrite <- Ht, HX, HY.
  apply bnToBytes_spec. exact HXr.
Qed.

(** When the two multiples sum to the point at infinity the
    recomputation throws. *)
Lemma recovered_x_infinity (h : Secp256k1EcdsaHash) (message : list byte)
    (rz sz d xd yd : Z) :
  0 <= rz < 2 ^ 256 -> 0 <= sz < 2 ^ 256 ->
  0 <= xd < 2 ^ 256 -> 0 <= yd < 2 ^ 256 ->
  0 <= d < ec_n ->
  curve_point xd yd = point_mul ec_g d ->
  let s1 := BN_invm (sz mod ec_n) ec_n in
  let u2 := ((rz mod ec_n) * s1) mod ec_n in
  let u1 := ((be_int (h message) mod ec_n) * s1) mod ec_n in
  (d * u2) mod ec_n <> 0 ->
  ((d * u2) mod ec_n + u1) mod ec_n = 0 ->
  recovered_x {| signature := be_bytes 32 rz ++ be_bytes 32 sz |}
    h message {| xy_x := be_bytes 32 xd; xy_y := be_bytes 32 yd |}
  = Throw TypeError.
Proof.
  intros Hrz Hsz Hxd Hyd Hd Hpub s1 u2 u1 Hw Ht.
  pose proof ec_n_range as Hn.
  assert (Hu2 : 0 <= u2 < ec_n) by (apply Z.mod_pos_bound; lia).
  assert (Hu1 : 0 <= u1 < ec_n) by (apply Z.mod_pos_bound; lia).
  set (w := (d * u2) mod ec_n) in *.
  assert (Hwr : 0 < w < ec_n)
    by (pose proof (Z.mod_pos_bound (d * u2) ec_n); lia).
  rewrite recovered_x_formula.
  destruct (_ || _); [reflexivity|].
  unfold recomputed_point, pubkey_multiple, verify_u1, verify_u2.
  rewrite sig_s_app, sig_r_app by apply be_bytes_length.
  cbn [xy_x xy_y].
  rewrite !be_int_be_bytes32 by assumption.
  fold s1. fold u2. fold u1.
  rewrite Hpub, mul_generator_mul by lia. fold w.
  rewrite add_generator_mul by lia.
  rewrite Ht, generator_mul_zero.
  destruct (point_getX _); [|reflexivity].
  destruct (point_getY _); reflexivity.
Qed.

(** The scalar [s] of [signWithK] as a product modulo the order. *)
Lemma s_scalar_form (h k privkey : list byte) (X : Z) :
  0 <= X < 2 ^ 256 ->
  s_scalar h k privkey (be_bytes 32 X)
  = (BN_invm (be_int k mod ec_n) ec_n
     * ((be_int h + (X * (be_int privkey mod ec_n)) mod ec_n) mod ec_n)) mod ec_n.
Proof.
  intros HX. pose proof ec_n_range as Hn. unfold s_scalar.
  rewrite be_int_be_bytes32 by exact HX.
  rewrite Z.mul_mod_idemp_l, Z.add_mod_idemp_l by lia. reflexivity.
Qed.

(** The signature that [signWithK] returns, the public key, and what
    [verify] recomputes from them. *)
Lemma sign_then_recompute (hashImpl : Secp256k1EcdsaHash)
    (message k privkey : list byte) :
  be_int k mod ec_n <> 0 -> be_int privkey mod ec_n <> 0 ->
  hashImpl message <> [] ->
  exists X sz pub,
    0 <= X < 2 ^ 256 /\ 0 <= sz < ec_n
    /\ point_getX (point_mul ec_g (be_int k mod ec_n)) = Some X
    /\ sz = s_scalar (hashImpl message) k privkey (be_bytes 32 X)
    /\ signWithK hashImpl message k privkey
       = Ok {| signature := be_bytes 32 X ++ be_bytes 32 sz |}
    /\ pubkeyOf privkey = Ok pub
    /\ (X mod ec_n <> 0 -> sz <> 0 ->
        recovered_x {| signature := be_bytes 32 X ++ be_bytes 32 sz |}
          hashImpl message pub
        = Ok (be_bytes 32 X)).
Proof.
  intros Hk Hd Hh. pose proof ec_n_range as Hn.
  pose proof (Z.mod_pos_bound (be_int k) ec_n ltac:(lia)) as Hkr.
  pose proof (Z.mod_pos_bound (be_int privkey) ec_n ltac:(lia)) as Hdr.
  set (kz := be_int k mod ec_n) in *. set (dz := be_int privkey mod ec_n) in *.
  destruct (generator_mul_finite kz ltac:(lia)) as (X & Y & HX & HY & HXr & HYr & _).
  destruct (pubkeyOf_value privkey Hd) as (xd & yd & _ & _ & Hxd & Hyd & Hpub & Hpk).
  fold dz in Hpub.
  set (sz := s_scalar (hashImpl message) k privkey (be_bytes 32 X)).
  assert (Hszr : 0 <= sz < ec_n) by (unfold sz, s_scalar; apply Z.mod_pos_bound; lia).
  exists X, sz, {| xy_x := be_bytes 32 xd; xy_y := be_bytes 32 yd |}.
  split; [exact HXr|]. split; [exact Hszr|]. split; [exact HX|].
  split; [reflexivity|].
  split.
  { apply signWithK_finite; try assumption.
    - apply (be_int_nonzero_nonempty k ec_n). exact Hk.
    - apply (be_int_nonzero_nonempty privkey ec_n). exact Hd. }
  split; [exact Hpk|].
  intros Hr Hs.
  assert (Hform : sz = (BN_invm kz ec_n
                        * ((be_int (hashImpl message) + (X * dz) mod ec_n) mod ec_n))
                       mod ec_n)
    by (apply s_scalar_form; exact HXr).
  destruct (ecdsa_algebra kz dz (be_int (hashImpl message)) X
              ltac:(lia) ltac:(lia) Hr) as [Hw Ht].
  { rewrite <- Hform. exact Hs. }
  rewrite <- Hform in Hw, Ht.
  apply (recovered_x_scalars hashImpl message X sz dz xd yd kz X Y);
    try assumption; try lia.
  - rewrite (Z.mod_small sz) by lia. rewrite Z.mul_mod_idemp_l by lia. exact Hw.
  - rewrite (Z.mod_small sz) by lia.
    rewrite !Z.mul_mod_idemp_l by lia. symmetry. exact Ht.
Qed.

(** C1, amended: for a private key and a nonce in [(0, N)] and a hash
    provider whose digest of the message is not empty, [signWithK]
    returns a signature and the key has a public key; when the
    signature has [r mod N <> 0] and [s <> 0], [verify] accepts it. *)
Theorem sign_verify_round_trip (hashImpl : Secp256k1EcdsaHash)
    (message k privkey : list byte) :
  0 < be_int k < ec_n -> 0 < be_int privkey < ec_n ->
  hashImpl message <> [] ->
  exists sig pub,
    signWithK hashImpl message k privkey = Ok sig
    /\ pubkeyOf privkey = Ok pub
    /\ (be_int (sig_r sig) mod ec_n <> 0 -> be_int (sig_s sig) <> 0 ->
        verify sig hashImpl message pub = true).
Proof.
  intros Hk Hd Hh. pose proof ec_n_range as Hn.
  destruct (sign_then_recompute hashImpl message k privkey)
    as (X & sz & pub & HXr & Hsr & _ & _ & Hsig & Hpub & Hrec);
    try (rewrite Z.mod_small by lia; lia); try exact Hh.
  exists {| signature := be_bytes 32 X ++ be_bytes 32 sz |}, pub.
  split; [exact Hsig|]. split; [exact Hpub|].
  rewrite sig_r_app, sig_s_app by apply be_bytes_length.
  rewrite !be_int_be_bytes32 by lia.
  intros Hr Hs.
  rewrite verify_by_recovered, (Hrec Hr Hs).
  rewrite sig_r_app by apply be_bytes_length.
  apply compare32_true; [apply be_bytes_length | apply be_bytes_length | reflexivity].
Qed.
End RoundTrip.

(** ** The curve secp256k1 *)

Lemma secp_p_range : 0 < Secp256k1.p < 2 ^ 256.
Proof. unfold Secp256k1.p. lia. Qed.

Lemma double_in_field (P : Secp256k1.pt) :
  pt_in_field P -> pt_in_field (Secp256k1.double P).
Proof.
  pose proof secp_p_range as Hp.
  destruct P as [[x y]|]; cbn [Secp256k1.double pt_in_field]; [|trivial].
  intros _. destruct (y =? 0); cbn [pt_in_field]; [trivial|].
  split; apply Z.mod_pos_bound; lia.
Qed.

Lemma add_in_field (P Q : Secp256k1.pt) :
  pt_in_field P -> pt_in_field Q -> pt_in_field (Secp256k1.add P Q).
Proof.
  pose proof secp_p_range as Hp.
  intros HP HQ.
  destruct P as [[x1 y1]|]; [|exact HQ].
  destruct Q as [[x2 y2]|]; [|exact HP].
  unfold Secp256k1.add.
  destruct (x1 =? x2).
  - destruct (y1 =? y2); [apply double_in_field; exact HP | exact I].
  - split; apply Z.mod_pos_bound; lia.
Qed.

Lemma mul_pos_in_field (P : Secp256k1.pt) (k : positive) :
  pt_in_field P -> pt_in_field (Secp256k1.mul_pos P k).
Proof.
  intros HP. induction k as [k IH|k IH|]; cbn [Secp256k1.mul_pos].
  - apply add_in_field; [exact HP | apply double_in_field; exact IH].
  - apply double_in_field; exact IH.
  - exact HP.
Qed.

Lemma mul_in_field (P : Secp256k1.pt) (k : Z) :
  pt_in_field P -> pt_in_field (Secp256k1.mul P k).
Proof.
  pose proof secp_p_range as Hp.
  intros HP. destruct k as [|k|k]; cbn [Secp256k1.mul].
  - exact I.
  - apply mul_pos_in_field; exact HP.
  - pose proof (mul_pos_in_field P k HP) as H.
    destruct (Secp256k1.mul_pos P k) as [[x y]|]; cbn [Secp256k1.neg pt_in_field] in *;
      [|exact I].
    split; [apply H | apply Z.mod_pos_bound; lia].
Qed.

Lemma generator_in_field : pt_in_field (Some (Secp256k1.Gx, Secp256k1.Gy)).
Proof. cbn. unfold Secp256k1.Gx, Secp256k1.Gy, Secp256k1.p. lia. Qed.

Lemma generator_on_curve_true :
  Secp256k1.on_curve (Secp256k1.Gx, Secp256k1.Gy) = true.
Proof. vm_compute. reflexivity. Qed.

(** The multiples of the generator that [ec.g.mul] returns. *)
Lemma generator_mul_point (k : Z) :
  point_mul (EllipticCurve := Secp256k1.curve) ec_g k
  = Secp256k1.mul (Some (Secp256k1.Gx, Secp256k1.Gy)) k.
Proof.
  cbn [point_mul ec_g Secp256k1.curve]. unfold Secp256k1.Point_mul.
  rewrite generator_on_curve_true. reflexivity.
Qed.

Lemma endoSplit_zero : Secp256k1.endoSplit 0 = (0, 0).
Proof. vm_compute. reflexivity. Qed.

(** [P.mul(0)] is the point at infinity, on the curve and off it. *)
Lemma Point_mul_zero (P : Secp256k1.pt) : Secp256k1.Point_mul P 0 = None.
Proof.
  destruct P as [[x y]|]; [|reflexivity]. unfold Secp256k1.Point_mul.
  destruct (Secp256k1.on_curve (x, y)); [reflexivity|].
  unfold Secp256k1.endoWnafMulAdd. rewrite endoSplit_zero. reflexivity.
Qed.

(** The scalar of [signWithK] is [k^-1 (h + d r)] modulo [N]. *)
Lemma s_scalar_congruence (h k privkey r : list byte) :
  be_int k mod ec_n <> 0 ->
  0 <= s_scalar h k privkey r < ec_n
  /\ (s_scalar h k privkey r * be_int k) mod ec_n
     = (be_int h + be_int privkey * be_int r) mod ec_n.
Proof.
  intros Hk. pose proof ec_n_range as Hn.
  split; [unfold s_scalar; apply Z.mod_pos_bound; lia|].
  assert (Hinv : eqmn (BN_invm (be_int k mod ec_n) ec_n * be_int k) 1).
  { unfold eqmn. rewrite <- Z.mul_mod_idemp_r by lia.
    assert (Hk' : (be_int k mod ec_n) mod ec_n <> 0)
      by (rewrite Z.mod_mod by lia; exact Hk).
    rewrite (invm_inverse _ Hk').
    symmetry. apply Z.mod_1_l. unfold ec_n. lia. }
  unfold s_scalar.
  set (ki := BN_invm (be_int k mod ec_n) ec_n) in *. clearbody ki.
  change (eqmn
            ((ki * ((be_int h mod ec_n
                     + (be_int r mod ec_n * (be_int privkey mod ec_n)) mod ec_n)
                    mod ec_n)) mod ec_n * be_int k)
            (be_int h + be_int privkey * be_int r)).
  repeat setoid_rewrite mod_eqmn.
  replace (ki * (be_int h + be_int r * be_int privkey) * be_int k)
    with ((ki * be_int k) * (be_int h + be_int privkey * be_int r)) by ring.
  rewrite Hinv.
  replace (1 * (be_int h + be_int privkey * be_int r))
    with (be_int h + be_int privkey * be_int r) by ring.
  reflexivity.
Qed.

(** C4, amended: when [signWithK] succeeds, [k] is not 0 modulo [N],
    the point [k * G] is finite, and the signature is the 32-byte
    encoding of its x-coordinate [X] itself (not reduced modulo [N])
    followed by the encoding of the [s] in [[0, N)] with
    [s * k = digest + privkey * X] modulo [N], that is
    [s = k^-1 (digest + privkey * r) mod N]. *)
Theorem signWithK_components (hashImpl : Secp256k1EcdsaHash)
    (message k privkey : list byte) (sig : Secp256k1EcdsaSignature) :
  signWithK (E := Secp256k1.curve) hashImpl message k privkey = Ok sig ->
  be_int k mod ec_n <> 0
  /\ exists X Y s,
       Secp256k1.mul (Some (Secp256k1.Gx, Secp256k1.Gy)) (be_int k mod ec_n)
       = Some (X, Y)
       /\ 0 <= X < Secp256k1.p
       /\ signature sig = be_bytes 32 X ++ be_bytes 32 s
       /\ 0 <= s < ec_n
       /\ (s * be_int k) mod ec_n
          = (be_int (hashImpl message) + be_int privkey * X) mod ec_n.
Proof.
  intros Hsig. pose proof secp_p_range as Hp.
  pose proof (mul_in_field _ (be_int k mod ec_n) generator_in_field) as Hf.
  destruct (Secp256k1.mul (Some (Secp256k1.Gx, Secp256k1.Gy)) (be_int k mod ec_n))
    as [[X Y]|] eqn:Hmul.
  - cbn [pt_in_field] in Hf. destruct Hf as [HX HY].
    assert (Hk : be_int k mod ec_n <> 0).
    { intros H0. rewrite H0 in Hmul. discriminate Hmul. }
    destruct (empty_or_not k) as [Hke|Hke];
      [rewrite signWithK_empty in Hsig by (left; exact Hke); discriminate Hsig|].
    destruct (empty_or_not privkey) as [Hde|Hde];
      [rewrite signWithK_empty in Hsig by (right; left; exact Hde);
       discriminate Hsig|].
    destruct (empty_or_not (hashImpl message)) as [Hhe|Hhe];
      [rewrite signWithK_empty in Hsig by (right; right; exact Hhe);
       discriminate Hsig|].
    rewrite (signWithK_finite (E := Secp256k1.curve) hashImpl message k privkey X)
      in Hsig; try assumption.
    + injection Hsig as <-. split; [exact Hk|].
      exists X, Y, (s_scalar (hashImpl message) k privkey (be_bytes 32 X)).
      destruct (s_scalar_congruence (hashImpl message) k privkey (be_bytes 32 X) Hk)
        as [Hr Hc].
      rewrite be_int_be_bytes32 in Hc by lia.
      repeat split; try assumption; try lia; apply HX.
    + rewrite generator_mul_point. cbn [point_getX Secp256k1.curve].
      rewrite Hmul. reflexivity.
    + lia.
  - rewrite (signWithK_infinity (E := Secp256k1.curve)) in Hsig; [discriminate|].
    rewrite generator_mul_point. cbn [point_getX Secp256k1.curve].
    rewrite Hmul. reflexivity.
Qed.

Lemma signWithK_components_witness :
  exists sig,
    signWithK (E := Secp256k1.curve) hash_one [] one32 one32 = Ok sig
    /\ be_int one32 mod ec_n <> 0
    /\ exists X Y s,
         Secp256k1.mul (Some (Secp256k1.Gx, Secp256k1.Gy)) (be_int one32 mod ec_n)
         = Some (X, Y)
         /\ 0 <= X < Secp256k1.p
         /\ signature sig = be_bytes 32 X ++ be_bytes 32 s
         /\ 0 <= s < ec_n
         /\ (s * be_int one32) mod ec_n
            = (be_int (hash_one []) + be_int one32 * X) mod ec_n.
Proof.
  destruct (signWithK (E := Secp256k1.curve) hash_one [] one32 one32)
    as [sig|e] eqn:Hsig; [|vm_compute in Hsig; discriminate Hsig].
  exists sig. split; [reflexivity|].
  exact (signWithK_components hash_one [] one32 one32 sig Hsig).
Defined.

(** C1, as the specification states it, fails in two ways.  When [s]
    comes out as 0: with nonce 1, private key 1 and the digest
    [N - Gx], [signWithK] returns a signature with [s = 0], which
    [verify] rejects.  And when the hash provider returns an empty
    digest: [signWithK] returns no signature at all. *)
Lemma round_trip_fails :
  0 < be_int one32 < ec_n
  /\ (exists sig pub,
        signWithK (E := Secp256k1.curve) hash_minus_Gx [] one32 one32 = Ok sig
        /\ pubkeyOf (E := Secp256k1.curve) one32 = Ok pub
        /\ be_int (sig_s sig) = 0
        /\ verify (E := Secp256k1.curve) sig hash_minus_Gx [] pub = false)
  /\ signWithK (E := Secp256k1.curve) hash_empty [] one32 one32
     = Throw (Secp256k1EcdsaException InvalidSecretKey).
Proof.
  split; [vm_compute; split; reflexivity|].
  split; [|vm_compute; reflexivity].
  eexists. eexists.
  split; [vm_compute; reflexivity|].
  split; [vm_compute; reflexivity|].
  split; vm_compute; reflexivity.
Qed.

(** ** The discrete-logarithm model satisfies the laws *)

Lemma dlog_laws : EllipticLaws DlogModel.curve.
Proof.
  pose proof ec_n_range as Hn.
  constructor; cbn [point_mul point_add ec_g point_getX point_getY curve_point
                      DlogModel.curve].
  - intros a b Ha Hb.
    rewrite !Z.mul_1_l, Z.mod_mod, Z.mul_mod_idemp_l by lia. reflexivity.
  - intros a b Ha Hb.
    rewrite !Z.mul_1_l, Z.mod_mod by lia. symmetry. apply Z.add_mod. lia.
  - intros k Hk. exists k, k.
    rewrite Z.mul_1_l, Z.mod_small by lia.
    unfold DlogModel.coordinate. rewrite Z.mod_small by lia.
    destruct (Z.eqb_spec k 0); [lia|].
    repeat split; lia.
  - reflexivity.
Qed.

Lemma sign_verify_round_trip_witness :
  0 < be_int one32 < ec_n
  /\ hash_one [] <> []
  /\ exists sig pub,
       signWithK (E := DlogModel.curve) hash_one [] one32 one32 = Ok sig
       /\ pubkeyOf (E := DlogModel.curve) one32 = Ok pub
       /\ verify (E := DlogModel.curve) sig hash_one [] pub = true.
Proof.
  assert (H1 : 0 < be_int one32 < ec_n) by (vm_compute; split; reflexivity).
  assert (Hh : hash_one [] <> []) by apply be_bytes32_nonempty.
  split; [exact H1|]. split; [exact Hh|].
  destruct (sign_verify_round_trip (L := dlog_laws) hash_one [] one32 one32 H1 H1 Hh)
    as (sig & pub & Hsig & Hpub & Hv).
  exists sig, pub. split; [exact Hsig|]. split; [exact Hpub|].
  assert (Hc : signWithK (E := DlogModel.curve) hash_one [] one32 one32
               = Ok {| signature := be_bytes 32 1 ++ be_bytes 32 2 |})
    by (vm_compute; reflexivity).
  rewrite Hc in Hsig. injection Hsig as <-.
  apply Hv; vm_compute; discriminate.
Defined.

(** ** Deterministic signing *)

Lemma rfc6979Generate_throws (ec_sign : Z -> list byte -> result (Z * Z * Z))
    (privKey message : list byte) :
  exists e, rfc6979Generate ec_sign privKey message = Throw e.
Proof.
  unfold rfc6979Generate, log_and_rethrow, try_catch, key_sign.
  destruct (keyFromPrivate_getPrivate _) as [priv|]; cbn [BN_operand bind];
    [|eexists; reflexivity].
  destruct (ec_sign priv message) as [[[r s] rp]|e].
  - rewrite !bind_Ok. eexists. reflexivity.
  - eexists. reflexivity.
Qed.

(** C3 fails on the code: whatever the private key, the message and the
    hash provider, [sign] throws, because the nonce is read from a
    property [k] that the signature object of the library does not
    have. *)
Theorem sign_always_throws {E : EllipticCurve}
    (ec_sign : Z -> list byte -> result (Z * Z * Z))
    (hashImpl : Secp256k1EcdsaHash) (message privkey : list byte) :
  exists e, sign ec_sign hashImpl message privkey = Throw e.
Proof.
  unfold sign.
  destruct (rfc6979Generate_throws ec_sign privkey (hashImpl message)) as [e He].
  rewrite He. exists e. reflexivity.
Qed.

(** When the library's own signing succeeds, the error is the one
    [bnToBytes] raises on an undefined argument. *)
Lemma sign_error_message {E : EllipticCurve}
    (ec_sign : Z -> list byte -> result (Z * Z * Z))
    (hashImpl : Secp256k1EcdsaHash) (message privkey : list byte) (rs : Z * Z * Z) :
  privkey <> [] ->
  ec_sign (be_int privkey mod ec_n) (hashImpl message) = Ok rs ->
  sign ec_sign hashImpl message privkey = Throw (JsError "BN is undefined or null").
Proof.
  intros Hd H. unfold sign, rfc6979Generate, log_and_rethrow, try_catch, key_sign.
  pose proof (toScalar_spec privkey Hd) as Ht.
  unfold toScalar, log_and_rethrow, try_catch in Ht. injection Ht as ->.
  cbn [BN_operand bind]. rewrite H. destruct rs as [[r s] rp]. reflexivity.
Qed.

(** C2, as the specification states it, fails on an invalid public
    key: the pair (1, 1) is not a point of the curve, and [verify]
    answers [true] for it on the signature [r = s = 1] and the digest 0.
    The scalars are [u2 = 1] and [u1 = 0]: the library returns the point
    it was given for the scalar 1 and adds the point at infinity to
    it. *)
Lemma verify_accepts_invalid_pubkey :
  Secp256k1.on_curve (1, 1) = false
  /\ new_Signature (signature sig_low_s) = Ok sig_low_s
  /\ verify (E := Secp256k1.curve) sig_low_s hash_zero []
       {| xy_x := be_bytes 32 1; xy_y := be_bytes 32 1 |} = true.
Proof.
  split; [vm_compute; reflexivity|].
  split; vm_compute; reflexivity.
Qed.

Lemma verify_decides_witness :
  let sig := {| signature := be_bytes 32 Secp256k1.Gx ++ be_bytes 32 Secp256k1.Gx |} in
  let pub := {| xy_x := be_bytes 32 Secp256k1.Gx; xy_y := be_bytes 32 Secp256k1.Gy |} in
  (forall X,
     point_getX (recomputed_point (E := Secp256k1.curve) sig (hash_zero []) pub)
     = Some X -> 0 <= X < 2 ^ 256)
  /\ verify (E := Secp256k1.curve) sig hash_zero [] pub = true.
Proof.
  cbv zeta.
  assert (HR : recomputed_point (E := Secp256k1.curve)
                 {| signature := be_bytes 32 Secp256k1.Gx ++ be_bytes 32 Secp256k1.Gx |}
                 (hash_zero [])
                 {| xy_x := be_bytes 32 Secp256k1.Gx; xy_y := be_bytes 32 Secp256k1.Gy |}
               = Some (Secp256k1.Gx, Secp256k1.Gy)) by (vm_compute; reflexivity).
  assert (Hrange : forall X,
             point_getX (recomputed_point (E := Secp256k1.curve)
               {| signature := be_bytes 32 Secp256k1.Gx ++ be_bytes 32 Secp256k1.Gx |}
               (hash_zero [])
               {| xy_x := be_bytes 32 Secp256k1.Gx; xy_y := be_bytes 32 Secp256k1.Gy |})
             = Some X -> 0 <= X < 2 ^ 256).
  { intros X H. rewrite HR in H. injection H as <-.
    vm_compute. split; [discriminate | reflexivity]. }
  split; [exact Hrange|].
  apply (verify_decides (E := Secp256k1.curve) _ hash_zero [] _ Hrange).
  split; [rewrite sig_r_app by apply be_bytes_length; apply be_bytes32_nonempty|].
  split; [rewrite sig_s_app by apply be_bytes_length; apply be_bytes32_nonempty|].
  split; [apply be_bytes32_nonempty|].
  split; [vm_compute; discriminate|].
  split; [vm_compute; discriminate|].
  split; [rewrite HR; discriminate|].
  exists Secp256k1.Gx. split; [rewrite HR; reflexivity|].
  apply sig_r_app, be_bytes_length.
Defined.

(** ** Mutation and aliasing *)

Lemma nth_error_extend (h ext : Heap.heap) (l : Heap.loc) (bs : list byte) :
  nth_error h l = Some bs -> nth_error (h ++ ext) l = Some bs.
Proof.
  intros H. rewrite nth_error_app1; [exact H|].
  apply nth_error_Some. congruence.
Qed.

Lemma nth_error_fresh (h ext : Heap.heap) (n : nat) :
  nth_error (h ++ ext) (List.length h + n) = nth_error ext n.
Proof.
  rewrite nth_error_app2 by lia. f_equal. lia.
Qed.

(** *** What an array shows *)

Lemma window_length (a : Heap.array) (blk bs : list byte) :
  Heap.window a blk = Some bs -> List.length bs = Heap.arr_length a.
Proof.
  unfold Heap.window.
  destruct (Nat.leb_spec (Heap.arr_offset a + Heap.arr_length a) (List.length blk))
    as [Hin|Hin]; [|discriminate].
  intros H. injection H as <-.
  rewrite length_firstn, length_skipn. lia.
Qed.

Lemma view_length (h : Heap.heap) (a : Heap.array) (bs : list byte) :
  Heap.view h a = Some bs -> List.length bs = Heap.arr_length a.
Proof.
  unfold Heap.view. destruct (nth_error h (Heap.arr_block a)); [|discriminate].
  apply window_length.
Qed.

Lemma view_old (h : Heap.heap) (a : Heap.array) (bs : list byte) :
  Heap.view h a = Some bs -> (Heap.arr_block a < List.length h)%nat.
Proof.
  unfold Heap.view. intros H. apply nth_error_Some.
  destruct (nth_error h (Heap.arr_block a)); [discriminate | discriminate].
Qed.

Lemma view_extend (h ext : Heap.heap) (a : Heap.array) (bs : list byte) :
  Heap.view h a = Some bs -> Heap.view (h ++ ext) a = Some bs.
Proof.
  unfold Heap.view. intros H.
  destruct (nth_error h (Heap.arr_block a)) as [blk|] eqn:Hb; [|discriminate].
  rewrite (nth_error_extend h ext _ blk Hb). exact H.
Qed.

Lemma window_whole (bs : list byte) (len : nat) (k : Heap.array_kind) :
  List.length bs = len ->
  Heap.window (Heap.array_at 0 len k) bs = Some bs.
Proof.
  intros <-. unfold Heap.window, Heap.array_at. cbn [Heap.arr_offset Heap.arr_length].
  rewrite Nat.add_0_l, Nat.leb_refl. cbn [skipn].
  rewrite firstn_all. reflexivity.
Qed.

Lemma view_fresh (h ext : Heap.heap) (n len : nat) (k : Heap.array_kind)
    (bs : list byte) :
  nth_error ext n = Some bs -> List.length bs = len ->
  Heap.view (h ++ ext) (Heap.array_at (List.length h + n) len k) = Some bs.
Proof.
  intros H Hlen. unfold Heap.view. cbn [Heap.array_at Heap.arr_block].
  rewrite nth_error_fresh, H.
  exact (window_whole bs len k Hlen).
Qed.

(** A narrower window on the same block shows a slice of the bytes. *)
Lemma view_narrow (h : Heap.heap) (a : Heap.array) (bs : list byte)
    (from to : nat) (k : Heap.array_kind) :
  Heap.view h a = Some bs ->
  (from <= to <= Heap.arr_length a)%nat ->
  Heap.view h {| Heap.arr_block := Heap.arr_block a;
                 Heap.arr_offset := Heap.arr_offset a + from;
                 Heap.arr_length := to - from;
                 Heap.arr_kind := k |}
  = Some (slice from to bs).
Proof.
  unfold Heap.view. cbn [Heap.arr_block].
  destruct (nth_error h (Heap.arr_block a)) as [blk|]; [|discriminate].
  unfold Heap.window. cbn [Heap.arr_offset Heap.arr_length].
  destruct (Nat.leb_spec (Heap.arr_offset a + Heap.arr_length a) (List.length blk))
    as [Hin|Hin]; [|discriminate].
  intros H Hft. injection H as <-.
  destruct (Nat.leb_spec (Heap.arr_offset a + from + (to - from)) (List.length blk))
    as [Hin'|Hin']; [|lia].
  f_equal. unfold slice.
  rewrite skipn_firstn_comm, firstn_firstn, skipn_skipn.
  f_equal; [lia | f_equal; lia].
Qed.

(** *** The operations on a store [h ++ ext], where [ext] holds the
    blocks allocated since [h] *)

Lemma contents_view (h : Heap.heap) (a : Heap.array) (bs : list byte) :
  Heap.view h a = Some bs -> Heap.contents a h = (Ok bs, h).
Proof. intros H. unfold Heap.contents. rewrite H. reflexivity. Qed.

Lemma new_array_ext (h ext : Heap.heap) (k : Heap.array_kind) (bs : list byte)
    (len : nat) :
  List.length bs = len ->
  Heap.new_array k bs (h ++ ext)
  = (Ok (Heap.array_at (List.length h + List.length ext) len k),
     h ++ (ext ++ [bs])).
Proof.
  intros <-. unfold Heap.new_array. rewrite length_app, app_assoc. reflexivity.
Qed.

Lemma slice_plain (h ext : Heap.heap) (a : Heap.array) (bs : list byte)
    (from to len : nat) :
  Heap.arr_kind a = Heap.PlainUint8Array ->
  Heap.view (h ++ ext) a = Some bs ->
  List.length (slice from to bs) = len ->
  Heap.Uint8Array_slice a from to (h ++ ext)
  = (Ok (Heap.array_at (List.length h + List.length ext) len Heap.PlainUint8Array),
     h ++ (ext ++ [slice from to bs])).
Proof.
  intros Hk Hv Hlen. unfold Heap.Uint8Array_slice, Heap.bindM. rewrite Hk.
  rewrite (contents_view _ _ _ Hv). apply new_array_ext. exact Hlen.
Qed.

Lemma slice_buffer (h : Heap.heap) (a : Heap.array) (from to : nat) :
  Heap.arr_kind a = Heap.NodeBuffer ->
  (from <= to <= Heap.arr_length a)%nat ->
  Heap.Uint8Array_slice a from to h
  = (Ok {| Heap.arr_block := Heap.arr_block a;
           Heap.arr_offset := Heap.arr_offset a + from;
           Heap.arr_length := to - from;
           Heap.arr_kind := Heap.NodeBuffer |}, h).
Proof.
  intros Hk Hft. unfold Heap.Uint8Array_slice, Heap.ret. rewrite Hk.
  rewrite !Nat.min_l by lia. reflexivity.
Qed.

Lemma Buffer_from_view (h ext : Heap.heap) (a : Heap.array) (bs : list byte)
    (len : nat) :
  Heap.view (h ++ ext) a = Some bs -> List.length bs = len ->
  Heap.Buffer_from a (h ++ ext)
  = (Ok (Heap.array_at (List.length h + List.length ext) len Heap.NodeBuffer),
     h ++ (ext ++ [bs])).
Proof.
  intros H Hlen. unfold Heap.Buffer_from, Heap.bindM.
  rewrite (contents_view _ _ _ H). apply new_array_ext. exact Hlen.
Qed.

Lemma N_DIV_2_ext (h ext : Heap.heap) :
  Heap.N_DIV_2_toArray (h ++ ext)
  = (Ok (Heap.array_at (List.length h + List.length ext) 32 Heap.PlainUint8Array),
     h ++ (ext ++ [be_bytes 32 Curve.N_DIV_2])).
Proof.
  unfold Heap.N_DIV_2_toArray, Heap.bindM, Heap.lift.
  rewrite N_DIV_2_bytes. apply new_array_ext. apply be_bytes_length.
Qed.

Lemma negateN_view (h ext : Heap.heap) (a : Heap.array) (bs : list byte) :
  Heap.view (h ++ ext) a = Some bs -> bs <> [] ->
  Heap.Curve_negateN a (h ++ ext)
  = (Ok (Heap.array_at (List.length h + List.length ext) 32 Heap.PlainUint8Array),
     h ++ (ext ++ [be_bytes 32 ((ec_n - be_int bs mod ec_n) mod ec_n)])).
Proof.
  intros H Hne. unfold Heap.Curve_negateN, Heap.bindM.
  rewrite (contents_view _ _ _ H). unfold Heap.lift.
  rewrite negateN_spec by exact Hne. apply new_array_ext. apply be_bytes_length.
Qed.

(** A write through an array that shows the whole of a new block. *)
Lemma store_fresh (h ext : Heap.heap) (n len : nat) (k : Heap.array_kind)
    (d bs : list byte) :
  nth_error ext n = Some d -> List.length d = len -> List.length bs = len ->
  Heap.store (Heap.array_at (List.length h + n) len k) bs (h ++ ext)
  = (Ok tt, h ++ (firstn n ext ++ bs :: skipn (S n) ext)).
Proof.
  intros Hd Hdl Hbl. unfold Heap.store.
  cbn [Heap.array_at Heap.arr_block Heap.arr_offset Heap.arr_length].
  rewrite nth_error_fresh, Hd, Hdl, Hbl.
  rewrite Nat.add_0_l, Nat.leb_refl, Nat.eqb_refl. cbn [andb firstn app].
  assert (Hn : (n < List.length ext)%nat) by (apply nth_error_Some; congruence).
  rewrite firstn_app, List.firstn_all2 by lia.
  replace (List.length h + n - List.length h)%nat with n by lia.
  rewrite skipn_app, (List.skipn_all2 h (n := S (List.length h + n))) by lia.
  replace (S (List.length h + n) - List.length h)%nat with (S n) by lia.
  rewrite <- Hdl, skipn_all, app_nil_r, <- app_assoc. reflexivity.
Qed.

Lemma set_at_length (d s d' : list byte) (off : nat) :
  set_at d s off = Ok d' -> List.length d' = List.length d.
Proof.
  unfold set_at.
  destruct (Nat.leb_spec (off + List.length s) (List.length d)) as [Hfit|Hfit];
    [|discriminate].
  intros H. apply Ok_inj in H. subst d'.
  rewrite !length_app, length_firstn, length_skipn. lia.
Qed.

Lemma set_fresh (h ext : Heap.heap) (n len off : nat) (k : Heap.array_kind)
    (src : Heap.array) (d s d' : list byte) :
  nth_error ext n = Some d -> List.length d = len ->
  Heap.view (h ++ ext) src = Some s ->
  set_at d s off = Ok d' ->
  Heap.Uint8Array_set (Heap.array_at (List.length h + n) len k) src off (h ++ ext)
  = (Ok tt, h ++ (firstn n ext ++ d' :: skipn (S n) ext)).
Proof.
  intros Hd Hdl Hs Hset. unfold Heap.Uint8Array_set, Heap.bindM.
  rewrite (contents_view _ _ d (view_fresh h ext n len k d Hd Hdl)).
  rewrite (contents_view _ _ s Hs).
  unfold Heap.lift. rewrite Hset.
  apply (store_fresh h ext n len k d d' Hd Hdl).
  rewrite (set_at_length _ _ _ _ Hset). exact Hdl.
Qed.

Lemma new_Signature_64 (h : Heap.heap) (a : Heap.array) :
  Heap.arr_length a = 64%nat ->
  Heap.new_Signature a h = (Ok {| Heap.signature_ref := a |}, h).
Proof.
  intros H. unfold Heap.new_Signature. rewrite H. reflexivity.
Qed.

Lemma nth_error_update_other (h : Heap.heap) (n m : nat) (blk : list byte) :
  (n < List.length h)%nat -> m <> n ->
  nth_error (firstn n h ++ blk :: skipn (S n) h) m = nth_error h m.
Proof.
  intros Hl Hne.
  destruct (Nat.lt_ge_cases m n) as [Hlt|Hge].
  - rewrite nth_error_app1 by (rewrite length_firstn; lia).
    rewrite nth_error_firstn.
    destruct (Nat.ltb_spec m n); [reflexivity | lia].
  - rewrite nth_error_app2 by (rewrite length_firstn; lia).
    rewrite length_firstn, Nat.min_l by lia.
    destruct (m - n)%nat as [|d] eqn:Hd; [lia|].
    cbn [nth_error]. rewrite nth_error_skipn. f_equal. lia.
Qed.

(** A write through an array leaves what the arrays on other blocks
    show as it was. *)
Lemma store_other (h h' : Heap.heap) (w a : Heap.array) (bs : list byte) :
  Heap.store w bs h = (Ok tt, h') ->
  Heap.arr_block a <> Heap.arr_block w ->
  Heap.view h' a = Heap.view h a.
Proof.
  unfold Heap.store.
  destruct (nth_error h (Heap.arr_block w)) as [blk|] eqn:Hb; [|discriminate].
  destruct (_ && _)%bool; [|discriminate].
  assert (Hl : (Heap.arr_block w < List.length h)%nat)
    by (apply nth_error_Some; congruence).
  intros H Hne. apply (f_equal snd) in H. cbn [snd] in H. subst h'.
  unfold Heap.view.
  rewrite nth_error_update_other by assumption. reflexivity.
Qed.

Ltac heap_step lem :=
  unfold Heap.bindM at 1; rewrite lem; cbn [List.length app].

(** *** [normalizeS] in a store *)

(** The first half of the method, up to the comparison, from the point
    where [s()] has returned the array [s]. *)
Lemma normalizeS_compare (h ext : Heap.heap) (this : Heap.object)
    (s : Heap.array) (sb : list byte) (k : Heap.M Heap.object) :
  Heap.view (h ++ ext) s = Some sb ->
  List.length sb = 32%nat ->
  let half := be_bytes 32 Curve.N_DIV_2 in
  Heap.bindM (Heap.Buffer_from s) (fun sBN =>
  Heap.bindM Heap.N_DIV_2_toArray (fun nDiv2Array =>
  Heap.bindM (Heap.Buffer_from nDiv2Array) (fun nDiv2Buf =>
  Heap.bindM (Heap.contents sBN) (fun sBN_bytes =>
  Heap.bindM (Heap.contents nDiv2Buf) (fun nDiv2Buf_bytes =>
  if shouldNegate sBN_bytes nDiv2Buf_bytes
  then k else Heap.ret this))))) (h ++ ext)
  = (if Curve.N_DIV_2 <? be_int sb then k else Heap.ret this)
      (h ++ (ext ++ [sb; half; half])).
Proof.
  intros Hs Hsl half.
  assert (Hhl : List.length half = 32%nat) by apply be_bytes_length.
  heap_step (Buffer_from_view h ext s sb 32 Hs Hsl).
  heap_step (N_DIV_2_ext h (ext ++ [sb])). fold half.
  rewrite <- app_assoc. cbn [app].
  heap_step (Buffer_from_view h (ext ++ [sb; half])
               (Heap.array_at (List.length h + List.length (ext ++ [sb])) 32
                  Heap.PlainUint8Array) half 32).
  2: { rewrite length_app. cbn [List.length].
       replace (List.length h + (List.length ext + 1))%nat
         with (List.length h + (List.length ext + 1))%nat by reflexivity.
       apply view_fresh; [|exact Hhl].
       rewrite nth_error_app2 by lia.
       replace (List.length ext + 1 - List.length ext)%nat with 1%nat by lia.
       reflexivity. }
  2: exact Hhl.
  rewrite <- app_assoc. cbn [app].
  unfold Heap.bindM at 1.
  rewrite (contents_view _ (Heap.array_at (List.length h + List.length ext) 32
                              Heap.NodeBuffer) sb).
  2: { apply view_fresh; [|exact Hsl].
       rewrite nth_error_app2 by lia. rewrite Nat.sub_diag. reflexivity. }
  unfold Heap.bindM at 1.
  rewrite (contents_view _ (Heap.array_at
                              (List.length h + List.length (ext ++ [sb; half])) 32
                              Heap.NodeBuffer) half).
  2: { rewrite length_app. cbn [List.length].
       apply view_fresh; [|exact Hhl].
       rewrite nth_error_app2 by lia.
       replace (List.length ext + 2 - List.length ext)%nat with 2%nat by lia.
       reflexivity. }
  rewrite shouldNegate_spec by (rewrite Hsl, Hhl; reflexivity).
  unfold half at 1. rewrite be_int_be_bytes32 by (vm_compute; split; congruence).
  reflexivity.
Qed.

(** The second half, taken when [s > N / 2], in a store where the
    receiver shows [bs] and the array [s] its last 32 bytes: the result
    is an instance on a new block that holds [r] followed by
    [(N - s) mod N]. *)
Lemma normalizeS_rebuild (h : Heap.heap) (this : Heap.object) (s : Heap.array)
    (bs : list byte) :
  Heap.bytes_of h this = Some bs ->
  List.length bs = 64%nat ->
  Heap.view h s = Some (slice 32 64 bs) ->
  exists this' ext,
    Heap.bindM (Heap.Curve_negateN s) (fun negS =>
    Heap.bindM (Heap.new_array Heap.PlainUint8Array (new_Uint8Array 64))
      (fun signature0 =>
    Heap.bindM (Heap.sig_r this) (fun r =>
    Heap.bindM (Heap.Uint8Array_set signature0 r 0) (fun _ =>
    Heap.bindM (Heap.Uint8Array_set signature0 negS 32) (fun _ =>
    Heap.new_Signature signature0))))) h
    = (Ok this', h ++ ext)
    /\ (List.length h <= Heap.arr_block (Heap.signature_ref this'))%nat
    /\ Heap.bytes_of (h ++ ext) this'
       = Some (slice 0 32 bs
               ++ be_bytes 32 ((ec_n - be_int (slice 32 64 bs) mod ec_n) mod ec_n)).
Proof.
  intros Hb Hlen Hs.
  pose proof (sig_s_length {| signature := bs |} Hlen) as Hsl.
  pose proof (sig_r_length {| signature := bs |} Hlen) as Hrl.
  unfold sig_s in Hsl. unfold sig_r in Hrl. cbn [signature] in Hsl, Hrl.
  pose proof (view_length _ _ _ Hb) as Hal. rewrite Hlen in Hal.
  set (sb := slice 32 64 bs) in *. set (rb := slice 0 32 bs) in *.
  set (negS := be_bytes 32 ((ec_n - be_int sb mod ec_n) mod ec_n)).
  assert (Hnl : List.length negS = 32%nat) by apply be_bytes_length.
  assert (Hne : sb <> []) by (apply length32_nonempty; exact Hsl).
  exists {| Heap.signature_ref :=
              Heap.array_at (List.length h + 1) 64 Heap.PlainUint8Array |}.
  unfold Heap.bytes_of in *. cbn [Heap.signature_ref Heap.array_at Heap.arr_block].
  assert (Hfront : set_at (new_Uint8Array 64) rb 0 = Ok (rb ++ repeat x00 32))
    by (apply set_at_front; exact Hrl).
  assert (Hback : set_at (rb ++ repeat x00 32) negS 32 = Ok (rb ++ negS))
    by (apply set_at_back; assumption).
  assert (Hz : List.length (rb ++ repeat x00 32) = 64%nat)
    by (rewrite length_app, repeat_length, Hrl; reflexivity).
  assert (Hout : List.length (rb ++ negS) = 64%nat)
    by (rewrite length_app, Hrl, Hnl; reflexivity).
  destruct (Heap.arr_kind (Heap.signature_ref this)) eqn:Hk.
  - exists [negS; rb ++ negS; rb].
    split; [|split; [lia|]].
    + rewrite <- (app_nil_r h) at 1.
      heap_step (negateN_view h [] s sb (view_extend h [] s sb Hs) Hne). fold negS.
      heap_step (new_array_ext h [negS] Heap.PlainUint8Array (new_Uint8Array 64) 64
                   (repeat_length _ _)).
      unfold Heap.sig_r.
      heap_step (slice_plain h [negS; new_Uint8Array 64] _ bs 0 32 32 Hk
                   (view_extend h _ _ bs Hb) Hrl).
      fold rb.
      heap_step (set_fresh h [negS; new_Uint8Array 64; rb] 1 64 0
                   Heap.PlainUint8Array
                   (Heap.array_at (List.length h + 2) 32 Heap.PlainUint8Array)
                   (new_Uint8Array 64) rb (rb ++ repeat x00 32) eq_refl
                   (repeat_length _ _)
                   (view_fresh h [negS; new_Uint8Array 64; rb] 2 32 _ rb eq_refl Hrl) Hfront).
      cbn [firstn skipn app].
      heap_step (set_fresh h [negS; rb ++ repeat x00 32; rb] 1 64 32
                   Heap.PlainUint8Array
                   (Heap.array_at (List.length h + 0) 32 Heap.PlainUint8Array)
                   (rb ++ repeat x00 32) negS (rb ++ negS) eq_refl Hz
                   (view_fresh h [negS; rb ++ repeat x00 32; rb] 0 32 _ negS
                      eq_refl Hnl) Hback).
      cbn [firstn skipn app].
      apply new_Signature_64. reflexivity.
    + exact (view_fresh h [negS; rb ++ negS; rb] 1 64 _ (rb ++ negS) eq_refl Hout).
  - exists [negS; rb ++ negS].
    split; [|split; [lia|]].
    + rewrite <- (app_nil_r h) at 1.
      heap_step (negateN_view h [] s sb (view_extend h [] s sb Hs) Hne). fold negS.
      heap_step (new_array_ext h [negS] Heap.PlainUint8Array (new_Uint8Array 64) 64
                   (repeat_length _ _)).
      unfold Heap.sig_r.
      heap_step (slice_buffer (h ++ [negS; new_Uint8Array 64])
                   (Heap.signature_ref this) 0 32 Hk).
      2: lia.
      heap_step (set_fresh h [negS; new_Uint8Array 64] 1 64 0
                   Heap.PlainUint8Array
                   {| Heap.arr_block := Heap.arr_block (Heap.signature_ref this);
                      Heap.arr_offset := Heap.arr_offset (Heap.signature_ref this) + 0;
                      Heap.arr_length := 32 - 0;
                      Heap.arr_kind := Heap.NodeBuffer |}
                   (new_Uint8Array 64) rb (rb ++ repeat x00 32) eq_refl
                   (repeat_length _ _)).
      2: { apply view_extend. apply view_narrow; [exact Hb | lia]. }
      2: exact Hfront.
      cbn [firstn skipn app].
      heap_step (set_fresh h [negS; rb ++ repeat x00 32] 1 64 32
                   Heap.PlainUint8Array
                   (Heap.array_at (List.length h + 0) 32 Heap.PlainUint8Array)
                   (rb ++ repeat x00 32) negS (rb ++ negS) eq_refl Hz
                   (view_fresh h [negS; rb ++ repeat x00 32] 0 32 _ negS
                      eq_refl Hnl) Hback).
      cbn [firstn skipn app].
      apply new_Signature_64. reflexivity.
    + exact (view_fresh h [negS; rb ++ negS] 1 64 _ (rb ++ negS) eq_refl Hout).
Qed.

(** [s()] returns an array that shows the last 32 bytes, in a store
    that is the old one or the old one with one more block. *)
Lemma sig_s_shows (h : Heap.heap) (this : Heap.object) (bs : list byte) :
  Heap.bytes_of h this = Some bs ->
  List.length bs = 64%nat ->
  exists s ext,
    Heap.sig_s this h = (Ok s, h ++ ext)
    /\ Heap.view (h ++ ext) s = Some (slice 32 64 bs).
Proof.
  intros Hb Hlen.
  pose proof (sig_s_length {| signature := bs |} Hlen) as Hsl.
  unfold sig_s in Hsl. cbn [signature] in Hsl.
  pose proof (view_length _ _ _ Hb) as Hal. rewrite Hlen in Hal.
  unfold Heap.bytes_of in Hb. unfold Heap.sig_s.
  destruct (Heap.arr_kind (Heap.signature_ref this)) eqn:Hk.
  - exists (Heap.array_at (List.length h + 0) 32 Heap.PlainUint8Array),
      [slice 32 64 bs].
    split.
    + rewrite <- (app_nil_r h) at 1.
      rewrite (slice_plain h [] _ bs 32 64 32 Hk (view_extend h [] _ bs Hb) Hsl).
      reflexivity.
    + exact (view_fresh h [slice 32 64 bs] 0 32 _ _ eq_refl Hsl).
  - eexists _, [].
    split.
    + rewrite app_nil_r. apply slice_buffer; [exact Hk | lia].
    + rewrite app_nil_r. apply view_narrow; [exact Hb | lia].
Qed.

(** [normalizeS] only adds blocks to the store.  It returns the receiver
    itself when [s <= N / 2], and otherwise an instance on a new block
    that holds [r] followed by [(N - s) mod N]. *)
Lemma normalizeS_store (h : Heap.heap) (this : Heap.object) (bs : list byte) :
  Heap.bytes_of h this = Some bs ->
  List.length bs = 64%nat ->
  exists this' ext,
    Heap.normalizeS this h = (Ok this', h ++ ext)
    /\ (be_int (slice 32 64 bs) <= Curve.N_DIV_2 -> this' = this)
    /\ (Curve.N_DIV_2 < be_int (slice 32 64 bs) ->
        (List.length h <= Heap.arr_block (Heap.signature_ref this'))%nat
        /\ Heap.bytes_of (h ++ ext) this'
           = Some (slice 0 32 bs
                   ++ be_bytes 32
                        ((ec_n - be_int (slice 32 64 bs) mod ec_n) mod ec_n))).
Proof.
  intros Hb Hlen.
  pose proof (sig_s_length {| signature := bs |} Hlen) as Hsl.
  unfold sig_s in Hsl. cbn [signature] in Hsl.
  destruct (sig_s_shows h this bs Hb Hlen) as (s & ext & Hs & Hv).
  unfold Heap.normalizeS. unfold Heap.bindM at 1. rewrite Hs.
  rewrite (normalizeS_compare h ext this s _ _ Hv Hsl). cbv zeta.
  destruct (Z.ltb_spec Curve.N_DIV_2 (be_int (slice 32 64 bs))) as [Hgt|Hle].
  - set (half := be_bytes 32 Curve.N_DIV_2).
    set (h1 := h ++ ext ++ [slice 32 64 bs; half; half]).
    assert (Hb1 : Heap.bytes_of h1 this = Some bs).
    { unfold h1. apply view_extend. exact Hb. }
    assert (Hv1 : Heap.view h1 s = Some (slice 32 64 bs)).
    { unfold h1. rewrite app_assoc. apply view_extend. exact Hv. }
    destruct (normalizeS_rebuild h1 this s bs Hb1 Hlen Hv1)
      as (this' & ext' & Hn & Hfresh & Hshow).
    exists this', ((ext ++ [slice 32 64 bs; half; half]) ++ ext').
    rewrite Hn. unfold h1 in *. rewrite <- !app_assoc in *.
    split; [reflexivity|]. split; [lia|]. intros _.
    split; [|exact Hshow].
    rewrite length_app in Hfresh. lia.
  - exists this, (ext ++ [slice 32 64 bs; be_bytes 32 Curve.N_DIV_2;
                          be_bytes 32 Curve.N_DIV_2]).
    split; [reflexivity|]. split; [reflexivity | lia].
Qed.

(** C10, as the specification states it, fails in three ways.  On a
    signature that is already normalised ([s = 1]) [normalizeS] returns
    the receiver itself, not a new instance.  On a signature whose array
    is a [Buffer], [r()] returns a window on the signature's own memory
    and allocates nothing: a write to its first byte changes the
    signature.  And the constructor keeps the array it is given: a
    write by the caller to that array changes the signature. *)
Lemma signature_storage_shared :
  (let this := {| Heap.signature_ref := plain_array |} in
   Heap.bytes_of one_block this = Some (signature sig_low_s)
   /\ fst (Heap.normalizeS this one_block) = Ok this)
  /\ (let this := {| Heap.signature_ref := buffer_array |} in
      Heap.bytes_of one_block this = Some (signature sig_low_s)
      /\ exists r h2,
           Heap.sig_r this one_block = (Ok r, one_block)
           /\ Heap.assign r 0 xff one_block = (Ok tt, h2)
           /\ Heap.bytes_of h2 this = Some (xff :: tl (signature sig_low_s))
           /\ Heap.bytes_of h2 this <> Some (signature sig_low_s))
  /\ (exists this h2,
        Heap.new_Signature plain_array one_block = (Ok this, one_block)
        /\ Heap.bytes_of one_block this = Some (signature sig_low_s)
        /\ Heap.assign plain_array 0 xff one_block = (Ok tt, h2)
        /\ Heap.bytes_of h2 this = Some (xff :: tl (signature sig_low_s))
        /\ Heap.bytes_of h2 this <> Some (signature sig_low_s)).
Proof.
  cbv zeta. split; [|split].
  - split; [reflexivity|]. vm_compute. reflexivity.
  - split; [reflexivity|].
    exists (Heap.array_at 0 32 Heap.NodeBuffer),
      [xff :: tl (signature sig_low_s)].
    split; [reflexivity|]. split; [vm_compute; reflexivity|].
    split; [vm_compute; reflexivity|]. vm_compute. discriminate.
  - exists {| Heap.signature_ref := plain_array |},
      [xff :: tl (signature sig_low_s)].
    split; [reflexivity|]. split; [reflexivity|].
    split; [vm_compute; reflexivity|].
    split; [vm_compute; reflexivity|]. vm_compute. discriminate.
Qed.

(** C10, amended.  In a store [h] where the instance shows the 64 bytes
    [bs]:
    - when its array is a plain [Uint8Array], [r()] and [s()] return a
      new array on a new block with a copy of the first and of the last
      32 bytes, and no write through an array on that block changes the
      bytes of the instance;
    - when its array is a [Buffer], [r()] and [s()] allocate nothing and
      return windows on the block of the instance, which show its first
      and last 32 bytes;
    - [normalizeS] only adds blocks to the store and leaves the bytes of
      the receiver as they were; it returns the receiver itself when
      [s <= N / 2], and otherwise an instance on a new block that holds
      [r] followed by [(N - s) mod N]. *)
Theorem signature_not_mutated (h : Heap.heap) (this : Heap.object) (bs : list byte) :
  Heap.bytes_of h this = Some bs ->
  List.length bs = 64%nat ->
  (Heap.arr_kind (Heap.signature_ref this) = Heap.PlainUint8Array ->
   Heap.sig_r this h
   = (Ok (Heap.array_at (List.length h) 32 Heap.PlainUint8Array),
      h ++ [slice 0 32 bs])
   /\ Heap.sig_s this h
      = (Ok (Heap.array_at (List.length h) 32 Heap.PlainUint8Array),
         h ++ [slice 32 64 bs])
   /\ forall copy w bs' h2,
        Heap.arr_block w = List.length h ->
        Heap.store w bs' (h ++ [copy]) = (Ok tt, h2) ->
        Heap.bytes_of h2 this = Some bs)
  /\ (Heap.arr_kind (Heap.signature_ref this) = Heap.NodeBuffer ->
      exists r s,
        Heap.sig_r this h = (Ok r, h)
        /\ Heap.sig_s this h = (Ok s, h)
        /\ Heap.arr_block r = Heap.arr_block (Heap.signature_ref this)
        /\ Heap.arr_block s = Heap.arr_block (Heap.signature_ref this)
        /\ Heap.view h r = Some (slice 0 32 bs)
        /\ Heap.view h s = Some (slice 32 64 bs))
  /\ exists this' ext,
       Heap.normalizeS this h = (Ok this', h ++ ext)
       /\ Heap.bytes_of (h ++ ext) this = Some bs
       /\ (be_int (slice 32 64 bs) <= Curve.N_DIV_2 -> this' = this)
       /\ (Curve.N_DIV_2 < be_int (slice 32 64 bs) ->
           (List.length h <= Heap.arr_block (Heap.signature_ref this'))%nat
           /\ Heap.bytes_of (h ++ ext) this'
              = Some (slice 0 32 bs
                      ++ be_bytes 32
                           ((ec_n - be_int (slice 32 64 bs) mod ec_n) mod ec_n))).
Proof.
  intros Hb Hlen.
  pose proof (sig_s_length {| signature := bs |} Hlen) as Hsl.
  pose proof (sig_r_length {| signature := bs |} Hlen) as Hrl.
  unfold sig_s in Hsl. unfold sig_r in Hrl. cbn [signature] in Hsl, Hrl.
  pose proof (view_length _ _ _ Hb) as Hal. rewrite Hlen in Hal.
  pose proof (view_old _ _ _ Hb) as Hold.
  split; [|split].
  - intros Hk. unfold Heap.sig_r, Heap.sig_s.
    split; [|split].
    + rewrite <- (app_nil_r h) at 1.
      rewrite (slice_plain h [] _ bs 0 32 32 Hk (view_extend h [] _ bs Hb) Hrl).
      cbn [List.length app]. rewrite Nat.add_0_r. reflexivity.
    + rewrite <- (app_nil_r h) at 1.
      rewrite (slice_plain h [] _ bs 32 64 32 Hk (view_extend h [] _ bs Hb) Hsl).
      cbn [List.length app]. rewrite Nat.add_0_r. reflexivity.
    + intros copy w bs' h2 Hw Hst. unfold Heap.bytes_of.
      rewrite (store_other _ _ w (Heap.signature_ref this) bs' Hst) by lia.
      apply view_extend. exact Hb.
  - intros Hk. unfold Heap.sig_r, Heap.sig_s. eexists _, _.
    split; [apply slice_buffer; [exact Hk | lia]|].
    split; [apply slice_buffer; [exact Hk | lia]|].
    split; [reflexivity|]. split; [reflexivity|].
    split; apply view_narrow; solve [exact Hb | lia].
  - destruct (normalizeS_store h this bs Hb Hlen) as (this' & ext & Hn & Hle & Hgt).
    exists this', ext.
    split; [exact Hn|].
    split; [apply view_extend; exact Hb|].
    split; assumption.
Qed.

Lemma signature_not_mutated_witness :
  let h := [signature sig_high_s] in
  let this := {| Heap.signature_ref := plain_array |} in
  let bs := signature sig_high_s in
  Heap.bytes_of h this = Some bs
  /\ List.length bs = 64%nat
  /\ exists this' ext,
       Heap.normalizeS this h = (Ok this', h ++ ext)
       /\ Heap.bytes_of (h ++ ext) this = Some bs
       /\ (be_int (slice 32 64 bs) <= Curve.N_DIV_2 -> this' = this)
       /\ (Curve.N_DIV_2 < be_int (slice 32 64 bs) ->
           (List.length h <= Heap.arr_block (Heap.signature_ref this'))%nat
           /\ Heap.bytes_of (h ++ ext) this'
              = Some (slice 0 32 bs
                      ++ be_bytes 32
                           ((ec_n - be_int (slice 32 64 bs) mod ec_n) mod ec_n))).
Proof.
  cbv zeta.
  assert (H1 : Heap.bytes_of [signature sig_high_s]
                 {| Heap.signature_ref := plain_array |}
               = Some (signature sig_high_s)) by reflexivity.
  assert (H2 : List.length (signature sig_high_s) = 64%nat) by reflexivity.
  split; [exact H1|]. split; [exact H2|].
  exact (proj2 (proj2 (signature_not_mutated _ _ _ H1 H2))).
Defined.
(** * Further properties of the signature class and of the scalar helpers *)

Lemma bind_inv {A B : Type} (m : result A) (k : A -> result B) (b : B) :
  bind m k = Ok b -> exists a, m = Ok a /\ k a = Ok b.
Proof.
  destruct m as [a|e]; cbn [bind]; intros H; [|discriminate H].
  exists a. split; [reflexivity|exact H].
Qed.

Lemma bind_ext {A B : Type} (m : result A) (f g : A -> result B) :
  (forall a, f a = g a) -> bind m f = bind m g.
Proof. intros H. destruct m as [a|e]; cbn [bind]; [apply H|reflexivity]. Qed.

Lemma new_Signature_Ok (bs : list byte) (sig : Secp256k1EcdsaSignature) :
  new_Signature bs = Ok sig ->
  List.length bs = 64%nat /\ sig = {| signature := bs |}.
Proof.
  unfold new_Signature, SECP256K1_ECDSA_SIGNATURE_LENGTH.
  destruct (Nat.eqb_spec (List.length bs) 64) as [H|H]; cbn [negb];
    intros H0; [|discriminate H0].
  apply Ok_inj in H0. split; [exact H|symmetry; exact H0].
Qed.

Lemma seq_forallb_nth (a b : list byte) :
  List.length a = List.length b ->
  forallb (fun i => Byte.eqb (nth i a x00) (nth i b x00)) (seq 0 (List.length a)) = true ->
  a = b.
Proof.
  intros Hl H. rewrite forallb_forall in H.
  apply (nth_ext a b x00 x00 Hl). intros n Hn.
  apply byte_eqb_eq. apply H. apply in_seq. lia.
Qed.

(** X1: [equals] answers [true] exactly when the two instances hold the
    same bytes, whatever their lengths. *)
Theorem equals_byte_equality (this other : Secp256k1EcdsaSignature) :
  equals this other = true <-> signature this = signature other.
Proof.
  unfold equals. split.
  - destruct (Nat.eqb_spec (List.length (signature this))
                (List.length (signature other))) as [Hl|Hl]; cbn [negb];
      [|discriminate].
    apply seq_forallb_nth. exact Hl.
  - intros H. rewrite <- H, Nat.eqb_refl. cbn [negb].
    apply forallb_forall. intros i _. apply byte_eqb_eq. reflexivity.
Qed.

(** X2: a signature built from 32 bytes [r] followed by 32 bytes [s] is
    accepted by the constructor, its accessors return [r] and [s], and
    the two halves together are its bytes. *)
Theorem signature_halves (r s : list byte) :
  List.length r = 32%nat -> List.length s = 32%nat ->
  exists sig,
    new_Signature (r ++ s) = Ok sig
    /\ sig_r sig = r /\ sig_s sig = s
    /\ sig_r sig ++ sig_s sig = signature sig.
Proof.
  intros Hr Hs. exists {| signature := r ++ s |}.
  split.
  - unfold new_Signature, SECP256K1_ECDSA_SIGNATURE_LENGTH.
    rewrite length_app, Hr, Hs. reflexivity.
  - rewrite sig_r_app, sig_s_app by assumption. repeat split; reflexivity.
Qed.

Lemma signature_halves_witness :
  List.length (be_bytes 32 1) = 32%nat /\ List.length (be_bytes 32 2) = 32%nat
  /\ exists sig,
       new_Signature (be_bytes 32 1 ++ be_bytes 32 2) = Ok sig
       /\ sig_r sig = be_bytes 32 1 /\ sig_s sig = be_bytes 32 2
       /\ sig_r sig ++ sig_s sig = signature sig.
Proof.
  split; [reflexivity|]. split; [reflexivity|].
  apply (signature_halves (be_bytes 32 1) (be_bytes 32 2)); reflexivity.
Defined.

Section SignatureInvariant.
Context {E : EllipticCurve}.

(** X3: the constructor refuses every array whose length is not 64 with
    [InvalidSignature], so every instance it returns, and every
    instance [signWithK] or [normalizeS] returns, holds exactly 64
    bytes. *)
Theorem signature_length_invariant :
  (forall bs, List.length bs <> 64%nat ->
              new_Signature bs = Throw (Secp256k1EcdsaException InvalidSignature))
  /\ (forall bs sig, new_Signature bs = Ok sig ->
                     signature sig = bs /\ List.length bs = 64%nat)
  /\ (forall hashImpl message k privkey sig,
        signWithK hashImpl message k privkey = Ok sig ->
        List.length (signature sig) = 64%nat)
  /\ (forall this sig,
        List.length (signature this) = 64%nat ->
        normalizeS this = Ok sig -> List.length (signature sig) = 64%nat).
Proof.
  split.
  { intros bs H. unfold new_Signature, SECP256K1_ECDSA_SIGNATURE_LENGTH.
    destruct (Nat.eqb_spec (List.length bs) 64) as [H0|H0]; [contradiction|reflexivity]. }
  split.
  { intros bs sig H. apply new_Signature_Ok in H. destruct H as [Hl ->].
    split; [reflexivity|exact Hl]. }
  split.
  { intros hashImpl message k privkey sig. unfold signWithK, try_catch.
    match goal with |- match ?b with _ => _ end = _ -> _ => destruct b as [x|e] eqn:Hb end;
      intros H; [|discriminate H].
    apply Ok_inj in H. subst x.
    repeat (apply bind_inv in Hb; destruct Hb as (? & _ & Hb)).
    apply new_Signature_Ok in Hb. destruct Hb as [Hl ->]. exact Hl. }
  intros this sig Hl H. rewrite (normalizeS_spec this Hl) in H.
  apply Ok_inj in H. subst sig.
  destruct (Curve.N_DIV_2 <? be_int (sig_s this)); [|exact Hl].
  cbn [signature]. rewrite length_app, be_bytes_length, sig_r_length by exact Hl.
  reflexivity.
Qed.
End SignatureInvariant.
Section SigningErrors.
Context {E : EllipticCurve}.

Lemma both_empty_or_not (a b : list byte) :
  (a = [] <-> b = []) -> (a = [] /\ b = []) \/ (a <> [] /\ b <> []).
Proof.
  intros H. destruct (empty_or_not a) as [Ha|Ha].
  - left. split; [exact Ha | apply H; exact Ha].
  - right. split; [exact Ha|]. intros Hb. apply Ha, H, Hb.
Qed.

Lemma mulG_congruent (k k' : list byte) :
  (k = [] <-> k' = []) ->
  be_int k mod ec_n = be_int k' mod ec_n -> Curve.mulG k = Curve.mulG k'.
Proof.
  intros He H. destruct (both_empty_or_not k k' He) as [[-> ->]|[Hk Hk']];
    [reflexivity|].
  rewrite !mulG_spec, H by assumption. reflexivity.
Qed.

Lemma modInvN_congruent (k k' : list byte) :
  (k = [] <-> k' = []) ->
  be_int k mod ec_n = be_int k' mod ec_n -> Curve.modInvN k = Curve.modInvN k'.
Proof.
  intros He H. destruct (both_empty_or_not k k' He) as [[-> ->]|[Hk Hk']];
    [reflexivity|].
  rewrite !modInvN_spec, H by assumption. reflexivity.
Qed.

Lemma mulModN_congruent (a b b' : list byte) :
  (b = [] <-> b' = []) ->
  be_int b mod ec_n = be_int b' mod ec_n -> Curve.mulModN a b = Curve.mulModN a b'.
Proof.
  intros He H. destruct (both_empty_or_not b b' He) as [[-> ->]|[Hb Hb']];
    [reflexivity|].
  destruct (empty_or_not a) as [->|Ha].
  - rewrite !mulModN_empty by (left; reflexivity). reflexivity.
  - rewrite !mulModN_spec, H by assumption. reflexivity.
Qed.

(** X5: [signWithK] reads the nonce and the private key modulo the
    order only: two nonces, and two private keys, that are both empty
    or both not empty and have the same value modulo [N], whatever
    their lengths, give the same result. *)
Theorem signWithK_scalars_modulo_order (hashImpl : Secp256k1EcdsaHash)
    (message k k' privkey privkey' : list byte) :
  (k = [] <-> k' = []) ->
  (privkey = [] <-> privkey' = []) ->
  be_int k mod ec_n = be_int k' mod ec_n ->
  be_int privkey mod ec_n = be_int privkey' mod ec_n ->
  signWithK hashImpl message k privkey = signWithK hashImpl message k' privkey'.
Proof.
  intros Hke Hde Hk Hd. unfold signWithK.
  rewrite (mulG_congruent k k' Hke Hk), (modInvN_congruent k k' Hke Hk).
  apply (f_equal (fun body => try_catch body _)).
  apply bind_ext. intros r. apply bind_ext. intros modInvK.
  rewrite (mulModN_congruent r privkey privkey' Hde Hd). reflexivity.
Qed.

(** X6: [verify] reads [s] modulo the order only: two signatures with
    the same [r] whose [s] differ by a multiple of [N] get the same
    answer, so [s] and [s + N] are both accepted or both refused.  (The
    two [s] are both empty or both not empty; those of signatures the
    constructor accepted have 32 bytes.) *)
Theorem verify_s_modulo_order (a b : Secp256k1EcdsaSignature)
    (hashImpl : Secp256k1EcdsaHash) (message : list byte) (pubkey : xy_bytes) :
  (sig_s a = [] <-> sig_s b = []) ->
  sig_r a = sig_r b ->
  be_int (sig_s a) mod ec_n = be_int (sig_s b) mod ec_n ->
  verify a hashImpl message pubkey = verify b hashImpl message pubkey.
Proof.
  intros He Hr Hs. rewrite !verify_by_recovered. unfold recovered_x.
  rewrite (modInvN_congruent (sig_s a) (sig_s b) He Hs), Hr. reflexivity.
Qed.
End SigningErrors.

Lemma signWithK_scalars_modulo_order_witness :
  (one32 = [] <-> be_bytes 32 (ec_n + 1) = [])
  /\ (one32 = [] <-> x00 :: one32 = [])
  /\ be_int one32 mod ec_n = be_int (be_bytes 32 (ec_n + 1)) mod ec_n
  /\ be_int one32 mod ec_n = be_int (x00 :: one32) mod ec_n
  /\ signWithK (E := Secp256k1.curve) hash_one [] one32 one32
     = signWithK (E := Secp256k1.curve) hash_one [] (be_bytes 32 (ec_n + 1)) (x00 :: one32).
Proof.
  assert (H1 : be_int one32 mod ec_n = be_int (be_bytes 32 (ec_n + 1)) mod ec_n)
    by (vm_compute; reflexivity).
  assert (H2 : be_int one32 mod ec_n = be_int (x00 :: one32) mod ec_n)
    by (vm_compute; reflexivity).
  assert (E1 : one32 = [] <-> be_bytes 32 (ec_n + 1) = [])
    by (split; intros H; vm_compute in H; discriminate H).
  assert (E2 : one32 = [] <-> x00 :: one32 = [])
    by (split; intros H; vm_compute in H; discriminate H).
  split; [exact E1|]. split; [exact E2|].
  split; [exact H1|]. split; [exact H2|].
  exact (signWithK_scalars_modulo_order (E := Secp256k1.curve) hash_one []
           one32 (be_bytes 32 (ec_n + 1)) one32 (x00 :: one32) E1 E2 H1 H2).
Defined.

Lemma verify_s_modulo_order_witness :
  (sig_s sig_low_s = [] <-> sig_s sig_over_n = [])
  /\ sig_r sig_low_s = sig_r sig_over_n
  /\ be_int (sig_s sig_low_s) mod ec_n = be_int (sig_s sig_over_n) mod ec_n
  /\ verify (E := Secp256k1.curve) sig_low_s hash_one []
       {| xy_x := be_bytes 32 Secp256k1.Gx; xy_y := be_bytes 32 Secp256k1.Gy |}
     = verify (E := Secp256k1.curve) sig_over_n hash_one []
         {| xy_x := be_bytes 32 Secp256k1.Gx; xy_y := be_bytes 32 Secp256k1.Gy |}.
Proof.
  assert (H1 : sig_r sig_low_s = sig_r sig_over_n) by (vm_compute; reflexivity).
  assert (H2 : be_int (sig_s sig_low_s) mod ec_n = be_int (sig_s sig_over_n) mod ec_n)
    by (vm_compute; reflexivity).
  assert (H0 : sig_s sig_low_s = [] <-> sig_s sig_over_n = [])
    by (split; intros H; vm_compute in H; discriminate H).
  split; [exact H0|]. split; [exact H1|]. split; [exact H2|].
  exact (verify_s_modulo_order (E := Secp256k1.curve) sig_low_s sig_over_n hash_one []
           _ H0 H1 H2).
Defined.

(** ** Zero scalars on secp256k1 *)

Lemma ecMul_zero_scalar (pt : ecMul_arg (H := Secp256k1.curve)) (scalar : list byte) :
  be_int scalar mod ec_n = 0 ->
  Curve.ecMul (E := Secp256k1.curve) pt scalar = Throw TypeError.
Proof.
  intros H. unfold Curve.ecMul, log_and_rethrow, try_catch.
  destruct (empty_or_not scalar) as [->|Hne].
  - rewrite toScalar_nil, bind_Ok.
    destruct pt as [[[x y]|]|x y]; reflexivity.
  - rewrite toScalar_spec, bind_Ok, H by exact Hne.
    cbn [point_mul_scalar]. rewrite bind_Ok.
    rewrite pointXToBytes_spec.
    destruct pt as [P|x y]; cbn [point_mul Secp256k1.curve];
      rewrite Point_mul_zero; reflexivity.
Qed.

(** X7: with a nonce that is 0 modulo the order (the empty array, 32
    zero bytes, the bytes of [N]) [signWithK] on secp256k1 returns no
    signature: it throws [InvalidSecretKey]. *)
Theorem signWithK_zero_nonce (hashImpl : Secp256k1EcdsaHash)
    (message k privkey : list byte) :
  be_int k mod ec_n = 0 ->
  signWithK (E := Secp256k1.curve) hashImpl message k privkey
  = Throw (Secp256k1EcdsaException InvalidSecretKey).
Proof.
  intros H. apply signWithK_infinity.
  rewrite H, generator_mul_point. reflexivity.
Qed.

Lemma signWithK_zero_nonce_witness :
  be_int (be_bytes 32 ec_n) mod ec_n = 0
  /\ signWithK (E := Secp256k1.curve) hash_one [] (be_bytes 32 ec_n) one32
     = Throw (Secp256k1EcdsaException InvalidSecretKey).
Proof.
  assert (H : be_int (be_bytes 32 ec_n) mod ec_n = 0) by (vm_compute; reflexivity).
  split; [exact H|].
  exact (signWithK_zero_nonce hash_one [] (be_bytes 32 ec_n) one32 H).
Defined.

(** X8: on secp256k1 [verify] refuses every signature whose [r] or
    whose [s] is 0 modulo the order, for every message, hash provider
    and public key. *)
Theorem verify_rejects_zero (this : Secp256k1EcdsaSignature)
    (hashImpl : Secp256k1EcdsaHash) (message : list byte) (pubkey : xy_bytes) :
  be_int (sig_r this) mod ec_n = 0 \/ be_int (sig_s this) mod ec_n = 0 ->
  verify (E := Secp256k1.curve) this hashImpl message pubkey = false.
Proof.
  intros H. rewrite verify_by_recovered. unfold recovered_x.
  destruct (empty_or_not (sig_s this)) as [Hs|Hs].
  { rewrite Hs, modInvN_empty. reflexivity. }
  rewrite modInvN_spec, bind_Ok by exact Hs.
  destruct (empty_or_not (sig_r this)) as [Hr|Hr].
  { rewrite mulModN_empty by (left; exact Hr). reflexivity. }
  rewrite mulModN_spec, bind_Ok by (try exact Hr; apply be_bytes32_nonempty).
  rewrite ecMul_zero_scalar; [reflexivity|].
  pose proof ec_n_range as Hn.
  rewrite be_int_be_bytes32 by apply mod_n_range.
  rewrite Z.mod_mod by lia.
  rewrite (be_int_be_bytes32 (BN_invm _ _))
    by (pose proof (invm_range (be_int (sig_s this) mod ec_n)); lia).
  destruct H as [H|H].
  - rewrite H. rewrite Z.mul_0_l. apply Z.mod_0_l. lia.
  - rewrite H. unfold BN_invm. rewrite Z.invmod_0_l.
    rewrite Z.mod_0_l by lia. rewrite Z.mul_0_r. apply Z.mod_0_l. lia.
Qed.

Lemma verify_rejects_zero_witness :
  (be_int (sig_r {| signature := be_bytes 32 1 ++ be_bytes 32 0 |}) mod ec_n = 0
   \/ be_int (sig_s {| signature := be_bytes 32 1 ++ be_bytes 32 0 |}) mod ec_n = 0)
  /\ verify (E := Secp256k1.curve) {| signature := be_bytes 32 1 ++ be_bytes 32 0 |}
       hash_one []
       {| xy_x := be_bytes 32 Secp256k1.Gx; xy_y := be_bytes 32 Secp256k1.Gy |}
     = false.
Proof.
  assert (H : be_int (sig_r {| signature := be_bytes 32 1 ++ be_bytes 32 0 |}) mod ec_n = 0
              \/ be_int (sig_s {| signature := be_bytes 32 1 ++ be_bytes 32 0 |}) mod ec_n = 0)
    by (right; vm_compute; reflexivity).
  split; [exact H|].
  exact (verify_rejects_zero _ hash_one [] _ H).
Defined.
(** ** Scalars and their byte encoding *)

(** X9: [toScalar] never fails.  For the empty array it returns
    [null], which makes every scalar operation that reads it throw a
    [TypeError]; for an array of any other length it returns the
    array's big-endian value reduced modulo the order. *)
Theorem toScalar_value (bytes : list byte) :
  toScalar [] = Ok None
  /\ BN_operand None = Throw TypeError
  /\ (bytes <> [] ->
      toScalar bytes = Ok (Some (be_int bytes mod ec_n))
      /\ 0 <= be_int bytes mod ec_n < ec_n).
Proof.
  pose proof ec_n_range as Hn.
  split; [apply toScalar_nil|]. split; [reflexivity|].
  intros Hne. split; [apply toScalar_spec; exact Hne|].
  apply Z.mod_pos_bound; lia.
Qed.

Lemma toScalar_value_witness :
  toScalar one32 = Ok (Some (be_int one32 mod ec_n))
  /\ 0 <= be_int one32 mod ec_n < ec_n.
Proof.
  apply (proj2 (proj2 (toScalar_value one32))). discriminate.
Defined.

(** X10: [bnToBytes] and [toScalar] are inverse to each other on
    canonical scalars: a number below the order is encoded on 32 bytes
    that [toScalar] reads back as the same number. *)
Theorem scalar_encode_decode (z : Z) :
  0 <= z < ec_n ->
  exists out,
    bnToBytes (Some z) = Ok out
    /\ List.length out = 32%nat
    /\ be_int out = z
    /\ toScalar out = Ok (Some z).
Proof.
  intros Hz. pose proof ec_n_range as Hn.
  exists (be_bytes 32 z).
  assert (Hb : be_int (be_bytes 32 z) = z) by (apply be_int_be_bytes32; lia).
  split; [apply bnToBytes_spec; lia|].
  split; [apply be_bytes_length|].
  split; [exact Hb|].
  rewrite toScalar_spec by apply be_bytes32_nonempty.
  rewrite Hb, Z.mod_small by lia. reflexivity.
Qed.

Lemma scalar_encode_decode_witness :
  0 <= 7 < ec_n
  /\ exists out,
       bnToBytes (Some 7) = Ok out
       /\ List.length out = 32%nat
       /\ be_int out = 7
       /\ toScalar out = Ok (Some 7).
Proof.
  assert (H : 0 <= 7 < ec_n) by (unfold ec_n; lia).
  split; [exact H|]. exact (scalar_encode_decode 7 H).
Defined.

(** X11: a 32-byte array whose value is below the order survives
    the round trip through [toScalar] and [bnToBytes] unchanged. *)
Theorem scalar_decode_encode (bytes : list byte) :
  List.length bytes = 32%nat -> be_int bytes < ec_n ->
  (z <- toScalar bytes ;; bnToBytes z) = Ok bytes.
Proof.
  intros Hl Hv. pose proof ec_n_range as Hn.
  pose proof (be_int_range bytes) as Hr.
  rewrite toScalar_spec, bind_Ok by (apply length32_nonempty; exact Hl).
  rewrite Z.mod_small by lia.
  rewrite bnToBytes_spec by lia.
  rewrite <- Hl. rewrite be_bytes_be_int. reflexivity.
Qed.

Lemma scalar_decode_encode_witness :
  List.length one32 = 32%nat /\ be_int one32 < ec_n
  /\ (z <- toScalar one32 ;; bnToBytes z) = Ok one32.
Proof.
  assert (H1 : List.length one32 = 32%nat) by reflexivity.
  assert (H2 : be_int one32 < ec_n) by (vm_compute; reflexivity).
  split; [exact H1|]. split; [exact H2|].
  exact (scalar_decode_encode one32 H1 H2).
Defined.

(** ** The scalar operations as a field *)

Lemma be_int_scalar (z : Z) : be_int (be_bytes 32 (z mod ec_n)) mod ec_n = z mod ec_n.
Proof.
  pose proof ec_n_range as Hn.
  rewrite be_int_be_bytes32 by apply mod_n_range.
  apply Z.mod_mod. lia.
Qed.

(** X12: [modInvN] gives a true inverse: for an operand that is not 0
    modulo the order, multiplying it by the result with [mulModN] gives
    the scalar 1. *)
Theorem modInvN_inverse (a : list byte) :
  be_int a mod ec_n <> 0 ->
  (inverse <- Curve.modInvN a ;; Curve.mulModN a inverse) = Ok (be_bytes 32 1).
Proof.
  intros Ha. pose proof ec_n_range as Hn.
  assert (Hne : a <> []) by (apply (be_int_nonzero_nonempty a ec_n); exact Ha).
  rewrite modInvN_spec, bind_Ok by exact Hne.
  rewrite mulModN_spec by (try exact Hne; apply be_bytes32_nonempty).
  rewrite be_int_be_bytes32
    by (pose proof (invm_range (be_int a mod ec_n)); lia).
  rewrite (Z.mod_small (BN_invm _ _)) by apply invm_range.
  rewrite Z.mul_comm.
  pose proof (invm_inverse (be_int a mod ec_n)) as Hi.
  rewrite Z.mod_mod in Hi by lia. rewrite (Hi Ha). reflexivity.
Qed.

Lemma modInvN_inverse_witness :
  be_int (be_bytes 32 2) mod ec_n <> 0
  /\ (inverse <- Curve.modInvN (be_bytes 32 2) ;; Curve.mulModN (be_bytes 32 2) inverse)
     = Ok (be_bytes 32 1).
Proof.
  assert (H : be_int (be_bytes 32 2) mod ec_n <> 0) by (vm_compute; discriminate).
  split; [exact H|]. exact (modInvN_inverse (be_bytes 32 2) H).
Defined.

(** X13: [negateN] gives the additive inverse: for an operand that is
    not the empty array, adding the result to the operand with
    [addModN] gives the scalar 0, and negating twice gives the operand
    reduced modulo the order; for the empty array both computations
    throw a [TypeError]. *)
Theorem negateN_opposite (a : list byte) :
  (a <> [] ->
   (n <- Curve.negateN a ;; Curve.addModN a n) = Ok (be_bytes 32 0)
   /\ (n <- Curve.negateN a ;; Curve.negateN n)
      = Ok (be_bytes 32 (be_int a mod ec_n)))
  /\ (a = [] ->
      (n <- Curve.negateN a ;; Curve.addModN a n) = Throw TypeError
      /\ (n <- Curve.negateN a ;; Curve.negateN n) = Throw TypeError).
Proof.
  pose proof ec_n_range as Hn.
  split; [|intros ->; rewrite negateN_empty; split; reflexivity].
  intros Hne.
  rewrite negateN_spec, !bind_Ok by exact Hne.
  rewrite addModN_spec by (try exact Hne; apply be_bytes32_nonempty).
  rewrite negateN_spec by apply be_bytes32_nonempty.
  rewrite be_int_scalar.
  split; f_equal; f_equal.
  - rewrite <- Z.add_mod by lia.
    replace (be_int a + (ec_n - be_int a mod ec_n))
      with ((be_int a - be_int a mod ec_n) + 1 * ec_n) by ring.
    rewrite Z.mod_add by lia.
    rewrite Zminus_mod_idemp_r. rewrite Z.sub_diag. apply Z.mod_0_l. lia.
  - pose proof (Z.mod_pos_bound (be_int a) ec_n ltac:(lia)) as Hr.
    set (am := be_int a mod ec_n) in *.
    destruct (Z.eq_dec am 0) as [H0|H0].
    + rewrite H0. reflexivity.
    + rewrite (Z.mod_small (ec_n - am)) by lia.
      replace (ec_n - (ec_n - am)) with am by ring.
      apply Z.mod_small. lia.
Qed.

Lemma negateN_opposite_witness :
  (n <- Curve.negateN one32 ;; Curve.addModN one32 n) = Ok (be_bytes 32 0)
  /\ (n <- Curve.negateN one32 ;; Curve.negateN n)
     = Ok (be_bytes 32 (be_int one32 mod ec_n)).
Proof.
  apply (proj1 (negateN_opposite one32)). discriminate.
Defined.

Lemma addModN_value (a b : list byte) :
  Curve.addModN a b
  = if is_empty a || is_empty b then Throw TypeError
    else Ok (be_bytes 32 ((be_int a mod ec_n + be_int b mod ec_n) mod ec_n)).
Proof.
  destruct a as [|x a]; [apply addModN_empty; left; reflexivity|].
  destruct b as [|y b]; [apply addModN_empty; right; reflexivity|].
  apply addModN_spec; discriminate.
Qed.

Lemma mulModN_value (a b : list byte) :
  Curve.mulModN a b
  = if is_empty a || is_empty b then Throw TypeError
    else Ok (be_bytes 32 ((be_int a mod ec_n * (be_int b mod ec_n)) mod ec_n)).
Proof.
  destruct a as [|x a]; [apply mulModN_empty; left; reflexivity|].
  destruct b as [|y b]; [apply mulModN_empty; right; reflexivity|].
  apply mulModN_spec; discriminate.
Qed.

Lemma is_empty_be_bytes32 (z : Z) : is_empty (be_bytes 32 z) = false.
Proof.
  pose proof (be_bytes32_nonempty z) as H.
  destruct (be_bytes 32 z); [contradiction | reflexivity].
Qed.

(** X14: [addModN] and [mulModN] compose as the operations of a
    commutative ring: both are commutative and associative, and the
    product distributes over the sum. *)
Theorem scalar_ring_laws (a b c : list byte) :
  Curve.addModN a b = Curve.addModN b a
  /\ Curve.mulModN a b = Curve.mulModN b a
  /\ (x <- Curve.addModN a b ;; Curve.addModN x c)
     = (y <- Curve.addModN b c ;; Curve.addModN a y)
  /\ (x <- Curve.mulModN a b ;; Curve.mulModN x c)
     = (y <- Curve.mulModN b c ;; Curve.mulModN a y)
  /\ (x <- Curve.addModN a b ;; Curve.mulModN x c)
     = (y <- Curve.mulModN a c ;; z <- Curve.mulModN b c ;; Curve.addModN y z).
Proof.
  pose proof ec_n_range as Hn.
  split.
  { rewrite !addModN_value, Z.add_comm, orb_comm. reflexivity. }
  split.
  { rewrite !mulModN_value, Z.mul_comm, orb_comm. reflexivity. }
  rewrite !addModN_value, !mulModN_value.
  destruct a as [|a0 a], b as [|b0 b], c as [|c0 c]; cbn [is_empty orb bind];
    rewrite ?addModN_value, ?mulModN_value, ?is_empty_be_bytes32;
    cbn [is_empty orb bind];
    rewrite ?addModN_value, ?mulModN_value, ?is_empty_be_bytes32;
    cbn [is_empty orb bind];
    try (repeat split; reflexivity).
  rewrite !be_int_scalar.
  generalize (be_int (a0 :: a) mod ec_n), (be_int (b0 :: b) mod ec_n),
    (be_int (c0 :: c) mod ec_n).
  intros am bm cm.
  repeat split; f_equal; f_equal.
  - rewrite Z.add_mod_idemp_l, Z.add_mod_idemp_r by lia. apply (f_equal2 Z.modulo); [ring|reflexivity].
  - rewrite Z.mul_mod_idemp_l, Z.mul_mod_idemp_r by lia. apply (f_equal2 Z.modulo); [ring|reflexivity].
  - rewrite Z.mul_mod_idemp_l by lia.
    rewrite <- Z.add_mod by lia. apply (f_equal2 Z.modulo); [ring|reflexivity].
Qed.

(** ** The empty array *)

Section EmptyScalars.
Context {E : EllipticCurve}.

(** X23: the empty array is no scalar: [toScalar] reads it as [null].
    Each scalar operation and [mulG] throw a [TypeError] on an empty
    operand; [signWithK] turns that into [InvalidSecretKey] when the
    nonce, the private key or the digest is empty; and [verify]
    answers [false] when the digest, or [r] or [s] of a signature
    object, is empty. *)
Theorem empty_scalars_fail (hashImpl : Secp256k1EcdsaHash)
    (message k privkey a : list byte) (this : Secp256k1EcdsaSignature)
    (pubkey : xy_bytes) :
  (Curve.addModN [] a = Throw TypeError /\ Curve.addModN a [] = Throw TypeError
   /\ Curve.mulModN [] a = Throw TypeError /\ Curve.mulModN a [] = Throw TypeError
   /\ Curve.modInvN [] = Throw TypeError /\ Curve.negateN [] = Throw TypeError
   /\ Curve.mulG [] = Throw TypeError)
  /\ (k = [] \/ privkey = [] \/ hashImpl message = [] ->
      signWithK hashImpl message k privkey
      = Throw (Secp256k1EcdsaException InvalidSecretKey))
  /\ (sig_r this = [] \/ sig_s this = [] \/ hashImpl message = [] ->
      verify this hashImpl message pubkey = false).
Proof.
  split; [|split].
  - rewrite !addModN_empty, !mulModN_empty by (solve [left; reflexivity | right; reflexivity]).
    rewrite modInvN_empty, negateN_empty, mulG_empty.
    repeat split; reflexivity.
  - apply signWithK_empty.
  - intros H. rewrite verify_by_recovered, recovered_x_formula.
    destruct H as [H|[H|H]]; rewrite H; cbn [is_empty orb];
      rewrite ?orb_true_r; reflexivity.
Qed.
End EmptyScalars.

Lemma empty_scalars_fail_witness :
  signWithK (E := Secp256k1.curve) hash_empty [] one32 one32
  = Throw (Secp256k1EcdsaException InvalidSecretKey)
  /\ verify (E := Secp256k1.curve) sig_low_s hash_empty []
       {| xy_x := be_bytes 32 Secp256k1.Gx; xy_y := be_bytes 32 Secp256k1.Gy |}
     = false.
Proof.
  destruct (empty_scalars_fail (E := Secp256k1.curve) hash_empty [] one32 one32 []
              sig_low_s
              {| xy_x := be_bytes 32 Secp256k1.Gx; xy_y := be_bytes 32 Secp256k1.Gy |})
    as (_ & Hs & Hv).
  split; [apply Hs | apply Hv]; right; right; reflexivity.
Defined.
(** ** The hash providers' framing *)

Lemma ToInt32_congruent (x : Z) : exists q, ToInt32 x = x + 2 ^ 32 * q.
Proof.
  unfold ToInt32. exists (- ((x + 2 ^ 31) / 2 ^ 32)).
  rewrite Z.mod_eq by lia. ring.
Qed.

Lemma js_and_ff (x : Z) : js_and x 0xff = x mod 256.
Proof.
  unfold js_and. change (ToInt32 255) with (Z.ones 8).
  rewrite Z.land_ones by lia.
  destruct (ToInt32_congruent x) as [q ->].
  change (2 ^ 8) with 256.
  replace (x + 2 ^ 32 * q) with (x + (2 ^ 24 * q) * 256) by ring.
  apply Z.mod_add. lia.
Qed.

Lemma js_shr_byte (x n : Z) :
  0 <= n <= 24 -> js_and (js_shr x n) 0xff = (x / 2 ^ n) mod 256.
Proof.
  intros Hn. rewrite js_and_ff. unfold js_shr.
  rewrite (Z.mod_small n 32) by lia.
  rewrite Z.shiftr_div_pow2 by lia.
  destruct (ToInt32_congruent x) as [q ->].
  replace (2 ^ 32) with (2 ^ n * 2 ^ (32 - n))
    by (rewrite <- Z.pow_add_r by lia; f_equal; lia).
  replace (x + 2 ^ n * 2 ^ (32 - n) * q) with (x + (2 ^ (32 - n) * q) * 2 ^ n) by ring.
  rewrite Z.div_add by (apply Z.pow_nonzero; lia).
  replace (2 ^ (32 - n)) with (2 ^ (24 - n) * 256)
    by (change 256 with (2 ^ 8); rewrite <- Z.pow_add_r by lia; f_equal; lia).
  replace (x / 2 ^ n + 2 ^ (24 - n) * 256 * q)
    with (x / 2 ^ n + (2 ^ (24 - n) * q) * 256) by ring.
  apply Z.mod_add. lia.
Qed.

Lemma byte_of_Z_mod (z : Z) : byte_of_Z (z mod 256) = byte_of_Z z.
Proof. unfold byte_of_Z. rewrite Z.mod_mod by lia. reflexivity. Qed.

Lemma rev_be_bytes_S (n : nat) (z : Z) :
  rev (be_bytes (S n) z) = byte_of_Z z :: rev (be_bytes n (z / 256)).
Proof.
  cbn [be_bytes]. rewrite rev_app_distr. cbn [rev app].
  rewrite byte_of_Z_mod. reflexivity.
Qed.

(** X15: [encodeVarint] writes Bitcoin's compact-size form of a length
    below [2^53]: one byte up to 252, otherwise the marker [0xfd],
    [0xfe] or [0xff] followed by the number on 2, 4 or 8 bytes, least
    significant byte first; the bytes after the marker read back as the
    number. *)
Theorem encodeVarint_compact_size (varint : Z) :
  0 <= varint < 2 ^ 53 ->
  let (buffer, n) := BSM.encodeVarint varint (new_Uint8Array 9) in
  let out := firstn n buffer in
  List.length buffer = 9%nat
  /\ out = (if varint <=? 252 then [byte_of_Z varint]
            else if varint <=? 0xffff then xfd :: rev (be_bytes 2 varint)
            else if varint <=? 0xffffffff then xfe :: rev (be_bytes 4 varint)
            else xff :: rev (be_bytes 8 varint))
  /\ (252 < varint -> be_int (rev (tl out)) = varint)
  /\ (varint <= 252 -> be_int out = varint).
Proof.
  intros Hv. unfold BSM.encodeVarint.
  destruct (Z.leb_spec varint 252) as [H1|H1].
  { cbn. split; [reflexivity|]. split; [reflexivity|]. split; [lia|].
    intros _. unfold be_int. cbn [fold_left]. rewrite byte_val_of_Z.
    rewrite Z.mod_small by lia. lia. }
  destruct (Z.leb_spec varint 0xffff) as [H2|H2].
  { cbv zeta. rewrite !js_shr_byte, !js_and_ff by lia.
    cbn [new_Uint8Array repeat store List.length Nat.ltb Nat.leb firstn skipn app].
    split; [reflexivity|].
    rewrite !rev_be_bytes_S. cbn [be_bytes rev].
    rewrite !byte_of_Z_mod.
    change (2 ^ 8) with 256.
    split; [reflexivity|]. split; [|lia]. intros _.
    cbn [tl]. rewrite <- (rev_be_bytes_S 0), <- (rev_be_bytes_S 1).
    rewrite rev_involutive, be_int_be_bytes.
    apply Z.mod_small. change (256 ^ Z.of_nat 2) with 65536. lia. }
  destruct (Z.leb_spec varint 0xffffffff) as [H3|H3].
  { cbv zeta. rewrite !js_shr_byte, !js_and_ff by lia.
    cbn [new_Uint8Array repeat store List.length Nat.ltb Nat.leb firstn skipn app].
    split; [reflexivity|].
    rewrite !rev_be_bytes_S. cbn [be_bytes rev].
    rewrite !byte_of_Z_mod.
    rewrite !Z.div_div by lia.
    change (2 ^ 8) with 256. change (2 ^ 16) with (256 * 256).
    change (2 ^ 24) with (256 * 256 * 256).
    split; [reflexivity|]. split; [|lia]. intros _.
    cbn [tl].
    rewrite <- !Z.div_div by lia.
    rewrite <- (rev_be_bytes_S 0), <- (rev_be_bytes_S 1),
      <- (rev_be_bytes_S 2), <- (rev_be_bytes_S 3).
    rewrite rev_involutive, be_int_be_bytes.
    apply Z.mod_small. change (256 ^ Z.of_nat 4) with 4294967296. lia. }
  cbv zeta. rewrite !js_shr_byte, !js_and_ff by lia.
  cbn [new_Uint8Array repeat store List.length Nat.ltb Nat.leb firstn skipn app].
  split; [reflexivity|].
  rewrite !rev_be_bytes_S. cbn [be_bytes rev].
  rewrite !byte_of_Z_mod.
  rewrite !Z.div_div by lia.
  change (2 ^ 8) with 256. change (2 ^ 16) with (256 * 256).
  change (2 ^ 24) with (256 * 256 * 256).
  change 4294967296 with (256 * 256 * 256 * 256).
  rewrite !Z.mul_assoc.
  split; [reflexivity|]. split; [|lia]. intros _.
  cbn [tl].
  rewrite <- !Z.div_div by lia.
  rewrite <- (rev_be_bytes_S 0), <- (rev_be_bytes_S 1),
    <- (rev_be_bytes_S 2), <- (rev_be_bytes_S 3), <- (rev_be_bytes_S 4),
    <- (rev_be_bytes_S 5), <- (rev_be_bytes_S 6), <- (rev_be_bytes_S 7).
  rewrite rev_involutive, be_int_be_bytes.
  apply Z.mod_small. change (256 ^ Z.of_nat 8) with (2 ^ 64). lia.
Qed.

Lemma encodeVarint_compact_size_witness :
  0 <= 300 < 2 ^ 53
  /\ (let (buffer, n) := BSM.encodeVarint 300 (new_Uint8Array 9) in
      let out := firstn n buffer in
      List.length buffer = 9%nat
      /\ out = (if 300 <=? 252 then [byte_of_Z 300]
                else if 300 <=? 0xffff then xfd :: rev (be_bytes 2 300)
                else if 300 <=? 0xffffffff then xfe :: rev (be_bytes 4 300)
                else xff :: rev (be_bytes 8 300))
      /\ (252 < 300 -> be_int (rev (tl out)) = 300)
      /\ (300 <= 252 -> be_int out = 300)).
Proof.
  assert (H : 0 <= 300 < 2 ^ 53) by lia.
  split; [exact H|]. exact (encodeVarint_compact_size 300 H).
Defined.
Lemma encodeVarint_written (n : Z) :
  List.length
    (firstn (snd (BSM.encodeVarint n (new_Uint8Array 9)))
       (fst (BSM.encodeVarint n (new_Uint8Array 9))))
  = if n <=? 252 then 1%nat else if n <=? 0xffff then 3%nat
    else if n <=? 0xffffffff then 5%nat else 9%nat.
Proof.
  unfold BSM.encodeVarint.
  destruct (n <=? 252); [reflexivity|].
  destruct (n <=? 0xffff); [reflexivity|].
  destruct (n <=? 0xffffffff); reflexivity.
Qed.

Lemma app_same_length_inv {A : Type} (p q a b : list A) :
  List.length p = List.length q -> p ++ a = q ++ b -> p = q /\ a = b.
Proof.
  revert q. induction p as [|x p IH]; intros [|y q] Hl H; cbn in *; try discriminate.
  - split; [reflexivity|exact H].
  - injection H as -> H. injection Hl as Hl.
    destruct (IH q Hl H) as [-> ->]. split; reflexivity.
Qed.

(** X16: the bytes [BSM.hash] feeds to its first SHA-256 are the magic
    prefix, the compact-size length and the message, and they determine
    the message: two different messages never share them. *)
Theorem BSM_framing_injective (message message' : list byte) :
  BSM.preimage message = BSM.preimage message' -> message = message'.
Proof.
  unfold BSM.preimage.
  set (n := Z.of_nat (List.length message)).
  set (n' := Z.of_nat (List.length message')).
  pose proof (encodeVarint_written n) as Hw.
  pose proof (encodeVarint_written n') as Hw'.
  destruct (BSM.encodeVarint n (new_Uint8Array 9)) as [buffer len].
  destruct (BSM.encodeVarint n' (new_Uint8Array 9)) as [buffer' len'].
  cbn [fst snd] in Hw, Hw'.
  intros H. apply app_inv_head in H.
  assert (Hlen : n = n').
  { apply (f_equal (@List.length byte)) in H. rewrite !length_app, Hw, Hw' in H.
    subst n n'.
    destruct (Z.leb_spec (Z.of_nat (List.length message)) 252),
      (Z.leb_spec (Z.of_nat (List.length message)) 0xffff),
      (Z.leb_spec (Z.of_nat (List.length message)) 0xffffffff),
      (Z.leb_spec (Z.of_nat (List.length message')) 252),
      (Z.leb_spec (Z.of_nat (List.length message')) 0xffff),
      (Z.leb_spec (Z.of_nat (List.length message')) 0xffffffff); lia. }
  apply app_same_length_inv in H; [exact (proj2 H)|].
  rewrite Hw, Hw', Hlen. reflexivity.
Qed.

Lemma BSM_framing_injective_witness :
  BSM.preimage [x01] = BSM.preimage [x01] /\ [x01] = [x01].
Proof.
  assert (H : BSM.preimage [x01] = BSM.preimage [x01]) by reflexivity.
  split; [exact H|]. exact (BSM_framing_injective [x01] [x01] H).
Defined.

(** *** Decimal digits *)

Lemma decimal_digits_grows (fuel : nat) :
  forall n acc, (String.length acc <= String.length (decimal_digits fuel n acc))%nat.
Proof.
  induction fuel as [|fuel IH]; intros n acc; cbn [decimal_digits]; [lia|].
  destruct (n <? 10); [cbn [String.length]; lia|].
  etransitivity; [|apply IH]. cbn [String.length]. lia.
Qed.

Lemma decimal_digits_monotone (f1 : nat) :
  forall f2 a b acc1 acc2,
    0 <= a <= b -> b < 10 ^ Z.of_nat f2 -> (1 <= f2)%nat ->
    String.length acc1 = String.length acc2 ->
    (String.length (decimal_digits f1 a acc1)
     <= String.length (decimal_digits f2 b acc2))%nat.
Proof.
  induction f1 as [|f1 IH]; intros f2 a b acc1 acc2 Hab Hb Hf Hacc.
  - cbn [decimal_digits]. rewrite Hacc. apply decimal_digits_grows.
  - destruct f2 as [|f2]; [lia|]. cbn [decimal_digits].
    destruct (Z.ltb_spec a 10) as [Ha|Ha].
    + destruct (b <? 10).
      * cbn [String.length]. lia.
      * etransitivity; [|apply decimal_digits_grows]. cbn [String.length]. lia.
    + destruct (Z.ltb_spec b 10) as [Hb10|Hb10]; [lia|].
      apply IH.
      * split; [apply Z.div_pos; lia|apply Z.div_le_mono; lia].
      * apply Z.div_lt_upper_bound; [lia|].
        rewrite Nat2Z.inj_succ, Z.pow_succ_r in Hb by lia. exact Hb.
      * destruct f2 as [|f2]; [|lia]. change (10 ^ Z.of_nat 1) with 10 in Hb. lia.
      * cbn [String.length]. lia.
Qed.

Lemma Number_toString_fuel (n : Z) : 0 <= n -> n < 10 ^ Z.of_nat (S (Z.to_nat (Z.log2 n))).
Proof.
  intros Hn. rewrite Nat2Z.inj_succ, Z2Nat.id by apply Z.log2_nonneg.
  destruct (Z.eq_dec n 0) as [->|H0]; [reflexivity|].
  pose proof (Z.log2_spec n ltac:(lia)) as [_ H].
  eapply Z.lt_le_trans; [exact H|].
  apply Z.pow_le_mono_l. pose proof (Z.log2_nonneg n). lia.
Qed.

Lemma Number_toString_monotone (a b : Z) :
  0 <= a <= b ->
  (String.length (Number_toString a) <= String.length (Number_toString b))%nat.
Proof.
  intros H. unfold Number_toString.
  apply decimal_digits_monotone; [exact H| |lia|reflexivity].
  apply Number_toString_fuel. lia.
Qed.

Lemma TextEncoder_length (s : string) :
  List.length (TextEncoder_encode s) = String.length s.
Proof.
  unfold TextEncoder_encode. rewrite length_map.
  induction s as [|c s IH]; cbn; [reflexivity|]. rewrite IH. reflexivity.
Qed.

Lemma set_at_concat (a b : list byte) :
  (combined1 <- set_at (new_Uint8Array (List.length a + List.length b)) a 0 ;;
   set_at combined1 b (List.length a))
  = Ok (a ++ b).
Proof.
  unfold new_Uint8Array. rewrite repeat_app.
  set (za := repeat x00 (List.length a)). set (zb := repeat x00 (List.length b)).
  assert (Hza : List.length za = List.length a) by apply repeat_length.
  assert (Hzb : List.length zb = List.length b) by apply repeat_length.
  unfold set_at at 1. rewrite length_app, Hza, Hzb. cbn [Nat.add firstn app].
  destruct (Nat.leb_spec (List.length a) (List.length a + List.length b)) as [_|H]; [|lia].
  rewrite bind_Ok.
  rewrite skipn_app, Hza, Nat.sub_diag, skipn_O.
  rewrite (List.skipn_all2 za) by lia. cbn [app].
  unfold set_at. rewrite length_app, Hzb, Nat.leb_refl.
  rewrite firstn_app, Nat.sub_diag, firstn_O, app_nil_r, firstn_all.
  rewrite skipn_app.
  rewrite (List.skipn_all2 a) by lia.
  replace (List.length a + List.length b - List.length a)%nat with (List.length zb) by lia.
  rewrite skipn_all. cbn [app]. rewrite app_nil_r. reflexivity.
Qed.

Lemma ESM_prefix_length (message : list byte) :
  String.length (ESM.prefix message)
  = (26 + String.length (Number_toString (Z.of_nat (List.length message))))%nat.
Proof.
  unfold ESM.prefix. rewrite !string_length_app. reflexivity.
Qed.

(** X17: [ESM.hash] never fails while it assembles its input; what it
    gives to Keccak-256 is the prefix with the decimal length followed
    by the message, and that determines the message: two different
    messages never give the same bytes. *)
Theorem ESM_framing (keccak_256 : list byte -> list byte) (message : list byte) :
  ESM.hash keccak_256 message
  = Ok (keccak_256 (TextEncoder_encode (ESM.prefix message) ++ message))
  /\ forall message',
       ESM.combined message = ESM.combined message' -> message = message'.
Proof.
  assert (Hc : forall m, ESM.combined m = Ok (TextEncoder_encode (ESM.prefix m) ++ m)).
  { intros m. unfold ESM.combined. apply set_at_concat. }
  split.
  { unfold ESM.hash. rewrite Hc, bind_Ok. reflexivity. }
  intros message' H. rewrite !Hc in H. apply Ok_inj in H.
  assert (Hlen : List.length message = List.length message').
  { apply (f_equal (@List.length byte)) in H.
    rewrite !length_app, !TextEncoder_length, !ESM_prefix_length in H.
    destruct (Nat.lt_trichotomy (List.length message) (List.length message'))
      as [Hlt|[Heq|Hgt]]; [|exact Heq|].
    - pose proof (Number_toString_monotone (Z.of_nat (List.length message))
                    (Z.of_nat (List.length message')) ltac:(lia)). lia.
    - pose proof (Number_toString_monotone (Z.of_nat (List.length message'))
                    (Z.of_nat (List.length message)) ltac:(lia)). lia. }
  apply app_same_length_inv in H; [exact (proj2 H)|].
  rewrite !TextEncoder_length, !ESM_prefix_length, Hlen. reflexivity.
Qed.

(** * The group of secp256k1 *)

(** ** The field prime is prime *)

Lemma prime_96557 : Z.prime 96557.
Proof. apply trial_prime_sound. vm_compute. reflexivity. Qed.
Lemma prime_7240687 : Z.prime 7240687.
Proof. apply trial_prime_sound. vm_compute. reflexivity. Qed.
Lemma prime_107590001 : Z.prime 107590001.
Proof. apply trial_prime_sound. vm_compute. reflexivity. Qed.

Lemma prime_b : Z.prime 255515944373312847190720520512484175977.
Proof.
  pose proof prime_96557. pose proof prime_7240687. pose proof prime_107590001.
  pocklington_with 2 ([107590001; 7240687; 96557]%list).
Qed.

Lemma prime_q : Z.prime 205115282021455665897114700593932402728804164701536103180137503955397371.
Proof.
  pose proof prime_b.
  pocklington_with 2 ([255515944373312847190720520512484175977]%list).
Qed.

Lemma secp_p_prime : Z.prime Secp256k1.p.
Proof.
  pose proof prime_q.
  pocklington_with 2 ([205115282021455665897114700593932402728804164701536103180137503955397371]%list).
Qed.

(** ** Field arithmetic and the group law *)

Module Secp256k1Group.
Import NsatzTactic.
Local Open Scope Z_scope.

Lemma secp_p_pos : 0 < Secp256k1.p.
Proof. reflexivity. Qed.

#[local] Instance eqp_equiv : Equivalence eqp.
Proof. unfold eqp. split; red; intros; congruence. Qed.

#[local] Instance Fp_ops : @Ring_ops Z 0 1 Z.add Z.mul Z.sub Z.opp eqp := {}.

#[local] Instance Fp_ring : @Ring Z 0 1 Z.add Z.mul Z.sub Z.opp eqp Fp_ops.
Proof.
  pose proof secp_p_pos.
  constructor; try exact eqp_equiv.
  - intros a b H1 c d H2. change (Z.add a c mod Secp256k1.p = Z.add b d mod Secp256k1.p).
    unfold eqp in *. rewrite Z.add_mod, H1, H2, <- Z.add_mod by lia. reflexivity.
  - intros a b H1 c d H2. change (Z.mul a c mod Secp256k1.p = Z.mul b d mod Secp256k1.p).
    unfold eqp in *. rewrite Z.mul_mod, H1, H2, <- Z.mul_mod by lia. reflexivity.
  - intros a b H1 c d H2. change (Z.sub a c mod Secp256k1.p = Z.sub b d mod Secp256k1.p).
    unfold eqp in *. rewrite Zminus_mod, H1, H2, <- Zminus_mod by lia. reflexivity.
  - intros a b H1. change (Z.opp a mod Secp256k1.p = Z.opp b mod Secp256k1.p).
    unfold eqp in *. rewrite <- (Z.sub_0_l a), <- (Z.sub_0_l b).
    rewrite Zminus_mod, H1, <- Zminus_mod. reflexivity.
  - intros x. change (eqp (Z.add 0 x) x). apply f_equal2; [ring|reflexivity].
  - intros x y. change (eqp (Z.add x y) (Z.add y x)). apply f_equal2; [ring|reflexivity].
  - intros x y z. change (eqp (Z.add x (Z.add y z)) (Z.add (Z.add x y) z)). apply f_equal2; [ring|reflexivity].
  - intros x. change (eqp (Z.mul 1 x) x). apply f_equal2; [ring|reflexivity].
  - intros x. change (eqp (Z.mul x 1) x). apply f_equal2; [ring|reflexivity].
  - intros x y z. change (eqp (Z.mul x (Z.mul y z)) (Z.mul (Z.mul x y) z)). apply f_equal2; [ring|reflexivity].
  - intros x y z. change (eqp (Z.mul (Z.add x y) z) (Z.add (Z.mul x z) (Z.mul y z))). apply f_equal2; [ring|reflexivity].
  - intros x y z. change (eqp (Z.mul z (Z.add x y)) (Z.add (Z.mul z x) (Z.mul z y))). apply f_equal2; [ring|reflexivity].
  - intros x y. change (eqp (Z.sub x y) (Z.add x (Z.opp y))). apply f_equal2; [ring|reflexivity].
  - intros x. change (eqp (Z.add x (Z.opp x)) 0). apply f_equal2; [ring|reflexivity].
Qed.

#[local] Instance Fp_cring : @Cring Z 0 1 Z.add Z.mul Z.sub Z.opp eqp Fp_ops Fp_ring.
Proof. intros x y. change (eqp (Z.mul x y) (Z.mul y x)). apply f_equal2; [ring|reflexivity]. Qed.

Lemma eqp_zero (a : Z) : eqp a 0 <-> (Secp256k1.p | a).
Proof.
  unfold eqp. rewrite Z.mod_0_l by (pose proof secp_p_pos; lia).
  apply Z.mod_divide. pose proof secp_p_pos; lia.
Qed.

#[local] Instance Fp_domain : @Integral_domain Z 0 1 Z.add Z.mul Z.sub Z.opp eqp Fp_ops Fp_ring Fp_cring.
Proof.
  constructor.
  - intros x y. change (eqp (Z.mul x y) 0 -> eqp x 0 \/ eqp y 0).
    rewrite !eqp_zero. apply Z.divide_prime_mul. exact secp_p_prime.
  - change (~ eqp 1 0). unfold eqp. vm_compute. discriminate.
Qed.

Lemma eqp_in_field (a b : Z) : in_field a -> in_field b -> eqp a b -> a = b.
Proof.
  unfold in_field, eqp. intros Ha Hb H.
  rewrite !Z.mod_small in H by assumption. exact H.
Qed.

Lemma eqp_mod (a : Z) : eqp (a mod Secp256k1.p) a.
Proof. unfold eqp. apply Z.mod_mod. pose proof secp_p_pos; lia. Qed.

Lemma mod_in_field (a : Z) : in_field (a mod Secp256k1.p).
Proof. apply Z.mod_pos_bound. exact secp_p_pos. Qed.

(** Closing the side condition of [nsatz]: an integer constant that is
    not 0 in the field. *)
Ltac field_constant :=
  let H := fresh in
  intro H; vm_compute in H; discriminate H.

Ltac fsatz := nsatz; field_constant.

Lemma fdiv_spec (a b : Z) :
  ~ eqp b 0 ->
  exists i, eqp (i * b) 1 /\ eqp (Secp256k1.fdiv a b) (a * i).
Proof.
  intros Hb. exists (Z.invmod b Secp256k1.p). split.
  - unfold eqp. rewrite Z.invmod_prime.
    + symmetry. apply Z.mod_1_l. reflexivity.
    + exact secp_p_prime.
    + intros H. apply Hb. unfold eqp. rewrite H. reflexivity.
  - unfold Secp256k1.fdiv. apply eqp_mod.
Qed.

Lemma mod_zero_eqp (a : Z) : a mod Secp256k1.p = 0 <-> eqp a 0.
Proof. unfold eqp. rewrite Z.mod_0_l by discriminate. reflexivity. Qed.

Lemma on_curve_spec (x y : Z) :
  Secp256k1.on_curve (x, y) = true <-> on_curve_pt (Some (x, y)).
Proof.
  unfold Secp256k1.on_curve, on_curve_pt, in_field.
  rewrite !andb_true_iff, !Z.leb_le, !Z.ltb_lt, Z.eqb_eq, mod_zero_eqp.
  split.
  - intros [[[[H1 H2] H3] H4] H5]. repeat split; try assumption.
    fsatz.
  - intros [[H1 H2] [[H3 H4] H5]]. repeat split; try assumption.
    fsatz.
Qed.

Lemma eqp_sub_zero (a b : Z) : eqp (a - b) 0 -> eqp a b.
Proof. intros H. fsatz. Qed.

Lemma eqp_double_zero (a : Z) : eqp (2 * a) 0 -> eqp a 0.
Proof.
  intros H.
  destruct (@integral_domain_product _ _ _ _ _ _ _ _ _ _ _ Fp_domain 2 a H) as [H2|H2].
  - exfalso. unfold eqp in H2. vm_compute in H2. discriminate H2.
  - exact H2.
Qed.

Lemma eqp_product (a b : Z) : eqp (a * b) 0 -> eqp a 0 \/ eqp b 0.
Proof. exact (@integral_domain_product _ _ _ _ _ _ _ _ _ _ _ Fp_domain a b). Qed.

Lemma add_spec (x1 y1 x2 y2 : Z) :
  on_curve_pt (Some (x1, y1)) -> on_curve_pt (Some (x2, y2)) ->
  add_case x1 y1 x2 y2 (Secp256k1.add (Some (x1, y1)) (Some (x2, y2))).
Proof.
  intros (Hx1 & Hy1 & Hc1) (Hx2 & Hy2 & Hc2).
  unfold Secp256k1.add.
  destruct (Z.eqb_spec x1 x2) as [Hx|Hx].
  - subst x2. destruct (Z.eqb_spec y1 y2) as [Hy|Hy].
    + subst y2. unfold Secp256k1.double.
      destruct (Z.eqb_spec y1 0) as [H0|H0].
      * subst y1. apply add_opposite; reflexivity.
      * destruct (fdiv_spec (3 * x1 * x1) (2 * y1)) as (i & Hi & Hl).
        { intros H. apply eqp_double_zero in H.
          apply H0. apply eqp_in_field; [assumption|split; [lia|reflexivity]|exact H]. }
        cbv zeta.
        eapply add_tangent with (i := i) (l := Secp256k1.fdiv (3 * x1 * x1) (2 * y1)).
        -- reflexivity.
        -- reflexivity.
        -- exact Hi.
        -- symmetry; exact Hl.
        -- replace (Secp256k1.fdiv (3 * x1 * x1) (2 * y1) * Secp256k1.fdiv (3 * x1 * x1) (2 * y1) - 2 * x1)
             with (Secp256k1.fdiv (3 * x1 * x1) (2 * y1) * Secp256k1.fdiv (3 * x1 * x1) (2 * y1) - x1 - x1) by ring.
           apply eqp_mod.
        -- etransitivity; [apply eqp_mod|].
           set (l := Secp256k1.fdiv (3 * x1 * x1) (2 * y1)).
           set (x3 := (l * l - 2 * x1) mod Secp256k1.p). reflexivity.
        -- apply mod_in_field.
        -- apply mod_in_field.
    + apply add_opposite; [reflexivity|].
      assert (H : eqp ((y1 - y2) * (y1 + y2)) 0) by fsatz.
      apply eqp_product in H. destruct H as [H|H]; [|exact H].
      exfalso. apply Hy. apply eqp_in_field; [assumption..|].
      apply eqp_sub_zero. exact H.
  - destruct (fdiv_spec (y2 - y1) (x2 - x1)) as (i & Hi & Hl).
    { intros H. apply Hx. symmetry. apply eqp_in_field; [assumption..|].
      apply eqp_sub_zero. exact H. }
    cbv zeta.
    eapply add_chord with (i := i) (l := Secp256k1.fdiv (y2 - y1) (x2 - x1)).
    + exact Hi.
    + symmetry; exact Hl.
    + apply eqp_mod.
    + etransitivity; [apply eqp_mod|]. reflexivity.
    + apply mod_in_field.
    + apply mod_in_field.
Qed.

Lemma add_case_on_curve (x1 y1 x2 y2 : Z) (S : Secp256k1.pt) :
  on_curve_pt (Some (x1, y1)) -> on_curve_pt (Some (x2, y2)) ->
  add_case x1 y1 x2 y2 S -> on_curve_pt S.
Proof.
  intros (Hx1 & Hy1 & Hc1) (Hx2 & Hy2 & Hc2) H.
  destruct H as [Hx Hy | i l x3 y3 Hx Hy Hi Hl Hx3 Hy3 Fx Fy | i l x3 y3 Hi Hl Hx3 Hy3 Fx Fy];
    cbn [on_curve_pt]; [exact I| |].
  - split; [exact Fx|]. split; [exact Fy|]. clear Fx Fy Hx1 Hy1 Hx2 Hy2.
    fsatz.
  - split; [exact Fx|]. split; [exact Fy|]. clear Fx Fy Hx1 Hy1 Hx2 Hy2.
    fsatz.
Qed.

Lemma pt_eq (x y x' y' : Z) :
  in_field x -> in_field y -> in_field x' -> in_field y' ->
  eqp x x' -> eqp y y' -> @Some (Z * Z) (x, y) = Some (x', y').
Proof.
  intros Hx Hy Hx' Hy' H1 H2.
  rewrite (eqp_in_field x x'), (eqp_in_field y y') by assumption. reflexivity.
Qed.

Lemma one_not_zero : ~ eqp 1 0.
Proof. unfold eqp. vm_compute. discriminate. Qed.

Ltac clear_ranges := repeat match goal with H : in_field _ |- _ => clear H end.

Ltac pt_finish :=
  first [ reflexivity
        | apply pt_eq; [assumption|assumption|assumption|assumption
                       | clear_ranges; fsatz | clear_ranges; fsatz]
        | exfalso; apply one_not_zero; clear_ranges; fsatz ].

Lemma add_comm (P Q : Secp256k1.pt) :
  on_curve_pt P -> on_curve_pt Q -> Secp256k1.add P Q = Secp256k1.add Q P.
Proof.
  destruct P as [[x1 y1]|], Q as [[x2 y2]|]; try reflexivity.
  intros HP HQ.
  pose proof (add_spec x1 y1 x2 y2 HP HQ) as S1.
  pose proof (add_spec x2 y2 x1 y1 HQ HP) as S2.
  destruct HP as (Fx1 & Fy1 & C1), HQ as (Fx2 & Fy2 & C2).
  destruct S1; destruct S2; pt_finish.
Qed.

#[local] Instance add_eqp : Proper (eqp ==> eqp ==> eqp) Z.add.
Proof. exact (@ring_plus_comp _ _ _ _ _ _ _ _ _ Fp_ring). Qed.
#[local] Instance mul_eqp : Proper (eqp ==> eqp ==> eqp) Z.mul.
Proof. exact (@ring_mult_comp _ _ _ _ _ _ _ _ _ Fp_ring). Qed.
#[local] Instance sub_eqp : Proper (eqp ==> eqp ==> eqp) Z.sub.
Proof. exact (@ring_sub_comp _ _ _ _ _ _ _ _ _ Fp_ring). Qed.

Ltac rew_in_all H :=
  repeat match goal with
         | H' : eqp ?a ?b |- _ =>
             lazymatch H' with H => fail | _ => idtac end;
             progress (rewrite H in H')
         end;
  try rewrite H.

(** [H : eqp x e] with [x] a variable: replace [x] by [e] everywhere. *)
Ltac subst_l H :=
  lazymatch type of H with
  | eqp ?x _ => rew_in_all H; clear H; clear x
  end.

(** [H : eqp e x] with [x] a variable: replace [x] by [e] everywhere. *)
Ltac subst_r H :=
  lazymatch type of H with
  | eqp _ ?x => symmetry in H; rew_in_all H; clear H; clear x
  end.

Lemma assoc_tangent_first (x1 y1 x2 y2 x3 y3 i l x0 y0 i0 l0 x4 y4 i1 l1 x5 y5 i2 l2 x6 y6 : Z) :
  eqp x5 (l1 * l1 - x0 - x3) ->
  eqp y5 (l1 * (x0 - x5) - y0) ->
  eqp x6 (l2 * l2 - x1 - x4) ->
  eqp y6 (l2 * (x1 - x6) - y1) ->
  eqp x0 (l * l - x1 - x2) ->
  eqp y0 (l * (x1 - x0) - y1) ->
  eqp x4 (l0 * l0 - x2 - x3) ->
  eqp y4 (l0 * (x2 - x4) - y2) ->
  eqp x1 x2 ->
  eqp y1 y2 ->
  eqp (i * (2 * y1)) 1 ->
  eqp (3 * x1 * x1 * i) l ->
  eqp (i0 * (x3 - x2)) 1 ->
  eqp ((y3 - y2) * i0) l0 ->
  eqp (i1 * (x3 - x0)) 1 ->
  eqp ((y3 - y0) * i1) l1 ->
  eqp (i2 * (x4 - x1)) 1 ->
  eqp ((y4 - y1) * i2) l2 ->
  eqp (y1 * y1) (x1 * x1 * x1 + 7) ->
  eqp (y3 * y3) (x3 * x3 * x3 + 7) ->
  eqp x5 x6 /\ eqp y5 y6.
Proof.
  intros Hx5 Hy5 Hx6 Hy6 Hx0 Hy0 Hx4 Hy4 Hx Hy Hi Hl Hi0 Hl0 Hi1 Hl1 Hi2 Hl2 C1 C3.
  subst_r Hx. subst_r Hy.
  subst_l Hx0. subst_l Hy0. subst_l Hx4. subst_l Hy4.
  subst_l Hx5. subst_l Hy5. subst_l Hx6. subst_l Hy6.
  split; fsatz.
Qed.

Lemma assoc_double_is_third (x1 y1 x2 y2 x3 y3 i l x0 y0 i0 l0 x4 y4 i1 l1 x5 y5 i2 l2 x6 y6 : Z) :
  eqp x5 (l1 * l1 - x0 - x3) ->
  eqp y5 (l1 * (x0 - x5) - y0) ->
  eqp x6 (l2 * l2 - x1 - x4) ->
  eqp y6 (l2 * (x1 - x6) - y1) ->
  eqp x0 (l * l - x1 - x2) ->
  eqp y0 (l * (x1 - x0) - y1) ->
  eqp x4 (l0 * l0 - x2 - x3) ->
  eqp y4 (l0 * (x2 - x4) - y2) ->
  eqp x1 x2 ->
  eqp y1 y2 ->
  eqp x0 x3 ->
  eqp y0 y3 ->
  eqp (i * (2 * y1)) 1 ->
  eqp (3 * x1 * x1 * i) l ->
  eqp (i0 * (x3 - x2)) 1 ->
  eqp ((y3 - y2) * i0) l0 ->
  eqp (i1 * (2 * y0)) 1 ->
  eqp (3 * x0 * x0 * i1) l1 ->
  eqp (i2 * (x4 - x1)) 1 ->
  eqp ((y4 - y1) * i2) l2 ->
  eqp (y1 * y1) (x1 * x1 * x1 + 7) ->
  eqp x5 x6 /\ eqp y5 y6.
Proof.
  intros Hx5 Hy5 Hx6 Hy6 Hx0 Hy0 Hx4 Hy4 Hx Hy Hx3 Hy3 Hi Hl Hi0 Hl0 Hi1 Hl1 Hi2 Hl2 C1.
  subst_r Hx. subst_r Hy. subst_r Hx3. subst_r Hy3.
  subst_l Hx0. subst_l Hy0. subst_l Hx4. subst_l Hy4.
  subst_l Hx5. subst_l Hy5. subst_l Hx6. subst_l Hy6.
  split; fsatz.
Qed.

Lemma assoc_tangent_last (x1 y1 x2 y2 x3 y3 i l x0 y0 i0 l0 x4 y4 i1 l1 x5 y5 i2 l2 x6 y6 : Z) :
  eqp x5 (l1 * l1 - x0 - x3) ->
  eqp y5 (l1 * (x0 - x5) - y0) ->
  eqp x6 (l2 * l2 - x1 - x4) ->
  eqp y6 (l2 * (x1 - x6) - y1) ->
  eqp x0 (l * l - x1 - x2) ->
  eqp y0 (l * (x1 - x0) - y1) ->
  eqp x4 (l0 * l0 - x2 - x3) ->
  eqp y4 (l0 * (x2 - x4) - y2) ->
  eqp x1 x4 ->
  eqp y1 y4 ->
  eqp (i * (x2 - x1)) 1 ->
  eqp ((y2 - y1) * i) l ->
  eqp (i0 * (x3 - x2)) 1 ->
  eqp ((y3 - y2) * i0) l0 ->
  eqp (i1 * (x3 - x0)) 1 ->
  eqp ((y3 - y0) * i1) l1 ->
  eqp (i2 * (2 * y1)) 1 ->
  eqp (3 * x1 * x1 * i2) l2 ->
  eqp (y2 * y2) (x2 * x2 * x2 + 7) ->
  eqp (y3 * y3) (x3 * x3 * x3 + 7) ->
  eqp x5 x6 /\ eqp y5 y6.
Proof.
  intros Hx5 Hy5 Hx6 Hy6 Hx0 Hy0 Hx4 Hy4 Hx1 Hy1 Hi Hl Hi0 Hl0 Hi1 Hl1 Hi2 Hl2 C2 C3.
  subst_l Hx1. subst_l Hy1.
  subst_l Hx4. subst_l Hy4. subst_l Hx0. subst_l Hy0.
  subst_l Hx5. subst_l Hy5. subst_l Hx6. subst_l Hy6.
  split; fsatz.
Qed.

Lemma assoc_two_tangents (x1 y1 x2 y2 x3 y3 i l x0 y0 i0 l0 x4 y4 i1 l1 x5 y5 i2 l2 x6 y6 : Z) :
  eqp x5 (l1 * l1 - x0 - x3) ->
  eqp y5 (l1 * (x0 - x5) - y0) ->
  eqp x6 (l2 * l2 - x1 - x4) ->
  eqp y6 (l2 * (x1 - x6) - y1) ->
  eqp x0 (l * l - x1 - x2) ->
  eqp y0 (l * (x1 - x0) - y1) ->
  eqp x4 (l0 * l0 - x2 - x3) ->
  eqp y4 (l0 * (x2 - x4) - y2) ->
  eqp x0 x3 ->
  eqp y0 y3 ->
  eqp x1 x4 ->
  eqp y1 y4 ->
  eqp (i * (x2 - x1)) 1 ->
  eqp ((y2 - y1) * i) l ->
  eqp (i0 * (x3 - x2)) 1 ->
  eqp ((y3 - y2) * i0) l0 ->
  eqp (i1 * (2 * y0)) 1 ->
  eqp (3 * x0 * x0 * i1) l1 ->
  eqp (i2 * (2 * y1)) 1 ->
  eqp (3 * x1 * x1 * i2) l2 ->
  eqp (y2 * y2) (x2 * x2 * x2 + 7) ->
  eqp (y3 * y3) (x3 * x3 * x3 + 7) ->
  eqp x5 x6 /\ eqp y5 y6.
Proof.
  intros Hx5 Hy5 Hx6 Hy6 Hx0 Hy0 Hx4 Hy4 Hx3 Hy3 Hx1 Hy1 Hi Hl Hi0 Hl0 Hi1 Hl1 Hi2 Hl2 C2 C3.
  subst_l Hx1. subst_l Hy1.
  subst_l Hx4. subst_l Hy4.
  subst_l Hx5. subst_l Hy5. subst_l Hx6. subst_l Hy6.
  split; fsatz.
Qed.

Lemma pt_eq2 (x y x' y' : Z) :
  in_field x -> in_field y -> in_field x' -> in_field y' ->
  eqp x x' /\ eqp y y' -> @Some (Z * Z) (x, y) = Some (x', y').
Proof. intros Hx Hy Hx' Hy' [H1 H2]. apply pt_eq; assumption. Qed.

Lemma add_None_r (P : Secp256k1.pt) : Secp256k1.add P None = P.
Proof. destruct P as [[x y]|]; reflexivity. Qed.

Lemma add_on_curve (P Q : Secp256k1.pt) :
  on_curve_pt P -> on_curve_pt Q -> on_curve_pt (Secp256k1.add P Q).
Proof.
  destruct P as [[x1 y1]|], Q as [[x2 y2]|]; try (intros; assumption).
  intros HP HQ. exact (add_case_on_curve _ _ _ _ _ HP HQ (add_spec _ _ _ _ HP HQ)).
Qed.

Ltac add_cases x1 y1 x2 y2 :=
  match goal with
  | HP : on_curve_pt (Some (x1, y1)), HQ : on_curve_pt (Some (x2, y2)) |- _ =>
      let S := fresh "S" in
      let HS := fresh "HS" in
      pose proof (add_spec x1 y1 x2 y2 HP HQ) as S;
      pose proof (add_on_curve _ _ HP HQ) as HS;
      destruct S
  end.

Ltac hard_case :=
  apply pt_eq2; [assumption|assumption|assumption|assumption|];
  first [ eapply assoc_tangent_first; eassumption
        | eapply assoc_double_is_third; eassumption
        | eapply assoc_tangent_last; eassumption
        | eapply assoc_two_tangents; eassumption ].

Lemma add_assoc_finite (x1 y1 x2 y2 x3 y3 : Z) :
  on_curve_pt (Some (x1, y1)) -> on_curve_pt (Some (x2, y2)) ->
  on_curve_pt (Some (x3, y3)) ->
  Secp256k1.add (Secp256k1.add (Some (x1, y1)) (Some (x2, y2))) (Some (x3, y3))
  = Secp256k1.add (Some (x1, y1)) (Secp256k1.add (Some (x2, y2)) (Some (x3, y3))).
Proof.
  intros HP HQ HR.
  add_cases x1 y1 x2 y2; add_cases x2 y2 x3 y3;
    rewrite ?add_None_r; change (Secp256k1.add None ?X) with X.
  all: repeat match goal with
       | |- context [Secp256k1.add (Some (?a, ?b)) (Some (?c, ?d))] => add_cases a b c d
       end.
  all: destruct HP as (? & ? & ?), HQ as (? & ? & ?), HR as (? & ? & ?).
  all: repeat match goal with H : on_curve_pt _ |- _ => clear H end.
  all: first [ hard_case | pt_finish ].
Qed.

Lemma add_assoc (P Q R : Secp256k1.pt) :
  on_curve_pt P -> on_curve_pt Q -> on_curve_pt R ->
  Secp256k1.add (Secp256k1.add P Q) R = Secp256k1.add P (Secp256k1.add Q R).
Proof.
  intros HP HQ HR.
  destruct P as [[x1 y1]|]; [|reflexivity].
  destruct Q as [[x2 y2]|]; [|reflexivity].
  destruct R as [[x3 y3]|]; [|rewrite !add_None_r; reflexivity].
  apply add_assoc_finite; assumption.
Qed.

Lemma neg_on_curve (P : Secp256k1.pt) : on_curve_pt P -> on_curve_pt (Secp256k1.neg P).
Proof.
  destruct P as [[x y]|]; [|trivial]. intros (Hx & Hy & Hc).
  cbn [Secp256k1.neg on_curve_pt]. split; [exact Hx|]. split; [apply mod_in_field|].
  rewrite eqp_mod. rewrite <- Hc.
  unfold eqp. f_equal. ring.
Qed.

(** Two points whose sum is the point at infinity are opposite. *)
Lemma add_None_neg (P Q : Secp256k1.pt) :
  on_curve_pt P -> on_curve_pt Q ->
  Secp256k1.add P Q = None -> Q = Secp256k1.neg P.
Proof.
  destruct P as [[x1 y1]|], Q as [[x2 y2]|]; cbn [Secp256k1.add Secp256k1.neg];
    try (intros; congruence).
  intros HP HQ H.
  pose proof (add_spec x1 y1 x2 y2 HP HQ) as S.
  change (Secp256k1.add (Some (x1, y1)) (Some (x2, y2)) = None) in H.
  rewrite H in S. inversion S as [Hx Hy| |].
  destruct HP as (Fx1 & Fy1 & _), HQ as (Fx2 & Fy2 & _).
  symmetry. apply pt_eq; [assumption|apply mod_in_field|assumption|assumption| |].
  - exact Hx.
  - rewrite eqp_mod. unfold eqp in *.
    replace (- y1) with (y2 - (y1 + y2)) by ring.
    rewrite Zminus_mod, Hy, Z.mod_0_l, Z.sub_0_r, Z.mod_mod by discriminate.
    reflexivity.
Qed.

Lemma double_add (P : Secp256k1.pt) : Secp256k1.double P = Secp256k1.add P P.
Proof.
  destruct P as [[x y]|]; [|reflexivity].
  unfold Secp256k1.add. rewrite !Z.eqb_refl. reflexivity.
Qed.

Lemma mul_pos_on_curve (P : Secp256k1.pt) (k : positive) :
  on_curve_pt P -> on_curve_pt (Secp256k1.mul_pos P k).
Proof.
  intros HP. induction k as [k IH|k IH|]; cbn [Secp256k1.mul_pos].
  - apply add_on_curve; [exact HP|]. rewrite double_add. apply add_on_curve; exact IH.
  - rewrite double_add. apply add_on_curve; exact IH.
  - exact HP.
Qed.

Lemma mul_pos_succ (P : Secp256k1.pt) (k : positive) :
  on_curve_pt P ->
  Secp256k1.mul_pos P (Pos.succ k) = Secp256k1.add P (Secp256k1.mul_pos P k).
Proof.
  intros HP. induction k as [k IH|k IH|]; cbn [Pos.succ Secp256k1.mul_pos].
  - rewrite IH, !double_add.
    pose proof (mul_pos_on_curve P k HP) as HM.
    set (M := Secp256k1.mul_pos P k) in *.
    rewrite (add_assoc P M (Secp256k1.add P M)) by (try apply add_on_curve; assumption).
    rewrite <- (add_assoc M P M) by assumption.
    rewrite (add_comm M P) by assumption.
    rewrite (add_assoc P M M) by assumption.
    reflexivity.
  - reflexivity.
  - apply double_add.
Qed.

Lemma mul_pos_add (P : Secp256k1.pt) (a b : positive) :
  on_curve_pt P ->
  Secp256k1.mul_pos P (a + b)
  = Secp256k1.add (Secp256k1.mul_pos P a) (Secp256k1.mul_pos P b).
Proof.
  intros HP. induction a as [|a IH] using Pos.peano_ind.
  - rewrite Pos.add_1_l. apply mul_pos_succ. exact HP.
  - rewrite Pos.add_succ_l, !mul_pos_succ, IH by exact HP.
    symmetry. apply add_assoc; try apply mul_pos_on_curve; assumption.
Qed.

Lemma mul_on_curve (P : Secp256k1.pt) (k : Z) :
  on_curve_pt P -> on_curve_pt (Secp256k1.mul P k).
Proof.
  intros HP. destruct k as [|k|k]; cbn [Secp256k1.mul]; [exact I| |].
  - apply mul_pos_on_curve. exact HP.
  - apply neg_on_curve, mul_pos_on_curve. exact HP.
Qed.

Lemma mul_add (P : Secp256k1.pt) (a b : Z) :
  on_curve_pt P -> 0 <= a -> 0 <= b ->
  Secp256k1.mul P (a + b) = Secp256k1.add (Secp256k1.mul P a) (Secp256k1.mul P b).
Proof.
  intros HP Ha Hb.
  destruct a as [|a|a]; [reflexivity| |lia].
  destruct b as [|b|b]; [rewrite Z.add_0_r, add_None_r; reflexivity| |lia].
  cbn [Z.add Secp256k1.mul]. apply mul_pos_add. exact HP.
Qed.

Lemma mul_None (k : Z) : Secp256k1.mul None k = None.
Proof.
  assert (H : forall q, Secp256k1.mul_pos None q = None).
  { induction q as [q IH|q IH|]; cbn [Secp256k1.mul_pos]; rewrite ?IH; reflexivity. }
  destruct k as [|k|k]; cbn [Secp256k1.mul]; rewrite ?H; reflexivity.
Qed.

Lemma mul_1 (P : Secp256k1.pt) : Secp256k1.mul P 1 = P.
Proof. reflexivity. Qed.

Lemma mul_mul (P : Secp256k1.pt) (a b : Z) :
  on_curve_pt P -> 0 <= a -> 0 <= b ->
  Secp256k1.mul (Secp256k1.mul P a) b = Secp256k1.mul P (a * b).
Proof.
  intros HP Ha Hb. revert b Hb. apply natlike_ind.
  - rewrite Z.mul_0_r. reflexivity.
  - intros b Hb IH. unfold Z.succ.
    rewrite mul_add by (try apply mul_on_curve; try assumption; lia).
    rewrite IH, mul_1.
    rewrite Z.mul_add_distr_l, Z.mul_1_r.
    symmetry. apply mul_add; [exact HP| |exact Ha].
    apply Z.mul_nonneg_nonneg; assumption.
Qed.

Lemma add_neg_r (P : Secp256k1.pt) :
  on_curve_pt P -> Secp256k1.add P (Secp256k1.neg P) = None.
Proof.
  destruct P as [[x y]|]; [|reflexivity]. intros (Hx & Hy & _).
  cbn [Secp256k1.neg Secp256k1.add]. rewrite Z.eqb_refl.
  destruct (Z.eqb_spec y ((- y) mod Secp256k1.p)) as [He|He]; [|reflexivity].
  cbn [Secp256k1.double].
  destruct (Z.eqb_spec y 0) as [H0|H0]; [reflexivity|exfalso].
  unfold in_field in Hy.
  replace (- y) with ((Secp256k1.p - y) + (-1) * Secp256k1.p) in He by ring.
  rewrite Z.mod_add, Z.mod_small in He by lia.
  assert (Hodd : Secp256k1.p = 2 * (Secp256k1.p / 2) + 1) by (vm_compute; reflexivity).
  lia.
Qed.

Lemma add_cancel_l (P Q : Secp256k1.pt) :
  on_curve_pt P -> on_curve_pt Q -> Secp256k1.add P Q = P -> Q = None.
Proof.
  intros HP HQ H.
  pose proof (neg_on_curve P HP) as HN.
  assert (H1 : Secp256k1.add (Secp256k1.neg P) (Secp256k1.add P Q) = None).
  { rewrite H, add_comm by assumption. apply add_neg_r. exact HP. }
  rewrite <- add_assoc in H1 by assumption.
  rewrite (add_comm (Secp256k1.neg P) P), add_neg_r in H1 by assumption.
  exact H1.
Qed.

(** ** The order of the base point *)

(** The quotient that [Secp256k1.fdiv] computes, from any inverse of
    the divisor. *)
Lemma fdiv_with (a b i : Z) :
  (i * b) mod Secp256k1.p = 1 -> Secp256k1.fdiv a b = (a * i) mod Secp256k1.p.
Proof.
  intros Hi.
  assert (Hi' : eqp (i * b) 1) by (unfold eqp; rewrite Hi; reflexivity).
  destruct (fdiv_spec a b) as (j & Hj & Hd).
  { intros H0. assert (H : eqp 1 0) by fsatz. vm_compute in H. discriminate H. }
  assert (H : eqp (Secp256k1.fdiv a b) (a * i)) by fsatz.
  unfold eqp in H. rewrite <- H. unfold Secp256k1.fdiv. rewrite Z.mod_mod by discriminate.
  reflexivity.
Qed.

Lemma double_with_sound (i : Z) (P R : Z * Z) :
  double_with i P = Some R -> Secp256k1.double (Some P) = Some R.
Proof.
  destruct P as [x y]. unfold double_with, Secp256k1.double.
  destruct (Z.eqb_spec ((i * (2 * y)) mod Secp256k1.p) 1) as [Hi|Hi]; [|discriminate].
  destruct (Z.eqb_spec y 0) as [H0|H0].
  - subst y. replace (i * (2 * 0)) with 0 in Hi by ring.
    rewrite Z.mod_0_l in Hi by discriminate. discriminate Hi.
  - rewrite (fdiv_with _ _ i Hi). intros H. exact H.
Qed.

Lemma add_with_sound (i : Z) (P Q R : Z * Z) :
  add_with i P Q = Some R -> Secp256k1.add (Some P) (Some Q) = Some R.
Proof.
  destruct P as [x1 y1], Q as [x2 y2]. unfold add_with, Secp256k1.add.
  destruct (Z.eqb_spec ((i * (x2 - x1)) mod Secp256k1.p) 1) as [Hi|Hi]; [|discriminate].
  destruct (Z.eqb_spec x1 x2) as [H0|H0].
  - subst x2. replace (i * (x1 - x1)) with 0 in Hi by ring.
    rewrite Z.mod_0_l in Hi by discriminate. discriminate Hi.
  - rewrite (fdiv_with _ _ i Hi). intros H. exact H.
Qed.

Lemma mod_pow2_succ (c : Z) (n : nat) :
  0 <= c ->
  c mod 2 ^ Z.of_nat (S n) = (if Z.odd c then 1 else 0) + 2 * (Z.div2 c mod 2 ^ Z.of_nat n).
Proof.
  intros Hc. rewrite Nat2Z.inj_succ, Z.pow_succ_r by lia.
  rewrite Z.rem_mul_r by lia.
  rewrite Z.div2_div. f_equal. rewrite Zmod_odd. reflexivity.
Qed.

(** What [ladder] returns: the power multiplied by [2^n], and the sum
    increased by the power times the low [n] bits of [c]. *)
Lemma ladder_sound (G : Z * Z) (n : nat) :
  on_curve_pt (Some G) ->
  forall (c : Z) (pow : Z * Z) (acc : Secp256k1.pt) (certs : list Z)
         (m a : Z) (pow' : Z * Z) (acc' : Secp256k1.pt),
    0 < m -> 0 <= a -> 0 <= c ->
    Some pow = Secp256k1.mul (Some G) m -> acc = Secp256k1.mul (Some G) a ->
    ladder n c pow acc certs = Some (pow', acc') ->
    Some pow' = Secp256k1.mul (Some G) (m * 2 ^ Z.of_nat n)
    /\ acc' = Secp256k1.mul (Some G) (a + m * (c mod 2 ^ Z.of_nat n)).
Proof.
  intros HG. induction n as [|n IH]; intros c pow acc certs m a pow' acc' Hm Ha Hc Hpow Hacc H.
  - cbn [ladder] in H. injection H as <- <-.
    change (2 ^ Z.of_nat 0) with 1. rewrite Z.mod_1_r, Z.mul_0_r, Z.add_0_r, Z.mul_1_r.
    split; assumption.
  - assert (Hstep : forall acc1 a1 certs1,
               0 <= a1 -> acc1 = Secp256k1.mul (Some G) a1 ->
               match certs1 with
               | (i :: certs2)%list =>
                   match double_with i pow with
                   | Some pow1 => ladder n (Z.div2 c) pow1 acc1 certs2
                   | None => None
                   end
               | nil => None
               end = Some (pow', acc') ->
               Some pow' = Secp256k1.mul (Some G) (m * 2 ^ Z.of_nat (S n))
               /\ acc' = Secp256k1.mul (Some G) (a1 + (2 * m) * (Z.div2 c mod 2 ^ Z.of_nat n))).
    { intros acc1 a1 certs1 Ha1 Hacc1 H1.
      destruct certs1 as [|i certs2]; [discriminate H1|].
      destruct (double_with i pow) as [pow1|] eqn:Hd; [|discriminate H1].
      apply double_with_sound in Hd.
      assert (Hpow1 : Some pow1 = Secp256k1.mul (Some G) (2 * m)).
      { rewrite <- Hd, double_add, Hpow, <- mul_add by (try exact HG; lia).
        f_equal. ring. }
      destruct (IH (Z.div2 c) pow1 acc1 certs2 (2 * m) a1 pow' acc'
                  ltac:(lia) Ha1 ltac:(rewrite Z.div2_div; apply Z.div_pos; lia)
                  Hpow1 Hacc1 H1) as [H2 H3].
      split; [|exact H3].
      rewrite H2. f_equal. rewrite Nat2Z.inj_succ, Z.pow_succ_r by lia. ring. }
    rewrite (mod_pow2_succ c n Hc).
    cbn [ladder] in H.
    destruct (Z.odd c).
    + destruct acc as [acc0|].
      * destruct certs as [|i certs1]; [discriminate H|].
        destruct (add_with i acc0 pow) as [acc1|] eqn:Hadd; [|discriminate H].
        apply add_with_sound in Hadd.
        destruct (Hstep (Some acc1) (a + m) certs1 ltac:(lia)) as [H2 H3].
        { rewrite <- Hadd, Hacc, Hpow, <- mul_add by (try exact HG; lia). reflexivity. }
        { exact H. }
        split; [exact H2|]. rewrite H3. f_equal. ring.
      * destruct (Hstep (Some pow) (a + m) certs ltac:(lia)) as [H2 H3].
        { rewrite mul_add, <- Hacc, <- Hpow by (try exact HG; lia). reflexivity. }
        { exact H. }
        split; [exact H2|]. rewrite H3. f_equal. ring.
    + destruct (Hstep acc a certs Ha Hacc H) as [H2 H3].
      split; [exact H2|]. rewrite H3. f_equal. ring.
Qed.

(** The multi-word functions compute the same values. *)
Lemma big_p_value : BigZ.BigZ.to_Z big_p = Secp256k1.p.
Proof. apply BigZ.BigZ.spec_of_Z. Qed.

Ltac big_to_Z :=
  repeat first
    [ rewrite BigZ.BigZ.spec_modulo | rewrite BigZ.BigZ.spec_sub
    | rewrite BigZ.BigZ.spec_mul | rewrite BigZ.BigZ.spec_of_Z
    | rewrite big_p_value ].

Lemma big_double_with_value (i : BigZ.BigZ.t) (P : BigZ.BigZ.t * BigZ.BigZ.t) :
  option_map big_point (big_double_with i P)
  = double_with (BigZ.BigZ.to_Z i) (big_point P).
Proof.
  destruct P as [x y]. unfold big_double_with, double_with, big_point. cbn [fst snd].
  rewrite BigZ.BigZ.spec_eqb. big_to_Z.
  destruct (_ =? 1); [|reflexivity].
  cbn [option_map fst snd]. big_to_Z. reflexivity.
Qed.

Lemma big_add_with_value (i : BigZ.BigZ.t) (P Q : BigZ.BigZ.t * BigZ.BigZ.t) :
  option_map big_point (big_add_with i P Q)
  = add_with (BigZ.BigZ.to_Z i) (big_point P) (big_point Q).
Proof.
  destruct P as [x1 y1], Q as [x2 y2].
  unfold big_add_with, add_with, big_point. cbn [fst snd].
  rewrite BigZ.BigZ.spec_eqb. big_to_Z.
  destruct (_ =? 1); [|reflexivity].
  cbn [option_map fst snd]. big_to_Z. reflexivity.
Qed.

Lemma big_ladder_value (n : nat) :
  forall (c : Z) (pow : BigZ.BigZ.t * BigZ.BigZ.t)
         (acc : option (BigZ.BigZ.t * BigZ.BigZ.t)) (certs : list Z),
    big_result (big_ladder n c pow acc certs)
    = ladder n c (big_point pow) (option_map big_point acc) certs.
Proof.
  induction n as [|n IH]; intros c pow acc certs; [reflexivity|].
  assert (Hstep : forall acc1 certs1,
             big_result
               match certs1 with
               | (i :: certs2)%list =>
                   match big_double_with (BigZ.BigZ.of_Z i) pow with
                   | Some pow1 => big_ladder n (Z.div2 c) pow1 acc1 certs2
                   | None => None
                   end
               | nil => None
               end
             = match certs1 with
               | (i :: certs2)%list =>
                   match double_with i (big_point pow) with
                   | Some pow1 => ladder n (Z.div2 c) pow1 (option_map big_point acc1) certs2
                   | None => None
                   end
               | nil => None
               end).
  { intros acc1 certs1. destruct certs1 as [|i certs2]; [reflexivity|].
    rewrite <- (BigZ.BigZ.spec_of_Z i) at 2. rewrite <- big_double_with_value.
    destruct (big_double_with (BigZ.BigZ.of_Z i) pow) as [pow1|]; [|reflexivity].
    cbn [option_map]. apply IH. }
  cbn [big_ladder ladder]. destruct (Z.odd c); [|apply Hstep].
  destruct acc as [acc0|]; [|apply (Hstep (Some pow))].
  cbn [option_map]. destruct certs as [|i certs1]; [reflexivity|].
  rewrite <- (BigZ.BigZ.spec_of_Z i) at 2. rewrite <- big_add_with_value.
  destruct (big_add_with (BigZ.BigZ.of_Z i) acc0 pow) as [acc1|]; [|reflexivity].
  cbn [option_map]. apply (Hstep (Some acc1)).
Qed.

Lemma order_check_true : order_check = true.
Proof. vm_compute. reflexivity. Qed.

Lemma generator_on_curve : on_curve_pt (Some (Secp256k1.Gx, Secp256k1.Gy)).
Proof. apply on_curve_spec. vm_compute. reflexivity. Qed.

(** [N G] is the point at infinity. *)
Lemma generator_order :
  Secp256k1.mul (Some (Secp256k1.Gx, Secp256k1.Gy)) ec_n = None.
Proof.
  pose proof generator_on_curve as HG. pose proof ec_n_range as Hn.
  pose proof order_check_true as Hc. unfold order_check in Hc.
  pose proof (big_ladder_value 256 (2 ^ 256 - ec_n)
                (BigZ.BigZ.of_Z Secp256k1.Gx, BigZ.BigZ.of_Z Secp256k1.Gy)
                None order_certificates) as Hv.
  destruct (big_ladder 256 _ _ None order_certificates) as [[pow [acc|]]|];
    try discriminate Hc.
  cbn [same_point] in Hc. apply andb_true_iff in Hc. destruct Hc as [Hx Hy].
  rewrite BigZ.BigZ.spec_eqb, Z.eqb_eq in Hx, Hy.
  unfold big_result, big_point in Hv. cbn [option_map fst snd] in Hv.
  rewrite !BigZ.BigZ.spec_of_Z in Hv. symmetry in Hv.
  destruct (ladder_sound (Secp256k1.Gx, Secp256k1.Gy) 256 HG (2 ^ 256 - ec_n) _ _ _ 1 0 _ _
              ltac:(lia) ltac:(lia) ltac:(lia) eq_refl eq_refl Hv) as [H1 H2].
  change (Z.of_nat 256) with 256 in H1, H2.
  rewrite (Z.mod_small (2 ^ 256 - ec_n)) in H2 by lia.
  rewrite Z.mul_1_l in H1. rewrite Z.mul_1_l, Z.add_0_l in H2.
  assert (Hsame : Secp256k1.mul (Some (Secp256k1.Gx, Secp256k1.Gy)) (2 ^ 256)
                  = Secp256k1.mul (Some (Secp256k1.Gx, Secp256k1.Gy)) (2 ^ 256 - ec_n)).
  { rewrite <- H1, <- H2. destruct pow as [px py], acc as [ax ay]. cbn [fst snd] in *.
    rewrite Hx, Hy. reflexivity. }
  replace (2 ^ 256) with ((2 ^ 256 - ec_n) + ec_n) in Hsame at 1 by ring.
  rewrite mul_add in Hsame by (try exact HG; lia).
  apply add_cancel_l in Hsame; [exact Hsame | |]; apply mul_on_curve; exact HG.
Qed.

Lemma generator_mul_mod (k : Z) :
  0 <= k ->
  Secp256k1.mul (Some (Secp256k1.Gx, Secp256k1.Gy)) k
  = Secp256k1.mul (Some (Secp256k1.Gx, Secp256k1.Gy)) (k mod ec_n).
Proof.
  intros Hk. pose proof ec_n_range as Hn.
  pose proof generator_on_curve as HG.
  rewrite (Z.div_mod k ec_n) at 1 by lia.
  assert (Hq : 0 <= k / ec_n) by (apply Z.div_pos; lia).
  assert (Hr : 0 <= k mod ec_n) by (apply Z.mod_pos_bound; lia).
  rewrite mul_add by (try assumption; apply Z.mul_nonneg_nonneg; lia).
  rewrite <- mul_mul by (try assumption; lia).
  rewrite generator_order, mul_None. reflexivity.
Qed.

Lemma generator_mul_not_None (k : Z) :
  0 < k < ec_n -> Secp256k1.mul (Some (Secp256k1.Gx, Secp256k1.Gy)) k <> None.
Proof.
  intros Hk H. pose proof ec_n_range as Hn.
  pose proof generator_on_curve as HG.
  pose proof (invm_inverse k) as Hi.
  rewrite Z.mod_small in Hi by lia. specialize (Hi ltac:(lia)).
  pose proof (invm_range k) as Hu.
  set (u := BN_invm k ec_n) in *.
  assert (H1 : Secp256k1.mul (Some (Secp256k1.Gx, Secp256k1.Gy)) (k * u) = None).
  { rewrite <- mul_mul by (try assumption; lia). rewrite H, mul_None. reflexivity. }
  rewrite generator_mul_mod in H1 by (apply Z.mul_nonneg_nonneg; lia).
  rewrite (Z.mul_comm k u), Hi in H1. discriminate H1.
Qed.

(** On a point of the curve [P.mul(k)] is the multiple. *)
Lemma Point_mul_on_curve (P : Secp256k1.pt) (k : Z) :
  on_curve_pt P -> Secp256k1.Point_mul P k = Secp256k1.mul P k.
Proof.
  destruct P as [[x y]|]; intros HP.
  - unfold Secp256k1.Point_mul. rewrite (proj2 (on_curve_spec x y) HP). reflexivity.
  - rewrite mul_None. reflexivity.
Qed.

Lemma secp256k1_laws : EllipticLaws Secp256k1.curve.
Proof.
  pose proof ec_n_range as Hn. pose proof generator_on_curve as HG.
  constructor;
    cbn [point_mul point_add ec_g point_getX point_getY curve_point
           Secp256k1.curve];
    rewrite ?(Point_mul_on_curve (Some (Secp256k1.Gx, Secp256k1.Gy))) by exact HG.
  - intros a b Ha Hb.
    rewrite !(Point_mul_on_curve (Some (Secp256k1.Gx, Secp256k1.Gy))) by exact HG.
    rewrite Point_mul_on_curve by (apply mul_on_curve; exact HG).
    rewrite mul_mul by (try assumption; lia).
    apply generator_mul_mod. apply Z.mul_nonneg_nonneg; lia.
  - intros a b Ha Hb.
    rewrite !(Point_mul_on_curve (Some (Secp256k1.Gx, Secp256k1.Gy))) by exact HG.
    rewrite <- mul_add by (try assumption; lia).
    apply generator_mul_mod. lia.
  - intros k Hk.
    rewrite !(Point_mul_on_curve (Some (Secp256k1.Gx, Secp256k1.Gy))) by exact HG.
    pose proof (mul_on_curve _ k HG) as Hc.
    pose proof (generator_mul_not_None k Hk) as Hf.
    destruct (Secp256k1.mul (Some (Secp256k1.Gx, Secp256k1.Gy)) k) as [[x y]|];
      [|contradiction].
    destruct Hc as (Hx & Hy & _). unfold in_field in Hx, Hy.
    pose proof secp_p_range as Hp.
    exists x, y. cbn [option_map fst snd].
    repeat split; try lia.
    rewrite !Z.mod_small by assumption. reflexivity.
  - reflexivity.
Qed.

(** The opposite multiple of the generator. *)
Lemma generator_mul_opposite (k : Z) :
  0 < k < ec_n ->
  Secp256k1.mul (Some (Secp256k1.Gx, Secp256k1.Gy)) (ec_n - k)
  = Secp256k1.neg (Secp256k1.mul (Some (Secp256k1.Gx, Secp256k1.Gy)) k).
Proof.
  intros Hk. pose proof generator_on_curve as HG.
  apply add_None_neg; try (apply mul_on_curve; exact HG).
  rewrite <- mul_add by (try exact HG; lia).
  replace (k + (ec_n - k)) with ec_n by ring.
  apply generator_order.
Qed.

Lemma generator_mul_coordinates (k : Z) :
  0 < k < ec_n ->
  exists X Y,
    Secp256k1.mul (Some (Secp256k1.Gx, Secp256k1.Gy)) k = Some (X, Y)
    /\ 0 <= X < 2 ^ 256 /\ 0 <= Y < 2 ^ 256
    /\ Secp256k1.on_curve (X, Y) = true.
Proof.
  intros Hk. pose proof generator_on_curve as HG.
  pose proof (mul_on_curve _ k HG) as Hc.
  pose proof (generator_mul_not_None k Hk) as Hf.
  destruct (Secp256k1.mul (Some (Secp256k1.Gx, Secp256k1.Gy)) k) as [[X Y]|];
    [|contradiction].
  exists X, Y. split; [reflexivity|].
  pose proof Hc as (Hx & Hy & _). unfold in_field in Hx, Hy.
  pose proof secp_p_range as Hp.
  split; [lia|]. split; [lia|]. apply on_curve_spec. exact Hc.
Qed.


(** ** Multiples of the generator with the same x-coordinate *)

Lemma generator_mul_le_inj (a b : Z) :
  0 < a -> a <= b < ec_n ->
  Secp256k1.mul (Some (Secp256k1.Gx, Secp256k1.Gy)) a
  = Secp256k1.mul (Some (Secp256k1.Gx, Secp256k1.Gy)) b ->
  a = b.
Proof.
  intros Ha Hb H. pose proof generator_on_curve as HG.
  replace b with (a + (b - a)) in H by ring.
  rewrite mul_add in H by (try exact HG; lia).
  symmetry in H. apply add_cancel_l in H; try (apply mul_on_curve; exact HG).
  destruct (Z.eq_dec (b - a) 0) as [H0|H0]; [lia|].
  exfalso. apply (generator_mul_not_None (b - a)); [lia | exact H].
Qed.

Lemma generator_mul_inj (a b : Z) :
  0 < a < ec_n -> 0 < b < ec_n ->
  Secp256k1.mul (Some (Secp256k1.Gx, Secp256k1.Gy)) a
  = Secp256k1.mul (Some (Secp256k1.Gx, Secp256k1.Gy)) b ->
  a = b.
Proof.
  intros Ha Hb H. destruct (Z.le_ge_cases a b) as [Hle|Hle].
  - apply generator_mul_le_inj; [lia | lia | exact H].
  - symmetry. apply generator_mul_le_inj; [lia | lia | symmetry; exact H].
Qed.

(** Two points of the curve with the same x-coordinate are equal or
    opposite. *)
Lemma same_x_equal_or_opposite (x y1 y2 : Z) :
  on_curve_pt (Some (x, y1)) -> on_curve_pt (Some (x, y2)) ->
  y2 = y1 \/ y2 = (- y1) mod Secp256k1.p.
Proof.
  intros (Hx & Hy1 & Hc1) (_ & Hy2 & Hc2).
  assert (H : eqp ((y2 - y1) * (y2 + y1)) 0).
  { replace ((y2 - y1) * (y2 + y1)) with (y2 * y2 - y1 * y1) by ring.
    unfold eqp in *. rewrite Zminus_mod, Hc1, Hc2, Z.sub_diag. reflexivity. }
  apply eqp_product in H. destruct H as [H|H].
  - left. apply eqp_in_field; [assumption|assumption|]. apply eqp_sub_zero. exact H.
  - right. apply eqp_in_field; [assumption | apply mod_in_field |].
    rewrite eqp_mod. apply eqp_sub_zero.
    replace (y2 - - y1) with (y2 + y1) by ring. exact H.
Qed.

(** The x-coordinate of [k G] determines [k] up to sign modulo the
    order. *)
Lemma generator_x_injective (a b X Ya Yb : Z) :
  0 < a < ec_n -> 0 < b < ec_n ->
  Secp256k1.mul (Some (Secp256k1.Gx, Secp256k1.Gy)) a = Some (X, Ya) ->
  Secp256k1.mul (Some (Secp256k1.Gx, Secp256k1.Gy)) b = Some (X, Yb) ->
  b = a \/ b = ec_n - a.
Proof.
  intros Ha Hb HA HB. pose proof generator_on_curve as HG.
  pose proof (mul_on_curve _ a HG) as HcA. rewrite HA in HcA.
  pose proof (mul_on_curve _ b HG) as HcB. rewrite HB in HcB.
  destruct (same_x_equal_or_opposite X Ya Yb HcA HcB) as [H|H].
  - left. apply generator_mul_inj; [assumption|assumption|]. rewrite HA, HB, H. reflexivity.
  - right. apply generator_mul_inj; [assumption|lia|].
    rewrite generator_mul_opposite, HA, HB, H by assumption. reflexivity.
Qed.

End Secp256k1Group.

(** * Signing and verifying on secp256k1 *)

Import Secp256k1Group.


#[local] Instance opp_eqmn : Proper (eqmn ==> eqmn) Z.opp.
Proof. exact (Zopp_eqm ec_n). Qed.
#[local] Instance sub_eqmn : Proper (eqmn ==> eqmn ==> eqmn) Z.sub.
Proof. exact (Zminus_eqm ec_n). Qed.

(** ** Signing and verifying on secp256k1 *)

Lemma eqmn_in_range (a b : Z) : 0 <= a < ec_n -> 0 <= b < ec_n -> eqmn a b -> a = b.
Proof. unfold eqmn. intros Ha Hb H. rewrite !Z.mod_small in H by assumption. exact H. Qed.

Lemma eqmn_opp (a : Z) : eqmn (ec_n - a) (- a).
Proof.
  unfold eqmn. replace (ec_n - a) with (- a + 1 * ec_n) by ring.
  apply Z.mod_add. pose proof ec_n_range. lia.
Qed.

Lemma eqmn_eq (a b : Z) : a = b -> eqmn a b.
Proof. intros ->. reflexivity. Qed.

(** The inverse of [N - s] is [N - 1/s]. *)
Lemma invm_neg (sz : Z) :
  0 < sz < ec_n -> BN_invm (ec_n - sz) ec_n = ec_n - BN_invm sz ec_n.
Proof.
  intros Hs. pose proof ec_n_range as Hn.
  pose proof (invm_eqmn sz Hs) as H1.
  pose proof (invm_eqmn (ec_n - sz) ltac:(lia)) as H2.
  pose proof (invm_range sz) as R1. pose proof (invm_range (ec_n - sz)) as R2.
  set (a := BN_invm sz ec_n) in *. set (b := BN_invm (ec_n - sz) ec_n) in *.
  clearbody a b.
  assert (Ha : a <> 0).
  { intros ->. unfold eqmn in H1. rewrite Z.mul_0_l, Z.mod_0_l, Z.mod_1_l in H1 by lia.
    discriminate H1. }
  apply eqmn_in_range; [exact R2|lia|].
  rewrite eqmn_opp in H2. rewrite eqmn_opp.
  transitivity (b * (a * sz)); [rewrite H1; apply eqmn_eq; ring|].
  replace (b * (a * sz)) with (- a * (b * - sz)) by ring.
  rewrite H2. apply eqmn_eq; ring.
Qed.

Lemma negated_recomputation (d rz hz s1 kz : Z) :
  0 < kz < ec_n ->
  (d * ((rz * s1) mod ec_n)) mod ec_n <> 0 ->
  ((d * ((rz * s1) mod ec_n)) mod ec_n + (hz * s1) mod ec_n) mod ec_n = kz ->
  (d * ((rz * (ec_n - s1)) mod ec_n)) mod ec_n <> 0
  /\ ((d * ((rz * (ec_n - s1)) mod ec_n)) mod ec_n + (hz * (ec_n - s1)) mod ec_n) mod ec_n
     = ec_n - kz.
Proof.
  intros Hk Hw Ht. pose proof ec_n_range as Hn.
  assert (E1 : eqmn (d * ((rz * (ec_n - s1)) mod ec_n)) (- (d * ((rz * s1) mod ec_n)))).
  { repeat setoid_rewrite mod_eqmn. rewrite eqmn_opp. apply eqmn_eq; ring. }
  assert (E2 : eqmn ((hz * (ec_n - s1)) mod ec_n) (- ((hz * s1) mod ec_n))).
  { repeat setoid_rewrite mod_eqmn. rewrite eqmn_opp. apply eqmn_eq; ring. }
  split.
  - unfold eqmn in E1. rewrite E1.
    rewrite Z_mod_nz_opp_full by exact Hw.
    pose proof (Z.mod_pos_bound (d * ((rz * s1) mod ec_n)) ec_n ltac:(lia)). lia.
  - apply eqmn_in_range; [apply Z.mod_pos_bound; lia|lia|].
    rewrite mod_eqmn, (mod_eqmn (d * _)), E1, E2, eqmn_opp.
    rewrite <- Ht. repeat setoid_rewrite mod_eqmn.
    apply eqmn_eq; ring.
Qed.





(** The common part of the theorems below: the signature that
    [signWithK] returns, the public key, and what [verify] recomputes
    from the signature and from the one with the opposite [s]. *)
Lemma secp256k1_signature (hashImpl : Secp256k1EcdsaHash)
    (message k privkey : list byte) :
  be_int k mod ec_n <> 0 -> be_int privkey mod ec_n <> 0 ->
  hashImpl message <> [] ->
  exists X sz pub,
    0 <= X < 2 ^ 256 /\ 0 <= sz < ec_n
    /\ signWithK (E := Secp256k1.curve) hashImpl message k privkey
       = Ok {| signature := be_bytes 32 X ++ be_bytes 32 sz |}
    /\ pubkeyOf (E := Secp256k1.curve) privkey = Ok pub
    /\ (X mod ec_n <> 0 -> sz <> 0 ->
        recovered_x (E := Secp256k1.curve)
          {| signature := be_bytes 32 X ++ be_bytes 32 sz |} hashImpl message pub
        = Ok (be_bytes 32 X)
        /\ recovered_x (E := Secp256k1.curve)
             {| signature := be_bytes 32 X ++ be_bytes 32 (ec_n - sz) |}
             hashImpl message pub
           = Ok (be_bytes 32 X)).
Proof.
  intros Hk Hd Hh. pose proof ec_n_range as Hn.
  pose proof (be_int_nonzero_nonempty k ec_n Hk) as Hkne.
  pose proof (be_int_nonzero_nonempty privkey ec_n Hd) as Hdne.
  pose proof (Z.mod_pos_bound (be_int k) ec_n ltac:(lia)) as Hkr.
  pose proof (Z.mod_pos_bound (be_int privkey) ec_n ltac:(lia)) as Hdr.
  set (kz := be_int k mod ec_n) in *. set (dz := be_int privkey mod ec_n) in *.
  destruct (generator_mul_coordinates kz ltac:(lia)) as (X & Y & HkG & HXr & HYr & _).
  destruct (pubkeyOf_value (L := secp256k1_laws) privkey Hd)
    as (xd & yd & _ & _ & Hxd & Hyd & Hpub & Hpk).
  fold dz in Hpub.
  set (sz := s_scalar (hashImpl message) k privkey (be_bytes 32 X)).
  assert (Hszr : 0 <= sz < ec_n) by (unfold sz, s_scalar; apply Z.mod_pos_bound; lia).
  exists X, sz, {| xy_x := be_bytes 32 xd; xy_y := be_bytes 32 yd |}.
  split; [exact HXr|]. split; [exact Hszr|].
  split.
  { apply signWithK_finite; [exact Hkne | exact Hdne | exact Hh | | exact HXr].
    rewrite generator_mul_point. cbn [point_getX Secp256k1.curve].
    fold kz. rewrite HkG. reflexivity. }
  split; [exact Hpk|].
  intros Hr Hs.
  assert (Hform : sz = (BN_invm kz ec_n
                        * ((be_int (hashImpl message) + (X * dz) mod ec_n) mod ec_n))
                       mod ec_n)
    by (apply s_scalar_form; exact HXr).
  destruct (ecdsa_algebra kz dz (be_int (hashImpl message)) X
              ltac:(lia) ltac:(lia) Hr) as [Hw Ht].
  { rewrite <- Hform. exact Hs. }
  rewrite <- Hform in Hw, Ht.
  split.
  - apply (recovered_x_scalars (L := secp256k1_laws) hashImpl message
             X sz dz xd yd kz X Y); try assumption; try lia.
    + rewrite (Z.mod_small sz) by lia. rewrite Z.mul_mod_idemp_l by lia. exact Hw.
    + rewrite (Z.mod_small sz) by lia.
      rewrite !Z.mul_mod_idemp_l by lia. symmetry. exact Ht.
    + rewrite generator_mul_point. cbn [point_getX Secp256k1.curve].
      rewrite HkG. reflexivity.
    + rewrite generator_mul_point. cbn [point_getY Secp256k1.curve].
      rewrite HkG. reflexivity.
  - destruct (negated_recomputation dz X (be_int (hashImpl message))
                (BN_invm sz ec_n) kz ltac:(lia) Hw Ht) as [Hw' Ht'].
    rewrite <- invm_neg in Hw', Ht' by lia.
    pose proof (generator_mul_opposite kz ltac:(lia)) as Hopp.
    rewrite HkG in Hopp. cbn [Secp256k1.neg] in Hopp.
    apply (recovered_x_scalars (L := secp256k1_laws) hashImpl message
             X (ec_n - sz) dz xd yd (ec_n - kz) X ((- Y) mod Secp256k1.p));
      try assumption; try lia.
    + rewrite (Z.mod_small (ec_n - sz)) by lia.
      rewrite Z.mul_mod_idemp_l by lia. exact Hw'.
    + rewrite (Z.mod_small (ec_n - sz)) by lia.
      rewrite !Z.mul_mod_idemp_l by lia. symmetry. exact Ht'.
    + rewrite generator_mul_point. cbn [point_getX Secp256k1.curve].
      rewrite Hopp. reflexivity.
    + rewrite generator_mul_point. cbn [point_getY Secp256k1.curve].
      rewrite Hopp. reflexivity.
    + pose proof (Z.mod_pos_bound (- Y) Secp256k1.p ltac:(reflexivity)).
      pose proof secp_p_range. lia.
Qed.

Lemma verify_of_recovered (sig : Secp256k1EcdsaSignature)
    (hashImpl : Secp256k1EcdsaHash) (message : list byte) (pub : xy_bytes)
    (X : Z) :
  sig_r sig = be_bytes 32 X ->
  recovered_x (E := Secp256k1.curve) sig hashImpl message pub = Ok (be_bytes 32 X) ->
  verify (E := Secp256k1.curve) sig hashImpl message pub = true.
Proof.
  intros Hr Hx. rewrite verify_by_recovered, Hx, Hr.
  apply compare32_true; [apply be_bytes_length | apply be_bytes_length | reflexivity].
Qed.

Lemma n_odd : ec_n = 2 * (ec_n / 2) + 1.
Proof. vm_compute. reflexivity. Qed.

Lemma equals_true_bytes (this other : Secp256k1EcdsaSignature) :
  equals this other = true -> signature this = signature other.
Proof.
  unfold equals.
  destruct (Nat.eqb_spec (List.length (signature this))
              (List.length (signature other))) as [Hl|Hl]; cbn [negb];
    [|discriminate].
  apply seq_forallb_nth. exact Hl.
Qed.

(** X18: on secp256k1 itself, with the group laws proved for the curve:
    for every nonce and key that are not multiples of the order and
    every digest that is not empty, [signWithK] returns a signature, and [verify] accepts it for the
    same message, hash provider and the key's public point whenever its
    [r] is not a multiple of the order and its [s] is not 0. *)
Theorem secp256k1_sign_verify (hashImpl : Secp256k1EcdsaHash)
    (message k privkey : list byte) :
  be_int k mod ec_n <> 0 -> be_int privkey mod ec_n <> 0 ->
  hashImpl message <> [] ->
  exists sig pub,
    signWithK (E := Secp256k1.curve) hashImpl message k privkey = Ok sig
    /\ pubkeyOf (E := Secp256k1.curve) privkey = Ok pub
    /\ (be_int (sig_r sig) mod ec_n <> 0 -> be_int (sig_s sig) <> 0 ->
        verify (E := Secp256k1.curve) sig hashImpl message pub = true).
Proof.
  intros Hk Hd Hne. pose proof ec_n_range as Hn.
  destruct (secp256k1_signature hashImpl message k privkey Hk Hd Hne)
    as (X & sz & pub & HXr & Hsr & Hsig & Hpub & Hrec).
  exists {| signature := be_bytes 32 X ++ be_bytes 32 sz |}, pub.
  split; [exact Hsig|]. split; [exact Hpub|].
  rewrite sig_r_app, sig_s_app by apply be_bytes_length.
  rewrite !be_int_be_bytes32 by lia.
  intros Hr Hs. destruct (Hrec Hr Hs) as [H1 _].
  apply (verify_of_recovered _ _ _ _ X); [|exact H1].
  apply sig_r_app, be_bytes_length.
Qed.

Lemma secp256k1_sign_verify_witness :
  be_int one32 mod ec_n <> 0
  /\ hash_one [] <> []
  /\ exists sig pub,
       signWithK (E := Secp256k1.curve) hash_one [] one32 one32 = Ok sig
       /\ pubkeyOf (E := Secp256k1.curve) one32 = Ok pub
       /\ verify (E := Secp256k1.curve) sig hash_one [] pub = true.
Proof.
  assert (H1 : be_int one32 mod ec_n <> 0) by (vm_compute; discriminate).
  assert (H3 : hash_one [] <> []) by (vm_compute; discriminate).
  split; [exact H1|]. split; [exact H3|].
  destruct (secp256k1_sign_verify hash_one [] one32 one32 H1 H1 H3)
    as (sig & pub & Hsig & Hpub & Hv).
  exists sig, pub. split; [exact Hsig|]. split; [exact Hpub|].
  assert (Hc : signWithK (E := Secp256k1.curve) hash_one [] one32 one32
               = Ok {| signature :=
                         be_bytes 32 Secp256k1.Gx
                         ++ be_bytes 32 ((1 + Secp256k1.Gx) mod ec_n) |})
    by (vm_compute; reflexivity).
  rewrite Hc in Hsig. injection Hsig as <-.
  apply Hv; vm_compute; discriminate.
Defined.

(** X19: the sequence the tests run on secp256k1: [signWithK], then
    [normalizeS], then [verify].  For every nonce and key that are not
    multiples of the order and every digest that is not empty the first
    two return, the normalised
    signature keeps [r], has [s <= N/2], and [verify] accepts it for the
    key's public point whenever the signature's [r] is not a multiple of
    the order and its [s] is not 0. *)
Theorem secp256k1_normalized_verify (hashImpl : Secp256k1EcdsaHash)
    (message k privkey : list byte) :
  be_int k mod ec_n <> 0 -> be_int privkey mod ec_n <> 0 ->
  hashImpl message <> [] ->
  exists sig nsig pub,
    signWithK (E := Secp256k1.curve) hashImpl message k privkey = Ok sig
    /\ normalizeS sig = Ok nsig
    /\ pubkeyOf (E := Secp256k1.curve) privkey = Ok pub
    /\ sig_r nsig = sig_r sig
    /\ be_int (sig_s nsig) <= ec_n / 2
    /\ (be_int (sig_r sig) mod ec_n <> 0 -> be_int (sig_s sig) <> 0 ->
        verify (E := Secp256k1.curve) nsig hashImpl message pub = true).
Proof.
  intros Hk Hd Hne. pose proof ec_n_range as Hn.
  destruct (secp256k1_signature hashImpl message k privkey Hk Hd Hne)
    as (X & sz & pub & HXr & Hsr & Hsig & Hpub & Hrec).
  set (sig := {| signature := be_bytes 32 X ++ be_bytes 32 sz |}) in *.
  assert (Hlen : List.length (signature sig) = 64%nat)
    by (unfold sig; cbn [signature]; rewrite length_app, !be_bytes_length; reflexivity).
  assert (Hsr' : sig_r sig = be_bytes 32 X) by apply sig_r_app, be_bytes_length.
  assert (Hss' : be_int (sig_s sig) = sz).
  { unfold sig. rewrite sig_s_app by apply be_bytes_length.
    apply be_int_be_bytes32. lia. }
  pose proof (normalizeS_spec sig Hlen) as Hnorm.
  rewrite N_DIV_2_value, Hss', Hsr' in Hnorm.
  destruct (ec_n / 2 <? sz) eqn:Hcmp.
  - exists sig, {| signature := be_bytes 32 X
                                ++ be_bytes 32 ((ec_n - sz mod ec_n) mod ec_n) |}, pub.
    split; [exact Hsig|]. split; [exact Hnorm|]. split; [exact Hpub|].
    apply Z.ltb_lt in Hcmp.
    assert (Hh : 0 <= ec_n / 2) by (apply Z.div_pos; lia).
    rewrite (Z.mod_small sz) by lia.
    rewrite (Z.mod_small (ec_n - sz)) by lia.
    rewrite sig_r_app, sig_s_app by apply be_bytes_length.
    rewrite Hsr', Hss'. rewrite !be_int_be_bytes32 by lia.
    split; [reflexivity|].
    split.
    { pose proof n_odd as Hodd. lia. }
    intros Hr Hs. destruct (Hrec Hr Hs) as [_ H2].
    apply (verify_of_recovered _ _ _ _ X); [|exact H2].
    apply sig_r_app, be_bytes_length.
  - exists sig, sig, pub.
    split; [exact Hsig|]. split; [exact Hnorm|]. split; [exact Hpub|].
    apply Z.ltb_ge in Hcmp.
    rewrite Hsr', Hss'. rewrite be_int_be_bytes32 by lia.
    split; [reflexivity|]. split; [exact Hcmp|].
    intros Hr Hs. destruct (Hrec Hr Hs) as [H1 _].
    apply (verify_of_recovered _ _ _ _ X); [|exact H1]. exact Hsr'.
Qed.

Lemma secp256k1_normalized_verify_witness :
  be_int one32 mod ec_n <> 0
  /\ hash_one [] <> []
  /\ exists sig nsig pub,
       signWithK (E := Secp256k1.curve) hash_one [] one32 one32 = Ok sig
       /\ normalizeS sig = Ok nsig
       /\ pubkeyOf (E := Secp256k1.curve) one32 = Ok pub
       /\ be_int (sig_s nsig) <= ec_n / 2
       /\ verify (E := Secp256k1.curve) nsig hash_one [] pub = true.
Proof.
  assert (H1 : be_int one32 mod ec_n <> 0) by (vm_compute; discriminate).
  assert (H3 : hash_one [] <> []) by (vm_compute; discriminate).
  split; [exact H1|]. split; [exact H3|].
  destruct (secp256k1_normalized_verify hash_one [] one32 one32 H1 H1 H3)
    as (sig & nsig & pub & Hsig & Hn & Hpub & _ & Hlow & Hv).
  exists sig, nsig, pub.
  split; [exact Hsig|]. split; [exact Hn|]. split; [exact Hpub|].
  split; [exact Hlow|].
  assert (Hc : signWithK (E := Secp256k1.curve) hash_one [] one32 one32
               = Ok {| signature :=
                         be_bytes 32 Secp256k1.Gx
                         ++ be_bytes 32 ((1 + Secp256k1.Gx) mod ec_n) |})
    by (vm_compute; reflexivity).
  rewrite Hc in Hsig. injection Hsig as <-.
  apply Hv; vm_compute; discriminate.
Defined.

(** X20: [verify] does not ask for a low [s].  On secp256k1, for a
    digest that is not empty, when it accepts the signature
    [signWithK] returned, it accepts as well the
    signature with the same [r] and the opposite [s], [N - s]: the two
    differ as byte strings and both verify. *)
Theorem secp256k1_verify_accepts_opposite_s (hashImpl : Secp256k1EcdsaHash)
    (message k privkey : list byte) :
  be_int k mod ec_n <> 0 -> be_int privkey mod ec_n <> 0 ->
  hashImpl message <> [] ->
  exists sig pub,
    signWithK (E := Secp256k1.curve) hashImpl message k privkey = Ok sig
    /\ pubkeyOf (E := Secp256k1.curve) privkey = Ok pub
    /\ (be_int (sig_r sig) mod ec_n <> 0 -> be_int (sig_s sig) <> 0 ->
        let other :=
          {| signature := sig_r sig ++ be_bytes 32 (ec_n - be_int (sig_s sig)) |} in
        equals sig other = false
        /\ verify (E := Secp256k1.curve) sig hashImpl message pub = true
        /\ verify (E := Secp256k1.curve) other hashImpl message pub = true).
Proof.
  intros Hk Hd Hne. pose proof ec_n_range as Hn.
  destruct (secp256k1_signature hashImpl message k privkey Hk Hd Hne)
    as (X & sz & pub & HXr & Hsr & Hsig & Hpub & Hrec).
  exists {| signature := be_bytes 32 X ++ be_bytes 32 sz |}, pub.
  split; [exact Hsig|]. split; [exact Hpub|].
  rewrite sig_r_app, sig_s_app by apply be_bytes_length.
  rewrite !be_int_be_bytes32 by lia.
  intros Hr Hs. destruct (Hrec Hr Hs) as [H1 H2]. cbv zeta.
  split.
  - destruct (equals _ _) eqn:He; [|reflexivity]. exfalso.
    apply equals_true_bytes in He. cbn [signature] in He.
    apply app_inv_head in He.
    apply (f_equal be_int) in He.
    rewrite !be_int_be_bytes32 in He by lia.
    pose proof n_odd as Hodd. lia.
  - split.
    + apply (verify_of_recovered _ _ _ _ X); [|exact H1].
      apply sig_r_app, be_bytes_length.
    + apply (verify_of_recovered _ _ _ _ X); [|exact H2].
      apply sig_r_app, be_bytes_length.
Qed.

Lemma secp256k1_verify_accepts_opposite_s_witness :
  be_int one32 mod ec_n <> 0
  /\ hash_one [] <> []
  /\ exists sig pub,
       signWithK (E := Secp256k1.curve) hash_one [] one32 one32 = Ok sig
       /\ pubkeyOf (E := Secp256k1.curve) one32 = Ok pub
       /\ verify (E := Secp256k1.curve) sig hash_one [] pub = true
       /\ verify (E := Secp256k1.curve)
            {| signature := sig_r sig ++ be_bytes 32 (ec_n - be_int (sig_s sig)) |}
            hash_one [] pub = true.
Proof.
  assert (H1 : be_int one32 mod ec_n <> 0) by (vm_compute; discriminate).
  assert (H3 : hash_one [] <> []) by (vm_compute; discriminate).
  split; [exact H1|]. split; [exact H3|].
  destruct (secp256k1_verify_accepts_opposite_s hash_one [] one32 one32 H1 H1 H3)
    as (sig & pub & Hsig & Hpub & Hv).
  exists sig, pub. split; [exact Hsig|]. split; [exact Hpub|].
  assert (Hc : signWithK (E := Secp256k1.curve) hash_one [] one32 one32
               = Ok {| signature :=
                         be_bytes 32 Secp256k1.Gx
                         ++ be_bytes 32 ((1 + Secp256k1.Gx) mod ec_n) |})
    by (vm_compute; reflexivity).
  rewrite Hc in Hsig. injection Hsig as <-.
  apply Hv; vm_compute; discriminate.
Defined.

(** ** What [verify] accepts *)

(** With [s1 = 1/s], [s k = e] and [t = s1 e2] modulo the order:
    [t = k] exactly when [e2 = e], and [t = -k] exactly when
    [e2 = -e]. *)
Lemma verification_scalar (sz s1 kz e e2 t : Z) :
  eqmn (s1 * sz) 1 -> eqmn (sz * kz) e -> eqmn t (s1 * e2) ->
  (eqmn t kz <-> eqmn e2 e) /\ (eqmn t (- kz) <-> eqmn e2 (- e)).
Proof.
  intros Hs Hk Ht.
  assert (He2 : eqmn e2 (sz * t)).
  { rewrite Ht. replace (sz * (s1 * e2)) with ((s1 * sz) * e2) by ring.
    rewrite Hs. apply eqmn_eq. ring. }
  assert (Hkz : eqmn (s1 * e) kz).
  { rewrite <- Hk. replace (s1 * (sz * kz)) with ((s1 * sz) * kz) by ring.
    rewrite Hs. apply eqmn_eq. ring. }
  split; split; intros H.
  - rewrite He2, H. exact Hk.
  - rewrite Ht, H. exact Hkz.
  - rewrite He2, H. replace (sz * - kz) with (- (sz * kz)) by ring.
    rewrite Hk. reflexivity.
  - rewrite Ht, H. replace (s1 * - e) with (- (s1 * e)) by ring.
    rewrite Hkz. reflexivity.
Qed.

Lemma be_bytes32_inj (a b : Z) :
  0 <= a < 2 ^ 256 -> 0 <= b < 2 ^ 256 -> be_bytes 32 a = be_bytes 32 b -> a = b.
Proof.
  intros Ha Hb H. apply (f_equal be_int) in H.
  rewrite !be_int_be_bytes32 in H by assumption. exact H.
Qed.

(** [verify] on secp256k1, for the signature bytes [(r, s)] and the
    public key of [d]: it answers [true] exactly when the point
    [(d u2 + u1) G] is finite with x-coordinate [r]. *)
Lemma verify_scalars (h : Secp256k1EcdsaHash) (message : list byte)
    (rz sz d xd yd : Z) :
  h message <> [] ->
  0 <= rz < 2 ^ 256 -> 0 <= sz < 2 ^ 256 ->
  0 <= xd < 2 ^ 256 -> 0 <= yd < 2 ^ 256 ->
  0 <= d < ec_n ->
  curve_point (EllipticCurve := Secp256k1.curve) xd yd
  = Secp256k1.mul (Some (Secp256k1.Gx, Secp256k1.Gy)) d ->
  let s1 := BN_invm (sz mod ec_n) ec_n in
  let u2 := ((rz mod ec_n) * s1) mod ec_n in
  let u1 := ((be_int (h message) mod ec_n) * s1) mod ec_n in
  (d * u2) mod ec_n <> 0 ->
  verify (E := Secp256k1.curve)
    {| signature := be_bytes 32 rz ++ be_bytes 32 sz |}
    h message {| xy_x := be_bytes 32 xd; xy_y := be_bytes 32 yd |} = true
  <-> exists Y,
        Secp256k1.mul (Some (Secp256k1.Gx, Secp256k1.Gy))
          (((d * u2) mod ec_n + u1) mod ec_n) = Some (rz, Y).
Proof.
  intros Hh Hrz Hsz Hxd Hyd Hd Hpub s1 u2 u1 Hw.
  pose proof ec_n_range as Hn.
  set (t := ((d * u2) mod ec_n + u1) mod ec_n).
  assert (Htr : 0 <= t < ec_n) by (apply Z.mod_pos_bound; lia).
  rewrite verify_by_recovered.
  rewrite sig_r_app by apply be_bytes_length.
  destruct (Z.eq_dec t 0) as [H0|H0].
  - rewrite (recovered_x_infinity (L := secp256k1_laws) h message rz sz d xd yd
               Hrz Hsz Hxd Hyd Hd Hpub Hw H0).
    rewrite H0. cbn [Secp256k1.mul].
    split; [discriminate | intros [Y HY]; discriminate HY].
  - destruct (generator_mul_coordinates t ltac:(lia)) as (X & Y & HtG & HXr & HYr & _).
    rewrite (recovered_x_scalars (L := secp256k1_laws) h message
               rz sz d xd yd t X Y Hh Hrz Hsz Hxd Hyd Hd Hpub Hw eq_refl);
      [ | rewrite generator_mul_point; cbn [point_getX Secp256k1.curve];
          rewrite HtG; reflexivity
        | rewrite generator_mul_point; cbn [point_getY Secp256k1.curve];
          rewrite HtG; reflexivity
        | exact HXr | exact HYr ].
    rewrite compare32_true by apply be_bytes_length.
    rewrite HtG. split.
    + intros H. apply be_bytes32_inj in H; [|assumption|assumption].
      exists Y. rewrite H. reflexivity.
    + intros [Y' HY']. injection HY' as -> _. reflexivity.
Qed.

Lemma signature_scalar_congruence (ki kz h X d sz : Z) :
  eqmn (ki * kz) 1 ->
  sz = (ki * ((h + (X * (d mod ec_n)) mod ec_n) mod ec_n)) mod ec_n ->
  eqmn (sz * kz) (h + X * d).
Proof.
  intros Hk ->. repeat setoid_rewrite mod_eqmn.
  replace (ki * (h + X * d) * kz) with ((ki * kz) * (h + X * d)) by ring.
  rewrite Hk. apply eqmn_eq. ring.
Qed.

Lemma recomputed_scalar_congruence (d2 X s1 h2 : Z) :
  eqmn ((((d2 mod ec_n) * ((X mod ec_n * s1) mod ec_n)) mod ec_n
         + ((h2 mod ec_n) * s1) mod ec_n) mod ec_n)
       (s1 * (h2 + X * d2)).
Proof.
  repeat setoid_rewrite mod_eqmn. apply eqmn_eq. ring.
Qed.

(** X21: what [verify] accepts, on secp256k1.  Take the signature
    [(r, s)] that [signWithK] returns for a digest [h] that is not
    empty and a key [d], with [r] not a multiple of the order and [s]
    not 0.  For any hash provider, message and key [d2], with a digest
    [h2] that is not empty: [verify] accepts
    the signature for [h2] and the public point of [d2] exactly when
    [h2 + r d2] is congruent modulo the order to [h + r d] or to its
    opposite.  In every other case it answers [false]. *)
Theorem secp256k1_verify_exactly (hashImpl : Secp256k1EcdsaHash)
    (message k privkey : list byte)
    (hashImpl2 : Secp256k1EcdsaHash) (message2 privkey2 : list byte) :
  be_int k mod ec_n <> 0 -> be_int privkey mod ec_n <> 0 ->
  be_int privkey2 mod ec_n <> 0 ->
  hashImpl message <> [] -> hashImpl2 message2 <> [] ->
  exists sig pub2,
    signWithK (E := Secp256k1.curve) hashImpl message k privkey = Ok sig
    /\ pubkeyOf (E := Secp256k1.curve) privkey2 = Ok pub2
    /\ (be_int (sig_r sig) mod ec_n <> 0 -> be_int (sig_s sig) <> 0 ->
        let e := be_int (hashImpl message) + be_int (sig_r sig) * be_int privkey in
        let e2 := be_int (hashImpl2 message2) + be_int (sig_r sig) * be_int privkey2 in
        verify (E := Secp256k1.curve) sig hashImpl2 message2 pub2 = true
        <-> eqmn e2 e \/ eqmn e2 (- e)).
Proof.
  intros Hk Hd Hd2 Hh Hh2. pose proof ec_n_range as Hn.
  pose proof (be_int_nonzero_nonempty k ec_n Hk) as Hkne.
  pose proof (be_int_nonzero_nonempty privkey ec_n Hd) as Hdne.
  pose proof (Z.mod_pos_bound (be_int k) ec_n ltac:(lia)) as Hkr.
  pose proof (Z.mod_pos_bound (be_int privkey) ec_n ltac:(lia)) as Hdr.
  pose proof (Z.mod_pos_bound (be_int privkey2) ec_n ltac:(lia)) as Hd2r.
  set (kz := be_int k mod ec_n) in *.
  set (dz := be_int privkey mod ec_n) in *.
  set (d2 := be_int privkey2 mod ec_n) in *.
  destruct (generator_mul_coordinates kz ltac:(lia)) as (X & Yk & HkG & HXr & HYr & _).
  destruct (pubkeyOf_value (L := secp256k1_laws) privkey2 Hd2)
    as (xd & yd & _ & _ & Hxd & Hyd & Hpub & Hpk).
  fold d2 in Hpub.
  set (sz := s_scalar (hashImpl message) k privkey (be_bytes 32 X)).
  assert (Hszr : 0 <= sz < ec_n) by (unfold sz, s_scalar; apply Z.mod_pos_bound; lia).
  exists {| signature := be_bytes 32 X ++ be_bytes 32 sz |},
         {| xy_x := be_bytes 32 xd; xy_y := be_bytes 32 yd |}.
  split.
  { apply signWithK_finite; [exact Hkne | exact Hdne | exact Hh | | exact HXr].
    rewrite generator_mul_point. cbn [point_getX Secp256k1.curve].
    fold kz. rewrite HkG. reflexivity. }
  split; [exact Hpk|].
  rewrite sig_r_app, sig_s_app by apply be_bytes_length.
  rewrite !be_int_be_bytes32 by lia.
  intros Hr Hs. cbv zeta.
  set (h := be_int (hashImpl message)).
  set (h2 := be_int (hashImpl2 message2)).
  set (s1 := BN_invm (sz mod ec_n) ec_n).
  set (u2 := ((X mod ec_n) * s1) mod ec_n).
  set (u1 := ((h2 mod ec_n) * s1) mod ec_n).
  set (t := ((d2 * u2) mod ec_n + u1) mod ec_n).
  assert (Htr : 0 <= t < ec_n) by (apply Z.mod_pos_bound; lia).
  assert (Hsinv : eqmn (s1 * sz) 1).
  { unfold s1. rewrite (Z.mod_small sz) by lia. apply invm_eqmn. lia. }
  assert (Hkinv : eqmn (BN_invm kz ec_n * kz) 1) by (apply invm_eqmn; lia).
  assert (Hsk : eqmn (sz * kz) (h + X * be_int privkey)).
  { apply (signature_scalar_congruence (BN_invm kz ec_n)); [exact Hkinv|].
    unfold sz. rewrite s_scalar_form by exact HXr. reflexivity. }
  assert (Ht : eqmn t (s1 * (h2 + X * be_int privkey2)))
    by apply recomputed_scalar_congruence.
  assert (Hw : (d2 * u2) mod ec_n <> 0).
  { apply mod_n_product_nonzero; [unfold d2; rewrite Z.mod_mod by lia; exact Hd2|].
    unfold u2. rewrite Z.mod_mod by lia.
    apply mod_n_product_nonzero; [rewrite Z.mod_mod by lia; exact Hr|].
    intros H0. unfold eqmn in Hsinv.
    rewrite <- Z.mul_mod_idemp_l, H0, Z.mul_0_l, Z.mod_0_l, Z.mod_1_l in Hsinv by lia.
    discriminate Hsinv. }
  destruct (verification_scalar sz s1 kz _ _ t Hsinv Hsk Ht) as [Hsame Hopp].
  rewrite (verify_scalars hashImpl2 message2 X sz d2 xd yd)
    by (try assumption; lia).
  fold h2 s1 u2 u1 t.
  rewrite <- Hsame, <- Hopp.
  pose proof (generator_mul_opposite kz ltac:(lia)) as HnG.
  rewrite HkG in HnG. cbn [Secp256k1.neg] in HnG.
  split.
  - intros [Y HY].
    assert (Ht0 : t <> 0) by (intros H0; rewrite H0 in HY; discriminate HY).
    destruct (generator_x_injective kz t X Yk Y ltac:(lia) ltac:(lia) HkG HY) as [H|H].
    + left. rewrite H. reflexivity.
    + right. rewrite H. apply eqmn_opp.
  - intros [H|H].
    + apply eqmn_in_range in H; [|lia|lia]. exists Yk. rewrite H. exact HkG.
    + assert (H' : eqmn t (ec_n - kz)) by (rewrite H; symmetry; apply eqmn_opp).
      apply eqmn_in_range in H'; [|lia|lia].
      exists ((- Yk) mod Secp256k1.p). rewrite H'. exact HnG.
Qed.

Lemma secp256k1_verify_exactly_witness :
  be_int one32 mod ec_n <> 0
  /\ be_int (be_bytes 32 2) mod ec_n <> 0
  /\ hash_one [] <> []
  /\ exists sig pub2,
       signWithK (E := Secp256k1.curve) hash_one [] one32 one32 = Ok sig
       /\ pubkeyOf (E := Secp256k1.curve) (be_bytes 32 2) = Ok pub2
       /\ verify (E := Secp256k1.curve) sig hash_one [] pub2 = false.
Proof.
  assert (H1 : be_int one32 mod ec_n <> 0) by (vm_compute; discriminate).
  assert (H2 : be_int (be_bytes 32 2) mod ec_n <> 0) by (vm_compute; discriminate).
  assert (H3 : hash_one [] <> []) by (vm_compute; discriminate).
  split; [exact H1|]. split; [exact H2|]. split; [exact H3|].
  destruct (secp256k1_verify_exactly hash_one [] one32 one32
              hash_one [] (be_bytes 32 2) H1 H1 H2 H3 H3)
    as (sig & pub2 & Hsig & Hpub & Hv).
  exists sig, pub2. split; [exact Hsig|]. split; [exact Hpub|].
  assert (Hc : signWithK (E := Secp256k1.curve) hash_one [] one32 one32
               = Ok {| signature :=
                         be_bytes 32 Secp256k1.Gx
                         ++ be_bytes 32 ((1 + Secp256k1.Gx) mod ec_n) |})
    by (vm_compute; reflexivity).
  rewrite Hc in Hsig. injection Hsig as <-.
  assert (Hiff := Hv ltac:(vm_compute; discriminate) ltac:(vm_compute; discriminate)).
  cbv zeta in Hiff.
  destruct (verify (E := Secp256k1.curve) _ hash_one [] pub2); [|reflexivity].
  exfalso. destruct (proj1 Hiff eq_refl) as [H|H]; vm_compute in H; discriminate H.
Defined.

(** ** The x-coordinate that [mulG] returns *)

Lemma mulG_secp256k1 (k : list byte) :
  be_int k mod ec_n <> 0 ->
  exists X Y,
    Secp256k1.mul (Some (Secp256k1.Gx, Secp256k1.Gy)) (be_int k mod ec_n) = Some (X, Y)
    /\ 0 <= X < 2 ^ 256
    /\ Curve.mulG (E := Secp256k1.curve) k = Ok (be_bytes 32 X).
Proof.
  intros Hk. pose proof ec_n_range as Hn.
  pose proof (Z.mod_pos_bound (be_int k) ec_n ltac:(lia)) as Hkr.
  destruct (generator_mul_coordinates (be_int k mod ec_n) ltac:(lia))
    as (X & Y & HkG & HXr & _ & _).
  exists X, Y. split; [exact HkG|]. split; [exact HXr|].
  rewrite mulG_spec by (apply (be_int_nonzero_nonempty k ec_n); exact Hk).
  rewrite generator_mul_point. cbn [point_getX Secp256k1.curve].
  rewrite HkG. cbn [option_map fst]. apply bnToBytes_spec. exact HXr.
Qed.

Lemma mulG_secp256k1_zero (k : list byte) :
  be_int k mod ec_n = 0 -> Curve.mulG (E := Secp256k1.curve) k = Throw TypeError.
Proof.
  intros Hk. destruct (empty_or_not k) as [->|Hne]; [apply mulG_empty|].
  rewrite mulG_spec, Hk by exact Hne. reflexivity.
Qed.

(** X22: [mulG] on secp256k1.  A scalar that is not a multiple of the
    order gives 32 bytes, and another scalar gives the same bytes
    exactly when it is congruent modulo the order to the first or to
    its opposite; a multiple of the order gives no bytes at all. *)
Theorem secp256k1_mulG_same_bytes (k k' : list byte) :
  be_int k mod ec_n <> 0 ->
  exists out,
    Curve.mulG (E := Secp256k1.curve) k = Ok out
    /\ List.length out = 32%nat
    /\ (Curve.mulG (E := Secp256k1.curve) k' = Ok out
        <-> eqmn (be_int k') (be_int k) \/ eqmn (be_int k') (- be_int k)).
Proof.
  intros Hk. pose proof ec_n_range as Hn.
  pose proof (Z.mod_pos_bound (be_int k) ec_n ltac:(lia)) as Hkr.
  pose proof (Z.mod_pos_bound (be_int k') ec_n ltac:(lia)) as Hkr'.
  destruct (mulG_secp256k1 k Hk) as (X & Y & HkG & HXr & Hout).
  exists (be_bytes 32 X). split; [exact Hout|]. split; [apply be_bytes_length|].
  assert (Hopp : forall a, eqmn a (- be_int k) <-> a mod ec_n = ec_n - be_int k mod ec_n).
  { intros a. unfold eqmn.
    replace ((- be_int k) mod ec_n) with (ec_n - be_int k mod ec_n); [reflexivity|].
    symmetry. apply Z.mod_opp_l_nz; [lia | exact Hk]. }
  rewrite Hopp. unfold eqmn.
  destruct (Z.eq_dec (be_int k' mod ec_n) 0) as [H0|H0].
  - rewrite (mulG_secp256k1_zero k' H0), H0.
    split; [discriminate | intros [H|H]; lia].
  - destruct (mulG_secp256k1 k' H0) as (X' & Y' & HkG' & HXr' & Hout').
    rewrite Hout'. split.
    + intros H. apply Ok_inj in H. apply be_bytes32_inj in H; [|assumption|assumption].
      subst X'.
      apply (generator_x_injective (be_int k mod ec_n) (be_int k' mod ec_n) X Y Y');
        [lia | lia | exact HkG | exact HkG'].
    + pose proof (generator_mul_opposite (be_int k mod ec_n) ltac:(lia)) as HnG.
      rewrite HkG in HnG. cbn [Secp256k1.neg] in HnG.
      intros [H|H]; rewrite H in HkG'.
      * rewrite HkG in HkG'. injection HkG' as <- _. reflexivity.
      * rewrite HnG in HkG'. injection HkG' as <- _. reflexivity.
Qed.

Lemma secp256k1_mulG_same_bytes_witness :
  be_int one32 mod ec_n <> 0
  /\ exists out,
       Curve.mulG (E := Secp256k1.curve) one32 = Ok out
       /\ Curve.mulG (E := Secp256k1.curve) (be_bytes 32 (ec_n - 1)) = Ok out.
Proof.
  assert (H1 : be_int one32 mod ec_n <> 0) by (vm_compute; discriminate).
  split; [exact H1|].
  destruct (secp256k1_mulG_same_bytes one32 (be_bytes 32 (ec_n - 1)) H1)
    as (out & Hout & _ & Hsame).
  exists out. split; [exact Hout|].
  apply Hsame. right. vm_compute. reflexivity.
Defined.

(** * A signature whose [r] is not reduced modulo the order *)


(** ** Counting *)

(** Among the numbers below [n], one with the property, or none. *)
Lemma bounded_search (P : Z -> Prop) (dec : forall i, {P i} + {~ P i}) (n : Z) :
  0 <= n ->
  (exists i, 0 <= i < n /\ P i) \/ (forall i, 0 <= i < n -> ~ P i).
Proof.
  intros Hn. pattern n. apply natlike_ind; [| |exact Hn].
  - right. intros i Hi. lia.
  - intros k Hk [(i & Hi & HP)|Hnone].
    + left. exists i. split; [lia | exact HP].
    + destruct (dec k) as [HP|HP].
      * left. exists k. split; [lia | exact HP].
      * right. intros i Hi. destruct (Z.eq_dec i k) as [->|Hne]; [exact HP|].
        apply Hnone. lia.
Qed.

(** More numbers than values: two of them get the same value. *)
Lemma pigeonhole (m : Z) :
  0 <= m ->
  forall (n : Z) (f : Z -> Z),
    m < n ->
    (forall i, 0 <= i < n -> 0 <= f i < m) ->
    exists i j, 0 <= i < j /\ j < n /\ f i = f j.
Proof.
  intros Hm. pattern m. apply natlike_ind; [| |exact Hm]; clear m Hm.
  - intros n f Hn Hf. specialize (Hf 0). lia.
  - intros m Hm IH n f Hn Hf.
    destruct (bounded_search (fun i => f i = f (n - 1))
                (fun i => Z.eq_dec (f i) (f (n - 1))) (n - 1) ltac:(lia))
      as [(i & Hi & He)|Hnone].
    + exists i, (n - 1). split; [lia|]. split; [lia | exact He].
    + set (v := f (n - 1)) in *.
      destruct (IH (n - 1) (fun i => if f i <? v then f i else f i - 1))
        as (i & j & Hij & Hj & He).
      * lia.
      * intros i Hi. pose proof (Hf i ltac:(lia)) as Hfi.
        pose proof (Hf (n - 1) ltac:(lia)) as Hv. fold v in Hv.
        pose proof (Hnone i Hi) as Hne.
        destruct (Z.ltb_spec (f i) v); lia.
      * exists i, j. split; [lia|]. split; [lia|].
        pose proof (Hnone i ltac:(lia)) as Hni.
        pose proof (Hnone j ltac:(lia)) as Hnj.
        destruct (Z.ltb_spec (f i) v), (Z.ltb_spec (f j) v); lia.
Qed.

(** ** The code of a point *)

Lemma secp_p_odd : Z.odd Secp256k1.p = true.
Proof. vm_compute. reflexivity. Qed.

Lemma point_code_range (P : Secp256k1.pt) :
  on_curve_pt P -> 0 <= point_code P < 2 * Secp256k1.p + 1.
Proof.
  pose proof secp_p_pos as Hp.
  destruct P as [[x y]|]; cbn [point_code on_curve_pt]; [|lia].
  intros ([Hx0 Hx1] & _ & _). destruct (Z.odd y); cbn [Z.b2z]; lia.
Qed.

Lemma point_code_inj (P P' : Secp256k1.pt) :
  on_curve_pt P -> on_curve_pt P' -> point_code P = point_code P' -> P = P'.
Proof.
  pose proof secp_p_pos as Hp.
  intros HP HP' H.
  destruct P as [[x y]|], P' as [[x' y']|]; cbn [point_code] in H.
  - assert (Hx : x = x') by (destruct (Z.odd y), (Z.odd y'); cbn [Z.b2z] in H; lia).
    subst x'.
    assert (Ho : Z.odd y = Z.odd y')
      by (destruct (Z.odd y), (Z.odd y'); cbn [Z.b2z] in H; solve [reflexivity | lia]).
    destruct (same_x_equal_or_opposite x y y' HP HP') as [->|Hy]; [reflexivity|].
    destruct HP as (_ & [Hy0 Hy1] & _).
    destruct (Z.eq_dec y 0) as [->|Hnz].
    + rewrite Hy. reflexivity.
    + assert (Hopp : (- y) mod Secp256k1.p = Secp256k1.p - y).
      { symmetry. apply (Z.mod_unique_pos _ _ (-1)); lia. }
      rewrite Hopp in Hy. subst y'.
      rewrite Z.odd_sub, secp_p_odd in Ho. destruct (Z.odd y); discriminate Ho.
  - destruct HP as ([Hx0 Hx1] & _ & _).
    destruct (Z.odd y); cbn [Z.b2z] in H; lia.
  - destruct HP' as ([Hx0 Hx1] & _ & _).
    destruct (Z.odd y'); cbn [Z.b2z] in H; lia.
  - reflexivity.
Qed.

(** ** The order of [Q] *)

(** The order of a point by the checked computation. *)
Lemma order_by_ladder (B : Z * Z) (certs : list Z) :
  on_curve_pt (Some B) ->
  same_point (big_ladder 256 (2 ^ 256 - ec_n)
                (BigZ.BigZ.of_Z (fst B), BigZ.BigZ.of_Z (snd B)) None certs) = true ->
  Secp256k1.mul (Some B) ec_n = None.
Proof.
  intros HB Hc. pose proof ec_n_range as Hn.
  pose proof (big_ladder_value 256 (2 ^ 256 - ec_n)
                (BigZ.BigZ.of_Z (fst B), BigZ.BigZ.of_Z (snd B)) None certs) as Hv.
  destruct (big_ladder 256 _ _ None certs) as [[pow [acc|]]|];
    try discriminate Hc.
  cbn [same_point] in Hc. apply andb_true_iff in Hc. destruct Hc as [Hx Hy].
  rewrite BigZ.BigZ.spec_eqb, Z.eqb_eq in Hx, Hy.
  unfold big_result, big_point in Hv. cbn [option_map fst snd] in Hv.
  rewrite !BigZ.BigZ.spec_of_Z in Hv. symmetry in Hv.
  destruct B as [bx by_]. cbn [fst snd] in Hv.
  destruct (ladder_sound (bx, by_) 256 HB (2 ^ 256 - ec_n) _ _ _ 1 0 _ _
              ltac:(lia) ltac:(lia) ltac:(lia) eq_refl eq_refl Hv) as [H1 H2].
  change (Z.of_nat 256) with 256 in H1, H2.
  rewrite (Z.mod_small (2 ^ 256 - ec_n)) in H2 by lia.
  rewrite Z.mul_1_l in H1. rewrite Z.mul_1_l, Z.add_0_l in H2.
  assert (Hsame : Secp256k1.mul (Some (bx, by_)) (2 ^ 256)
                  = Secp256k1.mul (Some (bx, by_)) (2 ^ 256 - ec_n)).
  { rewrite <- H1, <- H2. destruct pow as [px py], acc as [ax ay]. cbn [fst snd] in *.
    rewrite Hx, Hy. reflexivity. }
  replace (2 ^ 256) with ((2 ^ 256 - ec_n) + ec_n) in Hsame at 1 by ring.
  rewrite mul_add in Hsame by (try exact HB; lia).
  apply add_cancel_l in Hsame; [exact Hsame | |]; apply mul_on_curve; exact HB.
Qed.

Lemma order_check_Q_true : order_check_Q = true.
Proof. vm_compute. reflexivity. Qed.

Lemma Q_on_curve : on_curve_pt (Some (Secp256k1.Qx, Secp256k1.Qy)).
Proof. apply on_curve_spec. vm_compute. reflexivity. Qed.

(** [N Q] is the point at infinity. *)
Lemma Q_order : Secp256k1.mul (Some (Secp256k1.Qx, Secp256k1.Qy)) ec_n = None.
Proof. exact (order_by_ladder _ _ Q_on_curve order_check_Q_true). Qed.

(** The multiples of a point of order [N] depend on the scalar modulo
    [N] only. *)
Lemma mul_mod_order (P : Secp256k1.pt) (k : Z) :
  on_curve_pt P -> Secp256k1.mul P ec_n = None -> 0 <= k ->
  Secp256k1.mul P k = Secp256k1.mul P (k mod ec_n).
Proof.
  intros HP HN Hk. pose proof ec_n_range as Hn.
  rewrite (Z.div_mod k ec_n) at 1 by lia.
  assert (Hq : 0 <= k / ec_n) by (apply Z.div_pos; lia).
  assert (Hr : 0 <= k mod ec_n) by (apply Z.mod_pos_bound; lia).
  rewrite mul_add by (try assumption; apply Z.mul_nonneg_nonneg; lia).
  rewrite <- mul_mul by (try assumption; lia).
  rewrite HN, mul_None. reflexivity.
Qed.

(** A multiple of a point of order [N] cancels on the right. *)
Lemma add_cancel_multiple (P X Y : Secp256k1.pt) (b : Z) :
  on_curve_pt P -> on_curve_pt X -> on_curve_pt Y ->
  Secp256k1.mul P ec_n = None -> 0 <= b <= ec_n ->
  Secp256k1.add X (Secp256k1.mul P b) = Secp256k1.add Y (Secp256k1.mul P b) ->
  X = Y.
Proof.
  intros HP HX HY HN Hb H.
  apply (f_equal (fun R => Secp256k1.add R (Secp256k1.mul P (ec_n - b)))) in H.
  rewrite !add_assoc in H by (try assumption; apply mul_on_curve; exact HP).
  rewrite <- mul_add in H by (try assumption; lia).
  replace (b + (ec_n - b)) with ec_n in H by ring.
  rewrite HN, !add_None_r in H. exact H.
Qed.

(** ** [Q] is a multiple of the generator *)

Lemma coset_point_on_curve (i : Z) : on_curve_pt (coset_point i).
Proof.
  unfold coset_point. apply add_on_curve; apply mul_on_curve;
    [exact generator_on_curve | exact Q_on_curve].
Qed.

(** When [d Q] is a multiple of the generator for [d = 1] or [d = 2],
    so is [Q]. *)
Lemma multiple_of_generator (d c : Z) :
  d = 1 \/ d = 2 -> 0 <= c ->
  Secp256k1.mul (Some (Secp256k1.Qx, Secp256k1.Qy)) d
  = Secp256k1.mul (Some (Secp256k1.Gx, Secp256k1.Gy)) c ->
  exists m, 0 < m < ec_n
            /\ Secp256k1.mul (Some (Secp256k1.Gx, Secp256k1.Gy)) m
               = Some (Secp256k1.Qx, Secp256k1.Qy).
Proof.
  intros Hd Hc H. pose proof ec_n_range as Hn.
  pose proof generator_on_curve as HG. pose proof Q_on_curve as HQ.
  set (e := if d =? 1 then 1 else (ec_n + 1) / 2).
  assert (He : 0 <= e /\ (d * e) mod ec_n = 1).
  { unfold e. destruct Hd as [-> | ->]; cbn [Z.eqb Pos.eqb]; split;
      solve [lia | vm_compute; reflexivity | vm_compute; discriminate]. }
  destruct He as [He0 He1].
  apply (f_equal (fun R => Secp256k1.mul R e)) in H.
  rewrite !mul_mul in H by (try assumption; lia).
  rewrite (mul_mod_order _ (d * e) HQ Q_order) in H by (destruct Hd; subst d; lia).
  rewrite He1, mul_1 in H.
  rewrite generator_mul_mod in H by (apply Z.mul_nonneg_nonneg; lia).
  pose proof (Z.mod_pos_bound (c * e) ec_n ltac:(lia)) as Hr.
  exists ((c * e) mod ec_n). split; [|symmetry; exact H].
  destruct (Z.eq_dec ((c * e) mod ec_n) 0) as [H0|H0]; [|lia].
  rewrite H0 in H. discriminate H.
Qed.

(** Two of the points [a G + b Q] with [b <= 2] that coincide make [Q]
    a multiple of the generator. *)
Lemma coset_collision (i j : Z) :
  0 <= i < j -> j < 3 * ec_n ->
  coset_point i = coset_point j ->
  exists m, 0 < m < ec_n
            /\ Secp256k1.mul (Some (Secp256k1.Gx, Secp256k1.Gy)) m
               = Some (Secp256k1.Qx, Secp256k1.Qy).
Proof.
  intros Hi Hj H. pose proof ec_n_range as Hn.
  assert (Hn3 : 3 < ec_n) by (unfold ec_n; lia).
  pose proof generator_on_curve as HG. pose proof Q_on_curve as HQ.
  unfold coset_point in H.
  pose proof (Z.mod_pos_bound i ec_n ltac:(lia)) as Ha.
  pose proof (Z.mod_pos_bound j ec_n ltac:(lia)) as Ha'.
  pose proof (Z.div_mod i ec_n ltac:(lia)) as Ei.
  pose proof (Z.div_mod j ec_n ltac:(lia)) as Ej.
  assert (Hb : 0 <= i / ec_n) by (apply Z.div_pos; lia).
  assert (Hbb : i / ec_n <= j / ec_n) by (apply Z.div_le_mono; lia).
  assert (Hb' : j / ec_n < 3) by (apply Z.div_lt_upper_bound; lia).
  set (a := i mod ec_n) in *. set (b := i / ec_n) in *.
  set (a' := j mod ec_n) in *. set (b' := j / ec_n) in *.
  set (G := Some (Secp256k1.Gx, Secp256k1.Gy)) in *.
  set (Q := Some (Secp256k1.Qx, Secp256k1.Qy)) in *.
  replace b' with ((b' - b) + b) in H by ring.
  rewrite (mul_add Q (b' - b) b) in H by (try assumption; lia).
  rewrite <- (add_assoc (Secp256k1.mul G a')) in H
    by (apply mul_on_curve; assumption).
  apply (add_cancel_multiple Q) in H;
    [ | exact HQ | apply mul_on_curve; exact HG
      | apply add_on_curve; apply mul_on_curve; assumption
      | exact Q_order | lia ].
  apply (f_equal (Secp256k1.add (Secp256k1.mul G (ec_n - a')))) in H.
  rewrite <- add_assoc in H by (apply mul_on_curve; assumption).
  rewrite <- !mul_add in H by (try assumption; lia).
  replace (ec_n - a' + a') with ec_n in H by ring.
  unfold G in H at 2. rewrite generator_order in H. fold G in H.
  cbn [Secp256k1.add] in H.
  assert (Hd : b' - b = 0 \/ b' - b = 1 \/ b' - b = 2) by lia.
  destruct Hd as [Hd|Hd].
  - exfalso. rewrite Hd in H. cbn [Secp256k1.mul] in H.
    unfold G in H. rewrite generator_mul_mod in H by lia.
    assert (Hlt : a < a') by nia.
    replace ((ec_n - a' + a) mod ec_n) with (ec_n - a' + a) in H
      by (symmetry; apply Z.mod_small; lia).
    apply (generator_mul_not_None (ec_n - a' + a)); [lia | exact H].
  - apply (multiple_of_generator (b' - b) (ec_n - a' + a));
      [exact Hd | lia | symmetry; exact H].
Qed.

(** The curve has at most [2 p + 1] points and [3 N] is more: the
    point [Q], whose x-coordinate is the order [N], is a multiple of
    the generator. *)
Lemma Q_is_multiple :
  exists m, 0 < m < ec_n
            /\ Secp256k1.mul (Some (Secp256k1.Gx, Secp256k1.Gy)) m
               = Some (Secp256k1.Qx, Secp256k1.Qy).
Proof.
  pose proof ec_n_range as Hn. pose proof secp_p_pos as Hp.
  destruct (pigeonhole (2 * Secp256k1.p + 1) ltac:(lia) (3 * ec_n)
              (fun i => point_code (coset_point i)))
    as (i & j & Hij & Hj & He).
  - unfold ec_n, Secp256k1.p. lia.
  - intros i Hi. apply point_code_range, coset_point_on_curve.
  - apply point_code_inj in He; [|apply coset_point_on_curve..].
    exact (coset_collision i j Hij Hj He).
Qed.

(** C4, as the specification states it, fails: [r] is the x-coordinate
    of [k G] as it is, and for some nonce it is not below the order.
    The point [Q] of the curve with x-coordinate [N] is a multiple
    [m G]; with the 32 bytes of [m] as nonce, [signWithK] returns a
    signature whose [r] is [N], while the x-coordinate reduced modulo
    [N] is 0. *)
Lemma signWithK_r_not_reduced :
  exists k sig X Y,
    signWithK (E := Secp256k1.curve) hash_one [] k one32 = Ok sig
    /\ Secp256k1.mul (Some (Secp256k1.Gx, Secp256k1.Gy)) (be_int k) = Some (X, Y)
    /\ be_int (sig_r sig) = X
    /\ X mod ec_n = 0
    /\ be_int (sig_r sig) <> X mod ec_n.
Proof.
  pose proof ec_n_range as Hn.
  destruct Q_is_multiple as (m & Hm & HmG).
  set (k := be_bytes 32 m).
  assert (Hk : be_int k = m) by (apply be_int_be_bytes32; lia).
  assert (HX : 0 <= Secp256k1.Qx < 2 ^ 256) by (unfold Secp256k1.Qx; lia).
  exists k, {| signature :=
                 be_bytes 32 Secp256k1.Qx
                 ++ be_bytes 32 (s_scalar (hash_one []) k one32
                                   (be_bytes 32 Secp256k1.Qx)) |},
    Secp256k1.Qx, Secp256k1.Qy.
  split.
  { apply signWithK_finite;
      [apply be_bytes32_nonempty | discriminate | discriminate | | exact HX].
    rewrite generator_mul_point, Hk, Z.mod_small, HmG by lia. reflexivity. }
  split; [rewrite Hk; exact HmG|].
  rewrite sig_r_app by apply be_bytes_length.
  rewrite be_int_be_bytes32 by exact HX.
  split; [reflexivity|].
  unfold Secp256k1.Qx. rewrite Z.mod_same by lia.
  split; [reflexivity | lia].
Qed.
